(** * Acoustic drone classifier: the k-NN prototype store and its decision logic

    A shallow embedding of the Go package [drone] (prototype store, feature
    scaler, feature extractor, k-NN classifier, SNR-adaptive decision) and of
    the radix-2 FFT of package [shazam] it relies on.

    Numbers.  Go's [float64] is idealised as the real numbers [R]: every
    arithmetic operation is the exact one, comparisons are the order of the
    reals, and there is neither rounding nor NaN nor infinity.  Where the Go
    code guards a division, the guard is kept, and the statements about the
    absence of NaN and infinities are phrased as "the divisor is not zero".
    Go's [int] is [Z]; slice lengths are [nat].

    Maps.  Go maps are [gmap]s; a [nil] map of strings and the empty map are
    identified, except where the code tests for [nil], in which case the value
    is an [option].

    Files.  The file system is a finite map from (cleaned) paths to file
    contents; a file holding a JSON array of prototypes is represented by the
    decoded array, any other file by [Malformed].  Whether a step of a save
    fails for a reason outside the program is an input of the save.

    Strings.  Strings are byte strings.  [strings.EqualFold], whose Unicode
    folding tables are Go's, is a parameter of the development, known only
    by what Go's code does on ASCII strings. *)

From Stdlib Require Import Reals Lra Lia ZArith String Ascii List Permutation.
From stdpp Require Import gmap strings list fin_maps.

Open Scope R_scope.

(** ** Comparisons on idealised floats *)

Module F64.

Definition ltb (x y : R) : bool := if Rlt_dec x y then true else false.
Definition leb (x y : R) : bool := if Rle_dec x y then true else false.
Definition eqb (x y : R) : bool := if Req_dec_T x y then true else false.

(** [int(x)] on a float: truncation towards zero. *)
Definition toInt (x : R) : Z :=
  if ltb x 0 then (- Int_part (- x))%Z else Int_part x.

End F64.

#[global] Instance R_inhabited : Inhabited R := populate 0.

(** ** The pieces of Go's [strings] and [path/filepath] the store uses *)

Module GoStrings.

Definition isUpper (c : ascii) : bool :=
  let n := nat_of_ascii c in (65 <=? n)%nat && (n <=? 90)%nat.

Definition toLower (c : ascii) : ascii :=
  if isUpper c then ascii_of_nat (nat_of_ascii c + 32) else c.

(** Equality of two byte strings up to the case of ASCII letters. *)
Fixpoint equalFoldASCII (s t : string) : bool :=
  match s, t with
  | EmptyString, EmptyString => true
  | String a s', String b t' =>
      Ascii.eqb (toLower a) (toLower b) && equalFoldASCII s' t'
  | _, _ => false
  end.

(** Whether every byte of the string is below [utf8.RuneSelf]. *)
Fixpoint isASCII (s : string) : bool :=
  match s with
  | EmptyString => true
  | String a s' => (nat_of_ascii a <? 128)%nat && isASCII s'
  end.

(** [strings.EqualFold] compares two strings under Unicode simple case
    folding, with folding tables that belong to Go's library and not to this
    program.  While both strings hold ASCII bytes only, Go's loop never
    consults them: the comparison is equality up to the case of ASCII
    letters.  The development is parametric in any comparison that behaves
    so; what it answers once a string holds a byte outside ASCII (Go folds
    U+017F to "s" and U+212A to "k") is left open. *)
Class CaseFolding : Type := {
  EqualFold : string -> string -> bool;
  EqualFold_ascii :
    forall s t,
      isASCII s = true -> isASCII t = true -> EqualFold s t = equalFoldASCII s t
}.

(** The comparison that folds ASCII letters only, for closed examples. *)
Definition asciiFolding : CaseFolding :=
  {| EqualFold := equalFoldASCII;
     EqualFold_ascii := fun _ _ _ _ => eq_refl |}.

Fixpoint rev_string (acc s : string) : string :=
  match s with
  | EmptyString => acc
  | String a s' => rev_string (String a acc) s'
  end.

Definition HasPrefix (s p : string) : bool := String.prefix p s.

Definition HasSuffix (s suffix : string) : bool :=
  String.prefix (rev_string EmptyString suffix) (rev_string EmptyString s).

Definition TrimSuffix (s suffix : string) : string :=
  if HasSuffix s suffix
  then String.substring 0 (String.length s - String.length suffix) s
  else s.

(** [filepath.Ext]: scanning from the end of the path, the suffix that
    starts at the first dot met before any separator; empty otherwise.
    [scanExt] walks the reversed path and carries the bytes already
    passed. *)
Fixpoint scanExt (rev_path : string) (seen : string) : string :=
  match rev_path with
  | EmptyString => EmptyString
  | String a rest =>
      if Ascii.eqb a "/"%char then EmptyString
      else if Ascii.eqb a "."%char then String a seen
      else scanExt rest (String a seen)
  end.

Definition Ext (path : string) : string :=
  scanExt (rev_string EmptyString path) EmptyString.

End GoStrings.

(** ** Errors *)

Inductive error : Type :=
  | ErrInvalidNeighbourCount (k : Z)
  | ErrLoadPrototypes (path : string)
  | ErrParsePrototypes
  | ErrPrototypeNoFeatures (id : string)
  | ErrPrototypeMissingLabel (id : string)
  | ErrPrototypeFeatureCount (id : string) (got expected : nat)
  | ErrPrototypeHarmonic (id : string)
  | ErrAddNoFeatures
  | ErrModelPathNotSet
  | ErrCreateDirectory
  | ErrMarshalPrototypes
  | ErrWritePrototypes
  | ErrRenameTempFile
  | ErrEmptyFeatureVector
  | ErrNoPrototypes
  | ErrPrototypesNoFeatures
  | ErrInconsistentDimensions
  | ErrNoSamples
  | ErrInvalidSampleRate.

Inductive result (A : Type) : Type :=
  | Ok (a : A)
  | Err (e : error).
Arguments Ok {A} a.
Arguments Err {A} e.

(** ** Data model: prototypes and predictions *)

Record Prototype : Type := mkPrototype {
  ID : string;
  Label : string;
  Category : string;
  Description : string;
  Source : string;
  Features : list R;
  Metadata : gmap string string
}.

Record PrototypeScore : Type := mkPrototypeScore {
  psID : string;
  psDistance : R;
  psWeight : R;
  psSource : string
}.

(** [Prediction] without its two presentation fields [Type] and
    [ThreatAssessment]: both are read off the label, the category and the
    label metadata, and no other field depends on them. *)
Record Prediction : Type := mkPrediction {
  pLabel : string;
  pCategory : string;
  pDescription : string;
  Confidence : R;
  AverageDist : R;
  Support : Z;
  TopPrototypes : list PrototypeScore;
  pMetadata : option (gmap string string)
}.

(** ** SNR-adaptive threshold: [AdaptiveThreshold] *)

Definition AdaptiveThreshold (baseThreshold snrDb : R) : R :=
  let adjustment :=
    if F64.ltb snrDb 10 then 0.15
    else if F64.ltb snrDb 20 then 0.10
    else if F64.ltb snrDb 30 then 0.05
    else 0.0 in
  let adjustedThreshold := baseThreshold + adjustment in
  if F64.ltb adjustedThreshold 0.5 then 0.5
  else if F64.ltb 0.9 adjustedThreshold then 0.9
  else adjustedThreshold.

(** ** Drone decision: [DetermineDroneLikelyWithSNR] *)

Section Decision.

Context `{GoStrings.CaseFolding}.

Definition DetermineDroneLikelyWithSNR
    (predictions : list Prediction) (baseThreshold snrDb : R) : bool :=
  match predictions with
  | [] => false
  | best :: _ =>
      if GoStrings.EqualFold (pCategory best) "noise" then false
      else
        let threshold :=
          if negb (F64.eqb snrDb 0.0)
          then AdaptiveThreshold baseThreshold snrDb
          else baseThreshold in
        F64.leb threshold (Confidence best)
  end.

Definition DetermineDroneLikely (predictions : list Prediction) (threshold : R) : bool :=
  DetermineDroneLikelyWithSNR predictions threshold 0.0.

End Decision.

(** ** Vector helpers *)

Definition sumSquares (vector : list R) : R :=
  fold_left (fun acc v => acc + v * v) vector 0.

(** [NormaliseVectorInPlace], as the function from the old contents of the
    slice to the new ones. *)
Definition NormaliseVectorInPlace (vector : list R) : list R :=
  let s := sumSquares vector in
  if F64.eqb s 0 then vector
  else
    let factor := 1 / sqrt s in
    map (fun v => v * factor) vector.

(** The equal weights of the 2048 embedding dimensions, set up by [init]. *)
Definition featureWeights : list R := replicate 2048 1.0.

Definition harmonicFeatureCount : nat := 3.

(** The loop of [cosineSimilarity]: [i] runs over the first
    [min (len a) (len b)] positions and the three sums are threaded. *)
Fixpoint cosineSums (i : nat) (a b weights : list R) (acc : R * R * R) : R * R * R :=
  match a, b with
  | x :: a', y :: b' =>
      let '(dotProduct, normA, normB) := acc in
      let weight := default 1.0 (weights !! i) in
      let weightedA := x * weight in
      let weightedB := y * weight in
      cosineSums (S i) a' b' weights
        (dotProduct + weightedA * weightedB,
         normA + weightedA * weightedA,
         normB + weightedB * weightedB)
  | _, _ => acc
  end.

Definition cosineSimilarity (a b weights : list R) : R :=
  let '(dotProduct, normA, normB) := cosineSums 0 a b weights (0, 0, 0) in
  if F64.eqb normA 0 || F64.eqb normB 0 then 0.0
  else dotProduct / (sqrt normA * sqrt normB).

(** ** Feature scaler *)

Record FeatureScaler : Type := mkFeatureScaler {
  Mean : list R;
  Stddev : list R
}.

(** First loop of [NewFeatureScalerFromPrototypes]: [mean[i] += val] for every
    prototype, failing on the first prototype of another length. *)
Fixpoint sumFeatures (featureCount : nat) (prototypes : list Prototype)
    (mean : list R) : result (list R) :=
  match prototypes with
  | [] => Ok mean
  | proto :: rest =>
      if negb (length (Features proto) =? featureCount)%nat
      then Err ErrInconsistentDimensions
      else sumFeatures featureCount rest (zip_with Rplus mean (Features proto))
  end.

(** Second loop: [stddev[i] += (val - mean[i])^2]. *)
Definition sumSquaredDeviations (mean : list R) (prototypes : list Prototype)
    (stddev : list R) : list R :=
  fold_left
    (fun acc proto =>
       zip_with Rplus acc
         (zip_with (fun val m => (val - m) * (val - m)) (Features proto) mean))
    prototypes stddev.

Definition NewFeatureScalerFromPrototypes (prototypes : list Prototype)
    : result FeatureScaler :=
  match prototypes with
  | [] => Err ErrNoPrototypes
  | first :: _ =>
      let featureCount := length (Features first) in
      if (featureCount =? 0)%nat then Err ErrPrototypesNoFeatures
      else
        match sumFeatures featureCount prototypes (replicate featureCount 0) with
        | Err e => Err e
        | Ok sums =>
            let n := INR (length prototypes) in
            let mean := map (fun m => m / n) sums in
            let squares :=
              sumSquaredDeviations mean prototypes (replicate featureCount 0) in
            let stddev :=
              map (fun s =>
                     let sd := sqrt (s / n) in
                     if F64.ltb sd 1e-10 then 1.0 else sd) squares in
            Ok {| Mean := mean; Stddev := stddev |}
        end
  end.

Definition Transform (fs : FeatureScaler) (features : list R) : list R :=
  if negb (length features =? length (Mean fs))%nat then features
  else
    imap (fun i val => (val - Mean fs !!! i) / (Stddev fs !!! i)) features.

(** ** The classifier and its store *)

Record Classifier : Type := mkClassifier {
  prototypes : list Prototype;
  k : Z;
  usingExample : bool;
  modelPath : string;
  labelCategory : gmap string string;
  labelMetadata : gmap string (gmap string string);
  featureScaler : option FeatureScaler
}.

Record distancePair : Type := mkDistancePair {
  index : nat;
  distance : R
}.

#[global] Instance Prototype_inhabited : Inhabited Prototype :=
  populate (mkPrototype "" "" "" "" "" [] ∅).

(** The read-locked deep copy; values are immutable here, so the copy is the
    value itself. *)
Definition snapshot (c : Classifier)
    : Z * list Prototype * gmap string string
      * gmap string (gmap string string) * bool :=
  (k c, prototypes c, labelCategory c, labelMetadata c, usingExample c).

Definition AddPrototype (c : Classifier) (proto : Prototype)
    : Classifier * result Prototype :=
  if (length (Features proto) =? 0)%nat then (c, Err ErrAddNoFeatures)
  else
    let features := Features proto in
    let features :=
      match featureScaler c with
      | Some scaler => Transform scaler features
      | None => features
      end in
    let features := NormaliseVectorInPlace features in
    let metadataCopy := Metadata proto in
    let metadataCopy :=
      if negb (String.eqb (Description proto) "")
      then match metadataCopy !! "description" with
           | Some _ => metadataCopy
           | None => <["description" := Description proto]> metadataCopy
           end
      else metadataCopy in
    let proto :=
      mkPrototype (ID proto) (Label proto) (Category proto) (Description proto)
        (Source proto) features metadataCopy in
    let labelCategory' :=
      if negb (String.eqb (Label proto) "") && negb (String.eqb (Category proto) "")
      then <[Label proto := Category proto]> (labelCategory c)
      else labelCategory c in
    let labelMetadata' :=
      if negb (String.eqb (Label proto) "")
      then <[Label proto :=
               Metadata proto ∪ default ∅ (labelMetadata c !! Label proto)]>
             (labelMetadata c)
      else labelMetadata c in
    (mkClassifier (prototypes c ++ [proto]) (k c) false (modelPath c)
       labelCategory' labelMetadata' (featureScaler c),
     Ok proto).

(** *** Files *)

Inductive FileContent : Type :=
  | PrototypesJSON (ps : list Prototype)
  | Malformed.

Abbreviation FileSystem := (gmap string FileContent).

(** The validation loop of [NewClassifierFromFile], threading the two label
    maps; the warning about all-zero harmonic features only logs. *)
Fixpoint validatePrototypes (expectedFeatureCount : nat) (ps : list Prototype)
    (labelCategory : gmap string string)
    (labelMetadata : gmap string (gmap string string))
    : result (gmap string string * gmap string (gmap string string)) :=
  match ps with
  | [] => Ok (labelCategory, labelMetadata)
  | proto :: rest =>
      if (length (Features proto) =? 0)%nat
      then Err (ErrPrototypeNoFeatures (ID proto))
      else if String.eqb (Label proto) ""
      then Err (ErrPrototypeMissingLabel (ID proto))
      else if negb (length (Features proto) =? expectedFeatureCount)%nat
      then Err (ErrPrototypeFeatureCount (ID proto) (length (Features proto))
                  expectedFeatureCount)
      else if (length (Features proto) <? harmonicFeatureCount)%nat
      then Err (ErrPrototypeHarmonic (ID proto))
      else
        let labelCategory :=
          match labelCategory !! Label proto with
          | Some _ => labelCategory
          | None => <[Label proto := Category proto]> labelCategory
          end in
        let labelMetadata :=
          <[Label proto :=
              Metadata proto ∪ default ∅ (labelMetadata !! Label proto)]>
            labelMetadata in
        validatePrototypes expectedFeatureCount rest labelCategory labelMetadata
  end.

(** [NewClassifierFromFile]; [path] is the cleaned path. *)
Definition NewClassifierFromFile (fs : FileSystem) (path : string) (k : Z)
    : result Classifier :=
  if (k <=? 0)%Z then Err (ErrInvalidNeighbourCount k)
  else
    let resolvedPath := path in
    let read :=
      match fs !! resolvedPath with
      | Some data => Ok (data, resolvedPath)
      | None =>
          let ext := GoStrings.Ext resolvedPath in
          let base := GoStrings.TrimSuffix resolvedPath ext in
          let fallbackPath := (base ++ ".example" ++ ext)%string in
          match fs !! fallbackPath with
          | Some data => Ok (data, fallbackPath)
          | None => Err (ErrLoadPrototypes resolvedPath)
          end
      end in
    match read with
    | Err e => Err e
    | Ok (Malformed, _) => Err ErrParsePrototypes
    | Ok (PrototypesJSON prototypes, resolvedPath) =>
        let expectedFeatureCount := length featureWeights in
        match validatePrototypes expectedFeatureCount prototypes ∅ ∅ with
        | Err e => Err e
        | Ok (labelCategory, labelMetadata) =>
            let '(featureScaler, prototypes) :=
              match prototypes with
              | [] => (None, prototypes)
              | first :: _ =>
                  let isPANNS := (length (Features first) =? 2048)%nat in
                  if isPANNS then (None, prototypes)
                  else
                    match NewFeatureScalerFromPrototypes prototypes with
                    | Err _ => (None, prototypes)
                    | Ok scaler =>
                        (Some scaler,
                         map (fun proto =>
                                mkPrototype (ID proto) (Label proto) (Category proto)
                                  (Description proto) (Source proto)
                                  (NormaliseVectorInPlace
                                     (Transform scaler (Features proto)))
                                  (Metadata proto))
                             prototypes)
                    end
              end in
            let usingExample := GoStrings.HasSuffix resolvedPath ".example" in
            let modelPath :=
              if usingExample then GoStrings.TrimSuffix resolvedPath ".example"
              else resolvedPath in
            let n := Z.of_nat (length prototypes) in
            let k := if (0 <? n)%Z && (n <? k)%Z then n else k in
            Ok (mkClassifier prototypes k usingExample modelPath
                  labelCategory labelMetadata featureScaler)
        end
    end.

(** The part of one call of [SavePrototypesToFile] that the program does
    not decide: whether [os.MkdirAll], [json.MarshalIndent], [os.WriteFile]
    and [os.Rename] fail, what a failed write leaves at the temporary path
    ([None]: whatever was there before), and whether the [os.Remove] that
    follows a failed rename fails in turn. *)
Inductive WriteOutcome : Type :=
  | Written
  | WriteFailed (leftover : option FileContent).

Record SaveEnvironment : Type := mkSaveEnvironment {
  mkdirAllFails : bool;
  marshalIndentFails : bool;
  writeFileOutcome : WriteOutcome;
  renameFails : bool;
  removeFails : bool
}.

(** The environment in which every step succeeds. *)
Definition noFault : SaveEnvironment :=
  mkSaveEnvironment false false Written false false.

(** [SavePrototypesToFile]: the snapshot is written to [modelPath ++ ".tmp"],
    which is then renamed over [modelPath].  The result is the store and the
    file system after the call, and the error returned, if any; directories
    are not part of the file system, so a successful [os.MkdirAll] leaves it
    as it is. *)
Definition SavePrototypesToFile (env : SaveEnvironment) (c : Classifier)
    (fs : FileSystem) : Classifier * FileSystem * option error :=
  if String.eqb (modelPath c) "" then (c, fs, Some ErrModelPathNotSet)
  else
    let saved :=
      mkClassifier (prototypes c) (k c) false (modelPath c)
        (labelCategory c) (labelMetadata c) (featureScaler c) in
    let '(_, prototypes, _, _, _) := snapshot c in
    if mkdirAllFails env then (c, fs, Some ErrCreateDirectory)
    else
      let tempPath := (modelPath c ++ ".tmp")%string in
      if marshalIndentFails env then (c, fs, Some ErrMarshalPrototypes)
      else
        let data := PrototypesJSON prototypes in
        match writeFileOutcome env with
        | WriteFailed leftover =>
            let fs :=
              match leftover with
              | Some partial => <[tempPath := partial]> fs
              | None => fs
              end in
            (c, fs, Some ErrWritePrototypes)
        | Written =>
            let fs := <[tempPath := data]> fs in
            if renameFails env then
              let fs := if removeFails env then fs else delete tempPath fs in
              (c, fs, Some ErrRenameTempFile)
            else
              let fs := <[modelPath c := data]> (delete tempPath fs) in
              (saved, fs, None)
        end.

(** ** Sorting

    [sort.Slice] is not stable and promises nothing about the order of
    elements that compare equal; what the classifier relies on is that the
    result holds the same elements.  The development is parametric in any
    such sorting function. *)

Class SliceSorter : Type := {
  sortSlice : forall {A : Type}, (A -> A -> bool) -> list A -> list A;
  sortSlice_perm :
    forall (A : Type) (less : A -> A -> bool) (l : list A),
      sortSlice less l ≡ₚ l
}.

(** One such function: insertion from the right, which happens to be
    stable. *)
Fixpoint insertSorted {A : Type} (less : A -> A -> bool) (x : A) (l : list A) : list A :=
  match l with
  | [] => [x]
  | y :: l' => if less y x then y :: insertSorted less x l' else x :: y :: l'
  end.

Definition insertionSort {A : Type} (less : A -> A -> bool) (l : list A) : list A :=
  foldr (insertSorted less) [] l.

#[global, refine] Instance insertionSorter : SliceSorter :=
  {| sortSlice := @insertionSort |}.
Proof.
  intros A less l. unfold insertionSort.
  induction l as [|x l IH]; simpl; [reflexivity|].
  rewrite <- IH at 2. generalize (foldr (insertSorted less) [] l) as sorted.
  induction sorted as [|y sorted IHs]; simpl; [reflexivity|].
  destruct (less y x); [|reflexivity].
  rewrite IHs. apply Permutation_swap.
Defined.

(** ** k-NN prediction *)

Record labelStats : Type := mkLabelStats {
  weightSum : R;
  distSum : R;
  count : Z;
  statPrototypes : list PrototypeScore
}.

Definition zeroStats : labelStats := mkLabelStats 0 0 0 [].

(** One turn of the neighbour loop of [Predict]. *)
Definition addNeighbor (prototypes : list Prototype)
    (acc : gmap string labelStats * R) (neighbor : distancePair)
    : gmap string labelStats * R :=
  let '(labelScores, totalWeight) := acc in
  let weight := 1.0 / (distance neighbor + 1e-9) in
  let proto := prototypes !!! index neighbor in
  let stats := default zeroStats (labelScores !! Label proto) in
  let stats :=
    mkLabelStats (weightSum stats + weight) (distSum stats + distance neighbor)
      (count stats + 1)
      (statPrototypes stats ++
         [mkPrototypeScore (ID proto) (distance neighbor) weight (Source proto)]) in
  (<[Label proto := stats]> labelScores, totalWeight + weight).

Definition buildPrediction (labelCategory : gmap string string)
    (labelMetadata : gmap string (gmap string string)) (totalWeight : R)
    (entry : string * labelStats) : Prediction :=
  let '(label, stats) := entry in
  let labelMeta := labelMetadata !! label in
  let description :=
    match labelMeta with
    | Some meta => default "" (meta !! "description")
    | None => ""
    end in
  let confidence :=
    if F64.ltb 0 totalWeight then weightSum stats / totalWeight else 0.0 in
  let avgDist :=
    if (0 <? count stats)%Z then distSum stats / IZR (count stats) else 0.0 in
  mkPrediction label (default "" (labelCategory !! label)) description
    confidence avgDist (count stats) (statPrototypes stats) labelMeta.

Definition predictionLess (pi pj : Prediction) : bool :=
  if F64.ltb 1e-9 (Rabs (Confidence pi - Confidence pj))
  then F64.ltb (Confidence pj) (Confidence pi)
  else F64.ltb (AverageDist pi) (AverageDist pj).

Section Classify.

Context `{SliceSorter}.

(** The query as it reaches the distance loop: scaled and normalised when
    a scaler is present and the vector is not a 2048-dimensional
    embedding. *)
Definition scaleQuery (c : Classifier) (features : list R) : list R :=
  match featureScaler c with
  | Some scaler =>
      if negb (length features =? 2048)%nat
      then NormaliseVectorInPlace (Transform scaler features)
      else features
  | None => features
  end.

Definition neighbourCount (c : Classifier) (prototypes : list Prototype) : Z :=
  let k := k c in
  if (Z.of_nat (length prototypes) <? k)%Z
  then Z.max 1 (Z.of_nat (length prototypes))
  else k.

(** The [k] nearest prototypes, nearest first. *)
Definition nearest (c : Classifier) (features : list R)
    (prototypes : list Prototype) : list distancePair :=
  let distances :=
    imap (fun i proto =>
            let similarity :=
              cosineSimilarity features (Features proto) featureWeights in
            mkDistancePair i (1 - similarity))
         prototypes in
  let distances :=
    sortSlice (fun di dj => F64.ltb (distance di) (distance dj)) distances in
  take (Z.to_nat (neighbourCount c prototypes)) distances.

Definition Predict (c : Classifier) (features : list R) : result (list Prediction) :=
  if (length features =? 0)%nat then Err ErrEmptyFeatureVector
  else
    let features := scaleQuery c features in
    let '(_, prototypes, labelCategory, labelMetadata, _) := snapshot c in
    if (length prototypes =? 0)%nat then Ok []
    else
      let '(labelScores, totalWeight) :=
        fold_left (addNeighbor prototypes) (nearest c features prototypes) (∅, 0) in
      if F64.eqb totalWeight 0 then Ok []
      else
        let predictions :=
          map (buildPrediction labelCategory labelMetadata totalWeight)
              (map_to_list labelScores) in
        Ok (sortSlice predictionLess predictions).

End Classify.

(** ** Store statistics *)

Record ModelLabelStat : Type := mkModelLabelStat {
  mlLabel : string;
  mlCategory : string;
  mlPrototypes : Z
}.

Record ModelStats : Type := mkModelStats {
  PrototypeCount : Z;
  LabelCount : Z;
  Labels : list ModelLabelStat;
  UsingExample : bool
}.

Definition countLabel (acc : gmap string Z * gmap string ModelLabelStat)
    (proto : Prototype) : gmap string Z * gmap string ModelLabelStat :=
  let '(labelBuckets, entries) := acc in
  let n := (default 0 (labelBuckets !! Label proto) + 1)%Z in
  (<[Label proto := n]> labelBuckets,
   <[Label proto := mkModelLabelStat (Label proto) (Category proto) n]> entries).

Definition Stats `{SliceSorter} (c : Classifier) : ModelStats :=
  let '(_, prototypes, _, _, usingExample) := snapshot c in
  let '(labelBuckets, entries) := fold_left countLabel prototypes (∅, ∅) in
  let labels := map snd (map_to_list entries) in
  let labels := sortSlice (fun a b => String.ltb (mlLabel a) (mlLabel b)) labels in
  mkModelStats (Z.of_nat (length prototypes)) (Z.of_nat (size labelBuckets))
    labels usingExample.

(** ** Radix-2 FFT (package shazam) *)

Module Cmplx.

Record complex128 : Type := mkComplex { re : R; im : R }.

Definition zero : complex128 := mkComplex 0 0.
Definition add (a b : complex128) : complex128 := mkComplex (re a + re b) (im a + im b).
Definition sub (a b : complex128) : complex128 := mkComplex (re a - re b) (im a - im b).
Definition mul (a b : complex128) : complex128 :=
  mkComplex (re a * re b - im a * im b) (re a * im b + im a * re b).

(** [cmplx.Abs] *)
Definition Abs (a : complex128) : R := sqrt (re a * re a + im a * im a).

End Cmplx.

#[global] Instance complex128_inhabited : Inhabited Cmplx.complex128 :=
  populate Cmplx.zero.

(** [recursiveFFT]; the recursion is on the length, which halves at each
    call, so [fuel] equal to the length is never exhausted. *)
Fixpoint recursiveFFT_fuel (fuel : nat) (complexArray : list Cmplx.complex128)
    : list Cmplx.complex128 :=
  match fuel with
  | O => complexArray
  | S fuel' =>
      let N := length complexArray in
      if (N <=? 1)%nat then complexArray
      else
        let half := (N / 2)%nat in
        let even := map (fun i => complexArray !!! (2 * i)%nat) (seq 0 half) in
        let odd := map (fun i => complexArray !!! (2 * i + 1)%nat) (seq 0 half) in
        let even := recursiveFFT_fuel fuel' even in
        let odd := recursiveFFT_fuel fuel' odd in
        let twiddle (k : nat) :=
          Cmplx.mkComplex (cos (-2 * PI * INR k / INR N))
                          (sin (-2 * PI * INR k / INR N)) in
        let low :=
          map (fun k => Cmplx.add (even !!! k) (Cmplx.mul (twiddle k) (odd !!! k)))
              (seq 0 half) in
        let high :=
          map (fun k => Cmplx.sub (even !!! k) (Cmplx.mul (twiddle k) (odd !!! k)))
              (seq 0 half) in
        low ++ high ++ replicate (N - 2 * half) Cmplx.zero
  end.

Definition recursiveFFT (complexArray : list Cmplx.complex128) : list Cmplx.complex128 :=
  recursiveFFT_fuel (length complexArray) complexArray.

Definition FFT (input : list R) : list Cmplx.complex128 :=
  recursiveFFT (map (fun v => Cmplx.mkComplex v 0) input).

(** ** Feature extraction *)

Definition sumList (l : list R) : R := fold_left Rplus l 0.

Definition rootMeanSquare (samples : list R) : R :=
  if (length samples =? 0)%nat then 0
  else sqrt (sumSquares samples / INR (length samples)).

(** The loop of [zeroCrossingRate] over consecutive pairs. *)
Fixpoint zeroCrossings (prev : R) (rest : list R) (count : R) : R :=
  match rest with
  | [] => count
  | cur :: rest' =>
      let count :=
        if F64.eqb prev 0 || F64.eqb cur 0 then count
        else if negb (Bool.eqb (F64.ltb 0 prev) (F64.ltb 0 cur)) then count + 1
        else count in
      zeroCrossings cur rest' count
  end.

Definition zeroCrossingRate (samples : list R) : R :=
  if (length samples <=? 1)%nat then 0
  else
    match samples with
    | first :: rest => zeroCrossings first rest 0 / INR (length samples - 1)
    | [] => 0
    end.

Definition signalVariance (samples : list R) : R :=
  if (length samples =? 0)%nat then 0
  else
    let mean := sumList samples / INR (length samples) in
    let variance :=
      fold_left (fun acc v => let diff := v - mean in acc + diff * diff) samples 0 in
    variance / INR (length samples).

(** The doubling loop of [nextPowerOfTwo]; [power] doubles at each turn, so
    [n] turns are more than it ever takes. *)
Fixpoint doublePower (fuel power n : nat) : nat :=
  match fuel with
  | O => power
  | S fuel' => if (power <? n)%nat then doublePower fuel' (2 * power) n else power
  end.

Definition nextPowerOfTwo (n : nat) : nat :=
  if (n <=? 0)%nat then 1%nat else doublePower n 1 n.

Definition applyHannWindow (buffer : list R) : list R :=
  let length := length buffer in
  if (length <=? 1)%nat then buffer
  else
    imap (fun i v => v * (0.5 * (1 - cos ((2 * PI * INR i) / INR (length - 1)))))
         buffer.

Definition computeSpectrum (samples : list R) (sampleRate : Z) : list R * list R :=
  let fftSize := nextPowerOfTwo (length samples) in
  let buffer := samples ++ replicate (fftSize - length samples) 0 in
  let buffer := applyHannWindow buffer in
  let fft := FFT buffer in
  let binCount := (fftSize / 2)%nat in
  let magnitude := map (fun i => Cmplx.Abs (fft !!! i)) (seq 0 binCount) in
  let freqs := map (fun i => INR i * IZR sampleRate / INR fftSize) (seq 0 binCount) in
  (magnitude, freqs).

Definition spectralCentroid (magnitude freqs : list R) : R :=
  let weightedSum := sumList (zip_with Rmult magnitude freqs) in
  let total := sumList magnitude in
  if F64.eqb total 0 then 0 else weightedSum / total.

Definition spectralBandwidth (magnitude freqs : list R) (centroid : R) : R :=
  let variance :=
    sumList (zip_with (fun m f => let deviation := f - centroid in
                                  m * deviation * deviation) magnitude freqs) in
  let total := sumList magnitude in
  if F64.eqb total 0 then 0 else sqrt (variance / total).

(** The search loop of [spectralRolloff]: the frequency of the first bin at
    which the running sum reaches the target. *)
Fixpoint rolloffScan (magnitude freqs : list R) (cumulative target : R) : option R :=
  match magnitude, freqs with
  | mag :: magnitude', f :: freqs' =>
      let cumulative := cumulative + mag in
      if F64.leb target cumulative then Some f
      else rolloffScan magnitude' freqs' cumulative target
  | _, _ => None
  end.

Definition spectralRolloff (magnitude freqs : list R) (threshold : R) : R :=
  if (length magnitude =? 0)%nat then 0
  else
    let threshold :=
      if F64.leb threshold 0 || F64.leb 1 threshold then 0.85 else threshold in
    let total := sumList magnitude in
    let last := freqs !!! (length freqs - 1)%nat in
    if F64.eqb total 0 then last
    else
      let target := threshold * total in
      default last (rolloffScan magnitude freqs 0 target).

Definition spectralFlatness (magnitude : list R) : R :=
  if (length magnitude =? 0)%nat then 0
  else
    let eps := 1e-12 in
    let logSum := sumList (map (fun mag => ln (mag + eps)) magnitude) in
    let arithmetic := sumList (map (fun mag => mag + eps) magnitude) in
    let geomCount := INR (length magnitude) in
    let geoMean := exp (logSum / geomCount) in
    let ariMean := arithmetic / geomCount in
    if F64.eqb ariMean 0 then 0 else geoMean / ariMean.

Definition maxFrom (start : R) (magnitude : list R) : R :=
  fold_left (fun maxVal mag => if F64.ltb maxVal mag then mag else maxVal)
            magnitude start.

Definition spectralCrestFactor (magnitude : list R) : R :=
  match magnitude with
  | [] => 0
  | first :: _ =>
      let maxVal := maxFrom first magnitude in
      let mean := sumList magnitude / INR (length magnitude) in
      if F64.eqb mean 0 then 0 else maxVal / mean
  end.

Definition log2 (x : R) : R := ln x / ln 2.

Definition spectralEntropy (magnitude : list R) : R :=
  if (length magnitude =? 0)%nat then 0
  else
    let powerSum := sumSquares magnitude in
    if F64.eqb powerSum 0 then 0
    else
      let probabilities := map (fun mag => (mag * mag) / powerSum) magnitude in
      let entropy :=
        fold_left (fun entropy p =>
                     if F64.ltb 0 p then entropy - p * log2 p else entropy)
                  probabilities 0 in
      entropy / log2 (INR (length magnitude)).

(** The arg-max loop of [dominantFrequency]: the first bin holding the
    largest magnitude. *)
Fixpoint argMax (i : nat) (magnitude : list R) (idx : nat) (maxVal : R) : nat :=
  match magnitude with
  | [] => idx
  | mag :: magnitude' =>
      if F64.ltb maxVal mag then argMax (S i) magnitude' i mag
      else argMax (S i) magnitude' idx maxVal
  end.

Definition dominantFrequency (magnitude freqs : list R) : R :=
  match magnitude with
  | [] => 0
  | first :: _ => freqs !!! argMax 0 magnitude 0%nat first
  end.

Record harmonicAcc : Type := mkHarmonicAcc {
  harmonicEnergy : R;
  harmonicMagnitudes : list R
}.

(** The loop over the harmonics [h = 1 .. maxHarmonic] of [harmonicFeatures];
    both [break]s end the loop with the sums gathered so far. *)
Fixpoint harmonicScan (hs : list nat) (magnitude : list R)
    (fundamentalFreq freqResolution avgMag : R) (sampleRate : Z)
    (searchWindowSize : Z) (acc : harmonicAcc) : harmonicAcc :=
  match hs with
  | [] => acc
  | h :: hs' =>
      let targetFreq := fundamentalFreq * INR h in
      if F64.leb (IZR sampleRate / 2) targetFreq then acc
      else
        let targetBin := F64.toInt (targetFreq / freqResolution) in
        let len := Z.of_nat (length magnitude) in
        if (len <=? targetBin)%Z then acc
        else
          let startBin := (targetBin - searchWindowSize)%Z in
          let endBin := (targetBin + searchWindowSize)%Z in
          let startBin := if (startBin <? 0)%Z then 0%Z else startBin in
          let endBin := if (len <=? endBin)%Z then (len - 1)%Z else endBin in
          let window :=
            take (Z.to_nat (endBin - startBin + 1)) (drop (Z.to_nat startBin) magnitude) in
          let maxMag := maxFrom 0.0 window in
          let acc :=
            if F64.ltb (avgMag * 1.5) maxMag
            then mkHarmonicAcc (harmonicEnergy acc + maxMag * maxMag)
                               (harmonicMagnitudes acc ++ [maxMag])
            else acc in
          harmonicScan hs' magnitude fundamentalFreq freqResolution avgMag
            sampleRate searchWindowSize acc
  end.

Definition harmonicFeatures (magnitude freqs : list R) (fundamentalFreq : R)
    (sampleRate : Z) : R * R * R :=
  if (length magnitude =? 0)%nat || F64.leb fundamentalFreq 0 then (0, 0, 0)
  else
    let totalEnergy := sumSquares magnitude in
    let sumMag := sumList magnitude in
    if F64.eqb totalEnergy 0 then (0, 0, 0)
    else
      let avgMag := sumMag / INR (length magnitude) in
      let freqResolution := IZR sampleRate / INR (length magnitude * 2) in
      let maxPossibleMag := maxFrom 0.0 magnitude in
      let maxHarmonic := 10%nat in
      let tolerance := fundamentalFreq * 0.1 in
      let searchWindowSize := F64.toInt (tolerance / freqResolution) in
      let searchWindowSize := if (searchWindowSize <? 1)%Z then 1%Z else searchWindowSize in
      let searchWindowSize := if (10 <? searchWindowSize)%Z then 10%Z else searchWindowSize in
      let acc :=
        harmonicScan (seq 1 maxHarmonic) magnitude fundamentalFreq freqResolution
          avgMag sampleRate searchWindowSize (mkHarmonicAcc 0.0 []) in
      let harmonicRatio := harmonicEnergy acc / totalEnergy in
      let harmonicCount := INR (length (harmonicMagnitudes acc)) / 10.0 in
      let harmonicCount := if F64.ltb 1.0 harmonicCount then 1.0 else harmonicCount in
      let harmonicStrength :=
        if (0 <? length (harmonicMagnitudes acc))%nat && F64.ltb 0 maxPossibleMag
        then (sumList (harmonicMagnitudes acc)
                / INR (length (harmonicMagnitudes acc))) / maxPossibleMag
        else 0 in
      (harmonicRatio, harmonicCount, harmonicStrength).

Definition clamp01 (x : R) : R :=
  if F64.ltb x 0 then 0
  else if F64.ltb 1 x then 1
  else x.

Definition temporalCentroid (samples : list R) (sampleRate : Z) : R :=
  if (length samples =? 0)%nat || (sampleRate <=? 0)%Z then 0
  else
    let energySum := sumSquares samples in
    let weightedSum := sumList (imap (fun i sample => sample * sample * INR i) samples) in
    if F64.eqb energySum 0 then 0
    else
      let centroidIndex := weightedSum / energySum in
      centroidIndex / INR (length samples).

(** The counting loop of [onsetRate]: upward crossings of the threshold. *)
Fixpoint countOnsets (prev : R) (rest : list R) (threshold : R) (onsetCount : Z) : Z :=
  match rest with
  | [] => onsetCount
  | cur :: rest' =>
      let onsetCount :=
        if F64.ltb prev threshold && F64.leb threshold cur
        then (onsetCount + 1)%Z else onsetCount in
      countOnsets cur rest' threshold onsetCount
  end.

Definition onsetRate (samples : list R) (sampleRate : Z) : R :=
  if (length samples <? 2)%nat || (sampleRate <=? 0)%Z then 0
  else
    let absVals := map Rabs samples in
    let sumAbs := sumList absVals in
    let mean := sumAbs / INR (length absVals) in
    let variance :=
      fold_left (fun acc v => let diff := v - mean in acc + diff * diff) absVals 0 in
    let std :=
      if (0 <? length absVals)%nat then sqrt (variance / INR (length absVals)) else 0.0 in
    let threshold := mean + std in
    let onsetCount :=
      match absVals with
      | first :: rest => countOnsets first rest threshold 0
      | [] => 0%Z
      end in
    let duration := INR (length samples) / IZR sampleRate in
    if F64.leb duration 0 then 0
    else
      let rate := IZR onsetCount / duration in
      let maxRate := 20.0 in
      let rate := if F64.ltb maxRate rate then maxRate else rate in
      rate / maxRate.

Definition amplitudeModulationDepth (samples : list R) : R :=
  if (length samples =? 0)%nat then 0
  else
    let sumAbs := sumList (map Rabs samples) in
    let mean := sumAbs / INR (length samples) in
    if F64.eqb mean 0 then 0
    else
      let variance :=
        fold_left (fun acc s => let diff := Rabs s - mean in acc + diff * diff)
                  samples 0 in
      let std := sqrt (variance / INR (length samples)) in
      let depth := std / (mean + 1e-9) in
      if F64.ltb 1.0 depth then 1.0 else depth.

Definition spectralSkewness (magnitude freqs : list R) (centroid bandwidth : R) : R :=
  if (length magnitude =? 0)%nat || F64.eqb bandwidth 0 then 0
  else
    let thirdMoment :=
      sumList (zip_with (fun weight f => let diff := f - centroid in
                                         weight * diff * diff * diff)
                        magnitude freqs) in
    let total := sumList magnitude in
    if F64.eqb total 0 then 0
    else
      let value := (thirdMoment / total) / (bandwidth ^ 3 + 1e-12) in
      tanh value.

Definition spectralKurtosis (magnitude freqs : list R) (centroid bandwidth : R) : R :=
  if (length magnitude =? 0)%nat || F64.eqb bandwidth 0 then 0
  else
    let fourthMoment :=
      sumList (zip_with (fun weight f => let diff := f - centroid in
                                         weight * diff * diff * diff * diff)
                        magnitude freqs) in
    let total := sumList magnitude in
    if F64.eqb total 0 then 0
    else
      let value := (fourthMoment / total) / (bandwidth ^ 4 + 1e-12) in
      Rmax 0 (value / 3.0).

(** [sort.Float64s]: on real numbers the increasing arrangement is unique. *)
Definition sortFloat64s (l : list R) : list R := insertionSort F64.ltb l.

Definition spectralPeakProminence (magnitude : list R) : R :=
  if (length magnitude =? 0)%nat then 0
  else
    let mean := sumList magnitude / INR (length magnitude) in
    if F64.eqb mean 0 then 0
    else
      let peaks := sortFloat64s magnitude in
      let topCount := 3%nat in
      let topCount := if (length peaks <? topCount)%nat then length peaks else topCount in
      let topSum :=
        sumList (map (fun i => peaks !!! (length peaks - 1 - i)%nat) (seq 0 topCount)) in
      let topAvg := topSum / INR topCount in
      let prominence := (topAvg - mean) / (topAvg + mean + 1e-9) in
      if F64.ltb prominence 0 then 0
      else if F64.ltb 1 prominence then 1
      else prominence.

Definition ExtractFeatureVector (samples : list R) (sampleRate : Z) : result (list R) :=
  if (length samples =? 0)%nat then Err ErrNoSamples
  else if (sampleRate <=? 0)%Z then Err ErrInvalidSampleRate
  else
    let energy := rootMeanSquare samples in
    let zcr := zeroCrossingRate samples in
    let variance := signalVariance samples in
    let '(spectrum, freqs) := computeSpectrum samples sampleRate in
    let centroid := spectralCentroid spectrum freqs in
    let bandwidth := spectralBandwidth spectrum freqs centroid in
    let rolloff := spectralRolloff spectrum freqs 0.85 in
    let flatness := spectralFlatness spectrum in
    let crest := spectralCrestFactor spectrum in
    let entropy := spectralEntropy spectrum in
    let dominant := dominantFrequency spectrum freqs in
    let temporalCentre := temporalCentroid samples sampleRate in
    let onsetRateNorm := onsetRate samples sampleRate in
    let amDepth := amplitudeModulationDepth samples in
    let skewness := spectralSkewness spectrum freqs centroid bandwidth in
    let kurtosis := spectralKurtosis spectrum freqs centroid bandwidth in
    let peakProminence := spectralPeakProminence spectrum in
    let '(harmonicRatio, harmonicCount, harmonicStrength) :=
      if F64.ltb 0 dominant
      then harmonicFeatures spectrum freqs dominant sampleRate
      else (0, 0, 0) in
    let nyquistFreq := IZR sampleRate / 2.0 in
    let '(centroid, bandwidth, rolloff, dominant) :=
      if F64.ltb 0 nyquistFreq
      then (clamp01 (centroid / nyquistFreq), clamp01 (bandwidth / nyquistFreq),
            clamp01 (rolloff / nyquistFreq), clamp01 (dominant / nyquistFreq))
      else (centroid, bandwidth, rolloff, dominant) in
    let crest := clamp01 (crest / 100.0) in
    let kurtosis := clamp01 ((kurtosis + 3.0) / 13.0) in
    Ok [energy; zcr; centroid; bandwidth; rolloff; flatness; dominant; crest;
        entropy; variance; temporalCentre; onsetRateNorm; amDepth; skewness;
        kurtosis; peakProminence; harmonicRatio; harmonicCount; harmonicStrength].

(** ** Specification-side definitions

    The notions the statements below compare the code with. *)

(** "Clamp to [0.5, 0.9]". *)
Definition clampThreshold (x : R) : R := Rmax 0.5 (Rmin 0.9 x).

(** The SNR bands and the offset each one adds to the base threshold. *)
Inductive snrBand : R -> R -> Prop :=
  | band_very_noisy snr : snr < 10 -> snrBand snr 0.15
  | band_moderate snr : 10 <= snr < 20 -> snrBand snr 0.10
  | band_good snr : 20 <= snr < 30 -> snrBand snr 0.05
  | band_excellent snr : 30 <= snr -> snrBand snr 0.

(** The threshold the decision compares with: the base threshold when no SNR
    is given ([snr_db = 0]), the SNR-adjusted one otherwise. *)
Definition adjustedThreshold (baseThreshold snrDb : R) : R :=
  if Req_dec_T snrDb 0 then baseThreshold else AdaptiveThreshold baseThreshold snrDb.

(** The decision with the category compared byte for byte. *)
Definition exactCategoryDecision (predictions : list Prediction)
    (baseThreshold snrDb : R) : bool :=
  match predictions with
  | [] => false
  | top :: _ =>
      negb (String.eqb (pCategory top) "noise")
      && F64.leb (adjustedThreshold baseThreshold snrDb) (Confidence top)
  end.

(** The decision with the category compared under [strings.EqualFold]. *)
Definition foldedCategoryDecision `{GoStrings.CaseFolding}
    (predictions : list Prediction) (baseThreshold snrDb : R) : bool :=
  match predictions with
  | [] => false
  | top :: _ =>
      negb (GoStrings.EqualFold (pCategory top) "noise")
      && F64.leb (adjustedThreshold baseThreshold snrDb) (Confidence top)
  end.

(** A string with its ASCII capitals lowered; two strings match under
    [GoStrings.equalFoldASCII] exactly when they are equal once lowered. *)
Fixpoint asciiLower (s : string) : string :=
  match s with
  | EmptyString => EmptyString
  | String a s' => String (GoStrings.toLower a) (asciiLower s')
  end.

(** The dimensionality the store expects of every prototype: the number of
    feature weights. *)
Definition expectedDim : nat := length featureWeights.

Definition uniformDim (c : Classifier) : Prop :=
  Forall (fun proto => length (Features proto) = expectedDim) (prototypes c).

(** The loop of the upload handler over the prototypes built from the
    uploaded files: each one is handed to [AddPrototype]; a rejected one is
    skipped and the loop goes on with the next. *)
Definition uploadBatch (c : Classifier) (uploads : list Prototype)
    : Classifier * list Prototype :=
  fold_left
    (fun '(c, added) proto =>
       match AddPrototype c proto with
       | (c', Ok stored) => (c', added ++ [stored])
       | (c', Err _) => (c', added)
       end)
    uploads (c, []).

(** What the loader insists on for each prototype of a file. *)
Definition loadable (proto : Prototype) : Prop :=
  length (Features proto) = expectedDim /\ Label proto <> ""%string.

(** ** Sample data for the scaler

    Two prototypes of two features: the first feature takes the values 0
    and 2, the second is constant. *)

Definition lowPrototype : Prototype :=
  mkPrototype "proto_low" "low" "drone" "" "" [0; 1] ∅.

Definition highPrototype : Prototype :=
  mkPrototype "proto_high" "high" "drone" "" "" [2; 1] ∅.

(** ** Sample data

    A prototype carrying a 2048-dimensional embedding, a prototype carrying
    the 19 hand-crafted features, and the store that a model file holding the
    former loads into. *)

Definition embeddingPrototype : Prototype :=
  mkPrototype "proto_mavic_0001" "mavic" "drone" "" "mavic.wav"
    (1 :: replicate 2047 0) ∅.

Definition handcraftedPrototype : Prototype :=
  mkPrototype "proto_phantom_0002" "phantom" "drone" "" "phantom.wav"
    (replicate 19 0.5) ∅.

Definition seededFiles : FileSystem :=
  {[ "drone/prototypes.json"%string := PrototypesJSON [embeddingPrototype] ]}.

Definition seededStore : Classifier :=
  mkClassifier [embeddingPrototype] 1 false "drone/prototypes.json"
    {[ "mavic"%string := "drone"%string ]} {[ "mavic"%string := ∅ ]} None.

Definition emptyFiles : FileSystem :=
  {[ "drone/prototypes.json"%string := PrototypesJSON [] ]}.

Definition emptyStore : Classifier :=
  mkClassifier [] 5 false "drone/prototypes.json" ∅ ∅ None.

Definition exampleOnlyFiles : FileSystem :=
  {[ "drone/prototypes.example.json"%string := PrototypesJSON [embeddingPrototype] ]}.

(** The three sums kept by the loop satisfy the Cauchy-Schwarz inequality. *)
Definition boundedSums (acc : R * R * R) : Prop :=
  let '(dotProduct, normA, normB) := acc in
  0 <= normA /\ 0 <= normB /\ dotProduct * dotProduct <= normA * normB.

(** The sum of the confidences of a prediction list. *)
Definition sumConfidence (predictions : list Prediction) : R :=
  sumList (map Confidence predictions).

(** The weight of a neighbour at a given distance. *)
Definition neighbourWeight (neighbor : distancePair) : R :=
  1.0 / (distance neighbor + 1e-9).

(** The sum of the per-label weight sums held in the score table. *)
Definition tableWeight (labelScores : gmap string labelStats) : R :=
  sumList (map (fun entry => weightSum entry.2) (map_to_list labelScores)).

(** The total weight of the neighbours [Predict] finds for a query. *)
Definition totalNeighbourWeight `{SliceSorter} (c : Classifier) (features : list R) : R :=
  (fold_left (addNeighbor (prototypes c))
     (nearest c (scaleQuery c features) (prototypes c)) (∅, 0)).2.




(** The values the prototypes take in dimension [i]. *)
Definition column (i : nat) (prototypes : list Prototype) : list R :=
  map (fun proto => Features proto !!! i) prototypes.

Definition arithmeticMean (xs : list R) : R := sumList xs / INR (length xs).

Definition sumSquaredDiffs (xs : list R) : R :=
  sumList (map (fun x => (x - arithmeticMean xs) * (x - arithmeticMean xs)) xs).

(** The standard deviation of a population: the squared deviations are
    averaged over [n]. *)
Definition populationStddev (xs : list R) : R :=
  sqrt (sumSquaredDiffs xs / INR (length xs)).

(** The standard deviation of a sample: the squared deviations are averaged
    over [n - 1]. *)
Definition sampleStddev (xs : list R) : R :=
  sqrt (sumSquaredDiffs xs / (INR (length xs) - 1)).

(** A deviation below [1e-10] is replaced by 1. *)
Definition neutralised (sd : R) : R := if Rlt_dec sd 1e-10 then 1 else sd.

(** The positions, counted from 0, of the components that the extractor
    clips or normalises into [0, 1]: spectral centroid, bandwidth, rolloff,
    flatness, dominant frequency and crest; onset rate and amplitude
    modulation depth; spectral kurtosis and peak prominence. *)
Definition unitIntervalPositions : list nat :=
  [2; 3; 4; 5; 6; 7; 11; 12; 14; 15]%nat.

(** The position, counted from 0, of the spectral skewness. *)
Definition skewnessPosition : nat := 13.

(** The third central moment of a spectrum about its centroid, the sum
    [spectralSkewness] accumulates: negative for a spectrum skewed to the
    left, positive for one skewed to the right. *)
Definition thirdCentralMoment (magnitude freqs : list R) (centroid : R) : R :=
  sumList (zip_with (fun weight f => let diff := f - centroid in
                                     weight * diff * diff * diff)
                    magnitude freqs).

(** Four samples within [-1, 1]. *)
Definition skewedSamples : list R := [0; 0.6; -0.8; 0].

(** ** Further specification-side notions *)

(** The squared Euclidean norm of a vector. *)
Definition squaredNorm (vector : list R) : R := sumList (map (fun v => v * v) vector).

(** ** Vector normalisation returning a fresh slice *)

Definition NormaliseVector (vector : list R) : list R :=
  let sumSquares := fold_left (fun acc v => acc + v * v) vector 0 in
  if F64.eqb sumSquares 0 then vector
  else
    let factor := 1 / sqrt sumSquares in
    map (fun v => v * factor) vector.

(** ** What a prediction list looks like *)

(** A prediction as [Predict] builds it from at least one neighbour. *)
Definition wellFormedPrediction (prediction : Prediction) : Prop :=
  0 < Confidence prediction <= 1
  /\ 0 <= AverageDist prediction <= 2
  /\ (1 <= Support prediction)%Z
  /\ Z.of_nat (length (TopPrototypes prediction)) = Support prediction.

(** The same for an entry of the score table. *)
Definition wellFormedStats (stats : labelStats) : Prop :=
  (1 <= count stats)%Z
  /\ 0 < weightSum stats
  /\ 0 <= distSum stats <= 2 * IZR (count stats)
  /\ Z.of_nat (length (statPrototypes stats)) = count stats.

Definition sumZ (l : list Z) : Z := foldr Z.add 0%Z l.

(** The number of neighbours behind a prediction list. *)
Definition sumSupport (predictions : list Prediction) : Z :=
  sumZ (map Support predictions).

Definition tableSupport (labelScores : gmap string labelStats) : Z :=
  sumZ (map (fun entry => count entry.2) (map_to_list labelScores)).

(** ** Label bookkeeping *)

(** The category of the first, and of the last, prototype carrying a label. *)
Fixpoint firstCategory (label : string) (ps : list Prototype) : option string :=
  match ps with
  | [] => None
  | proto :: rest =>
      if String.eqb (Label proto) label then Some (Category proto)
      else firstCategory label rest
  end.

Definition lastCategory (label : string) (ps : list Prototype) : option string :=
  firstCategory label (rev ps).

(** The number of prototypes carrying a label. *)
Definition countWithLabel (label : string) (ps : list Prototype) : nat :=
  length (filter (fun proto => Label proto = label) ps).

(** ** Standardised features *)

(** The values the prototypes take in dimension [i] once transformed by a
    scaler. *)
Definition standardisedColumn (scaler : FeatureScaler) (i : nat)
    (prototypes : list Prototype) : list R :=
  map (fun proto => Transform scaler (Features proto) !!! i) prototypes.

(** ** Template matcher

    A second, smaller classifier: one reference embedding per labelled
    sample, compared with the query by cosine similarity. *)

Record Template : Type := mkTemplate {
  tLabel : string;
  tSource : string;
  tFeatures : list R
}.

Record TemplateMatcher : Type := mkTemplateMatcher {
  templates : list Template;
  threshold : R
}.

Definition TemplateCount (tm : option TemplateMatcher) : Z :=
  match tm with
  | None => 0
  | Some tm => Z.of_nat (length (templates tm))
  end.

Inductive templateError : Type :=
  | ErrReadTemplates
  | ErrParseTemplates
  | ErrNoTemplateEntries (path : string)
  | ErrTemplateFeatureCount (label : string) (got expected : nat).

Inductive TemplateFileContent : Type :=
  | TemplatesJSON (ts : list Template)
  | MalformedTemplates.

(** The loop of [NewTemplateMatcherFromFile]: every template must have as
    many features as there are feature weights, and is normalised. *)
Fixpoint normaliseTemplates (ts : list Template) : templateError + list Template :=
  match ts with
  | [] => inr []
  | tpl :: rest =>
      if negb (length (tFeatures tpl) =? length featureWeights)%nat
      then inl (ErrTemplateFeatureCount (tLabel tpl) (length (tFeatures tpl))
                  (length featureWeights))
      else
        match normaliseTemplates rest with
        | inl e => inl e
        | inr rest' =>
            inr (mkTemplate (tLabel tpl) (tSource tpl)
                   (NormaliseVectorInPlace (tFeatures tpl)) :: rest')
        end
  end.

(** [NewTemplateMatcherFromFile]; [path] is the cleaned path. *)
Definition NewTemplateMatcherFromFile (fs : gmap string TemplateFileContent)
    (path : string) (threshold : R) : templateError + TemplateMatcher :=
  match fs !! path with
  | None => inl ErrReadTemplates
  | Some MalformedTemplates => inl ErrParseTemplates
  | Some (TemplatesJSON templates) =>
      if (length templates =? 0)%nat then inl (ErrNoTemplateEntries path)
      else
        match normaliseTemplates templates with
        | inl e => inl e
        | inr templates => inr (mkTemplateMatcher templates (clamp01 threshold))
        end
  end.

Definition similarityToConfidence (sim : R) : R :=
  let conf := (sim + 1) / 2 in
  if F64.ltb conf 0 then 0
  else if F64.ltb 1 conf then 1
  else conf.

(** The order of the template predictions and of the merged predictions:
    higher confidence first, smaller distance first among equal
    confidences. *)
Definition confidenceLess (pi pj : Prediction) : bool :=
  if negb (F64.eqb (Confidence pi) (Confidence pj))
  then F64.ltb (Confidence pj) (Confidence pi)
  else F64.ltb (AverageDist pi) (AverageDist pj).

(** The body of the loop of [TemplateMatcher.Predict]: the prediction for
    one template, unless its confidence is below a positive threshold. *)
Definition templatePrediction (threshold : R) (features : list R) (tpl : Template)
    : option Prediction :=
  let similarity := cosineSimilarity features (tFeatures tpl) featureWeights in
  let confidence := similarityToConfidence similarity in
  if F64.ltb 0 threshold && F64.ltb confidence threshold then None
  else
    Some (mkPrediction (tLabel tpl) "template" ("template:" ++ tSource tpl)
            confidence (1 - similarity) 1 [] None).

(** [TemplateMatcher.Predict]; a [nil] matcher is [None], and the [nil]
    slice it answers with is the empty list. *)
Definition TemplateMatcher_Predict `{SliceSorter} (tm : option TemplateMatcher)
    (features : list R) : list Prediction :=
  match tm with
  | None => []
  | Some tm =>
      if (length features =? 0)%nat then []
      else
        let results := omap (templatePrediction (threshold tm) features) (templates tm) in
        sortSlice confidenceLess results
  end.

(** ** Merging template predictions into the classifier's

    [strings.ToLower] is a parameter: the merge only uses it to form the
    keys of its index. *)

Section Merge.

Context `{SliceSorter}.
Variable ToLower : string -> string.

Definition indexBase (index : gmap string Prediction) (pred : Prediction)
    : gmap string Prediction :=
  <[ToLower (pLabel pred) := pred]> index.

Definition indexAddition (index : gmap string Prediction) (pred : Prediction)
    : gmap string Prediction :=
  let key := ToLower (pLabel pred) in
  match index !! key with
  | Some existing =>
      if F64.ltb (Confidence existing) (Confidence pred)
      then <[key := pred]> index
      else index
  | None => <[key := pred]> index
  end.

Definition MergePredictions (base additions : list Prediction) : list Prediction :=
  if (length additions =? 0)%nat then base
  else
    let index := fold_left indexBase base ∅ in
    let index := fold_left indexAddition additions index in
    let merged := map snd (map_to_list index) in
    sortSlice confidenceLess merged.

End Merge.

(** ** Sliding-window analysis *)

Definition scoreLess (si sj : PrototypeScore) : bool :=
  if F64.ltb 1e-9 (Rabs (psWeight si - psWeight sj))
  then F64.ltb (psWeight sj) (psWeight si)
  else F64.ltb (psDistance si) (psDistance sj).

Definition combineExisting (combined : gmap string PrototypeScore)
    (score : PrototypeScore) : gmap string PrototypeScore :=
  <[psID score := score]> combined.

Definition combineAdditional (combined : gmap string PrototypeScore)
    (score : PrototypeScore) : gmap string PrototypeScore :=
  match combined !! psID score with
  | Some current =>
      if F64.ltb (psWeight current) (psWeight score)
         || (F64.ltb (Rabs (psWeight score - psWeight current)) 1e-9
             && F64.ltb (psDistance score) (psDistance current))
      then <[psID score := score]> combined
      else combined
  | None => <[psID score := score]> combined
  end.

Definition mergePrototypeScores `{SliceSorter}
    (existing additional : list PrototypeScore) (limit : Z) : list PrototypeScore :=
  if (length existing =? 0)%nat && (length additional =? 0)%nat then []
  else
    let combined := fold_left combineExisting existing ∅ in
    let combined := fold_left combineAdditional additional combined in
    let result := sortSlice scoreLess (map snd (map_to_list combined)) in
    if (0 <? limit)%Z && (limit <? Z.of_nat (length result))%Z
    then take (Z.to_nat limit) result
    else result.

Definition copyMetadata (meta : option (gmap string string))
    : option (gmap string string) := meta.

Record WindowPrediction : Type := mkWindowPrediction {
  wIndex : Z;
  wStart : R;
  wEnd : R;
  wPredictions : list Prediction
}.

Record aggregatedLabelStats : Type := mkAggregated {
  aWeightSum : R;
  aDistWeightedSum : R;
  aSupport : Z;
  aCategory : string;
  aDescription : string;
  aMetadata : option (gmap string string);
  aTopPrototypes : list PrototypeScore
}.

Definition zeroAggregated : aggregatedLabelStats :=
  mkAggregated 0 0 0 "" "" None [].

Inductive windowError : Type :=
  | ErrAudioSampleEmpty
  | ErrWindowSampleRate
  | ErrNoAnalysisWindows
  | ErrWindow (e : error).

(** The window length in samples, as [PredictWithSlidingWindows] settles
    it for a clip of [n] samples. *)
Definition windowSize (n sampleRate : Z) (windowSeconds : R) : Z :=
  let windowSeconds := if F64.leb windowSeconds 0 then 3.0 else windowSeconds in
  let windowSize := F64.toInt (windowSeconds * IZR sampleRate) in
  let windowSize := if (windowSize <=? 0)%Z then (sampleRate * 3)%Z else windowSize in
  let windowSize := if (n <? windowSize)%Z then n else windowSize in
  let minWindowSize := 1024%Z in
  if (windowSize <? minWindowSize)%Z
  then (if (n <? minWindowSize)%Z then n else minWindowSize)
  else windowSize.

(** The step from one window to the next. *)
Definition hopSize (windowSize sampleRate : Z) (overlapSeconds : R) : Z :=
  let overlapSeconds := if F64.ltb overlapSeconds 0 then 0 else overlapSeconds in
  let overlapSamples := F64.toInt (overlapSeconds * IZR sampleRate) in
  let hopSize := (windowSize - overlapSamples)%Z in
  let hopSize :=
    if (hopSize <=? 0)%Z
    then (let half := Z.quot windowSize 2 in if (half =? 0)%Z then 1%Z else half)
    else hopSize in
  if (windowSize <? hopSize)%Z then windowSize else hopSize.

Section SlidingWindows.

Context `{SliceSorter}.

(** The loop over the predictions of one window. *)
Definition aggregatePrediction (acc : gmap string aggregatedLabelStats * R)
    (pred : Prediction) : gmap string aggregatedLabelStats * R :=
  let '(labelAggregates, totalWeight) := acc in
  if F64.leb (Confidence pred) 0 then (labelAggregates, totalWeight)
  else
    let stats := default zeroAggregated (labelAggregates !! pLabel pred) in
    let stats :=
      mkAggregated
        (aWeightSum stats + Confidence pred)
        (aDistWeightedSum stats + AverageDist pred * Confidence pred)
        (aSupport stats + Support pred)
        (if String.eqb (aCategory stats) "" then pCategory pred else aCategory stats)
        (if String.eqb (aDescription stats) ""
            && negb (String.eqb (pDescription pred) "")
         then pDescription pred else aDescription stats)
        (match aMetadata stats, pMetadata pred with
         | None, Some _ => copyMetadata (pMetadata pred)
         | _, _ => aMetadata stats
         end)
        (mergePrototypeScores (aTopPrototypes stats) (TopPrototypes pred) 5) in
    (<[pLabel pred := stats]> labelAggregates, totalWeight + Confidence pred).

(** The loop over the windows, from the window that starts at [start]; the
    start moves on by [hopSize], which is at least 1, so the loop takes at
    most as many turns as there are samples. *)
Fixpoint slidingLoop (fuel : nat) (c : Classifier) (samples : list R)
    (sampleRate windowSize hopSize start : Z)
    (state : gmap string aggregatedLabelStats * list WindowPrediction * R)
    : windowError + (gmap string aggregatedLabelStats * list WindowPrediction * R) :=
  match fuel with
  | O => inr state
  | S fuel' =>
      let n := Z.of_nat (length samples) in
      if negb (start <? n)%Z then inr state
      else
        let finish := (start + windowSize)%Z in
        let finish := if (n <? finish)%Z then n else finish in
        let windowSamples :=
          take (Z.to_nat (finish - start)) (drop (Z.to_nat start) samples) in
        if (length windowSamples <? 256)%nat then inr state
        else
          match ExtractFeatureVector windowSamples sampleRate with
          | Err e => inl (ErrWindow e)
          | Ok features =>
              match Predict c features with
              | Err e => inl (ErrWindow e)
              | Ok windowPreds =>
                  let '(labelAggregates, windowPredictions, totalWeight) := state in
                  let windowPredictions :=
                    windowPredictions ++
                      [mkWindowPrediction (Z.of_nat (length windowPredictions))
                         (IZR start / IZR sampleRate) (IZR finish / IZR sampleRate)
                         windowPreds] in
                  let '(labelAggregates, totalWeight) :=
                    fold_left aggregatePrediction windowPreds
                      (labelAggregates, totalWeight) in
                  let state := (labelAggregates, windowPredictions, totalWeight) in
                  if (finish =? n)%Z then inr state
                  else
                    let start := (start + hopSize)%Z in
                    if (n <=? start)%Z then inr state
                    else
                      slidingLoop fuel' c samples sampleRate windowSize hopSize
                        start state
              end
          end
  end.

Definition buildAggregated (totalWeight : R)
    (entry : string * aggregatedLabelStats) : Prediction :=
  let '(label, stats) := entry in
  let confidence := aWeightSum stats / totalWeight in
  let avgDist :=
    if F64.ltb 0 (aWeightSum stats)
    then aDistWeightedSum stats / aWeightSum stats else 0.0 in
  mkPrediction label (aCategory stats) (aDescription stats) confidence avgDist
    (aSupport stats) (aTopPrototypes stats) (aMetadata stats).

Definition PredictWithSlidingWindows (c : Classifier) (samples : list R)
    (sampleRate : Z) (windowSeconds overlapSeconds : R)
    : windowError + (list Prediction * list WindowPrediction) :=
  if (length samples =? 0)%nat then inl ErrAudioSampleEmpty
  else if (sampleRate <=? 0)%Z then inl ErrWindowSampleRate
  else
    let n := Z.of_nat (length samples) in
    let window := windowSize n sampleRate windowSeconds in
    let hop := hopSize window sampleRate overlapSeconds in
    match slidingLoop (length samples) c samples sampleRate window hop 0 (∅, [], 0) with
    | inl e => inl e
    | inr (labelAggregates, windowPredictions, totalWeight) =>
        if (length windowPredictions =? 0)%nat then inl ErrNoAnalysisWindows
        else if (size labelAggregates =? 0)%nat || F64.eqb totalWeight 0
        then inr ([], windowPredictions)
        else
          let predictions :=
            map (buildAggregated totalWeight) (map_to_list labelAggregates) in
          inr (sortSlice predictionLess predictions, windowPredictions)
    end.

End SlidingWindows.

(** The sum of the weights held in the table of aggregates. *)
Definition aggregatedWeight (labelAggregates : gmap string aggregatedLabelStats) : R :=
  sumList (map (fun entry => aWeightSum entry.2) (map_to_list labelAggregates)).

(** A window as the loop records it in position [i], for a clip of [n]
    samples. *)
Definition wellFormedWindow (n sampleRate : Z) (i : nat) (w : WindowPrediction)
    : Prop :=
  wIndex w = Z.of_nat i
  /\ 0 <= wStart w
  /\ wStart w + 256 / IZR sampleRate <= wEnd w
  /\ wEnd w <= IZR n / IZR sampleRate.

(** What the aggregation of the windows keeps true of its table. *)
Definition aggregatesInvariant
    (labelAggregates : gmap string aggregatedLabelStats) : Prop :=
  map_Forall (fun _ stats =>
                0 < aWeightSum stats
                /\ (length (aTopPrototypes stats) <= 5)%nat)
             labelAggregates.

(** The loop state the analysis keeps: the total weight is the sum of the
    weights in the table, and every window recorded so far is well
    formed. *)
Definition slidingInvariant (n sampleRate : Z)
    (state : gmap string aggregatedLabelStats * list WindowPrediction * R) : Prop :=
  aggregatesInvariant state.1.1
  /\ state.2 = aggregatedWeight state.1.1
  /\ forall i w, state.1.2 !! i = Some w -> wellFormedWindow n sampleRate i w.

(** ** Audio pre-processing *)

Record PreprocessingConfig : Type := mkPreprocessingConfig {
  EnableHighPass : bool;
  HighPassCutoff : R;
  EnableBandPass : bool;
  BandPassLow : R;
  BandPassHigh : R;
  EnableAGC : bool;
  AGCTargetLevel : R;
  EnableNoiseReduction : bool;
  NoiseReductionAlpha : R
}.

Definition DefaultPreprocessingConfig : PreprocessingConfig :=
  mkPreprocessingConfig true 50.0 true 100.0 5000.0 true 0.3 false 0.1.

(** The loop of [HighPassFilter] past the first sample, threading the
    previous output and the previous input. *)
Fixpoint highPassLoop (alpha prevOutput prevInput : R) (rest : list R) : list R :=
  match rest with
  | [] => []
  | x :: rest' =>
      let y := alpha * (prevOutput + x - prevInput) in
      y :: highPassLoop alpha y x rest'
  end.

Definition HighPassFilter (samples : list R) (sampleRate : Z) (cutoffHz : R) : list R :=
  if F64.leb cutoffHz 0 || F64.leb (IZR sampleRate / 2) cutoffHz then samples
  else
    let rc := 1.0 / (2 * PI * cutoffHz) in
    let dt := 1.0 / IZR sampleRate in
    let alpha := rc / (rc + dt) in
    match samples with
    | [] => []
    | x :: rest => x :: highPassLoop alpha x x rest
    end.

(** The loop of [LowPassFilter] past the first sample. *)
Fixpoint lowPassLoop (alpha prevOutput : R) (rest : list R) : list R :=
  match rest with
  | [] => []
  | x :: rest' =>
      let y := alpha * x + (1 - alpha) * prevOutput in
      y :: lowPassLoop alpha y rest'
  end.

Definition LowPassFilter (samples : list R) (sampleRate : Z) (cutoffHz : R) : list R :=
  if F64.leb cutoffHz 0 || F64.leb (IZR sampleRate / 2) cutoffHz then samples
  else
    let rc := 1.0 / (2 * PI * cutoffHz) in
    let dt := 1.0 / IZR sampleRate in
    let alpha := dt / (rc + dt) in
    match samples with
    | [] => []
    | x :: rest => x * alpha :: lowPassLoop alpha (x * alpha) rest
    end.

Definition BandPassFilter (samples : list R) (sampleRate : Z) (lowHz highHz : R)
    : list R :=
  let result := HighPassFilter samples sampleRate lowHz in
  LowPassFilter result sampleRate highHz.

(** The soft limiter of [ApplyAGC]. *)
Definition softLimit (amplified : R) : R :=
  if F64.ltb 0.95 (Rabs amplified) then tanh amplified * 0.95 else amplified.

Definition ApplyAGC (samples : list R) (targetRMS : R) : list R :=
  if (length samples =? 0)%nat then samples
  else
    let currentRMS := sqrt (sumSquares samples / INR (length samples)) in
    if F64.eqb currentRMS 0 || F64.ltb (Rabs (currentRMS - targetRMS)) 1e-6
    then samples
    else
      let gain := targetRMS / currentRMS in
      map (fun s => softLimit (s * gain)) samples.

Definition estimateNoiseFloor (samples : list R) (sampleRate : Z) : R :=
  if (length samples =? 0)%nat then 0.0
  else sqrt (sumSquares samples / INR (length samples)).

(** [math.Copysign]: the magnitude of [x] with the sign of [y]. *)
Definition Copysign (x y : R) : R := if F64.ltb y 0 then - Rabs x else Rabs x.

Definition SimpleNoiseReduction (samples : list R) (sampleRate : Z) (alpha : R)
    : list R :=
  if (length samples <? 1024)%nat then samples
  else
    let noiseLength := (length samples / 10)%nat in
    let noiseLength := if (noiseLength <? 512)%nat then 512%nat else noiseLength in
    let noiseEstimate := estimateNoiseFloor (take noiseLength samples) sampleRate in
    let noiseThreshold := noiseEstimate * (1.0 + alpha) in
    map (fun s =>
           if F64.ltb noiseThreshold (Rabs s)
           then s - Copysign (noiseEstimate * alpha) s
           else s * (1.0 - alpha * 2.0))
        samples.

Definition PreprocessAudio (samples : list R) (sampleRate : Z)
    (config : PreprocessingConfig) : list R :=
  if (length samples =? 0)%nat then samples
  else
    let result := samples in
    let result :=
      if EnableHighPass config
      then HighPassFilter result sampleRate (HighPassCutoff config) else result in
    let result :=
      if EnableBandPass config
      then BandPassFilter result sampleRate (BandPassLow config) (BandPassHigh config)
      else result in
    let result :=
      if EnableAGC config then ApplyAGC result (AGCTargetLevel config) else result in
    if EnableNoiseReduction config
    then SimpleNoiseReduction result sampleRate (NoiseReductionAlpha config)
    else result.

Definition log10 (x : R) : R := ln x / ln 10.

Definition EstimateSNR (samples : list R) : R :=
  if (length samples =? 0)%nat then 0.0
  else
    let noiseLength := (length samples / 10)%nat in
    let noiseLength := if (noiseLength <? 512)%nat then 512%nat else noiseLength in
    let noiseLength :=
      if (length samples <? noiseLength)%nat then length samples else noiseLength in
    let noisePower := estimateNoiseFloor (take noiseLength samples) 44100 in
    let noisePower := noisePower * noisePower in
    let signalPower := sumSquares samples / INR (length samples) in
    if F64.eqb noisePower 0 then 100.0
    else
      let snr := signalPower / noisePower in
      if F64.leb snr 0 then -100.0
      else 10.0 * log10 snr.

(** The smoothing factors of the two filters. *)
Definition highPassAlpha (sampleRate : Z) (cutoffHz : R) : R :=
  let rc := 1.0 / (2 * PI * cutoffHz) in
  let dt := 1.0 / IZR sampleRate in
  rc / (rc + dt).

Definition lowPassAlpha (sampleRate : Z) (cutoffHz : R) : R :=
  let rc := 1.0 / (2 * PI * cutoffHz) in
  let dt := 1.0 / IZR sampleRate in
  dt / (rc + dt).

(** The number of leading samples [EstimateSNR] takes for noise, in a clip
    of [n] samples. *)
Definition noiseLength (n : nat) : nat := Nat.min n (Nat.max (n / 10) 512).

(** ** The discrete Fourier transform *)

Definition unitRoot (N m : nat) : Cmplx.complex128 :=
  Cmplx.mkComplex (cos (-2 * PI * INR m / INR N)) (sin (-2 * PI * INR m / INR N)).

Definition complexSum (terms : list Cmplx.complex128) : Cmplx.complex128 :=
  Cmplx.mkComplex (sumList (map Cmplx.re terms)) (sumList (map Cmplx.im terms)).

(** Bin [k] of the discrete Fourier transform of [xs]. *)
Definition DFT (xs : list Cmplx.complex128) (k : nat) : Cmplx.complex128 :=
  complexSum
    (map (fun n => Cmplx.mul (unitRoot (length xs) (n * k)) (xs !!! n))
         (seq 0 (length xs))).

(** The weight [applyHannWindow] gives sample [i] of a buffer of [len]
    samples. *)
Definition hannWeight (len i : nat) : R :=
  0.5 * (1 - cos ((2 * PI * INR i) / INR (len - 1))).

(** * Properties *)

(** ** Comparisons *)

Lemma ltb_true x y : F64.ltb x y = true <-> x < y.
Proof. unfold F64.ltb. destruct (Rlt_dec x y); split; (lra || congruence || auto). Qed.

Lemma ltb_false x y : F64.ltb x y = false <-> y <= x.
Proof. unfold F64.ltb. destruct (Rlt_dec x y); split; (lra || congruence || auto). Qed.

Lemma leb_true x y : F64.leb x y = true <-> x <= y.
Proof. unfold F64.leb. destruct (Rle_dec x y); split; (lra || congruence || auto). Qed.

Lemma leb_false x y : F64.leb x y = false <-> y < x.
Proof. unfold F64.leb. destruct (Rle_dec x y); split; (lra || congruence || auto). Qed.

Lemma eqb_true x y : F64.eqb x y = true <-> x = y.
Proof. unfold F64.eqb. destruct (Req_dec_T x y); split; (lra || congruence || auto). Qed.

Lemma eqb_false x y : F64.eqb x y = false <-> x <> y.
Proof. unfold F64.eqb. destruct (Req_dec_T x y); split; (lra || congruence || auto). Qed.

(** Decide every comparison in sight, innermost first, and close the
    arithmetic. *)
Ltac no_dec t :=
  lazymatch t with
  | context [Rlt_dec _ _] => fail
  | context [Rle_dec _ _] => fail
  | context [Req_dec_T _ _] => fail
  | _ => idtac
  end.

Ltac f64_cases :=
  unfold F64.ltb, F64.leb, F64.eqb in *;
  repeat match goal with
         | |- context [Rlt_dec ?x ?y] => no_dec x; no_dec y; destruct (Rlt_dec x y)
         | |- context [Rle_dec ?x ?y] => no_dec x; no_dec y; destruct (Rle_dec x y)
         | |- context [Req_dec_T ?x ?y] => no_dec x; no_dec y; destruct (Req_dec_T x y)
         end;
  simpl; try reflexivity; try lra.

(** ** The adaptive threshold *)

Lemma clampThreshold_cases x :
  clampThreshold x = if F64.ltb x 0.5 then 0.5 else if F64.ltb 0.9 x then 0.9 else x.
Proof.
  unfold clampThreshold, Rmax, Rmin.
  destruct (Rle_dec 0.9 x); destruct (Rle_dec 0.5 0.9); try lra;
    try destruct (Rle_dec 0.5 x); f64_cases.
Qed.

Lemma AdaptiveThreshold_band tau snr adj :
  snrBand snr adj -> AdaptiveThreshold tau snr = clampThreshold (tau + adj).
Proof.
  intros Hband. rewrite clampThreshold_cases. unfold AdaptiveThreshold.
  inversion Hband; subst; f64_cases.
Qed.

Lemma snrBand_total snr : exists adj, snrBand snr adj.
Proof.
  destruct (Rlt_dec snr 10); [eexists; apply band_very_noisy; lra|].
  destruct (Rlt_dec snr 20); [eexists; apply band_moderate; lra|].
  destruct (Rlt_dec snr 30); [eexists; apply band_good; lra|].
  eexists; apply band_excellent; lra.
Qed.

Lemma clampThreshold_range x : 0.5 <= clampThreshold x <= 0.9.
Proof. rewrite clampThreshold_cases. f64_cases. Qed.

(** C2.  Whatever the base threshold and the SNR, [AdaptiveThreshold] adds
    0.15 below 10 dB, 0.10 from 10 dB up to 20 dB, 0.05 from 20 dB up to
    30 dB and nothing from 30 dB on, and clamps the sum to [0.5, 0.9]; each
    of the boundaries 10, 20 and 30 belongs to the band with the smaller
    offset, while 9.999, 19.999 and 29.999 still belong to the band below. *)
Theorem AdaptiveThreshold_bands (tau snr : R) :
  (forall adj, snrBand snr adj ->
     AdaptiveThreshold tau snr = clampThreshold (tau + adj))
  /\ (exists adj, snrBand snr adj)
  /\ 0.5 <= AdaptiveThreshold tau snr <= 0.9
  /\ AdaptiveThreshold tau 9.999 = clampThreshold (tau + 0.15)
  /\ AdaptiveThreshold tau 10.000 = clampThreshold (tau + 0.10)
  /\ AdaptiveThreshold tau 19.999 = clampThreshold (tau + 0.10)
  /\ AdaptiveThreshold tau 20.000 = clampThreshold (tau + 0.05)
  /\ AdaptiveThreshold tau 29.999 = clampThreshold (tau + 0.05)
  /\ AdaptiveThreshold tau 30.000 = clampThreshold tau.
Proof.
  split; [intros adj; apply AdaptiveThreshold_band|].
  split; [apply snrBand_total|].
  split.
  { destruct (snrBand_total snr) as [adj Hadj].
    rewrite (AdaptiveThreshold_band tau snr adj Hadj). apply clampThreshold_range. }
  repeat split.
  - apply AdaptiveThreshold_band, band_very_noisy; lra.
  - apply AdaptiveThreshold_band, band_moderate; lra.
  - apply AdaptiveThreshold_band, band_moderate; lra.
  - apply AdaptiveThreshold_band, band_good; lra.
  - apply AdaptiveThreshold_band, band_good; lra.
  - replace tau with (tau + 0) at 2 by lra.
    apply AdaptiveThreshold_band, band_excellent; lra.
Qed.

Lemma AdaptiveThreshold_scenario :
  AdaptiveThreshold 0.55 5 = 0.70 /\ AdaptiveThreshold 0.55 35 = 0.55.
Proof.
  split.
  - rewrite (AdaptiveThreshold_band 0.55 5 0.15) by (apply band_very_noisy; lra).
    rewrite clampThreshold_cases. f64_cases.
  - rewrite (AdaptiveThreshold_band 0.55 35 0) by (apply band_excellent; lra).
    rewrite clampThreshold_cases. f64_cases.
Qed.

(** The scenario of the specification: base 0.55 at 5 dB gives 0.70, and at
    35 dB the base threshold itself. *)
Lemma AdaptiveThreshold_bands_witness :
  AdaptiveThreshold 0.55 5 = 0.70 /\ AdaptiveThreshold 0.55 35 = 0.55.
Proof.
  destruct (AdaptiveThreshold_bands 0.55 5) as [H5 _].
  destruct (AdaptiveThreshold_bands 0.55 35) as [H35 _].
  split.
  - rewrite (H5 0.15) by (apply band_very_noisy; lra).
    rewrite clampThreshold_cases. f64_cases.
  - rewrite (H35 0) by (apply band_excellent; lra).
    rewrite clampThreshold_cases. f64_cases.
Defined.

(** ** The drone decision *)

Lemma equalFoldASCII_asciiLower (s t : string) :
  GoStrings.equalFoldASCII s t = true <-> asciiLower s = asciiLower t.
Proof.
  revert t. induction s as [|a s IH]; intros [|b t]; simpl; split;
    try congruence; try reflexivity.
  - intros [Hab Hst]%andb_prop. apply Ascii.eqb_eq in Hab.
    apply IH in Hst. congruence.
  - intros Heq. injection Heq as Hab Hst.
    apply andb_true_intro. split; [now apply Ascii.eqb_eq | now apply IH].
Qed.

Lemma toLower_below (a : ascii) :
  (nat_of_ascii (GoStrings.toLower a) <? 128)%nat = true ->
  (nat_of_ascii a <? 128)%nat = true.
Proof.
  unfold GoStrings.toLower, GoStrings.isUpper.
  destruct (Nat.leb_spec 65 (nat_of_ascii a)) as [Hlo|Hlo]; cbn [andb];
    [|trivial].
  destruct (Nat.leb_spec (nat_of_ascii a) 90) as [Hhi|Hhi]; [|trivial].
  intros _. apply Nat.ltb_lt. lia.
Qed.

(** A string whose lowered form is ASCII is ASCII itself. *)
Lemma isASCII_asciiLower (s : string) :
  GoStrings.isASCII (asciiLower s) = true -> GoStrings.isASCII s = true.
Proof.
  induction s as [|a s IH]; [trivial|]. cbn [asciiLower GoStrings.isASCII].
  intros [Ha Hs]%andb_prop. apply andb_true_intro.
  split; [now apply toLower_below | now apply IH].
Qed.

(** Whatever the folding does outside ASCII, a category that reads "noise"
    once its ASCII capitals are lowered matches "noise". *)
Lemma EqualFold_noise `{GoStrings.CaseFolding} (category : string) :
  asciiLower category = "noise"%string ->
  GoStrings.EqualFold category "noise" = true.
Proof.
  intros Hlower.
  rewrite GoStrings.EqualFold_ascii;
    [| apply isASCII_asciiLower; now rewrite Hlower | reflexivity].
  apply equalFoldASCII_asciiLower. now rewrite Hlower.
Qed.

(** On a category of ASCII bytes the match with "noise" is the comparison
    of the lowered category. *)
Lemma EqualFold_noise_ascii `{GoStrings.CaseFolding} (category : string) :
  GoStrings.isASCII category = true ->
  (GoStrings.EqualFold category "noise" = true
   <-> asciiLower category = "noise"%string).
Proof.
  intros Hascii. rewrite GoStrings.EqualFold_ascii by (trivial || reflexivity).
  apply equalFoldASCII_asciiLower.
Qed.

Lemma threshold_adjusted (baseThreshold snrDb : R) :
  (if negb (F64.eqb snrDb 0.0)
   then AdaptiveThreshold baseThreshold snrDb else baseThreshold)
  = adjustedThreshold baseThreshold snrDb.
Proof.
  unfold adjustedThreshold, F64.eqb.
  replace 0.0 with 0 by lra.
  destruct (Req_dec_T snrDb 0); reflexivity.
Qed.

Lemma DetermineDroneLikelyWithSNR_folded `{GoStrings.CaseFolding}
    (predictions : list Prediction) (baseThreshold snrDb : R) :
  DetermineDroneLikelyWithSNR predictions baseThreshold snrDb
  = foldedCategoryDecision predictions baseThreshold snrDb.
Proof.
  destruct predictions as [|best rest]; [reflexivity|].
  unfold DetermineDroneLikelyWithSNR, foldedCategoryDecision.
  rewrite threshold_adjusted.
  destruct (GoStrings.EqualFold (pCategory best) "noise"); reflexivity.
Qed.

(** A top prediction whose category is spelled "Noise" is never a drone,
    for every folding. *)
Lemma capitalised_noise_decision `{GoStrings.CaseFolding}
    (top : Prediction) (rest : list Prediction) (baseThreshold snrDb : R) :
  pCategory top = "Noise"%string ->
  DetermineDroneLikelyWithSNR (top :: rest) baseThreshold snrDb = false.
Proof.
  intros Hcat. unfold DetermineDroneLikelyWithSNR.
  now rewrite Hcat, (EqualFold_noise "Noise") by reflexivity.
Qed.

(** C1, as stated, fails: a top prediction whose category is spelled
    "Noise", with confidence 0.99 against the threshold 0.55, is not a drone
    for the code, while the byte-for-byte comparison with "noise" makes it
    one.  The category is ASCII, so the folding chosen here is immaterial
    ([capitalised_noise_decision]). *)
Lemma exact_category_decision_differs :
  let top := mkPrediction "street" "Noise" "" 0.99 0.01 1 [] None in
  @DetermineDroneLikelyWithSNR GoStrings.asciiFolding [top] 0.55 0 = false
  /\ exactCategoryDecision [top] 0.55 0 = true.
Proof.
  split; [now apply capitalised_noise_decision|].
  unfold exactCategoryDecision, adjustedThreshold. simpl.
  destruct (Req_dec_T 0 0); [|lra]. f64_cases.
Qed.

(** C1, amended.  The decision is taken on the first prediction alone: it is
    positive exactly when that prediction exists, its category does not match
    "noise" under [strings.EqualFold] and its confidence reaches the
    threshold, which is the base threshold when [snr_db = 0] and the
    SNR-adjusted one otherwise.  An empty list is never a drone, and neither
    is a list headed by a prediction whose category matches "noise",
    whatever its confidence.  A category that reads "noise" in any mix of
    upper and lower case matches; for a category of ASCII bytes these are
    the only matches.  All of it holds for every folding, so for Go's, which
    also folds letters outside ASCII. *)
Theorem DetermineDroneLikelyWithSNR_decision `{GoStrings.CaseFolding}
    (predictions : list Prediction) (baseThreshold snrDb : R) :
  (DetermineDroneLikelyWithSNR predictions baseThreshold snrDb = true <->
   exists top rest,
     predictions = top :: rest
     /\ GoStrings.EqualFold (pCategory top) "noise" = false
     /\ adjustedThreshold baseThreshold snrDb <= Confidence top)
  /\ DetermineDroneLikelyWithSNR [] baseThreshold snrDb = false
  /\ (forall top rest,
        GoStrings.EqualFold (pCategory top) "noise" = true ->
        DetermineDroneLikelyWithSNR (top :: rest) baseThreshold snrDb = false)
  /\ (forall top rest,
        asciiLower (pCategory top) = "noise"%string ->
        DetermineDroneLikelyWithSNR (top :: rest) baseThreshold snrDb = false)
  /\ (forall top rest,
        GoStrings.isASCII (pCategory top) = true ->
        (DetermineDroneLikelyWithSNR (top :: rest) baseThreshold snrDb = true <->
         asciiLower (pCategory top) <> "noise"%string
         /\ adjustedThreshold baseThreshold snrDb <= Confidence top))
  /\ GoStrings.EqualFold "noise" "noise" = true
  /\ GoStrings.EqualFold "Noise" "noise" = true
  /\ GoStrings.EqualFold "NOISE" "noise" = true
  /\ GoStrings.EqualFold "drone" "noise" = false
  /\ adjustedThreshold baseThreshold 0 = baseThreshold
  /\ (snrDb <> 0 ->
      adjustedThreshold baseThreshold snrDb = AdaptiveThreshold baseThreshold snrDb).
Proof.
  assert (Hmatch : forall top rest,
            GoStrings.EqualFold (pCategory top) "noise" = true ->
            DetermineDroneLikelyWithSNR (top :: rest) baseThreshold snrDb = false).
  { intros top rest Hnoise. simpl. now rewrite Hnoise. }
  split; [|split; [reflexivity|split; [exact Hmatch|split; [|split]]]].
  - rewrite DetermineDroneLikelyWithSNR_folded.
    destruct predictions as [|top rest]; simpl.
    + split; [discriminate|]. intros (t & r & Heq & _). discriminate.
    + rewrite andb_true_iff, negb_true_iff, leb_true.
      split.
      * intros [Hcat Hconf]. exists top, rest. auto.
      * intros (t & r & Heq & Hcat & Hconf). injection Heq as <- <-. auto.
  - intros top rest Hlower. apply Hmatch. now apply EqualFold_noise.
  - intros top rest Hascii. rewrite DetermineDroneLikelyWithSNR_folded.
    cbn [foldedCategoryDecision].
    rewrite andb_true_iff, negb_true_iff, leb_true.
    pose proof (EqualFold_noise_ascii (pCategory top) Hascii) as Hiff.
    destruct (GoStrings.EqualFold (pCategory top) "noise").
    + split; [intros [? _]; discriminate|].
      intros [Hne _]. exfalso. apply Hne. now apply Hiff.
    + split; intros [_ Hconf]; (split; [|exact Hconf]); [|reflexivity].
      intros Heq. apply Hiff in Heq. discriminate.
  - repeat split.
    + now apply EqualFold_noise.
    + now apply EqualFold_noise.
    + now apply EqualFold_noise.
    + rewrite GoStrings.EqualFold_ascii by reflexivity. reflexivity.
    + unfold adjustedThreshold. destruct (Req_dec_T 0 0); [reflexivity|lra].
    + intros Hsnr. unfold adjustedThreshold.
      destruct (Req_dec_T snrDb 0); [contradiction|reflexivity].
Qed.

(** The two scenarios of the specification: confidence 0.64 at 5 dB is below
    the adjusted threshold 0.70; a "noise" top prediction beats a drone in
    second place. *)
Lemma DetermineDroneLikelyWithSNR_decision_witness :
  @DetermineDroneLikelyWithSNR GoStrings.asciiFolding
    [mkPrediction "quad" "drone" "" 0.64 0.2 3 [] None] 0.55 5 = false
  /\ @DetermineDroneLikelyWithSNR GoStrings.asciiFolding
       [mkPrediction "quad" "drone" "" 0.64 0.2 3 [] None] 0.55 35 = true
  /\ @DetermineDroneLikelyWithSNR GoStrings.asciiFolding
       [mkPrediction "wind" "noise" "" 0.6 0.2 3 [] None;
        mkPrediction "quad" "drone" "" 0.3 0.4 2 [] None] 0.55 0 = false.
Proof.
  split; [|split].
  - apply not_true_iff_false. intros Htrue.
    apply (proj1 (DetermineDroneLikelyWithSNR_decision _ _ _)) in Htrue.
    destruct Htrue as (t & r & Heq & _ & Hconf). injection Heq as <- <-.
    simpl in Hconf. unfold adjustedThreshold in Hconf.
    destruct (Req_dec_T 5 0); [lra|].
    destruct AdaptiveThreshold_scenario as [H5 _]. lra.
  - apply (proj1 (DetermineDroneLikelyWithSNR_decision _ _ _)).
    eexists _, _. split; [reflexivity|]. split; [reflexivity|].
    simpl. unfold adjustedThreshold. destruct (Req_dec_T 35 0); [lra|].
    destruct AdaptiveThreshold_scenario as [_ H35]. lra.
  - apply (proj1 (proj2 (proj2 (DetermineDroneLikelyWithSNR_decision [] 0.55 0)))).
    reflexivity.
Defined.

(** ** The prototype store *)

Lemma featureWeights_length : length featureWeights = 2048%nat.
Proof. unfold featureWeights. apply length_replicate. Qed.

Lemma NormaliseVectorInPlace_length (vector : list R) :
  length (NormaliseVectorInPlace vector) = length vector.
Proof.
  unfold NormaliseVectorInPlace.
  destruct (F64.eqb (sumSquares vector) 0); [reflexivity|apply length_map].
Qed.

Lemma Transform_length (fs : FeatureScaler) (features : list R) :
  length (Transform fs features) = length features.
Proof.
  unfold Transform.
  destruct (negb (length features =? length (Mean fs))%nat); [reflexivity|].
  apply length_imap.
Qed.

Lemma AddPrototype_empty (c : Classifier) (proto : Prototype) :
  Features proto = [] -> AddPrototype c proto = (c, Err ErrAddNoFeatures).
Proof. intros Hf. unfold AddPrototype. now rewrite Hf. Qed.

Lemma AddPrototype_appends (c : Classifier) (proto : Prototype) :
  Features proto <> [] ->
  exists stored,
    AddPrototype c proto = (fst (AddPrototype c proto), Ok stored)
    /\ prototypes (fst (AddPrototype c proto)) = prototypes c ++ [stored]
    /\ length (Features stored) = length (Features proto)
    /\ ID stored = ID proto /\ Label stored = Label proto
    /\ usingExample (fst (AddPrototype c proto)) = false
    /\ k (fst (AddPrototype c proto)) = k c
    /\ modelPath (fst (AddPrototype c proto)) = modelPath c
    /\ featureScaler (fst (AddPrototype c proto)) = featureScaler c.
Proof.
  intros Hf. unfold AddPrototype.
  destruct (Features proto) as [|x xs] eqn:Hfeat; [congruence|].
  simpl length. simpl Nat.eqb. cbv iota.
  eexists. split; [reflexivity|]. simpl.
  repeat split.
  rewrite NormaliseVectorInPlace_length.
  destruct (featureScaler c); [apply Transform_length|reflexivity].
Qed.

Lemma seededStore_loaded :
  NewClassifierFromFile seededFiles "drone/prototypes.json" 5 = Ok seededStore.
Proof. vm_compute. reflexivity. Qed.

Lemma emptyStore_loaded :
  NewClassifierFromFile emptyFiles "drone/prototypes.json" 5 = Ok emptyStore.
Proof. vm_compute. reflexivity. Qed.

Lemma expectedDim_eq : expectedDim = 2048%nat.
Proof. apply featureWeights_length. Qed.

(** C5 fails on the code, and the code is at fault: [AddPrototype] has no
    check of the dimensionality, although the loader has one.  The store
    loaded from a file of 2048-dimensional embeddings takes in a prototype
    of 19 features, which the loader's validation refuses; the upload is
    answered with the stored prototype, the store holds two prototypes
    afterwards and is no longer dimensionally uniform. *)
Theorem AddPrototype_accepts_other_dimension :
  uniformDim seededStore
  /\ length (Features handcraftedPrototype) <> expectedDim
  /\ validatePrototypes expectedDim [handcraftedPrototype] ∅ ∅
     = Err (ErrPrototypeFeatureCount "proto_phantom_0002" 19 2048)
  /\ exists stored,
       snd (AddPrototype seededStore handcraftedPrototype) = Ok stored
       /\ prototypes (fst (AddPrototype seededStore handcraftedPrototype))
          = [embeddingPrototype; stored]
       /\ length (Features stored) = 19%nat
       /\ ~ uniformDim (fst (AddPrototype seededStore handcraftedPrototype)).
Proof.
  split; [|split; [|split]].
  - repeat constructor.
  - rewrite expectedDim_eq. vm_compute. lia.
  - rewrite expectedDim_eq. vm_compute. reflexivity.
  - destruct (AddPrototype_appends seededStore handcraftedPrototype)
      as (stored & Heq & Hps & Hlen & _); [discriminate|].
    exists stored. rewrite Heq at 1. split; [reflexivity|].
    split; [exact Hps|]. split; [exact Hlen|].
    unfold uniformDim. rewrite Hps. simpl. intros Hall.
    inversion Hall as [|? ? _ Hrest]; subst.
    inversion Hrest as [|? ? Hbad _]; subst.
    rewrite Hlen, expectedDim_eq in Hbad. vm_compute in Hbad. lia.
Qed.

Lemma uploadBatch_step (uploads : list Prototype) (c : Classifier)
    (added : list Prototype) :
  fold_left
    (fun '(c, added) proto =>
       match AddPrototype c proto with
       | (c', Ok stored) => (c', added ++ [stored])
       | (c', Err _) => (c', added)
       end)
    uploads (c, added)
  = (fst (uploadBatch c uploads), added ++ snd (uploadBatch c uploads)).
Proof.
  unfold uploadBatch. revert c added.
  induction uploads as [|proto uploads IH]; intros c added; simpl.
  - now rewrite app_nil_r.
  - destruct (AddPrototype c proto) as [c' [stored|e]].
    + rewrite (IH c' (added ++ [stored])), (IH c' [stored]). simpl.
      now rewrite <- app_assoc.
    + rewrite (IH c' added), (IH c' []). reflexivity.
Qed.

Lemma uploadBatch_cons (c : Classifier) (proto : Prototype) (uploads : list Prototype) :
  uploadBatch c (proto :: uploads)
  = match AddPrototype c proto with
    | (c', Ok stored) =>
        (fst (uploadBatch c' uploads), stored :: snd (uploadBatch c' uploads))
    | (c', Err _) => uploadBatch c' uploads
    end.
Proof.
  unfold uploadBatch at 1. simpl.
  destruct (AddPrototype c proto) as [c' [stored|e]].
  - now rewrite uploadBatch_step.
  - rewrite uploadBatch_step. simpl. now destruct (uploadBatch c' uploads).
Qed.

Lemma uploadBatch_stores (uploads : list Prototype) (c : Classifier) :
  prototypes (fst (uploadBatch c uploads))
  = prototypes c ++ snd (uploadBatch c uploads)
  /\ map (fun p => length (Features p)) (snd (uploadBatch c uploads))
     = filter (fun n => negb (n =? 0)%nat)
         (map (fun p => length (Features p)) uploads).
Proof.
  revert c. induction uploads as [|proto uploads IH]; intros c.
  - split; [simpl; now rewrite app_nil_r|reflexivity].
  - rewrite uploadBatch_cons.
    destruct (Features proto) as [|x xs] eqn:Hfeat.
    + rewrite (AddPrototype_empty c proto Hfeat).
      destruct (IH c) as [Hps Hlens]. split; [exact Hps|].
      rewrite Hlens. simpl. now rewrite Hfeat.
    + destruct (AddPrototype_appends c proto) as (stored & Heq & Hps & Hlen & _);
        [congruence|].
      rewrite Heq. destruct (IH (fst (AddPrototype c proto))) as [Hps' Hlens].
      split.
      * simpl. rewrite Hps', Hps, <- app_assoc. reflexivity.
      * simpl. rewrite Hlens, Hlen, Hfeat. reflexivity.
Qed.

(** What [AddPrototype] does check.  It rejects a prototype only when its
    feature vector is empty, and then leaves the store as it was; a
    prototype with any other number of features, equal to the store's
    expected dimensionality or not, is appended with a vector of the same
    length.  Over a batch of uploads every prototype with a non-empty vector
    is stored, in order, whatever was rejected before it. *)
Theorem AddPrototype_rejects_only_empty (c : Classifier) (proto : Prototype)
    (uploads : list Prototype) :
  (Features proto = [] -> AddPrototype c proto = (c, Err ErrAddNoFeatures))
  /\ (Features proto <> [] ->
      exists stored,
        AddPrototype c proto = (fst (AddPrototype c proto), Ok stored)
        /\ prototypes (fst (AddPrototype c proto)) = prototypes c ++ [stored]
        /\ length (Features stored) = length (Features proto))
  /\ prototypes (fst (uploadBatch c uploads))
     = prototypes c ++ snd (uploadBatch c uploads)
  /\ map (fun p => length (Features p)) (snd (uploadBatch c uploads))
     = filter (fun n => negb (n =? 0)%nat)
         (map (fun p => length (Features p)) uploads).
Proof.
  split; [apply AddPrototype_empty|].
  split; [|apply uploadBatch_stores].
  intros Hf. destruct (AddPrototype_appends c proto Hf) as (stored & H1 & H2 & H3 & _).
  exists stored. auto.
Qed.

(** A batch of three uploads into the seeded store: the one without features
    is skipped, the 19-dimensional one and the embedding are both stored. *)
Lemma AddPrototype_rejects_only_empty_witness :
  let noFeatures := mkPrototype "proto_blank_0003" "blank" "drone" "" "" [] ∅ in
  AddPrototype seededStore noFeatures = (seededStore, Err ErrAddNoFeatures)
  /\ map (fun p => length (Features p))
       (snd (uploadBatch seededStore
               [noFeatures; handcraftedPrototype; embeddingPrototype]))
     = [19%nat; 2048%nat].
Proof.
  intros noFeatures. split.
  - apply (AddPrototype_rejects_only_empty seededStore noFeatures []). reflexivity.
  - rewrite (proj2 (proj2 (proj2 (AddPrototype_rejects_only_empty seededStore noFeatures
               [noFeatures; handcraftedPrototype; embeddingPrototype])))).
    vm_compute. reflexivity.
Defined.

(** ** Saving and loading *)

Lemma validatePrototypes_loadable (ps : list Prototype)
    (lc : gmap string string) (lm : gmap string (gmap string string)) :
  Forall loadable ps ->
  exists lc' lm', validatePrototypes expectedDim ps lc lm = Ok (lc', lm').
Proof.
  intros Hall. revert lc lm.
  induction Hall as [|proto ps [Hlen Hlabel] _ IH]; intros lc lm; simpl.
  - eauto.
  - rewrite Hlen, expectedDim_eq. simpl (2048 =? 0)%nat. cbv iota.
    destruct (String.eqb_spec (Label proto) ""); [contradiction|].
    rewrite Nat.eqb_refl. simpl negb. cbv iota.
    replace (2048 <? harmonicFeatureCount)%nat with false by reflexivity.
    rewrite <- expectedDim_eq. apply IH.
Qed.

Lemma validatePrototypes_wrong_dimension (proto : Prototype) (ps : list Prototype)
    (lc : gmap string string) (lm : gmap string (gmap string string)) :
  Features proto <> [] -> Label proto <> ""%string ->
  length (Features proto) <> expectedDim ->
  validatePrototypes expectedDim (proto :: ps) lc lm
  = Err (ErrPrototypeFeatureCount (ID proto) (length (Features proto)) expectedDim).
Proof.
  intros Hf Hlabel Hlen. simpl.
  destruct (Features proto) as [|x xs] eqn:Hfeat; [congruence|].
  simpl (length (x :: xs) =? 0)%nat. cbv iota.
  destruct (String.eqb_spec (Label proto) ""); [contradiction|].
  destruct (Nat.eqb_spec (length (x :: xs)) expectedDim); [contradiction|].
  reflexivity.
Qed.

Lemma load_parsed (fs : FileSystem) (path : string) (k : Z) (ps : list Prototype) :
  (0 < k)%Z ->
  fs !! path = Some (PrototypesJSON ps) ->
  NewClassifierFromFile fs path k
  = match validatePrototypes expectedDim ps ∅ ∅ with
    | Err e => Err e
    | Ok (labelCategory, labelMetadata) =>
        let '(featureScaler, prototypes) :=
          match ps with
          | [] => (None, ps)
          | first :: _ =>
              if (length (Features first) =? 2048)%nat then (None, ps)
              else
                match NewFeatureScalerFromPrototypes ps with
                | Err _ => (None, ps)
                | Ok scaler =>
                    (Some scaler,
                     map (fun proto =>
                            mkPrototype (ID proto) (Label proto) (Category proto)
                              (Description proto) (Source proto)
                              (NormaliseVectorInPlace
                                 (Transform scaler (Features proto)))
                              (Metadata proto))
                         ps)
                end
          end in
        let usingExample := GoStrings.HasSuffix path ".example" in
        let modelPath :=
          if usingExample then GoStrings.TrimSuffix path ".example" else path in
        let n := Z.of_nat (length prototypes) in
        let k := if (0 <? n)%Z && (n <? k)%Z then n else k in
        Ok (mkClassifier prototypes k usingExample modelPath
              labelCategory labelMetadata featureScaler)
    end.
Proof.
  intros Hk Hread. unfold NewClassifierFromFile.
  destruct (Z.leb_spec k 0); [lia|]. rewrite Hread. reflexivity.
Qed.

Lemma load_loadable (fs : FileSystem) (path : string) (k : Z) (ps : list Prototype) :
  (0 < k)%Z ->
  fs !! path = Some (PrototypesJSON ps) ->
  Forall loadable ps ->
  exists c,
    NewClassifierFromFile fs path k = Ok c
    /\ prototypes c = ps /\ featureScaler c = None.
Proof.
  intros Hk Hread Hall. rewrite (load_parsed fs path k ps Hk Hread).
  destruct (validatePrototypes_loadable ps ∅ ∅ Hall) as (lc & lm & ->).
  destruct ps as [|first rest].
  - eexists. split; [reflexivity|]. split; reflexivity.
  - inversion Hall as [|? ? [Hlen _] _]; subst.
    rewrite Hlen, expectedDim_eq. simpl (2048 =? 2048)%nat. cbv iota.
    eexists. split; [reflexivity|]. split; reflexivity.
Qed.

Lemma string_length_app (s t : string) :
  String.length (s ++ t) = (String.length s + String.length t)%nat.
Proof. induction s as [|a s IH]; simpl; [reflexivity|now rewrite IH]. Qed.

Lemma tempPath_fresh (path : string) : (path ++ ".tmp")%string <> path.
Proof.
  intros Heq. apply (f_equal String.length) in Heq.
  rewrite string_length_app in Heq. simpl in Heq. lia.
Qed.

(** A save returns no error exactly when the store has a model path and
    none of the four steps fails; the store and the files it leaves are
    then determined. *)
Lemma save_succeeds (env : SaveEnvironment) (c : Classifier) (fs : FileSystem)
    (saved : Classifier) (files : FileSystem) :
  SavePrototypesToFile env c fs = (saved, files, None)
  <-> modelPath c <> ""%string
      /\ mkdirAllFails env = false
      /\ marshalIndentFails env = false
      /\ writeFileOutcome env = Written
      /\ renameFails env = false
      /\ saved = mkClassifier (prototypes c) (k c) false (modelPath c)
                   (labelCategory c) (labelMetadata c) (featureScaler c)
      /\ files = <[modelPath c := PrototypesJSON (prototypes c)]>
                   (delete (modelPath c ++ ".tmp")%string
                      (<[(modelPath c ++ ".tmp")%string :=
                           PrototypesJSON (prototypes c)]> fs)).
Proof.
  unfold SavePrototypesToFile, snapshot.
  destruct (String.eqb_spec (modelPath c) "") as [Hempty|Hpath].
  { split; [discriminate|]. intros [Hne _]. contradiction. }
  destruct (mkdirAllFails env).
  { split; [discriminate|]. intros (_ & Hf & _). discriminate. }
  destruct (marshalIndentFails env).
  { split; [discriminate|]. intros (_ & _ & Hf & _). discriminate. }
  destruct (writeFileOutcome env) as [|leftover].
  2:{ split; [discriminate|]. intros (_ & _ & _ & Hf & _). discriminate. }
  destruct (renameFails env).
  { split; [discriminate|]. intros (_ & _ & _ & _ & Hf & _). discriminate. }
  split.
  - intros [= <- <-]. repeat split; assumption.
  - intros (_ & _ & _ & _ & _ & -> & ->). reflexivity.
Qed.

Lemma save_writes (env : SaveEnvironment) (c : Classifier) (fs : FileSystem)
    (saved : Classifier) (files : FileSystem) :
  SavePrototypesToFile env c fs = (saved, files, None) ->
  prototypes saved = prototypes c
  /\ usingExample saved = false
  /\ files !! modelPath c = Some (PrototypesJSON (prototypes c))
  /\ files !! (modelPath c ++ ".tmp")%string = None.
Proof.
  intros (_ & _ & _ & _ & _ & -> & ->)%save_succeeds.
  split; [reflexivity|]. split; [reflexivity|].
  split; [apply lookup_insert_eq|].
  rewrite lookup_insert_ne by (intros Heq; now apply (tempPath_fresh (modelPath c))).
  apply lookup_delete_eq.
Qed.

Lemma save_noFault (c : Classifier) (fs : FileSystem) :
  modelPath c <> ""%string ->
  exists saved files, SavePrototypesToFile noFault c fs = (saved, files, None).
Proof.
  intros Hpath. eexists _, _. apply save_succeeds.
  repeat split; try reflexivity. exact Hpath.
Qed.

(** The loader stops at the first prototype of another dimensionality that
    follows prototypes it accepts. *)
Lemma validatePrototypes_stops (ps : list Prototype) (proto : Prototype)
    (rest : list Prototype)
    (lc : gmap string string) (lm : gmap string (gmap string string)) :
  Forall loadable ps ->
  Features proto <> [] -> Label proto <> ""%string ->
  length (Features proto) <> expectedDim ->
  validatePrototypes expectedDim (ps ++ proto :: rest) lc lm
  = Err (ErrPrototypeFeatureCount (ID proto) (length (Features proto)) expectedDim).
Proof.
  intros Hall Hf Hlabel Hlen. revert lc lm.
  induction Hall as [|first ps [Hfirst Hfirstlabel] _ IH]; intros lc lm.
  - now apply validatePrototypes_wrong_dimension.
  - cbn [app validatePrototypes]. rewrite Hfirst, expectedDim_eq.
    simpl (2048 =? 0)%nat. cbv iota.
    destruct (String.eqb_spec (Label first) ""); [contradiction|].
    rewrite Nat.eqb_refl. simpl negb. cbv iota.
    replace (2048 <? harmonicFeatureCount)%nat with false by reflexivity.
    rewrite <- expectedDim_eq. apply IH.
Qed.

(** Whatever else a file holds, one prototype of another dimensionality
    makes the loader refuse it. *)
Lemma validatePrototypes_refuses (ps : list Prototype)
    (lc : gmap string string) (lm : gmap string (gmap string string)) :
  Exists (fun proto => length (Features proto) <> expectedDim) ps ->
  exists e, validatePrototypes expectedDim ps lc lm = Err e.
Proof.
  intros Hbad. revert lc lm.
  induction ps as [|proto ps IH]; intros lc lm; [inversion Hbad|].
  cbn [validatePrototypes].
  destruct (length (Features proto) =? 0)%nat; [eauto|].
  destruct (String.eqb (Label proto) ""); [eauto|].
  destruct (Nat.eqb_spec (length (Features proto)) expectedDim) as [Hlen|Hlen];
    cbn [negb]; [|eauto].
  destruct (length (Features proto) <? harmonicFeatureCount)%nat; [eauto|].
  apply IH. apply Exists_cons in Hbad as [Hhere|Hlater]; [contradiction|exact Hlater].
Qed.

(** Every successful save of a store that holds a prototype of another
    dimensionality than the loader's writes a model file the loader
    refuses. *)
Lemma save_then_load_refuses (env : SaveEnvironment) (c : Classifier)
    (fs : FileSystem) (saved : Classifier) (files : FileSystem) (k0 : Z) :
  SavePrototypesToFile env c fs = (saved, files, None) ->
  Exists (fun proto => length (Features proto) <> expectedDim) (prototypes c) ->
  exists e, NewClassifierFromFile files (modelPath c) k0 = Err e.
Proof.
  intros Hsave Hbad.
  destruct (save_writes env c fs saved files Hsave) as (_ & _ & Hfile & _).
  destruct (Z.leb_spec k0 0) as [Hk|Hk].
  - unfold NewClassifierFromFile.
    destruct (Z.leb_spec k0 0); [eauto|lia].
  - rewrite (load_parsed files _ k0 _ Hk Hfile).
    destruct (validatePrototypes_refuses (prototypes c) ∅ ∅ Hbad) as [e ->].
    eauto.
Qed.

(** The upload of the 19 hand-crafted features into a store of loadable
    prototypes kept at the default model path, followed by a save in which
    nothing fails and by a restart. *)
Lemma upload_save_restart (c : Classifier) (fs : FileSystem) :
  modelPath c = "drone/prototypes.json"%string ->
  Forall loadable (prototypes c) ->
  exists stored saved files,
    AddPrototype c handcraftedPrototype
    = (fst (AddPrototype c handcraftedPrototype), Ok stored)
    /\ length (Features stored) = 19%nat
    /\ SavePrototypesToFile noFault (fst (AddPrototype c handcraftedPrototype)) fs
       = (saved, files, None)
    /\ prototypes saved = prototypes c ++ [stored]
    /\ files !! "drone/prototypes.json"%string
       = Some (PrototypesJSON (prototypes c ++ [stored]))
    /\ NewClassifierFromFile files "drone/prototypes.json" 5
       = Err (ErrPrototypeFeatureCount "proto_phantom_0002" 19 2048).
Proof.
  intros Hmodel Hall.
  destruct (AddPrototype_appends c handcraftedPrototype)
    as (stored & Heq & Hps & Hlen & Hid & Hlabel & _ & _ & Hpath & _);
    [discriminate|].
  set (c1 := fst (AddPrototype c handcraftedPrototype)) in *.
  rewrite Hmodel in Hpath.
  destruct (save_noFault c1 fs) as (saved & files & Hsave);
    [rewrite Hpath; discriminate|].
  destruct (save_writes noFault c1 fs saved files Hsave) as (Hsaved & _ & Hfile & _).
  rewrite Hpath, Hps in Hfile.
  exists stored, saved, files.
  split; [exact Heq|]. split; [exact Hlen|]. split; [exact Hsave|].
  split; [now rewrite Hsaved, Hps|]. split; [exact Hfile|].
  rewrite (load_parsed files _ 5 _ ltac:(lia) Hfile).
  rewrite validatePrototypes_stops.
  - rewrite Hid, Hlen, expectedDim_eq. reflexivity.
  - exact Hall.
  - intros Hnil. rewrite Hnil in Hlen. discriminate.
  - rewrite Hlabel. discriminate.
  - rewrite Hlen, expectedDim_eq. vm_compute. lia.
Qed.

(** C3 fails on the code, and the code is at fault.  The store loaded from
    a model file of one 2048-dimensional embedding takes in the upload of a
    prototype of 19 hand-crafted features, as the upload handler builds
    them; the save that follows succeeds and writes both prototypes; the
    next start refuses the file just written, so neither the upload nor the
    embedding that was there before survives the restart that the save is
    there to survive.  The same happens from the empty store, where the
    saved store holds 19-dimensional prototypes only. *)
Theorem save_then_load_refuses_handcrafted :
  NewClassifierFromFile seededFiles "drone/prototypes.json" 5 = Ok seededStore
  /\ NewClassifierFromFile emptyFiles "drone/prototypes.json" 5 = Ok emptyStore
  /\ (exists stored saved files,
        AddPrototype seededStore handcraftedPrototype
        = (fst (AddPrototype seededStore handcraftedPrototype), Ok stored)
        /\ SavePrototypesToFile noFault
             (fst (AddPrototype seededStore handcraftedPrototype)) seededFiles
           = (saved, files, None)
        /\ prototypes saved = [embeddingPrototype; stored]
        /\ files !! "drone/prototypes.json"%string
           = Some (PrototypesJSON [embeddingPrototype; stored])
        /\ NewClassifierFromFile files "drone/prototypes.json" 5
           = Err (ErrPrototypeFeatureCount "proto_phantom_0002" 19 2048))
  /\ (exists stored saved files,
        AddPrototype emptyStore handcraftedPrototype
        = (fst (AddPrototype emptyStore handcraftedPrototype), Ok stored)
        /\ SavePrototypesToFile noFault
             (fst (AddPrototype emptyStore handcraftedPrototype)) emptyFiles
           = (saved, files, None)
        /\ prototypes saved = [stored]
        /\ NewClassifierFromFile files "drone/prototypes.json" 5
           = Err (ErrPrototypeFeatureCount "proto_phantom_0002" 19 2048)).
Proof.
  split; [apply seededStore_loaded|]. split; [apply emptyStore_loaded|]. split.
  - destruct (upload_save_restart seededStore seededFiles)
      as (stored & saved & files & Hadd & _ & Hsave & Hps & Hfile & Hload);
      [reflexivity|repeat constructor; discriminate|].
    exists stored, saved, files. auto.
  - destruct (upload_save_restart emptyStore emptyFiles)
      as (stored & saved & files & Hadd & _ & Hsave & Hps & _ & Hload);
      [reflexivity|constructor|].
    exists stored, saved, files. auto.
Qed.

(** Where the round trip does hold: for a store whose prototypes all have
    the 2048 features the loader expects and a non-empty label, every
    successful save followed by a load of the model file gives a store with
    the very same sequence of prototypes, feature vectors included, and no
    scaler; the temporary file is gone. *)
Lemma save_then_load_embeddings (env : SaveEnvironment) (c : Classifier)
    (fs : FileSystem) (saved : Classifier) (files : FileSystem) (k0 : Z) :
  SavePrototypesToFile env c fs = (saved, files, None) ->
  (0 < k0)%Z ->
  Forall loadable (prototypes c) ->
  exists loaded,
    prototypes saved = prototypes c
    /\ files !! (modelPath c ++ ".tmp")%string = None
    /\ NewClassifierFromFile files (modelPath c) k0 = Ok loaded
    /\ prototypes loaded = prototypes c
    /\ map Features (prototypes loaded) = map Features (prototypes c)
    /\ featureScaler loaded = None.
Proof.
  intros Hsave Hk Hall.
  destruct (save_writes env c fs saved files Hsave) as (Hsaved & _ & Hfile & Htmp).
  destruct (load_loadable files (modelPath c) k0 (prototypes c) Hk Hfile Hall)
    as (loaded & Hload & Hps & Hscaler).
  exists loaded. rewrite Hps. auto 10.
Qed.

(** ** The example fallback *)

(** C6 on the default model path.  With [drone/prototypes.json] missing and
    [drone/prototypes.example.json] present, the example file is read, yet
    the store is not marked as using the example, its statistics say so too,
    and the example file itself becomes the model path. *)
Theorem example_fallback_not_marked :
  exampleOnlyFiles !! "drone/prototypes.json"%string = None
  /\ exists c,
       NewClassifierFromFile exampleOnlyFiles "drone/prototypes.json" 5 = Ok c
       /\ prototypes c = [embeddingPrototype]
       /\ usingExample c = false
       /\ UsingExample (Stats c) = false
       /\ modelPath c = "drone/prototypes.example.json"%string.
Proof.
  split; [vm_compute; reflexivity|].
  eexists. split; [vm_compute; reflexivity|].
  repeat split.
Qed.

(** ** Sums of reals *)

Lemma fold_left_Rplus (l : list R) (a : R) : fold_left Rplus l a = a + sumList l.
Proof.
  unfold sumList. revert a.
  induction l as [|x l IH]; intros a; simpl; [lra|].
  rewrite (IH (a + x)), (IH (0 + x)). lra.
Qed.

Lemma sumList_nil : sumList [] = 0.
Proof. reflexivity. Qed.

Lemma sumList_cons (x : R) (l : list R) : sumList (x :: l) = x + sumList l.
Proof. unfold sumList at 1. simpl. rewrite fold_left_Rplus. lra. Qed.

Lemma sumList_app (l1 l2 : list R) : sumList (l1 ++ l2) = sumList l1 + sumList l2.
Proof.
  induction l1 as [|x l1 IH]; simpl.
  - rewrite sumList_nil. lra.
  - rewrite !sumList_cons, IH. lra.
Qed.

Lemma sumList_perm (l1 l2 : list R) : l1 ≡ₚ l2 -> sumList l1 = sumList l2.
Proof.
  induction 1; rewrite ?sumList_cons; try lra; congruence.
Qed.

Lemma sumList_map_div {A : Type} (f : A -> R) (t : R) (l : list A) :
  sumList (map (fun a => f a / t) l) = sumList (map f l) / t.
Proof.
  induction l as [|a l IH]; simpl.
  - rewrite sumList_nil. lra.
  - rewrite !sumList_cons, IH. lra.
Qed.

Lemma sumList_nonneg (l : list R) : Forall (fun x => 0 <= x) l -> 0 <= sumList l.
Proof.
  induction 1 as [|x l Hx _ IH]; [rewrite sumList_nil; lra|].
  rewrite sumList_cons. lra.
Qed.

Lemma sumList_pos (l : list R) :
  l <> [] -> Forall (fun x => 0 < x) l -> 0 < sumList l.
Proof.
  intros Hne Hall. destruct Hall as [|x l Hx Hall]; [congruence|].
  rewrite sumList_cons.
  assert (0 <= sumList l).
  { apply sumList_nonneg. eapply Forall_impl; [exact Hall|]. simpl. intros; lra. }
  lra.
Qed.

(** ** Cosine similarity *)

Lemma boundedSums_step (d nA nB x y : R) :
  boundedSums (d, nA, nB) -> boundedSums (d + x * y, nA + x * x, nB + y * y).
Proof.
  intros (HA & HB & Hd). repeat split; try nra.
  assert (Hcross : 2 * d * x * y <= nA * (y * y) + nB * (x * x)).
  { destruct (Req_dec nA 0) as [H0|H0].
    - assert (d = 0) by nra. subst.
      assert (0 <= nB * (x * x)) by (apply Rmult_le_pos; nra). lra.
    - assert (0 < nA) by lra.
      assert (0 <= nA * (nA * (y * y) - 2 * d * x * y + nB * (x * x))).
      { replace (nA * (nA * (y * y) - 2 * d * x * y + nB * (x * x)))
          with ((nA * y - d * x) * (nA * y - d * x) + (nA * nB - d * d) * (x * x))
          by ring.
        pose proof (Rle_0_sqr (nA * y - d * x)) as Hsq. unfold Rsqr in Hsq.
        assert (0 <= (nA * nB - d * d) * (x * x)) by (apply Rmult_le_pos; nra).
        lra. }
      nra. }
  nra.
Qed.

Lemma cosineSums_bounded (a b weights : list R) (i : nat) (acc : R * R * R) :
  boundedSums acc -> boundedSums (cosineSums i a b weights acc).
Proof.
  revert b i acc. induction a as [|x a IH]; intros b i acc Hacc; [exact Hacc|].
  destruct b as [|y b]; [exact Hacc|].
  destruct acc as [[d nA] nB]. simpl. apply IH.
  replace (x * default 1.0 (weights !! i) * (y * default 1.0 (weights !! i)))
    with ((x * default 1.0 (weights !! i)) * (y * default 1.0 (weights !! i))) by ring.
  now apply boundedSums_step.
Qed.

Lemma cosineSimilarity_range (a b weights : list R) :
  -1 <= cosineSimilarity a b weights <= 1.
Proof.
  unfold cosineSimilarity.
  pose proof (cosineSums_bounded a b weights 0 (0, 0, 0)) as Hb.
  destruct (cosineSums 0 a b weights (0, 0, 0)) as [[d nA] nB].
  destruct Hb as (HA & HB & Hd); [simpl; lra|].
  destruct (F64.eqb nA 0) eqn:EA; [simpl; lra|].
  destruct (F64.eqb nB 0) eqn:EB; [simpl; lra|]. simpl.
  apply eqb_false in EA, EB.
  assert (HsA : 0 < sqrt nA) by (apply sqrt_lt_R0; lra).
  assert (HsB : 0 < sqrt nB) by (apply sqrt_lt_R0; lra).
  assert (Hs : 0 < sqrt nA * sqrt nB) by nra.
  assert (Habs : Rabs d <= sqrt nA * sqrt nB).
  { rewrite <- sqrt_mult by lra. rewrite <- sqrt_Rsqr_abs.
    apply sqrt_le_1; unfold Rsqr; nra. }
  assert (Hbounds : - (sqrt nA * sqrt nB) <= d <= sqrt nA * sqrt nB).
  { unfold Rabs in Habs. destruct (Rcase_abs d); lra. }
  destruct Hbounds as [Hlo Hhi].
  split.
  - apply Rmult_le_reg_r with (sqrt nA * sqrt nB); [exact Hs|].
    unfold Rdiv. rewrite Rmult_assoc, Rinv_l by lra. lra.
  - apply Rmult_le_reg_r with (sqrt nA * sqrt nB); [exact Hs|].
    unfold Rdiv. rewrite Rmult_assoc, Rinv_l by lra. lra.
Qed.



(** ** The neighbour loop *)

Lemma tableWeight_insert (labelScores : gmap string labelStats) (label : string)
    (stats : labelStats) :
  tableWeight (<[label := stats]> labelScores)
  = tableWeight labelScores
    - weightSum (default zeroStats (labelScores !! label)) + weightSum stats.
Proof.
  unfold tableWeight. destruct (labelScores !! label) as [old|] eqn:Hlookup; simpl.
  - rewrite <- (insert_delete_eq labelScores).
    rewrite (sumList_perm _ _
      (Permutation_map _ (map_to_list_insert (delete label labelScores) label stats
                            (lookup_delete_eq _ _)))).
    rewrite <- (sumList_perm _ _
      (Permutation_map _ (map_to_list_delete labelScores label old Hlookup))).
    simpl. rewrite !sumList_cons. simpl. lra.
  - rewrite (sumList_perm _ _
      (Permutation_map _ (map_to_list_insert labelScores label stats Hlookup))).
    simpl. rewrite sumList_cons. simpl. lra.
Qed.

Lemma addNeighbor_fold (prototypes : list Prototype) (neighbors : list distancePair)
    (labelScores : gmap string labelStats) (totalWeight : R) :
  (fold_left (addNeighbor prototypes) neighbors (labelScores, totalWeight)).2
  = totalWeight + sumList (map neighbourWeight neighbors)
  /\ tableWeight (fold_left (addNeighbor prototypes) neighbors (labelScores, totalWeight)).1
     = tableWeight labelScores + sumList (map neighbourWeight neighbors).
Proof.
  revert labelScores totalWeight.
  induction neighbors as [|n ns IH]; intros labelScores totalWeight.
  - simpl. rewrite sumList_nil. split; lra.
  - simpl. rewrite sumList_cons.
    destruct (IH (<[Label (prototypes !!! index n) :=
                  mkLabelStats
                    (weightSum (default zeroStats
                                  (labelScores !! Label (prototypes !!! index n)))
                     + 1.0 / (distance n + 1e-9))
                    (distSum (default zeroStats
                                (labelScores !! Label (prototypes !!! index n)))
                     + distance n)
                    (count (default zeroStats
                              (labelScores !! Label (prototypes !!! index n))) + 1)
                    (statPrototypes (default zeroStats
                                       (labelScores !! Label (prototypes !!! index n)))
                     ++ [mkPrototypeScore (ID (prototypes !!! index n)) (distance n)
                           (1.0 / (distance n + 1e-9))
                           (Source (prototypes !!! index n))])]> labelScores)
                (totalWeight + 1.0 / (distance n + 1e-9))) as [Ht Hm].
    split.
    + rewrite Ht. unfold neighbourWeight. lra.
    + rewrite Hm, tableWeight_insert. simpl. unfold neighbourWeight. lra.
Qed.

Lemma tableWeight_empty : tableWeight ∅ = 0.
Proof. unfold tableWeight. now rewrite map_to_list_empty. Qed.

Lemma neighbourWeight_pos (neighbor : distancePair) :
  0 <= distance neighbor -> 0 < neighbourWeight neighbor.
Proof.
  intros Hd. unfold neighbourWeight. apply Rdiv_lt_0_compat; lra.
Qed.

Section PredictFacts.

Context `{SliceSorter}.

Lemma nearest_distances (c : Classifier) (features : list R)
    (prototypes : list Prototype) :
  Forall (fun neighbor =>
            exists proto,
              prototypes !! index neighbor = Some proto
              /\ distance neighbor
                 = 1 - cosineSimilarity features (Features proto) featureWeights)
         (nearest c features prototypes).
Proof.
  unfold nearest. apply Forall_take. rewrite sortSlice_perm.
  apply Forall_lookup. intros i neighbor Hlookup.
  rewrite list_lookup_imap in Hlookup.
  destruct (prototypes !! i) as [proto|] eqn:Hproto; [|discriminate].
  injection Hlookup as <-. simpl. eauto.
Qed.

Lemma nearest_nonneg (c : Classifier) (features : list R)
    (prototypes : list Prototype) :
  Forall (fun neighbor => 0 <= distance neighbor <= 2)
         (nearest c features prototypes).
Proof.
  eapply Forall_impl; [apply nearest_distances|].
  intros neighbor (proto & _ & ->).
  pose proof (cosineSimilarity_range features (Features proto) featureWeights). lra.
Qed.

Lemma nearest_length (c : Classifier) (features : list R)
    (prototypes : list Prototype) :
  length (nearest c features prototypes)
  = Nat.min (Z.to_nat (neighbourCount c prototypes)) (length prototypes).
Proof.
  unfold nearest. rewrite length_take.
  rewrite (Permutation_length (sortSlice_perm _ _ _)), length_imap. reflexivity.
Qed.

Lemma Predict_unfold (c : Classifier) (features : list R) :
  features <> [] -> prototypes c <> [] ->
  Predict c features
  = let acc :=
      fold_left (addNeighbor (prototypes c))
        (nearest c (scaleQuery c features) (prototypes c)) (∅, 0) in
    if F64.eqb acc.2 0 then Ok []
    else Ok (sortSlice predictionLess
               (map (buildPrediction (labelCategory c) (labelMetadata c) acc.2)
                    (map_to_list acc.1))).
Proof.
  intros Hf Hp. unfold Predict, snapshot.
  destruct features as [|x xs]; [congruence|].
  destruct (prototypes c) as [|p ps] eqn:Hps; [congruence|].
  simpl length. simpl Nat.eqb. cbv iota.
  destruct (fold_left _ _ _) as [labelScores totalWeight]. reflexivity.
Qed.

Lemma sumConfidence_predictions (labelCategory : gmap string string)
    (labelMetadata : gmap string (gmap string string))
    (labelScores : gmap string labelStats) (totalWeight : R) :
  0 < totalWeight ->
  sumConfidence
    (sortSlice predictionLess
       (map (buildPrediction labelCategory labelMetadata totalWeight)
            (map_to_list labelScores)))
  = tableWeight labelScores / totalWeight.
Proof.
  intros Hpos. unfold sumConfidence, tableWeight.
  rewrite (sumList_perm _ _ (Permutation_map _ (sortSlice_perm _ _ _))).
  rewrite map_map, <- sumList_map_div. f_equal.
  apply map_ext. intros [label stats]. simpl.
  replace (F64.ltb 0 totalWeight) with true by (symmetry; now apply ltb_true).
  reflexivity.
Qed.

End PredictFacts.

(** ** Predictions *)

Section PredictTheorems.

Context `{SliceSorter}.

Lemma totalNeighbourWeight_sum (c : Classifier) (features : list R) :
  totalNeighbourWeight c features
  = sumList (map neighbourWeight
               (nearest c (scaleQuery c features) (prototypes c))).
Proof.
  unfold totalNeighbourWeight.
  rewrite (proj1 (addNeighbor_fold _ _ _ _)). lra.
Qed.

Lemma nearest_weights_pos (c : Classifier) (features : list R) :
  Forall (fun w => 0 < w)
    (map neighbourWeight (nearest c features (prototypes c))).
Proof.
  apply Forall_map. eapply Forall_impl; [apply nearest_nonneg|].
  intros neighbor [Hlo _]. now apply neighbourWeight_pos.
Qed.

Lemma totalNeighbourWeight_pos (c : Classifier) (features : list R) :
  totalNeighbourWeight c features <> 0 -> 0 < totalNeighbourWeight c features.
Proof.
  rewrite totalNeighbourWeight_sum. intros Hne.
  apply sumList_pos; [|apply nearest_weights_pos].
  intros Hnil. rewrite Hnil, sumList_nil in Hne. lra.
Qed.

Lemma nearest_nonempty (c : Classifier) (features : list R) :
  prototypes c <> [] -> (0 < k c)%Z ->
  nearest c features (prototypes c) <> [].
Proof.
  intros Hp Hk Hnil. apply (f_equal length) in Hnil.
  rewrite nearest_length in Hnil. simpl in Hnil.
  destruct (prototypes c) as [|p ps]; [congruence|].
  unfold neighbourCount in Hnil. simpl length in Hnil.
  destruct (Z.ltb_spec (Z.of_nat (S (length ps))) (k c)); lia.
Qed.

Lemma totalNeighbourWeight_pos_k (c : Classifier) (features : list R) :
  prototypes c <> [] -> (0 < k c)%Z -> 0 < totalNeighbourWeight c features.
Proof.
  intros Hp Hk. rewrite totalNeighbourWeight_sum.
  apply sumList_pos; [|apply nearest_weights_pos].
  intros Hnil. apply map_eq_nil in Hnil. now apply nearest_nonempty in Hnil.
Qed.

Lemma Predict_total_weight (c : Classifier) (features : list R) :
  features <> [] -> prototypes c <> [] -> 0 < totalNeighbourWeight c features ->
  exists labelScores,
    labelScores
    = (fold_left (addNeighbor (prototypes c))
         (nearest c (scaleQuery c features) (prototypes c)) (∅, 0)).1
    /\ tableWeight labelScores = totalNeighbourWeight c features
    /\ Predict c features
       = Ok (sortSlice predictionLess
               (map (buildPrediction (labelCategory c) (labelMetadata c)
                       (totalNeighbourWeight c features))
                    (map_to_list labelScores))).
Proof.
  intros Hf Hp Hpos. rewrite (Predict_unfold c features Hf Hp).
  unfold totalNeighbourWeight in *. cbv zeta.
  pose proof (addNeighbor_fold (prototypes c)
                (nearest c (scaleQuery c features) (prototypes c)) ∅ 0) as [Ht Hm].
  destruct (fold_left _ _ _) as [labelScores totalWeight]. simpl in *.
  exists labelScores. split; [reflexivity|]. split.
  - rewrite Hm, Ht, tableWeight_empty. reflexivity.
  - replace (F64.eqb totalWeight 0) with false; [reflexivity|].
    symmetry. apply eqb_false. lra.
Qed.

Lemma Predict_confidences_sum_to_one_aux (c : Classifier) (features : list R) :
  features <> [] -> prototypes c <> [] -> 0 < totalNeighbourWeight c features ->
  exists labelScores,
    labelScores
    = (fold_left (addNeighbor (prototypes c))
         (nearest c (scaleQuery c features) (prototypes c)) (∅, 0)).1
    /\ tableWeight labelScores = totalNeighbourWeight c features
    /\ Predict c features
       = Ok (sortSlice predictionLess
               (map (buildPrediction (labelCategory c) (labelMetadata c)
                       (totalNeighbourWeight c features))
                    (map_to_list labelScores)))
    /\ sortSlice predictionLess
         (map (buildPrediction (labelCategory c) (labelMetadata c)
                 (totalNeighbourWeight c features))
              (map_to_list labelScores)) <> []
    /\ sumConfidence
         (sortSlice predictionLess
            (map (buildPrediction (labelCategory c) (labelMetadata c)
                    (totalNeighbourWeight c features))
                 (map_to_list labelScores))) = 1.
Proof.
  intros Hf Hp Hpos.
  destruct (Predict_total_weight c features Hf Hp Hpos)
    as (labelScores & Hscores & Htable & Hpred).
  exists labelScores. split; [exact Hscores|]. split; [exact Htable|].
  split; [exact Hpred|].
  assert (Hsum : sumConfidence
                   (sortSlice predictionLess
                      (map (buildPrediction (labelCategory c) (labelMetadata c)
                              (totalNeighbourWeight c features))
                           (map_to_list labelScores))) = 1).
  { rewrite sumConfidence_predictions by exact Hpos.
    rewrite Htable. apply Rdiv_diag. lra. }
  split; [|exact Hsum].
  intros Hnil. rewrite Hnil in Hsum. unfold sumConfidence in Hsum.
  simpl in Hsum. rewrite sumList_nil in Hsum. lra.
Qed.

(** C7.  For every query against a store with at least one prototype, when
    the total weight of the neighbours found is not zero, [Predict] returns
    a non-empty prediction list whose confidences sum to 1, hence to 1.0
    within 1e-6. *)
Theorem Predict_confidences_sum_to_one (c : Classifier) (features : list R) :
  features <> [] ->
  prototypes c <> [] ->
  totalNeighbourWeight c features <> 0 ->
  exists predictions,
    Predict c features = Ok predictions
    /\ predictions <> []
    /\ sumConfidence predictions = 1
    /\ Rabs (sumConfidence predictions - 1) < 1e-6.
Proof.
  intros Hf Hp Hne.
  pose proof (totalNeighbourWeight_pos c features Hne) as Hpos.
  destruct (Predict_confidences_sum_to_one_aux c features Hf Hp Hpos)
    as (labelScores & _ & _ & Hpred & Hnonempty & Hsum).
  eexists. split; [exact Hpred|]. split; [exact Hnonempty|]. split; [exact Hsum|].
  rewrite Hsum. replace (1 - 1) with 0 by lra. rewrite Rabs_R0. lra.
Qed.

End PredictTheorems.

(** The store seeded with one embedding, queried with that embedding. *)
Lemma Predict_confidences_sum_to_one_witness :
  exists predictions,
    Predict seededStore (Features embeddingPrototype) = Ok predictions
    /\ sumConfidence predictions = 1.
Proof.
  assert (Hf : Features embeddingPrototype <> []) by discriminate.
  assert (Hp : prototypes seededStore <> []) by discriminate.
  assert (Hw : totalNeighbourWeight seededStore (Features embeddingPrototype) <> 0).
  { pose proof (totalNeighbourWeight_pos_k seededStore (Features embeddingPrototype) Hp
                  ltac:(simpl; lia)). lra. }
  destruct (Predict_confidences_sum_to_one seededStore _ Hf Hp Hw)
    as (predictions & Hpred & _ & Hsum & _).
  exists predictions. auto.
Defined.

(** ** Queries of another dimensionality *)

Lemma cosineSums_take (a b weights : list R) (i : nat) (acc : R * R * R) :
  cosineSums i a b weights acc
  = cosineSums i (take (Nat.min (length a) (length b)) a)
      (take (Nat.min (length a) (length b)) b) weights acc.
Proof.
  revert b i acc. induction a as [|x a IH]; intros b i acc; [reflexivity|].
  destruct b as [|y b]; [reflexivity|].
  destruct acc as [[d nA] nB]. simpl. apply IH.
Qed.

Lemma cosineSimilarity_take (a b weights : list R) :
  cosineSimilarity a b weights
  = cosineSimilarity (take (Nat.min (length a) (length b)) a)
      (take (Nat.min (length a) (length b)) b) weights.
Proof. unfold cosineSimilarity. now rewrite <- cosineSums_take. Qed.

Lemma Predict_answers `{SliceSorter} (c : Classifier) (features : list R) :
  features <> [] -> exists predictions, Predict c features = Ok predictions.
Proof.
  intros Hf. destruct (prototypes c) as [|p ps] eqn:Hps.
  - unfold Predict, snapshot. rewrite Hps.
    destruct features; [congruence|]. simpl. eauto.
  - rewrite Predict_unfold by congruence. cbv zeta.
    destruct (F64.eqb _ 0); eauto.
Qed.

Lemma featureWeights_first : featureWeights !! 0%nat = Some 1.0.
Proof. reflexivity. Qed.

(** C4, as stated, fails: against the store of one 2048-dimensional
    embedding, the query of a single component is not refused; only the
    first component of the prototype is compared with it, and the prototype's
    label comes back with confidence 1 at distance 0. *)
Lemma Predict_accepts_short_query :
  length [1] <> expectedDim
  /\ exists prediction,
       Predict seededStore [1] = Ok [prediction]
       /\ pLabel prediction = "mavic"%string
       /\ Confidence prediction = 1
       /\ AverageDist prediction = 0.
Proof.
  split; [rewrite expectedDim_eq; simpl; lia|].
  assert (Hsim : cosineSimilarity [1] (Features embeddingPrototype) featureWeights = 1).
  { unfold cosineSimilarity, embeddingPrototype. simpl.
    replace (0 + 1 * 1.0 * (1 * 1.0)) with 1 by lra.
    replace (F64.eqb 1 0) with false by (symmetry; apply eqb_false; lra).
    simpl. rewrite sqrt_1. lra. }
  rewrite Predict_unfold by discriminate.
  change (prototypes seededStore) with [embeddingPrototype].
  change (scaleQuery seededStore [1]) with [1].
  unfold nearest.
  change (Z.to_nat (neighbourCount seededStore [embeddingPrototype])) with 1%nat.
  cbn [imap sortSlice insertionSorter insertionSort foldr insertSorted take
       fold_left].
  rewrite Hsim. unfold addNeighbor.
  cbn [index distance lookup_total list_lookup_total Label ID Source
       embeddingPrototype fst snd].
  rewrite lookup_empty. cbn [default zeroStats weightSum distSum count statPrototypes app].
  replace (F64.eqb (0 + 1.0 / (1 - 1 + 1e-9)) 0) with false
    by (symmetry; apply eqb_false; lra).
  rewrite insert_empty, map_to_list_singleton.
  cbn [map insertionSort foldr insertSorted buildPrediction weightSum distSum count
       statPrototypes].
  eexists. split; [reflexivity|].
  cbn [pLabel Confidence AverageDist].
  split; [reflexivity|].
  replace (F64.ltb 0 (0 + 1.0 / (1 - 1 + 1e-9))) with true
    by (symmetry; apply ltb_true; lra).
  change (0 <? 0 + 1)%Z with true. cbv iota.
  split; [field_simplify; lra|simpl; lra].
Qed.

(** C4, amended.  [Predict] refuses the empty query only; a query of any
    other length gets a prediction list as its answer, whatever the
    dimensionality of the stored prototypes, and each similarity is computed
    on the first [min (len a) (len b)] components of the two vectors, the
    rest of the longer one being ignored. *)
Theorem Predict_checks_no_dimension `{SliceSorter} (c : Classifier)
    (features prototypeFeatures : list R) :
  Predict c [] = Err ErrEmptyFeatureVector
  /\ (features <> [] -> exists predictions, Predict c features = Ok predictions)
  /\ cosineSimilarity features prototypeFeatures featureWeights
     = cosineSimilarity
         (take (Nat.min (length features) (length prototypeFeatures)) features)
         (take (Nat.min (length features) (length prototypeFeatures)) prototypeFeatures)
         featureWeights.
Proof.
  split; [reflexivity|]. split; [apply Predict_answers|apply cosineSimilarity_take].
Qed.

Lemma Predict_checks_no_dimension_witness :
  exists predictions, Predict seededStore [1; 2; 3] = Ok predictions.
Proof.
  apply (Predict_checks_no_dimension seededStore [1; 2; 3] []). discriminate.
Defined.

(** ** The all-zero query *)



Lemma tableWeight_entry (labelScores : gmap string labelStats) (label : string)
    (stats : labelStats) :
  map_Forall (fun _ s => 0 <= weightSum s) labelScores ->
  labelScores !! label = Some stats ->
  weightSum stats <= tableWeight labelScores.
Proof.
  intros Hall Hlookup. unfold tableWeight.
  rewrite <- (sumList_perm _ _
    (Permutation_map _ (map_to_list_delete labelScores label stats Hlookup))).
  simpl. rewrite sumList_cons. simpl.
  assert (0 <= sumList (map (fun entry => weightSum entry.2)
                          (map_to_list (delete label labelScores)))).
  { apply sumList_nonneg, Forall_map, Forall_forall.
    intros [l s] Hin. simpl.
    apply elem_of_map_to_list in Hin.
    apply lookup_delete_Some in Hin as [_ Hin]. exact (Hall _ _ Hin). }
  lra.
Qed.



Lemma scaleQuery_no_scaler (c : Classifier) (features : list R) :
  featureScaler c = None -> scaleQuery c features = features.
Proof. intros Hs. unfold scaleQuery. now rewrite Hs. Qed.



(** ** Stores built by the loader *)

Lemma validatePrototypes_dims (n : nat) (ps : list Prototype)
    (lc : gmap string string) (lm : gmap string (gmap string string))
    (r : gmap string string * gmap string (gmap string string)) :
  validatePrototypes n ps lc lm = Ok r ->
  Forall (fun proto => length (Features proto) = n) ps.
Proof.
  revert lc lm. induction ps as [|proto ps IH]; intros lc lm Hok; [constructor|].
  simpl in Hok.
  destruct (length (Features proto) =? 0)%nat; [discriminate|].
  destruct (String.eqb (Label proto) ""); [discriminate|].
  destruct (Nat.eqb_spec (length (Features proto)) n) as [Hlen|]; [|discriminate].
  simpl in Hok.
  destruct (length (Features proto) <? harmonicFeatureCount)%nat; [discriminate|].
  constructor; [exact Hlen|]. eapply IH. exact Hok.
Qed.

(** Every store the loader builds is dimensionally uniform, carries no
    scaler and has a positive neighbour count. *)
Lemma NewClassifierFromFile_store (fs : FileSystem) (path : string) (k0 : Z)
    (c : Classifier) :
  NewClassifierFromFile fs path k0 = Ok c ->
  uniformDim c /\ featureScaler c = None /\ (0 < k c)%Z.
Proof.
  unfold NewClassifierFromFile.
  destruct (Z.leb_spec k0 0) as [|Hk]; [discriminate|].
  set (read := match fs !! path with
               | Some data => Ok (data, path)
               | None => _
               end).
  destruct read as [[[ps|] resolved]|e]; try discriminate.
  destruct (validatePrototypes (length featureWeights) ps ∅ ∅) as [[lc lm]|e] eqn:Hv;
    [|discriminate].
  apply validatePrototypes_dims in Hv.
  destruct ps as [|first rest].
  - intros Hok. injection Hok as <-. simpl.
    split; [constructor|]. split; [reflexivity|exact Hk].
  - inversion Hv as [|? ? Hfirst _]; subst.
    rewrite Hfirst, featureWeights_length. simpl (2048 =? 2048)%nat. cbv iota.
    intros Hok. injection Hok as <-. simpl.
    split; [exact Hv|]. split; [reflexivity|].
    destruct (Z.of_nat (S (length rest)) <? k0)%Z; lia.
Qed.

(** ** The feature scaler *)

Lemma column_cons (i : nat) (proto : Prototype) (ps : list Prototype) :
  column i (proto :: ps) = (Features proto !!! i) :: column i ps.
Proof. reflexivity. Qed.

Lemma column_length (i : nat) (ps : list Prototype) : length (column i ps) = length ps.
Proof. apply length_map. Qed.

Lemma sumFeatures_lookup (d : nat) (ps : list Prototype) (acc : list R) :
  Forall (fun proto => length (Features proto) = d) ps ->
  length acc = d ->
  exists sums,
    sumFeatures d ps acc = Ok sums
    /\ length sums = d
    /\ forall i a, acc !! i = Some a ->
         sums !! i = Some (a + sumList (column i ps)).
Proof.
  intros Hall. revert acc.
  induction Hall as [|proto ps Hlen _ IH]; intros acc Hacc.
  - exists acc. simpl. repeat split; [exact Hacc|].
    intros i a Hi. rewrite sumList_nil, Rplus_0_r. exact Hi.
  - cbn [sumFeatures]. rewrite Hlen, Nat.eqb_refl. cbn [negb].
    destruct (IH (zip_with Rplus acc (Features proto))) as (sums & Hok & Hl & Hlookup).
    { rewrite length_zip_with. lia. }
    exists sums. split; [exact Hok|]. split; [exact Hl|].
    intros i a Hi. rewrite column_cons, sumList_cons.
    assert (Hlt : (i < length (Features proto))%nat).
    { rewrite Hlen, <- Hacc. eapply lookup_lt_Some. exact Hi. }
    rewrite (Hlookup i (a + Features proto !!! i)).
    + f_equal. lra.
    + rewrite lookup_zip_with, Hi. simpl.
      rewrite (list_lookup_lookup_total_lt _ _ Hlt). reflexivity.
Qed.

Lemma sumSquaredDeviations_lookup (d : nat) (mean : list R) (ps : list Prototype)
    (acc : list R) :
  Forall (fun proto => length (Features proto) = d) ps ->
  length mean = d ->
  length acc = d ->
  length (sumSquaredDeviations mean ps acc) = d
  /\ forall i a m, acc !! i = Some a -> mean !! i = Some m ->
       sumSquaredDeviations mean ps acc !! i
       = Some (a + sumList (map (fun x => (x - m) * (x - m)) (column i ps))).
Proof.
  intros Hall Hmean. revert acc.
  induction Hall as [|proto ps Hlen _ IH]; intros acc Hacc.
  - split; [exact Hacc|]. intros i a m Hi _. simpl.
    rewrite sumList_nil, Rplus_0_r. exact Hi.
  - unfold sumSquaredDeviations in *. cbn [fold_left].
    destruct (IH (zip_with Rplus acc
                    (zip_with (fun val m => (val - m) * (val - m))
                       (Features proto) mean))) as [Hl Hlookup].
    { rewrite !length_zip_with. lia. }
    split; [exact Hl|].
    intros i a m Hi Hm. rewrite column_cons. cbn [map]. rewrite sumList_cons.
    assert (Hlt : (i < length (Features proto))%nat).
    { rewrite Hlen, <- Hacc. eapply lookup_lt_Some. exact Hi. }
    rewrite (Hlookup i (a + (Features proto !!! i - m) * (Features proto !!! i - m)) m).
    + f_equal. lra.
    + rewrite !lookup_zip_with, Hi. simpl.
      rewrite (list_lookup_lookup_total_lt _ _ Hlt). simpl. rewrite Hm. reflexivity.
    + exact Hm.
Qed.

Lemma neutralised_ltb (sd : R) :
  (if F64.ltb sd 1e-10 then 1.0 else sd) = neutralised sd.
Proof. unfold neutralised, F64.ltb. destruct (Rlt_dec sd 1e-10); lra. Qed.

Lemma sqrt_2_not_1 : sqrt 2 <> 1.
Proof.
  intros Heq. pose proof (sqrt_sqrt 2 ltac:(lra)) as Hsq.
  rewrite Heq in Hsq. lra.
Qed.

Lemma sqrt_2_gt_1 : 1 < sqrt 2.
Proof.
  rewrite <- sqrt_1 at 1. apply sqrt_lt_1; lra.
Qed.

Lemma column_low_high :
  column 0 [lowPrototype; highPrototype] = [0; 2]
  /\ column 1 [lowPrototype; highPrototype] = [1; 1].
Proof. split; reflexivity. Qed.

Lemma stddev_0_2 :
  populationStddev [0; 2] = 1 /\ sampleStddev [0; 2] = sqrt 2.
Proof.
  assert (Hmean : arithmeticMean [0; 2] = 1).
  { unfold arithmeticMean. rewrite !sumList_cons, sumList_nil. simpl. lra. }
  assert (Hdiffs : sumSquaredDiffs [0; 2] = 2).
  { unfold sumSquaredDiffs. rewrite Hmean. simpl.
    rewrite !sumList_cons, sumList_nil. lra. }
  unfold populationStddev, sampleStddev. rewrite Hdiffs. simpl.
  split.
  - replace (2 / (1 + 1)) with 1 by lra. apply sqrt_1.
  - f_equal. lra.
Qed.

(** C9, as stated, fails: for two prototypes whose first feature is 0 and 2,
    the fitted deviation of that feature is 1, the deviation of the
    population, while the sample standard deviation of 0 and 2 is the square
    root of 2. *)
Lemma scaler_is_not_sample_stddev :
  exists scaler,
    NewFeatureScalerFromPrototypes [lowPrototype; highPrototype] = Ok scaler
    /\ Stddev scaler !! 0%nat = Some 1
    /\ neutralised (sampleStddev (column 0 [lowPrototype; highPrototype])) = sqrt 2
    /\ sqrt 2 <> 1.
Proof.
  eexists. split; [reflexivity|].
  destruct column_low_high as [Hc0 _]. destruct stddev_0_2 as [_ Hsample].
  rewrite Hc0, Hsample.
  split; [|split; [|exact sqrt_2_not_1]].
  - unfold sumSquaredDeviations.
    cbn [Stddev lowPrototype highPrototype Features length replicate map zip_with
         fold_left lookup list_lookup INR].
    f_equal. rewrite neutralised_ltb.
    replace ((0 + (0 - (0 + 0 + 2) / (1 + 1)) * (0 - (0 + 0 + 2) / (1 + 1))
              + (2 - (0 + 0 + 2) / (1 + 1)) * (2 - (0 + 0 + 2) / (1 + 1)))
             / (1 + 1)) with 1 by field.
    rewrite sqrt_1. unfold neutralised.
    destruct (Rlt_dec 1 1e-10); [lra|reflexivity].
  - unfold neutralised. pose proof sqrt_2_gt_1.
    destruct (Rlt_dec (sqrt 2) 1e-10); [lra|reflexivity].
Qed.

(** C9, amended.  For every non-empty prototype set whose feature vectors
    all have the same positive length, the fitted scaler holds, for each
    dimension, the arithmetic mean of the prototypes' values in that
    dimension and their population standard deviation (the squared
    deviations averaged over the number of prototypes), replaced by 1
    whenever it is below 1e-10. *)
Theorem NewFeatureScalerFromPrototypes_population (d : nat) (ps : list Prototype) :
  ps <> [] ->
  (0 < d)%nat ->
  Forall (fun proto => length (Features proto) = d) ps ->
  exists scaler,
    NewFeatureScalerFromPrototypes ps = Ok scaler
    /\ length (Mean scaler) = d
    /\ length (Stddev scaler) = d
    /\ forall i, (i < d)%nat ->
         Mean scaler !! i = Some (arithmeticMean (column i ps))
         /\ Stddev scaler !! i
            = Some (neutralised (populationStddev (column i ps))).
Proof.
  intros Hne Hd Hall. unfold NewFeatureScalerFromPrototypes.
  destruct ps as [|first rest] eqn:Hps; [congruence|]. rewrite <- Hps in *.
  assert (Hfirst : length (Features first) = d).
  { rewrite Hps in Hall. now inversion Hall. }
  rewrite Hfirst. destruct (Nat.eqb_spec d 0) as [|_]; [lia|].
  destruct (sumFeatures_lookup d ps (replicate d 0) Hall (length_replicate _ _))
    as (sums & -> & Hsl & Hsums).
  set (count := INR (length ps)).
  set (mean := map (fun m => m / count) sums).
  assert (Hml : length mean = d) by (unfold mean; now rewrite length_map).
  destruct (sumSquaredDeviations_lookup d mean ps (replicate d 0) Hall Hml
              (length_replicate _ _)) as [Hdl Hdev].
  eexists. split; [reflexivity|]. simpl.
  split; [exact Hml|]. split; [now rewrite length_map|].
  intros i Hi.
  assert (Hzero : replicate d 0 !! i = Some 0) by now apply lookup_replicate_2.
  assert (Hmean : mean !! i = Some (arithmeticMean (column i ps))).
  { unfold mean. rewrite list_lookup_fmap, (Hsums i 0 Hzero). simpl.
    unfold arithmeticMean. rewrite column_length. fold count. f_equal. lra. }
  split; [exact Hmean|].
  rewrite list_lookup_fmap, (Hdev i 0 _ Hzero Hmean). simpl.
  rewrite neutralised_ltb. unfold populationStddev, sumSquaredDiffs.
  rewrite column_length. fold count. do 3 f_equal. lra.
Qed.


(** The two sample prototypes: means 1 and 1, deviations 1 and, for the
    constant feature, the neutral 1. *)
Lemma NewFeatureScalerFromPrototypes_population_witness :
  exists scaler,
    NewFeatureScalerFromPrototypes [lowPrototype; highPrototype] = Ok scaler
    /\ Mean scaler !! 1%nat = Some 1.
Proof.
  destruct (NewFeatureScalerFromPrototypes_population 2 [lowPrototype; highPrototype])
    as (scaler & Hfit & _ & _ & Hdims); [discriminate|lia|repeat constructor|].
  exists scaler. split; [exact Hfit|].
  destruct (Hdims 1%nat ltac:(lia)) as [Hmean _].
  rewrite Hmean. f_equal.
  destruct column_low_high as [_ ->].
  unfold arithmeticMean. rewrite !sumList_cons, sumList_nil. simpl. lra.
Defined.

(** ** Ranges of the extracted features *)

Lemma clamp01_range (x : R) : 0 <= clamp01 x <= 1.
Proof. unfold clamp01. f64_cases. Qed.

Lemma ln_tangent (a x : R) : 0 < a -> 0 < x -> ln x <= ln a + x / a - 1.
Proof.
  intros Ha Hx. pose proof (exp_ineq1_le (ln x + - ln a)) as Hexp.
  rewrite exp_plus, exp_Ropp, !exp_ln in Hexp by assumption.
  unfold Rdiv. lra.
Qed.

Lemma sum_ln_le (a : R) (xs : list R) :
  0 < a -> Forall (fun x => 0 < x) xs ->
  sumList (map ln xs) <= INR (length xs) * ln a + sumList xs / a - INR (length xs).
Proof.
  intros Ha Hall. induction Hall as [|x xs Hx _ IH].
  - simpl. rewrite !sumList_nil. lra.
  - cbn [map length]. rewrite !sumList_cons, S_INR.
    pose proof (ln_tangent a x Ha Hx). unfold Rdiv in *. lra.
Qed.

(** The geometric mean is at most the arithmetic mean. *)
Lemma geometric_le_arithmetic (xs : list R) :
  xs <> [] -> Forall (fun x => 0 < x) xs ->
  exp (sumList (map ln xs) / INR (length xs)) <= sumList xs / INR (length xs).
Proof.
  intros Hne Hall.
  assert (Hn : 0 < INR (length xs)).
  { apply lt_0_INR. destruct xs; [congruence|simpl; lia]. }
  assert (Hs : 0 < sumList xs) by now apply sumList_pos.
  set (a := sumList xs / INR (length xs)).
  assert (Ha : 0 < a) by now apply Rdiv_lt_0_compat.
  pose proof (sum_ln_le a xs Ha Hall) as Hsum.
  assert (Hquot : sumList xs / a = INR (length xs)).
  { unfold a. field. split; lra. }
  rewrite Hquot in Hsum.
  assert (Hmean : sumList (map ln xs) / INR (length xs) <= ln a).
  { apply Rmult_le_reg_r with (INR (length xs)); [exact Hn|].
    unfold Rdiv. rewrite Rmult_assoc, Rinv_l by lra. lra. }
  apply Rle_trans with (exp (ln a)); [|rewrite (exp_ln a Ha); lra].
  destruct Hmean as [Hlt | ->]; [left; now apply exp_increasing|right; reflexivity].
Qed.

Lemma spectralFlatness_range (magnitude : list R) :
  Forall (fun mag => 0 <= mag) magnitude ->
  0 <= spectralFlatness magnitude <= 1.
Proof.
  intros Hall. unfold spectralFlatness.
  destruct magnitude as [|m ms] eqn:Hm; [simpl; lra|]. rewrite <- Hm in *.
  assert (Hne : magnitude <> []) by congruence.
  replace (length magnitude =? 0)%nat with false
    by (rewrite Hm; reflexivity).
  cbv zeta.
  set (values := map (fun mag => mag + 1e-12) magnitude).
  assert (Hlen : length values = length magnitude) by apply length_map.
  assert (Hpos : Forall (fun x => 0 < x) values).
  { apply Forall_map. eapply Forall_impl; [exact Hall|]. simpl. intros; lra. }
  assert (Hvne : values <> []).
  { intros Hnil. apply map_eq_nil in Hnil. contradiction. }
  replace (map (fun mag => ln (mag + 1e-12)) magnitude) with (map ln values)
    by (unfold values; now rewrite map_map).
  rewrite <- Hlen.
  pose proof (geometric_le_arithmetic values Hvne Hpos) as Hgm.
  assert (Hn : 0 < INR (length values)).
  { apply lt_0_INR. destruct values; [congruence|simpl; lia]. }
  assert (Hari : 0 < sumList values / INR (length values)).
  { apply Rdiv_lt_0_compat; [now apply sumList_pos|exact Hn]. }
  replace (F64.eqb (sumList values / INR (length values)) 0) with false
    by (symmetry; apply eqb_false; lra).
  pose proof (exp_pos (sumList (map ln values) / INR (length values))) as Hexp.
  split.
  - apply Rlt_le, Rdiv_lt_0_compat; assumption.
  - apply Rmult_le_reg_r with (sumList values / INR (length values)); [exact Hari|].
    unfold Rdiv at 1. rewrite Rmult_assoc, Rinv_l by lra. lra.
Qed.

Lemma countOnsets_nonneg (rest : list R) (prev threshold : R) (onsetCount : Z) :
  (0 <= onsetCount)%Z -> (0 <= countOnsets prev rest threshold onsetCount)%Z.
Proof.
  revert prev onsetCount. induction rest as [|cur rest IH]; intros prev n Hn; [exact Hn|].
  simpl. apply IH. destruct (F64.ltb prev threshold && F64.leb threshold cur); lia.
Qed.

Lemma onsetRate_range (samples : list R) (sampleRate : Z) :
  0 <= onsetRate samples sampleRate <= 1.
Proof.
  unfold onsetRate.
  destruct ((length samples <? 2)%nat || (sampleRate <=? 0)%Z); [lra|].
  cbv zeta.
  set (onsetCount := match map Rabs samples with
                     | [] => 0%Z
                     | first :: rest => countOnsets first rest _ 0
                     end).
  assert (Hcount : (0 <= onsetCount)%Z).
  { unfold onsetCount. destruct (map Rabs samples); [lia|].
    apply countOnsets_nonneg. lia. }
  set (duration := INR (length samples) / IZR sampleRate).
  destruct (F64.leb duration 0) eqn:Hdur; [lra|].
  apply leb_false in Hdur.
  assert (Hrate : 0 <= IZR onsetCount / duration).
  { apply Rmult_le_pos; [apply IZR_le; lia|].
    apply Rlt_le, Rinv_0_lt_compat. exact Hdur. }
  f64_cases.
Qed.

Lemma sumList_abs_nonneg (samples : list R) : 0 <= sumList (map Rabs samples).
Proof.
  apply sumList_nonneg, Forall_map, Forall_forall. intros x _. apply Rabs_pos.
Qed.

Lemma amplitudeModulationDepth_range (samples : list R) :
  0 <= amplitudeModulationDepth samples <= 1.
Proof.
  unfold amplitudeModulationDepth.
  destruct samples as [|s ss] eqn:Hs; [simpl; lra|]. rewrite <- Hs in *.
  replace (length samples =? 0)%nat with false by (rewrite Hs; reflexivity).
  cbv zeta.
  assert (Hn : 0 < INR (length samples)).
  { apply lt_0_INR. rewrite Hs. simpl. lia. }
  set (mean := sumList (map Rabs samples) / INR (length samples)).
  assert (Hmean : 0 <= mean).
  { apply Rmult_le_pos; [apply sumList_abs_nonneg|].
    apply Rlt_le, Rinv_0_lt_compat. exact Hn. }
  destruct (F64.eqb mean 0); [lra|].
  set (std := sqrt _).
  assert (Hstd : 0 <= std) by apply sqrt_pos.
  assert (Hdepth : 0 <= std / (mean + 1e-9)).
  { apply Rmult_le_pos; [exact Hstd|]. apply Rlt_le, Rinv_0_lt_compat. lra. }
  f64_cases.
Qed.

Lemma tanh_range (x : R) : -1 < tanh x < 1.
Proof.
  unfold tanh, sinh, cosh.
  pose proof (exp_pos x). pose proof (exp_pos (- x)).
  assert (Hc : 0 < (exp x + exp (- x)) / 2) by lra.
  split.
  - apply Rmult_lt_reg_r with ((exp x + exp (- x)) / 2); [exact Hc|].
    unfold Rdiv at 2. rewrite Rmult_assoc, Rinv_l by lra. lra.
  - apply Rmult_lt_reg_r with ((exp x + exp (- x)) / 2); [exact Hc|].
    unfold Rdiv at 1. rewrite Rmult_assoc, Rinv_l by lra. lra.
Qed.

Lemma tanh_neg (x : R) : x < 0 -> tanh x < 0.
Proof.
  intros Hx. unfold tanh, sinh, cosh.
  pose proof (exp_pos x). pose proof (exp_pos (- x)).
  assert (exp x < exp (- x)) by (apply exp_increasing; lra).
  assert (Hc : 0 < (exp x + exp (- x)) / 2) by lra.
  apply Rmult_lt_reg_r with ((exp x + exp (- x)) / 2); [exact Hc|].
  unfold Rdiv at 1. rewrite Rmult_assoc, Rinv_l by lra. lra.
Qed.

Lemma spectralSkewness_range (magnitude freqs : list R) (centroid bandwidth : R) :
  -1 < spectralSkewness magnitude freqs centroid bandwidth < 1.
Proof.
  unfold spectralSkewness.
  destruct ((length magnitude =? 0)%nat || F64.eqb bandwidth 0); [lra|].
  cbv zeta. destruct (F64.eqb (sumList magnitude) 0); [lra|]. apply tanh_range.
Qed.

Lemma tanh_pos (x : R) : 0 < x -> 0 < tanh x.
Proof.
  intros Hx. unfold tanh, sinh, cosh.
  pose proof (exp_pos x). pose proof (exp_pos (- x)).
  assert (exp (- x) < exp x) by (apply exp_increasing; lra).
  assert (Hc : 0 < (exp x + exp (- x)) / 2) by lra.
  apply Rmult_lt_reg_r with ((exp x + exp (- x)) / 2); [exact Hc|].
  unfold Rdiv at 2. rewrite Rmult_assoc, Rinv_l by lra. lra.
Qed.

Lemma tanh_zero : tanh 0 = 0.
Proof.
  unfold tanh, sinh. replace (- 0) with 0 by lra.
  unfold Rdiv. ring.
Qed.

(** A spectrum without spread about the centroid has no third moment
    either. *)
Lemma thirdCentralMoment_no_spread (magnitude freqs : list R) (centroid : R) :
  Forall (fun mag => 0 <= mag) magnitude ->
  sumList (zip_with (fun m f => let deviation := f - centroid in
                                m * deviation * deviation) magnitude freqs) = 0 ->
  thirdCentralMoment magnitude freqs centroid = 0.
Proof.
  unfold thirdCentralMoment. intros Hmag. revert freqs.
  induction Hmag as [|m magnitude Hm Hmag IH]; intros [|f freqs];
    cbn [zip_with]; try reflexivity.
  rewrite !sumList_cons. cbv zeta. intros Hsum.
  assert (Hrest : 0 <= sumList (zip_with (fun m f => m * (f - centroid) * (f - centroid))
                                  magnitude freqs)).
  { apply sumList_nonneg. clear -Hmag. revert freqs.
    induction Hmag as [|m' magnitude Hm' _ IH]; intros [|f' freqs];
      cbn [zip_with]; constructor; [|apply IH].
    rewrite Rmult_assoc. apply Rmult_le_pos; [exact Hm'|apply Rle_0_sqr]. }
  assert (Hhead : 0 <= m * (f - centroid) * (f - centroid)).
  { rewrite Rmult_assoc. apply Rmult_le_pos; [exact Hm|apply Rle_0_sqr]. }
  rewrite (IH freqs) by lra.
  replace (m * (f - centroid) * (f - centroid)) with 0 by lra. lra.
Qed.

Lemma thirdCentralMoment_silent (magnitude freqs : list R) (centroid : R) :
  Forall (fun mag => 0 <= mag) magnitude ->
  sumList magnitude = 0 ->
  thirdCentralMoment magnitude freqs centroid = 0.
Proof.
  unfold thirdCentralMoment. intros Hmag. revert freqs.
  induction Hmag as [|m magnitude Hm Hmag IH]; intros [|f freqs];
    cbn [zip_with]; try reflexivity.
  rewrite !sumList_cons. cbv zeta. intros Hsum.
  pose proof (sumList_nonneg magnitude Hmag) as Hrest.
  rewrite (IH freqs) by lra. replace m with 0 by lra. lra.
Qed.

(** The spectral skewness has the sign of the third central moment. *)
Lemma spectralSkewness_sign (magnitude freqs : list R) (centroid : R) :
  Forall (fun mag => 0 <= mag) magnitude ->
  let skewness :=
    spectralSkewness magnitude freqs centroid
      (spectralBandwidth magnitude freqs centroid) in
  (skewness < 0 <-> thirdCentralMoment magnitude freqs centroid < 0)
  /\ (0 < skewness <-> 0 < thirdCentralMoment magnitude freqs centroid).
Proof.
  intros Hmag skewness.
  assert (Hzero : skewness = 0 ->
                  thirdCentralMoment magnitude freqs centroid = 0 ->
                  (skewness < 0 <-> thirdCentralMoment magnitude freqs centroid < 0)
                  /\ (0 < skewness <-> 0 < thirdCentralMoment magnitude freqs centroid)).
  { intros -> ->. split; split; lra. }
  pose proof (sumList_nonneg magnitude Hmag) as Htotal.
  unfold skewness, spectralSkewness, spectralBandwidth in *. cbv zeta in *.
  destruct (Nat.eqb_spec (length magnitude) 0) as [Hlen|Hlen]; cbn [orb] in *.
  { apply Hzero; [reflexivity|].
    apply length_zero_iff_nil in Hlen. now rewrite Hlen. }
  destruct (Req_dec_T (sumList magnitude) 0) as [Hsilent|Hsound].
  { replace (F64.eqb (sumList magnitude) 0) with true in *
      by (symmetry; now apply eqb_true).
    replace (F64.eqb 0 0) with true in * by (symmetry; now apply eqb_true).
    apply Hzero; [reflexivity|]. now apply thirdCentralMoment_silent. }
  replace (F64.eqb (sumList magnitude) 0) with false in *
    by (symmetry; now apply eqb_false).
  set (variance := sumList (zip_with _ magnitude freqs)) in *.
  assert (Hvar : 0 <= variance / sumList magnitude).
  { unfold Rdiv. apply Rmult_le_pos; [|left; apply Rinv_0_lt_compat; lra].
    unfold variance. apply sumList_nonneg.
    clear -Hmag. revert freqs.
    induction Hmag as [|m' magnitude Hm' _ IH]; intros [|f' freqs];
      cbn [zip_with]; constructor; [|apply IH].
    cbv zeta. rewrite Rmult_assoc. apply Rmult_le_pos; [exact Hm'|apply Rle_0_sqr]. }
  destruct (Req_dec_T (sqrt (variance / sumList magnitude)) 0) as [Hflat|Hspread].
  { replace (F64.eqb (sqrt (variance / sumList magnitude)) 0) with true in *
      by (symmetry; now apply eqb_true).
    apply Hzero; [reflexivity|].
    apply thirdCentralMoment_no_spread; [exact Hmag|]. change (variance = 0).
    apply sqrt_eq_0 in Hflat; [|exact Hvar].
    transitivity (variance / sumList magnitude * sumList magnitude);
      [field; exact Hsound|].
    rewrite Hflat. ring. }
  replace (F64.eqb (sqrt (variance / sumList magnitude)) 0) with false in *
    by (symmetry; now apply eqb_false).
  clear Hzero. fold (thirdCentralMoment magnitude freqs centroid).
  set (moment := thirdCentralMoment magnitude freqs centroid).
  set (bandwidth := sqrt (variance / sumList magnitude)) in *.
  assert (Hbw : 0 < bandwidth).
  { pose proof (sqrt_pos (variance / sumList magnitude)). fold bandwidth in H. lra. }
  assert (Hden : 0 < bandwidth ^ 3 + 1e-12).
  { pose proof (pow_lt bandwidth 3 Hbw). lra. }
  assert (Hscale : 0 < / sumList magnitude * / (bandwidth ^ 3 + 1e-12)).
  { apply Rmult_lt_0_compat; apply Rinv_0_lt_compat; lra. }
  replace (moment / sumList magnitude / (bandwidth ^ 3 + 1e-12))
    with (moment * (/ sumList magnitude * / (bandwidth ^ 3 + 1e-12)))
    by (unfold Rdiv; ring).
  set (scale := / sumList magnitude * / (bandwidth ^ 3 + 1e-12)) in *.
  destruct (Rtotal_order moment 0) as [Hneg|[Hnull|Hpos]].
  - assert (Hvalue : moment * scale < 0) by nra.
    pose proof (tanh_neg _ Hvalue). split; split; intros; lra.
  - rewrite Hnull, Rmult_0_l, tanh_zero. split; split; lra.
  - assert (Hvalue : 0 < moment * scale) by nra.
    pose proof (tanh_pos _ Hvalue). split; split; intros; lra.
Qed.

Lemma spectralPeakProminence_range (magnitude : list R) :
  0 <= spectralPeakProminence magnitude <= 1.
Proof.
  unfold spectralPeakProminence.
  destruct (length magnitude =? 0)%nat; [lra|]. cbv zeta.
  destruct (F64.eqb (sumList magnitude / INR (length magnitude)) 0); [lra|].
  f64_cases.
Qed.

Lemma computeSpectrum_nonneg (samples : list R) (sampleRate : Z) :
  Forall (fun mag => 0 <= mag) (computeSpectrum samples sampleRate).1.
Proof.
  unfold computeSpectrum. simpl. apply Forall_map, Forall_forall.
  intros i _. apply sqrt_pos.
Qed.

Lemma ExtractFeatureVector_components (samples : list R) (sampleRate : Z) :
  samples <> [] -> (0 < sampleRate)%Z ->
  let spectrum := (computeSpectrum samples sampleRate).1 in
  let freqs := (computeSpectrum samples sampleRate).2 in
  let centroid := spectralCentroid spectrum freqs in
  let bandwidth := spectralBandwidth spectrum freqs centroid in
  let dominant := dominantFrequency spectrum freqs in
  let nyquistFreq := IZR sampleRate / 2.0 in
  let harmonics :=
    if F64.ltb 0 dominant
    then harmonicFeatures spectrum freqs dominant sampleRate
    else (0, 0, 0) in
  ExtractFeatureVector samples sampleRate
  = Ok [rootMeanSquare samples;
        zeroCrossingRate samples;
        clamp01 (centroid / nyquistFreq);
        clamp01 (bandwidth / nyquistFreq);
        clamp01 (spectralRolloff spectrum freqs 0.85 / nyquistFreq);
        spectralFlatness spectrum;
        clamp01 (dominant / nyquistFreq);
        clamp01 (spectralCrestFactor spectrum / 100.0);
        spectralEntropy spectrum;
        signalVariance samples;
        temporalCentroid samples sampleRate;
        onsetRate samples sampleRate;
        amplitudeModulationDepth samples;
        spectralSkewness spectrum freqs centroid bandwidth;
        clamp01 ((spectralKurtosis spectrum freqs centroid bandwidth + 3.0) / 13.0);
        spectralPeakProminence spectrum;
        harmonics.1.1; harmonics.1.2; harmonics.2].
Proof.
  intros Hne Hrate. cbv zeta. unfold ExtractFeatureVector.
  destruct samples as [|s ss] eqn:Hs; [congruence|]. rewrite <- Hs in *.
  replace (length samples =? 0)%nat with false by (rewrite Hs; reflexivity).
  destruct (Z.leb_spec sampleRate 0); [lia|].
  destruct (computeSpectrum samples sampleRate) as [spectrum freqs]. simpl fst. simpl snd.
  destruct (if F64.ltb 0 (dominantFrequency spectrum freqs)
            then harmonicFeatures spectrum freqs (dominantFrequency spectrum freqs) sampleRate
            else (0, 0, 0)) as [[h1 h2] h3].
  replace (F64.ltb 0 (IZR sampleRate / 2.0)) with true; [reflexivity|].
  symmetry. apply ltb_true.
  assert (0 < IZR sampleRate) by (apply IZR_lt; lia). lra.
Qed.

(** C8, amended.  For every non-empty waveform and positive sample rate,
    [ExtractFeatureVector] returns 19 components; those at positions 3-8, 12,
    13, 15 and 16 (spectral centroid, bandwidth, rolloff, flatness, dominant
    frequency and crest; onset rate and amplitude modulation depth; spectral
    kurtosis and peak prominence) lie in [0, 1], and the one at position 14,
    the spectral skewness, lies strictly between -1 and 1.  The skewness has
    the sign of the third central moment of the magnitude spectrum about the
    spectral centroid: it is negative exactly for a spectrum skewed to the
    left and positive exactly for one skewed to the right. *)
Theorem ExtractFeatureVector_ranges (samples : list R) (sampleRate : Z) :
  samples <> [] ->
  (0 < sampleRate)%Z ->
  exists vector,
    ExtractFeatureVector samples sampleRate = Ok vector
    /\ length vector = 19%nat
    /\ (forall i x, In i unitIntervalPositions -> vector !! i = Some x -> 0 <= x <= 1)
    /\ (forall x, vector !! skewnessPosition = Some x -> -1 < x < 1)
    /\ (forall x,
          vector !! skewnessPosition = Some x ->
          let spectrum := (computeSpectrum samples sampleRate).1 in
          let freqs := (computeSpectrum samples sampleRate).2 in
          let moment :=
            thirdCentralMoment spectrum freqs (spectralCentroid spectrum freqs) in
          (x < 0 <-> moment < 0) /\ (0 < x <-> 0 < moment)).
Proof.
  intros Hne Hrate.
  rewrite (ExtractFeatureVector_components samples sampleRate Hne Hrate).
  eexists. split; [reflexivity|]. split; [reflexivity|].
  pose proof (computeSpectrum_nonneg samples sampleRate) as Hmag.
  split; [|split; [|intros x Hx; injection Hx as <-;
                     now apply spectralSkewness_sign]].
  - intros i x Hi Hx. unfold unitIntervalPositions in Hi. simpl in Hi.
    repeat (destruct Hi as [<- | Hi];
            [injection Hx as <-;
             first [ apply clamp01_range
                   | now apply spectralFlatness_range
                   | apply onsetRate_range
                   | apply amplitudeModulationDepth_range
                   | apply spectralPeakProminence_range ] |]).
    contradiction.
  - intros x Hx. injection Hx as <-. apply spectralSkewness_range.
Qed.

(** The theorem on the four samples 0, 0.6, -0.8, 0 at 8000 Hz. *)
Lemma ExtractFeatureVector_ranges_witness :
  exists vector,
    ExtractFeatureVector skewedSamples 8000 = Ok vector
    /\ length vector = 19%nat
    /\ (forall i x, In i unitIntervalPositions -> vector !! i = Some x -> 0 <= x <= 1)
    /\ (forall x, vector !! skewnessPosition = Some x -> -1 < x < 1)
    /\ (forall x,
          vector !! skewnessPosition = Some x ->
          let spectrum := (computeSpectrum skewedSamples 8000).1 in
          let freqs := (computeSpectrum skewedSamples 8000).2 in
          let moment :=
            thirdCentralMoment spectrum freqs (spectralCentroid spectrum freqs) in
          (x < 0 <-> moment < 0) /\ (0 < x <-> 0 < moment)).
Proof.
  apply (ExtractFeatureVector_ranges skewedSamples 8000); [discriminate|lia].
Defined.

(** ** A skewed spectrum *)

Lemma twiddle_quarter :
  cos (-2 * PI * 1 / (1 + 1 + 1 + 1)) = 0 /\ sin (-2 * PI * 1 / (1 + 1 + 1 + 1)) = -1.
Proof.
  replace (-2 * PI * 1 / (1 + 1 + 1 + 1)) with (- (PI / 2)) by lra.
  rewrite cos_neg, sin_neg, cos_PI2, sin_PI2. split; lra.
Qed.

Lemma twiddle_zero (n : R) : cos (-2 * PI * 0 / n) = 1 /\ sin (-2 * PI * 0 / n) = 0.
Proof.
  replace (-2 * PI * 0 / n) with 0 by (unfold Rdiv; ring).
  rewrite cos_0, sin_0. split; reflexivity.
Qed.

Lemma FFT_four_points (a b c d : R) :
  FFT [a; b; c; d]
  = [Cmplx.mkComplex (a + c + (b + d)) 0;
     Cmplx.mkComplex (a - c) (- (b - d));
     Cmplx.mkComplex (a + c - (b + d)) 0;
     Cmplx.mkComplex (a - c) (b - d)].
Proof.
  unfold FFT, recursiveFFT. simpl.
  destruct twiddle_quarter as [-> ->].
  destruct (twiddle_zero (1 + 1)) as [-> ->].
  destruct (twiddle_zero (1 + 1 + 1 + 1)) as [-> ->].
  unfold Cmplx.add, Cmplx.sub, Cmplx.mul. simpl.
  repeat (f_equal; try ring).
Qed.

Lemma hann_cosines :
  cos (2 * PI * INR 1 / INR 3) = -1 / 2 /\ cos (2 * PI * INR 2 / INR 3) = -1 / 2.
Proof.
  split.
  - replace (2 * PI * INR 1 / INR 3) with (2 * (PI / 3)) by (simpl; lra).
    apply cos_2PI3.
  - replace (2 * PI * INR 2 / INR 3) with (- (2 * (PI / 3)) + 2 * INR 1 * PI)
      by (simpl; lra).
    rewrite cos_period, cos_neg. apply cos_2PI3.
Qed.

Lemma applyHannWindow_skewed :
  applyHannWindow skewedSamples = [0; 0.45; -0.6; 0].
Proof.
  unfold applyHannWindow, skewedSamples.
  cbn [length Nat.leb imap Nat.sub compose].
  destruct hann_cosines as [-> ->].
  repeat (f_equal; try lra).
Qed.

Lemma computeSpectrum_skewed :
  computeSpectrum skewedSamples 8000 = ([0.15; 0.75], [0; 2000]).
Proof.
  unfold computeSpectrum.
  change (nextPowerOfTwo (length skewedSamples)) with 4%nat.
  change (skewedSamples ++ replicate (4 - length skewedSamples) 0) with skewedSamples.
  rewrite applyHannWindow_skewed, FFT_four_points.
  change (4 / 2)%nat with 2%nat.
  cbn [seq map lookup_total list_lookup_total].
  unfold Cmplx.Abs. cbn [Cmplx.re Cmplx.im].
  f_equal.
  - f_equal; [|f_equal].
    + replace ((0 + -0.6 + (0.45 + 0)) * (0 + -0.6 + (0.45 + 0)) + 0 * 0)
        with (0.15 * 0.15) by lra.
      apply sqrt_square. lra.
    + replace ((0 - -0.6) * (0 - -0.6) + - (0.45 - 0) * - (0.45 - 0))
        with (0.75 * 0.75) by lra.
      apply sqrt_square. lra.
  - simpl. repeat (f_equal; try lra).
Qed.

Lemma skewed_spectrum_moments :
  spectralCentroid [0.15; 0.75] [0; 2000] = 5000 / 3
  /\ 0 < spectralBandwidth [0.15; 0.75] [0; 2000] (5000 / 3).
Proof.
  assert (Htotal : sumList [0.15; 0.75] = 0.9).
  { rewrite !sumList_cons, sumList_nil. lra. }
  split.
  - unfold spectralCentroid. rewrite Htotal.
    replace (F64.eqb 0.9 0) with false by (symmetry; apply eqb_false; lra).
    cbn [zip_with]. rewrite !sumList_cons, sumList_nil. lra.
  - unfold spectralBandwidth. rewrite Htotal.
    replace (F64.eqb 0.9 0) with false by (symmetry; apply eqb_false; lra).
    cbn [zip_with]. rewrite !sumList_cons, sumList_nil.
    apply sqrt_lt_R0. lra.
Qed.

Lemma spectralSkewness_skewed :
  spectralSkewness [0.15; 0.75] [0; 2000] (5000 / 3)
    (spectralBandwidth [0.15; 0.75] [0; 2000] (5000 / 3)) < 0.
Proof.
  destruct skewed_spectrum_moments as [_ Hbw].
  set (bandwidth := spectralBandwidth [0.15; 0.75] [0; 2000] (5000 / 3)) in *.
  unfold spectralSkewness.
  replace (F64.eqb bandwidth 0) with false by (symmetry; apply eqb_false; lra).
  cbn [length Nat.eqb orb zip_with].
  assert (Htotal : sumList [0.15; 0.75] = 0.9).
  { rewrite !sumList_cons, sumList_nil. lra. }
  rewrite Htotal.
  replace (F64.eqb 0.9 0) with false by (symmetry; apply eqb_false; lra).
  rewrite !sumList_cons, sumList_nil.
  apply tanh_neg.
  assert (Hden : 0 < bandwidth ^ 3 + 1e-12).
  { pose proof (pow_lt bandwidth 3 Hbw). lra. }
  assert (Hnum : (0.15 * (0 - 5000 / 3) * (0 - 5000 / 3) * (0 - 5000 / 3)
                  + (0.75 * (2000 - 5000 / 3) * (2000 - 5000 / 3) * (2000 - 5000 / 3) + 0))
                 / 0.9 < 0) by lra.
  apply Rmult_lt_reg_r with (bandwidth ^ 3 + 1e-12); [exact Hden|].
  unfold Rdiv at 1. rewrite Rmult_assoc, Rinv_l by lra. lra.
Qed.

(** C8, as stated, fails: for the four samples 0, 0.6, -0.8, 0 at 8000 Hz,
    all within [-1, 1], the spectrum has magnitude 0.15 at 0 Hz and 0.75 at
    2000 Hz, and the component at position 14, the spectral skewness, is
    negative. *)
Lemma ExtractFeatureVector_negative_skewness :
  Forall (fun x => -1 <= x <= 1) skewedSamples
  /\ exists vector skewness,
       ExtractFeatureVector skewedSamples 8000 = Ok vector
       /\ vector !! skewnessPosition = Some skewness
       /\ skewness < 0.
Proof.
  split; [unfold skewedSamples; repeat constructor; lra|].
  rewrite (ExtractFeatureVector_components skewedSamples 8000) by (discriminate || lia).
  rewrite computeSpectrum_skewed. cbn [fst snd].
  destruct skewed_spectrum_moments as [-> _].
  eexists _, _. split; [reflexivity|]. split; [reflexivity|].
  apply spectralSkewness_skewed.
Qed.

(** ** The bounded loops never run out of turns *)

Lemma doublePower_reaches (fuel power n : nat) :
  (1 <= power)%nat -> (n <= fuel + power)%nat -> (n <= doublePower fuel power n)%nat.
Proof.
  revert power. induction fuel as [|fuel IH]; intros power Hp Hn; simpl; [lia|].
  destruct (Nat.ltb_spec power n); [apply IH; lia|lia].
Qed.

Lemma nextPowerOfTwo_covers (n : nat) : (n <= nextPowerOfTwo n)%nat.
Proof.
  unfold nextPowerOfTwo. destruct (Nat.leb_spec n 0); [lia|].
  apply doublePower_reaches; lia.
Qed.

Lemma recursiveFFT_fuel_enough (fuel : nat) :
  forall extra (complexArray : list Cmplx.complex128),
    (length complexArray <= fuel)%nat ->
    recursiveFFT_fuel (fuel + extra) complexArray = recursiveFFT_fuel fuel complexArray.
Proof.
  induction fuel as [|fuel IH]; intros extra complexArray Hlen.
  - destruct complexArray; [|simpl in Hlen; lia].
    destruct extra; reflexivity.
  - cbn [Nat.add recursiveFFT_fuel].
    destruct (Nat.leb_spec (length complexArray) 1) as [|Hbig]; [reflexivity|].
    assert (Hhalf : (length complexArray / 2 <= fuel)%nat).
    { pose proof (Nat.div_lt (length complexArray) 2 ltac:(lia) ltac:(lia)). lia. }
    rewrite !IH by (rewrite length_map, length_seq; exact Hhalf).
    reflexivity.
Qed.

(** * Further properties of the code *)

(** ** Quotients *)

Lemma div_nonneg (a b : R) : 0 <= a -> 0 < b -> 0 <= a / b.
Proof.
  intros Ha Hb. unfold Rdiv. apply Rmult_le_pos; [exact Ha|].
  left. now apply Rinv_0_lt_compat.
Qed.

Lemma div_le_bound (a b c : R) : 0 < b -> a <= c * b -> a / b <= c.
Proof.
  intros Hb Hle. apply Rmult_le_reg_r with b; [exact Hb|].
  unfold Rdiv. rewrite Rmult_assoc, Rinv_l by lra. lra.
Qed.

Lemma div_ge_bound (a b c : R) : 0 < b -> c * b <= a -> c <= a / b.
Proof.
  intros Hb Hle. apply Rmult_le_reg_r with b; [exact Hb|].
  unfold Rdiv. rewrite Rmult_assoc, Rinv_l by lra. lra.
Qed.


(** ** Geometry of the cosine similarity *)

Lemma cosineSums_swap (a b weights : list R) (i : nat) (d nA nB : R) :
  cosineSums i b a weights (d, nB, nA)
  = let '(d', nA', nB') := cosineSums i a b weights (d, nA, nB) in (d', nB', nA').
Proof.
  revert b i d nA nB. induction a as [|x a IH]; intros b i d nA nB.
  - destruct b; reflexivity.
  - destruct b as [|y b]; [reflexivity|]. simpl.
    replace (d + y * default 1.0 (weights !! i) * (x * default 1.0 (weights !! i)))
      with (d + x * default 1.0 (weights !! i) * (y * default 1.0 (weights !! i)))
      by ring.
    apply IH.
Qed.

Lemma cosineSums_scale (t : R) (a b weights : list R) (i : nat) (d nA nB : R) :
  cosineSums i (map (Rmult t) a) b weights (t * d, t * t * nA, nB)
  = let '(d', nA', nB') := cosineSums i a b weights (d, nA, nB) in
    (t * d', t * t * nA', nB').
Proof.
  revert b i d nA nB. induction a as [|x a IH]; intros b i d nA nB.
  - reflexivity.
  - destruct b as [|y b]; [reflexivity|]. simpl.
    set (w := default 1.0 (weights !! i)).
    replace (t * d + t * x * w * (y * w)) with (t * (d + x * w * (y * w))) by ring.
    replace (t * t * nA + t * x * w * (t * x * w))
      with (t * t * (nA + x * w * (x * w))) by ring.
    apply IH.
Qed.

Lemma cosineSums_self (a weights : list R) (i : nat) (n : R) :
  cosineSums i a a weights (n, n, n)
  = (fst (fst (cosineSums i a a weights (n, n, n))),
     fst (fst (cosineSums i a a weights (n, n, n))),
     fst (fst (cosineSums i a a weights (n, n, n)))).
Proof.
  revert i n. induction a as [|x a IH]; intros i n; [reflexivity|].
  simpl. apply IH.
Qed.

Lemma cosineSimilarity_sym (a b weights : list R) :
  cosineSimilarity a b weights = cosineSimilarity b a weights.
Proof.
  unfold cosineSimilarity. rewrite (cosineSums_swap a b weights 0 0 0 0).
  destruct (cosineSums 0 a b weights (0, 0, 0)) as [[d nA] nB].
  rewrite orb_comm. rewrite (Rmult_comm (sqrt nB)). reflexivity.
Qed.

Lemma cosineSimilarity_scale_l (t : R) (a b weights : list R) :
  0 < t ->
  cosineSimilarity (map (Rmult t) a) b weights = cosineSimilarity a b weights.
Proof.
  intros Ht. unfold cosineSimilarity.
  pose proof (cosineSums_scale t a b weights 0 0 0 0) as Hs.
  replace (t * 0) with 0 in Hs by ring. replace (t * t * 0) with 0 in Hs by ring.
  rewrite Hs.
  pose proof (cosineSums_bounded a b weights 0 (0, 0, 0)) as Hb.
  destruct (cosineSums 0 a b weights (0, 0, 0)) as [[d nA] nB].
  destruct Hb as (HA & HB & _); [simpl; lra|].
  destruct (F64.eqb nA 0) eqn:EA.
  - apply eqb_true in EA. subst nA.
    replace (F64.eqb (t * t * 0) 0) with true
      by (symmetry; apply eqb_true; ring).
    reflexivity.
  - apply eqb_false in EA.
    assert (0 < t * t * nA) by (repeat apply Rmult_lt_0_compat; lra).
    replace (F64.eqb (t * t * nA) 0) with false
      by (symmetry; apply eqb_false; lra).
    destruct (F64.eqb nB 0) eqn:EB; [reflexivity|]. simpl.
    apply eqb_false in EB.
    replace (t * t * nA) with (Rsqr t * nA) by (unfold Rsqr; ring).
    rewrite sqrt_mult by (try apply Rle_0_sqr; lra).
    rewrite sqrt_Rsqr by lra.
    assert (0 < sqrt nA) by (apply sqrt_lt_R0; lra).
    assert (0 < sqrt nB) by (apply sqrt_lt_R0; lra).
    field. repeat split; lra.
Qed.

Lemma cosineSimilarity_self (a weights : list R) :
  fst (fst (cosineSums 0 a a weights (0, 0, 0))) <> 0 ->
  cosineSimilarity a a weights = 1.
Proof.
  intros Hn. unfold cosineSimilarity.
  pose proof (cosineSums_bounded a a weights 0 (0, 0, 0)) as Hb.
  rewrite cosineSums_self in *.
  set (n := fst (fst (cosineSums 0 a a weights (0, 0, 0)))) in *.
  destruct Hb as (HA & _ & _); [simpl; lra|].
  replace (F64.eqb n 0) with false by (symmetry; now apply eqb_false).
  simpl. rewrite sqrt_sqrt by exact HA. now apply Rdiv_diag.
Qed.

Lemma featureWeights_default (i : nat) : default 1.0 (featureWeights !! i) = 1.
Proof.
  unfold featureWeights.
  destruct (replicate 2048 1.0 !! i) as [w|] eqn:Hw; simpl; [|lra].
  apply lookup_replicate in Hw as [-> _]. lra.
Qed.

Lemma squaredNorm_nil : squaredNorm [] = 0.
Proof. reflexivity. Qed.

Lemma squaredNorm_cons (x : R) (v : list R) :
  squaredNorm (x :: v) = x * x + squaredNorm v.
Proof. unfold squaredNorm. simpl. now rewrite sumList_cons. Qed.

Lemma squaredNorm_nonneg (v : list R) : 0 <= squaredNorm v.
Proof.
  induction v as [|x v IH]; [rewrite squaredNorm_nil; lra|].
  rewrite squaredNorm_cons. pose proof (Rle_0_sqr x) as Hx. unfold Rsqr in Hx. lra.
Qed.

Lemma squaredNorm_pos (v : list R) : Exists (fun x => x <> 0) v -> 0 < squaredNorm v.
Proof.
  induction 1 as [x v Hx|x v _ IH]; rewrite squaredNorm_cons.
  - pose proof (squaredNorm_nonneg v). pose proof (Rsqr_pos_lt x Hx) as Hp.
    unfold Rsqr in Hp. lra.
  - pose proof (Rle_0_sqr x) as Hx. unfold Rsqr in Hx. lra.
Qed.

Lemma squaredNorm_zero (v : list R) : squaredNorm v = 0 -> Forall (fun x => x = 0) v.
Proof.
  induction v as [|x v IH]; [constructor|]. rewrite squaredNorm_cons. intros Hs.
  pose proof (squaredNorm_nonneg v). pose proof (Rle_0_sqr x) as Hx. unfold Rsqr in Hx.
  constructor; [|apply IH; lra].
  destruct (Req_dec x 0) as [|Hne]; [assumption|].
  pose proof (Rsqr_pos_lt x Hne) as Hp. unfold Rsqr in Hp. lra.
Qed.

Lemma squaredNorm_scale (t : R) (v : list R) :
  squaredNorm (map (fun x => x * t) v) = t * t * squaredNorm v.
Proof.
  induction v as [|x v IH]; simpl.
  - rewrite squaredNorm_nil. ring.
  - rewrite !squaredNorm_cons, IH. ring.
Qed.

Lemma sumSquares_fold (v : list R) (acc : R) :
  fold_left (fun acc x => acc + x * x) v acc = acc + squaredNorm v.
Proof.
  revert acc. induction v as [|x v IH]; intros acc; simpl.
  - rewrite squaredNorm_nil. lra.
  - rewrite IH, squaredNorm_cons. lra.
Qed.

Lemma sumSquares_squaredNorm (v : list R) : sumSquares v = squaredNorm v.
Proof. unfold sumSquares. rewrite sumSquares_fold. lra. Qed.

Lemma cosineSums_self_norm (a : list R) (i : nat) (n : R) :
  fst (fst (cosineSums i a a featureWeights (n, n, n))) = n + squaredNorm a.
Proof.
  revert i n. induction a as [|x a IH]; intros i n; simpl.
  - rewrite squaredNorm_nil. lra.
  - rewrite featureWeights_default, IH, squaredNorm_cons. lra.
Qed.

Lemma cosineSimilarity_self_nonzero (a : list R) :
  Exists (fun x => x <> 0) a -> cosineSimilarity a a featureWeights = 1.
Proof.
  intros Hex. apply cosineSimilarity_self. rewrite cosineSums_self_norm.
  pose proof (squaredNorm_pos a Hex). lra.
Qed.

(** X1.  The similarity between two vectors does not depend on their order,
    lies between -1 and 1, is unchanged when the first vector is stretched by
    a positive factor, and is 1 between a vector with a non-zero component
    and itself. *)
Theorem cosineSimilarity_geometry (a b : list R) (t : R) :
  0 < t ->
  Exists (fun x => x <> 0) a ->
  cosineSimilarity a b featureWeights = cosineSimilarity b a featureWeights
  /\ -1 <= cosineSimilarity a b featureWeights <= 1
  /\ cosineSimilarity (map (Rmult t) a) b featureWeights
     = cosineSimilarity a b featureWeights
  /\ cosineSimilarity a a featureWeights = 1.
Proof.
  intros Ht Hex. split; [apply cosineSimilarity_sym|].
  split; [apply cosineSimilarity_range|].
  split; [now apply cosineSimilarity_scale_l|now apply cosineSimilarity_self_nonzero].
Qed.

Lemma cosineSimilarity_geometry_witness :
  cosineSimilarity [3; 4] [3; 4] featureWeights = 1.
Proof.
  apply (cosineSimilarity_geometry [3; 4] [] 2); [lra|].
  constructor. lra.
Defined.

(** ** Normalisation *)

Lemma NormaliseVector_InPlace (vector : list R) :
  NormaliseVector vector = NormaliseVectorInPlace vector.
Proof. reflexivity. Qed.

Lemma NormaliseVectorInPlace_zero (vector : list R) :
  squaredNorm vector = 0 -> NormaliseVectorInPlace vector = vector.
Proof.
  intros Hz. unfold NormaliseVectorInPlace. rewrite sumSquares_squaredNorm, Hz.
  replace (F64.eqb 0 0) with true by (symmetry; now apply eqb_true). reflexivity.
Qed.

Lemma NormaliseVectorInPlace_scaled (vector : list R) :
  squaredNorm vector <> 0 ->
  NormaliseVectorInPlace vector
  = map (fun v => v * (1 / sqrt (squaredNorm vector))) vector.
Proof.
  intros Hnz. unfold NormaliseVectorInPlace. rewrite sumSquares_squaredNorm.
  replace (F64.eqb (squaredNorm vector) 0) with false
    by (symmetry; now apply eqb_false).
  reflexivity.
Qed.

Lemma NormaliseVectorInPlace_unit (vector : list R) :
  squaredNorm vector <> 0 -> squaredNorm (NormaliseVectorInPlace vector) = 1.
Proof.
  intros Hnz. rewrite NormaliseVectorInPlace_scaled by exact Hnz.
  rewrite squaredNorm_scale.
  pose proof (squaredNorm_nonneg vector) as Hge.
  assert (Hs : 0 < sqrt (squaredNorm vector)) by (apply sqrt_lt_R0; lra).
  pose proof (sqrt_sqrt (squaredNorm vector) Hge) as Hsq.
  rewrite <- Hsq at 3. field. lra.
Qed.

Lemma NormaliseVectorInPlace_norm_cases (vector : list R) :
  squaredNorm (NormaliseVectorInPlace vector) = 1
  \/ (Forall (fun x => x = 0) vector /\ NormaliseVectorInPlace vector = vector).
Proof.
  destruct (Req_dec (squaredNorm vector) 0) as [Hz|Hnz].
  - right. split; [now apply squaredNorm_zero|now apply NormaliseVectorInPlace_zero].
  - left. now apply NormaliseVectorInPlace_unit.
Qed.

(** X2.  Normalising a vector with a non-zero component gives a vector of
    Euclidean norm 1 and of the same length; normalising again changes
    nothing; an all-zero vector is returned as it is; and the copying variant
    [NormaliseVector] computes the same vector. *)
Theorem NormaliseVectorInPlace_unit_norm (vector : list R) :
  (Exists (fun x => x <> 0) vector ->
     squaredNorm (NormaliseVectorInPlace vector) = 1
     /\ NormaliseVectorInPlace (NormaliseVectorInPlace vector)
        = NormaliseVectorInPlace vector)
  /\ (Forall (fun x => x = 0) vector -> NormaliseVectorInPlace vector = vector)
  /\ length (NormaliseVectorInPlace vector) = length vector
  /\ NormaliseVector vector = NormaliseVectorInPlace vector.
Proof.
  split; [|split; [|split; [apply NormaliseVectorInPlace_length|reflexivity]]].
  - intros Hex. pose proof (squaredNorm_pos vector Hex) as Hpos.
    assert (Hunit : squaredNorm (NormaliseVectorInPlace vector) = 1)
      by (apply NormaliseVectorInPlace_unit; lra).
    split; [exact Hunit|].
    rewrite (NormaliseVectorInPlace_scaled (NormaliseVectorInPlace vector))
      by (rewrite Hunit; lra).
    rewrite Hunit, sqrt_1. rewrite <- (map_id (NormaliseVectorInPlace vector)) at 2.
    apply map_ext. intros x. field.
  - intros Hzero. apply NormaliseVectorInPlace_zero.
    induction Hzero as [|x v Hx _ IH]; [reflexivity|].
    rewrite squaredNorm_cons, IH, Hx. ring.
Qed.

Lemma NormaliseVectorInPlace_unit_norm_witness :
  squaredNorm (NormaliseVectorInPlace [3; 4]) = 1.
Proof.
  apply (NormaliseVectorInPlace_unit_norm [3; 4]). constructor. lra.
Defined.

(** ** Shape of the prediction list *)

Lemma sumZ_perm (l1 l2 : list Z) : l1 ≡ₚ l2 -> sumZ l1 = sumZ l2.
Proof.
  induction 1 as [|x l1 l2 _ IH|x y l|l1 l2 l3 _ IH1 _ IH2]; simpl; lia.
Qed.

Lemma tableSupport_empty : tableSupport ∅ = 0%Z.
Proof. unfold tableSupport. now rewrite map_to_list_empty. Qed.

Lemma tableSupport_insert (labelScores : gmap string labelStats) (label : string)
    (stats : labelStats) :
  tableSupport (<[label := stats]> labelScores)
  = (tableSupport labelScores
     - count (default zeroStats (labelScores !! label)) + count stats)%Z.
Proof.
  unfold tableSupport. destruct (labelScores !! label) as [old|] eqn:Hlookup; simpl.
  - rewrite <- (insert_delete_eq labelScores).
    rewrite (sumZ_perm _ _
      (Permutation_map _ (map_to_list_insert (delete label labelScores) label stats
                            (lookup_delete_eq _ _)))).
    rewrite <- (sumZ_perm _ _
      (Permutation_map _ (map_to_list_delete labelScores label old Hlookup))).
    simpl. lia.
  - rewrite (sumZ_perm _ _
      (Permutation_map _ (map_to_list_insert labelScores label stats Hlookup))).
    simpl. lia.
Qed.

Lemma addNeighbor_support (prototypes : list Prototype) (neighbors : list distancePair)
    (labelScores : gmap string labelStats) (totalWeight : R) :
  tableSupport (fold_left (addNeighbor prototypes) neighbors (labelScores, totalWeight)).1
  = (tableSupport labelScores + Z.of_nat (length neighbors))%Z.
Proof.
  revert labelScores totalWeight.
  induction neighbors as [|n ns IH]; intros labelScores totalWeight.
  - simpl. lia.
  - cbn [fold_left addNeighbor]. rewrite IH, tableSupport_insert. simpl. lia.
Qed.

Lemma addNeighbor_wellFormed (prototypes : list Prototype)
    (neighbors : list distancePair)
    (labelScores : gmap string labelStats) (totalWeight : R) :
  Forall (fun neighbor => 0 <= distance neighbor <= 2) neighbors ->
  map_Forall (fun _ => wellFormedStats) labelScores ->
  map_Forall (fun _ => wellFormedStats)
    (fold_left (addNeighbor prototypes) neighbors (labelScores, totalWeight)).1.
Proof.
  intros Hd. revert labelScores totalWeight.
  induction Hd as [|n ns [Hlo Hhi] _ IH]; intros labelScores totalWeight Hinv;
    [exact Hinv|].
  cbn [fold_left addNeighbor]. apply IH. apply map_Forall_insert_2; [|exact Hinv].
  assert (Hw : 0 < 1.0 / (distance n + 1e-9)) by (apply Rdiv_lt_0_compat; lra).
  destruct (labelScores !! Label (prototypes !!! index n)) as [old|] eqn:Hold; simpl.
  - destruct (Hinv _ _ Hold) as (Hc & Hws & [Hd0 Hd2] & Hlen).
    unfold wellFormedStats. simpl. rewrite length_app, plus_IZR. simpl.
    repeat split; try lia; try lra.
  - unfold wellFormedStats. simpl. change (IZR (0 + 1)) with 1.
    repeat split; try lia; try lra.
Qed.

Lemma addNeighbor_labels (prototypes : list Prototype)
    (neighbors : list distancePair)
    (labelScores : gmap string labelStats) (totalWeight : R) :
  Forall (fun neighbor => is_Some (prototypes !! index neighbor)) neighbors ->
  map_Forall (fun label _ => exists proto, proto ∈ prototypes /\ Label proto = label)
    labelScores ->
  map_Forall (fun label _ => exists proto, proto ∈ prototypes /\ Label proto = label)
    (fold_left (addNeighbor prototypes) neighbors (labelScores, totalWeight)).1.
Proof.
  intros Hd. revert labelScores totalWeight.
  induction Hd as [|n ns [proto Hproto] _ IH]; intros labelScores totalWeight Hinv;
    [exact Hinv|].
  cbn [fold_left addNeighbor]. apply IH. apply map_Forall_insert_2; [|exact Hinv].
  exists proto. rewrite (list_lookup_total_correct _ _ _ Hproto).
  split; [|reflexivity]. eapply list_elem_of_lookup_2, Hproto.
Qed.

Lemma buildPrediction_label (labelCategory : gmap string string)
    (labelMetadata : gmap string (gmap string string)) (totalWeight : R)
    (entries : list (string * labelStats)) :
  map pLabel (map (buildPrediction labelCategory labelMetadata totalWeight) entries)
  = map fst entries.
Proof.
  rewrite map_map. apply map_ext. now intros [label stats].
Qed.

Lemma buildPrediction_support (labelCategory : gmap string string)
    (labelMetadata : gmap string (gmap string string)) (totalWeight : R)
    (entries : list (string * labelStats)) :
  map Support (map (buildPrediction labelCategory labelMetadata totalWeight) entries)
  = map (fun entry => count entry.2) entries.
Proof.
  rewrite map_map. apply map_ext. now intros [label stats].
Qed.

Lemma buildPrediction_wellFormed (labelCategory : gmap string string)
    (labelMetadata : gmap string (gmap string string))
    (labelScores : gmap string labelStats) (label : string) (stats : labelStats) :
  map_Forall (fun _ => wellFormedStats) labelScores ->
  labelScores !! label = Some stats ->
  wellFormedPrediction
    (buildPrediction labelCategory labelMetadata (tableWeight labelScores)
       (label, stats)).
Proof.
  intros Hinv Hlookup. destruct (Hinv _ _ Hlookup) as (Hc & Hws & [Hd0 Hd2] & Hlen).
  assert (Hle : weightSum stats <= tableWeight labelScores).
  { apply (tableWeight_entry labelScores label); [|exact Hlookup].
    intros l s Hs. destruct (Hinv _ _ Hs) as (_ & Hpos & _). lra. }
  assert (Hcount : 1 <= IZR (count stats)) by now apply IZR_le.
  unfold wellFormedPrediction, buildPrediction. simpl.
  replace (F64.ltb 0 (tableWeight labelScores)) with true
    by (symmetry; apply ltb_true; lra).
  replace (0 <? count stats)%Z with true by (symmetry; apply Z.ltb_lt; lia).
  repeat split; try assumption.
  - apply Rdiv_lt_0_compat; lra.
  - apply div_le_bound; lra.
  - apply div_nonneg; lra.
  - apply div_le_bound; lra.
Qed.

Section PredictShape.

Context `{SliceSorter}.

Lemma neighbourCount_min (c : Classifier) :
  (0 < k c)%Z ->
  Nat.min (Z.to_nat (neighbourCount c (prototypes c))) (length (prototypes c))
  = Z.to_nat (Z.min (k c) (Z.of_nat (length (prototypes c)))) \/ prototypes c = [].
Proof.
  intros Hk. destruct (prototypes c) as [|p ps] eqn:Hps; [now right|left].
  unfold neighbourCount. simpl length.
  destruct (Z.ltb_spec (Z.of_nat (S (length ps))) (k c)); lia.
Qed.

(** X3.  Against a store with at least one prototype and a positive
    neighbour count, [Predict] answers every non-empty query with a list of
    predictions that carry pairwise different labels, each the label of a
    stored prototype and each with its category taken from the label table;
    every confidence lies in (0, 1], every average distance in [0, 2], every
    support is at least 1 and counts the neighbours listed with it; and the
    supports add up to the number of neighbours consulted, the smaller of
    [k] and the size of the store. *)
Theorem Predict_well_formed (c : Classifier) (features : list R) :
  features <> [] ->
  prototypes c <> [] ->
  (0 < k c)%Z ->
  exists predictions,
    Predict c features = Ok predictions
    /\ Forall wellFormedPrediction predictions
    /\ NoDup (map pLabel predictions)
    /\ Forall (fun prediction =>
                 (exists proto,
                    proto ∈ prototypes c /\ Label proto = pLabel prediction)
                 /\ pCategory prediction
                    = default ""%string (labelCategory c !! pLabel prediction))
              predictions
    /\ sumSupport predictions
       = Z.min (k c) (Z.of_nat (length (prototypes c))).
Proof.
  intros Hf Hp Hk.
  pose proof (totalNeighbourWeight_pos_k c features Hp Hk) as Hpos.
  destruct (Predict_total_weight c features Hf Hp Hpos)
    as (labelScores & Hscores & Htable & Hpred).
  eexists. split; [exact Hpred|].
  assert (Hinv : map_Forall (fun _ => wellFormedStats) labelScores).
  { rewrite Hscores. apply addNeighbor_wellFormed; [apply nearest_nonneg|].
    apply map_Forall_empty. }
  assert (Hlabels : map_Forall
            (fun label _ => exists proto, proto ∈ prototypes c /\ Label proto = label)
            labelScores).
  { rewrite Hscores. apply addNeighbor_labels; [|apply map_Forall_empty].
    eapply Forall_impl; [apply nearest_distances|].
    intros neighbor (proto & Hproto & _). now exists proto. }
  split; [|split; [|split]].
  - rewrite sortSlice_perm. apply Forall_map. apply Forall_forall.
    intros [label stats] Hin. apply elem_of_map_to_list in Hin.
    rewrite <- Htable. now apply buildPrediction_wellFormed.
  - rewrite (Permutation_map pLabel (sortSlice_perm _ _ _)), buildPrediction_label.
    apply NoDup_fst_map_to_list.
  - rewrite sortSlice_perm. apply Forall_map. apply Forall_forall.
    intros [label stats] Hin. apply elem_of_map_to_list in Hin.
    split; [exact (Hlabels _ _ Hin)|reflexivity].
  - unfold sumSupport.
    rewrite (sumZ_perm _ _ (Permutation_map Support (sortSlice_perm _ _ _))).
    rewrite buildPrediction_support.
    change (sumZ (map (fun entry => count entry.2) (map_to_list labelScores)))
      with (tableSupport labelScores).
    rewrite Hscores, addNeighbor_support, tableSupport_empty, nearest_length.
    destruct (neighbourCount_min c Hk) as [-> |Hnil]; [lia|congruence].
Qed.

End PredictShape.

Lemma Predict_well_formed_witness :
  exists predictions,
    Predict seededStore [1; 2; 3] = Ok predictions
    /\ Forall wellFormedPrediction predictions
    /\ sumSupport predictions = 1%Z.
Proof.
  destruct (Predict_well_formed seededStore [1; 2; 3])
    as (predictions & Hpred & Hwf & _ & _ & Hsum);
    [discriminate|discriminate|reflexivity|].
  exists predictions. split; [exact Hpred|]. split; [exact Hwf|exact Hsum].
Defined.

(** ** Empty stores, single labels and rescaled queries *)

Lemma NoDup_constant {A : Type} (x : A) (l : list A) :
  NoDup l -> Forall (fun y => y = x) l -> (length l <= 1)%nat.
Proof.
  intros Hnd Hall. destruct l as [|a [|b l]]; simpl; try lia.
  apply Forall_cons in Hall as [Ha Hall]. apply Forall_cons in Hall as [Hb _].
  apply NoDup_cons in Hnd as [Hnotin _]. exfalso. apply Hnotin.
  rewrite Ha, Hb. left.
Qed.

Lemma map_to_list_single_key (labelScores : gmap string labelStats) (label : string) :
  labelScores <> ∅ ->
  map_Forall (fun l _ => l = label) labelScores ->
  exists stats, map_to_list labelScores = [(label, stats)].
Proof.
  intros Hne Hkeys.
  assert (Hall : Forall (fun l => l = label) (map fst (map_to_list labelScores))).
  { apply Forall_map, Forall_forall. intros [l s] Hin.
    apply elem_of_map_to_list in Hin. exact (Hkeys _ _ Hin). }
  pose proof (NoDup_constant label _ (NoDup_fst_map_to_list labelScores) Hall) as Hlen.
  destruct (map_to_list labelScores) as [|[l s] rest] eqn:Hlist.
  - now apply map_to_list_empty_iff in Hlist.
  - destruct rest; [|simpl in Hlen; lia].
    inversion Hall as [|? ? Hl _]. simpl in Hl. subst l. now exists s.
Qed.

Section PredictCases.

Context `{SliceSorter}.

Lemma sortSlice_singleton {A : Type} (less : A -> A -> bool) (x : A) :
  sortSlice less [x] = [x].
Proof. apply Permutation_singleton_r. apply sortSlice_perm. Qed.

(** X4.  Given a non-empty query and a positive neighbour count, [Predict]
    returns the empty list exactly when the store holds no prototype; the
    drone decision on that answer is negative for every threshold and every
    signal-to-noise ratio. *)
Theorem Predict_empty_iff_empty_store (c : Classifier) (features : list R) :
  features <> [] ->
  (0 < k c)%Z ->
  (Predict c features = Ok [] <-> prototypes c = [])
  /\ (prototypes c = [] ->
      forall (folding : GoStrings.CaseFolding) baseThreshold snrDb,
        match Predict c features with
        | Ok predictions =>
            @DetermineDroneLikelyWithSNR folding predictions baseThreshold snrDb
            = false
        | Err _ => False
        end).
Proof.
  intros Hf Hk.
  assert (Hempty : prototypes c = [] -> Predict c features = Ok []).
  { intros Hnil. unfold Predict, snapshot. rewrite Hnil.
    destruct features; [congruence|reflexivity]. }
  split; [split; [|exact Hempty]|].
  - intros Hpred. destruct (prototypes c) as [|p ps] eqn:Hps; [reflexivity|exfalso].
    assert (Hp : prototypes c <> []) by (rewrite Hps; discriminate).
    pose proof (totalNeighbourWeight_pos_k c features Hp Hk) as Hpos.
    destruct (Predict_confidences_sum_to_one_aux c features Hf Hp Hpos)
      as (labelScores & _ & _ & Hok & Hnonempty & _).
    rewrite Hok in Hpred. injection Hpred as Hpred. now apply Hnonempty.
  - intros Hnil folding baseThreshold snrDb. rewrite (Hempty Hnil). reflexivity.
Qed.

(** X5.  When every prototype of the store carries the same label, a
    non-empty query is answered by exactly one prediction, for that label,
    with confidence 1 whatever the query is; its support is the number of
    neighbours consulted. *)
Theorem Predict_single_label (c : Classifier) (features : list R) (label : string) :
  features <> [] ->
  prototypes c <> [] ->
  (0 < k c)%Z ->
  Forall (fun proto => Label proto = label) (prototypes c) ->
  exists prediction,
    Predict c features = Ok [prediction]
    /\ pLabel prediction = label
    /\ pCategory prediction = default ""%string (labelCategory c !! label)
    /\ Confidence prediction = 1
    /\ Support prediction = Z.min (k c) (Z.of_nat (length (prototypes c))).
Proof.
  intros Hf Hp Hk Hsame.
  pose proof (totalNeighbourWeight_pos_k c features Hp Hk) as Hpos.
  destruct (Predict_total_weight c features Hf Hp Hpos)
    as (labelScores & Hscores & Htable & Hpred).
  assert (Hkeys : map_Forall (fun l _ => l = label) labelScores).
  { assert (Hlabels : map_Forall
              (fun l _ => exists proto, proto ∈ prototypes c /\ Label proto = l)
              labelScores).
    { rewrite Hscores. apply addNeighbor_labels; [|apply map_Forall_empty].
      eapply Forall_impl; [apply nearest_distances|].
      intros neighbor (proto & Hproto & _). now exists proto. }
    intros l s Hl. destruct (Hlabels l s Hl) as (proto & Hin & <-).
    rewrite Forall_forall in Hsame. now apply Hsame. }
  assert (Hne : labelScores <> ∅).
  { intros ->. rewrite tableWeight_empty in Htable. lra. }
  destruct (map_to_list_single_key labelScores label Hne Hkeys) as [stats Hlist].
  rewrite Hlist in Hpred. cbn [map] in Hpred. rewrite sortSlice_singleton in Hpred.
  eexists. split; [exact Hpred|].
  assert (Hweight : weightSum stats = totalNeighbourWeight c features).
  { rewrite <- Htable. unfold tableWeight. rewrite Hlist. cbn [map].
    rewrite sumList_cons, sumList_nil. simpl. lra. }
  assert (Hcount : count stats = Z.min (k c) (Z.of_nat (length (prototypes c)))).
  { pose proof (addNeighbor_support (prototypes c)
                  (nearest c (scaleQuery c features) (prototypes c)) ∅ 0) as Hsup.
    rewrite <- Hscores, tableSupport_empty, nearest_length in Hsup.
    unfold tableSupport in Hsup. rewrite Hlist in Hsup. simpl in Hsup.
    destruct (neighbourCount_min c Hk) as [Hmin|Hnil]; [|congruence].
    rewrite Hmin in Hsup. lia. }
  simpl. split; [reflexivity|]. split; [reflexivity|].
  split; [|exact Hcount].
  replace (F64.ltb 0 (totalNeighbourWeight c features)) with true
    by (symmetry; now apply ltb_true).
  rewrite Hweight. apply Rdiv_diag. lra.
Qed.

Lemma cosineSimilarity_scale_query (t : R) (features : list R) (proto : Prototype) :
  0 < t ->
  cosineSimilarity (map (Rmult t) features) (Features proto) featureWeights
  = cosineSimilarity features (Features proto) featureWeights.
Proof. intros Ht. now apply cosineSimilarity_scale_l. Qed.

(** X6.  Stretching a query by a positive factor does not change the answer
    of a store that has no feature scaler: the predictions are the same,
    with the same confidences and distances. *)
Theorem Predict_scale_invariant (c : Classifier) (features : list R) (t : R) :
  0 < t ->
  featureScaler c = None ->
  Predict c (map (Rmult t) features) = Predict c features.
Proof.
  intros Ht Hscaler. unfold Predict. rewrite length_map.
  destruct (length features =? 0)%nat; [reflexivity|].
  rewrite !scaleQuery_no_scaler by exact Hscaler.
  unfold snapshot. destruct (length (prototypes c) =? 0)%nat; [reflexivity|].
  replace (nearest c (map (Rmult t) features) (prototypes c))
    with (nearest c features (prototypes c)); [reflexivity|].
  unfold nearest. do 2 f_equal. apply imap_ext. intros i proto _.
  now rewrite cosineSimilarity_scale_query.
Qed.

End PredictCases.

Lemma Predict_empty_iff_empty_store_witness :
  Predict emptyStore [1; 2; 3] = Ok [].
Proof.
  apply (Predict_empty_iff_empty_store emptyStore [1; 2; 3]);
    [discriminate|reflexivity|reflexivity].
Defined.

Lemma Predict_single_label_witness :
  exists prediction,
    Predict seededStore [1; 2; 3] = Ok [prediction]
    /\ pLabel prediction = "mavic"%string
    /\ Confidence prediction = 1.
Proof.
  destruct (Predict_single_label seededStore [1; 2; 3] "mavic")
    as (prediction & Hpred & Hlabel & _ & Hconf & _);
    [discriminate|discriminate|reflexivity|repeat constructor|].
  exists prediction. split; [exact Hpred|]. split; [exact Hlabel|exact Hconf].
Defined.

Lemma Predict_scale_invariant_witness :
  Predict seededStore (map (Rmult 2) [1; 2; 3]) = Predict seededStore [1; 2; 3].
Proof.
  apply (Predict_scale_invariant seededStore [1; 2; 3] 2); [lra|reflexivity].
Defined.

(** ** What [AddPrototype] stores *)

Lemma NormaliseVectorInPlace_unit_or_zero (vector : list R) :
  squaredNorm (NormaliseVectorInPlace vector) = 1
  \/ Forall (fun x => x = 0) (NormaliseVectorInPlace vector).
Proof.
  destruct (NormaliseVectorInPlace_norm_cases vector) as [Hunit|[Hzero Hsame]];
    [now left|right]. now rewrite Hsame.
Qed.



(** ** What the loader builds *)

Lemma validatePrototypes_labels (n : nat) (ps : list Prototype)
    (lc lc' : gmap string string) (lm lm' : gmap string (gmap string string)) :
  validatePrototypes n ps lc lm = Ok (lc', lm') ->
  Forall (fun proto => Label proto <> ""%string) ps
  /\ (forall label,
        lc' !! label
        = match lc !! label with
          | Some category => Some category
          | None => firstCategory label ps
          end)
  /\ (forall label,
        is_Some (lm' !! label)
        <-> is_Some (lm !! label) \/ exists proto, proto ∈ ps /\ Label proto = label).
Proof.
  revert lc lm. induction ps as [|proto ps IH]; intros lc lm Hok.
  - injection Hok as <- <-. split; [constructor|]. split.
    + intros label. now destruct (lc !! label).
    + intros label. split; [now left|]. intros [Hs|(proto & Hin & _)]; [exact Hs|].
      now apply elem_of_nil in Hin.
  - simpl in Hok.
    destruct (length (Features proto) =? 0)%nat; [discriminate|].
    destruct (String.eqb_spec (Label proto) "") as [|Hlabel]; [discriminate|].
    destruct (negb (length (Features proto) =? n)%nat); [discriminate|].
    destruct (length (Features proto) <? harmonicFeatureCount)%nat; [discriminate|].
    apply IH in Hok as (Hlabels & Hcat & Hmeta).
    split; [now constructor|]. split.
    + intros label. rewrite Hcat. cbn [firstCategory].
      destruct (String.eqb_spec (Label proto) label) as [<-|Hne].
      * destruct (lc !! Label proto) as [category|] eqn:Hlc; [now rewrite Hlc|].
        now rewrite lookup_insert_eq.
      * destruct (lc !! Label proto) as [category|] eqn:Hlc; [reflexivity|].
        now rewrite lookup_insert_ne.
    + intros label. rewrite Hmeta. split.
      * intros [Hs|(p & Hin & Hp)].
        -- destruct (String.eqb_spec (Label proto) label) as [<-|Hne].
           ++ right. exists proto. split; [left|reflexivity].
           ++ left. now rewrite lookup_insert_ne in Hs.
        -- right. exists p. split; [now right|exact Hp].
      * intros [Hs|(p & Hin & Hp)].
        -- destruct (String.eqb_spec (Label proto) label) as [<-|Hne].
           ++ left. rewrite lookup_insert_eq. eauto.
           ++ left. now rewrite lookup_insert_ne.
        -- apply elem_of_cons in Hin as [->|Hin].
           ++ left. rewrite <- Hp, lookup_insert_eq. eauto.
           ++ right. exists p. now split.
Qed.

(** What [NewClassifierFromFile] does once it succeeds: the file it read,
    and the store it built from it. *)
Lemma NewClassifierFromFile_inv (fs : FileSystem) (path : string) (k0 : Z)
    (c : Classifier) :
  NewClassifierFromFile fs path k0 = Ok c ->
  exists resolved ps lc lm,
    (0 < k0)%Z
    /\ fs !! resolved = Some (PrototypesJSON ps)
    /\ (resolved = path
        \/ fs !! path = None
           /\ resolved
              = (GoStrings.TrimSuffix path (GoStrings.Ext path)
                 ++ ".example" ++ GoStrings.Ext path)%string)
    /\ validatePrototypes 2048 ps ∅ ∅ = Ok (lc, lm)
    /\ c = mkClassifier ps
             (if (0 <? Z.of_nat (length ps))%Z && (Z.of_nat (length ps) <? k0)%Z
              then Z.of_nat (length ps) else k0)
             (GoStrings.HasSuffix resolved ".example")
             (if GoStrings.HasSuffix resolved ".example"
              then GoStrings.TrimSuffix resolved ".example" else resolved)
             lc lm None.
Proof.
  unfold NewClassifierFromFile.
  destruct (Z.leb_spec k0 0) as [|Hk]; [discriminate|].
  set (read := match fs !! path with
               | Some data => Ok (data, path)
               | None => _
               end).
  assert (Hread : forall data resolved,
            read = Ok (data, resolved) ->
            fs !! resolved = Some data
            /\ (resolved = path
                \/ fs !! path = None
                   /\ resolved
                      = (GoStrings.TrimSuffix path (GoStrings.Ext path)
                         ++ ".example" ++ GoStrings.Ext path)%string)).
  { intros data resolved. subst read.
    destruct (fs !! path) as [d|] eqn:Hpath.
    - intros Heq. injection Heq as <- <-. split; [exact Hpath|now left].
    - match goal with
      | |- match ?lookup with _ => _ end = _ -> _ =>
          destruct lookup as [d|] eqn:Hfallback; [|discriminate]
      end.
      intros Heq. injection Heq as <- <-.
      split; [exact Hfallback|right; now split]. }
  destruct read as [[[ps|] resolved]|e]; try discriminate.
  destruct (Hread _ _ eq_refl) as [Hfile Hwhere].
  rewrite featureWeights_length.
  destruct (validatePrototypes 2048 ps ∅ ∅) as [[lc lm]|e] eqn:Hv; [|discriminate].
  pose proof (validatePrototypes_dims _ _ _ _ _ Hv) as Hdims.
  intros Hok. exists resolved, ps, lc, lm.
  split; [exact Hk|]. split; [exact Hfile|]. split; [exact Hwhere|].
  split; [exact Hv|]. clear Hv.
  destruct ps as [|first rest].
  - injection Hok as <-. reflexivity.
  - inversion Hdims as [|? ? Hfirst _]; subst.
    rewrite Hfirst in Hok. simpl (2048 =? 2048)%nat in Hok. cbv iota in Hok.
    injection Hok as <-. reflexivity.
Qed.

(** X8.  A store that [NewClassifierFromFile] returns holds the prototypes
    of the file it read, in the same order and with their feature vectors
    untouched; each of them has 2048 features and a non-empty label; the
    store has no feature scaler; its neighbour count is the requested one,
    lowered to the number of prototypes when there are fewer, and positive. *)
Theorem NewClassifierFromFile_loaded (fs : FileSystem) (path : string) (k0 : Z)
    (c : Classifier) :
  NewClassifierFromFile fs path k0 = Ok c ->
  exists resolved,
    fs !! resolved = Some (PrototypesJSON (prototypes c))
    /\ (resolved = path \/ fs !! path = None)
    /\ Forall (fun proto => length (Features proto) = 2048%nat
                            /\ Label proto <> ""%string) (prototypes c)
    /\ featureScaler c = None
    /\ (0 < k c <= k0)%Z
    /\ (prototypes c = [] -> k c = k0)
    /\ (prototypes c <> [] ->
        k c = Z.min k0 (Z.of_nat (length (prototypes c)))).
Proof.
  intros Hok.
  destruct (NewClassifierFromFile_inv fs path k0 c Hok)
    as (resolved & ps & lc & lm & Hk & Hfile & Hwhere & Hv & ->).
  exists resolved. cbn [prototypes featureScaler k].
  split; [exact Hfile|]. split; [destruct Hwhere as [|[? _]]; auto|].
  split.
  { pose proof (validatePrototypes_dims _ _ _ _ _ Hv) as Hdims.
    destruct (validatePrototypes_labels _ _ _ _ _ _ Hv) as (Hlabels & _).
    rewrite Forall_forall in Hdims, Hlabels. apply Forall_forall.
    intros proto Hin. split; [now apply Hdims|now apply Hlabels]. }
  split; [reflexivity|].
  destruct ps as [|first rest]; cbn [length].
  - simpl. split; [lia|]. split; [reflexivity|congruence].
  - replace (0 <? Z.of_nat (S (length rest)))%Z with true
      by (symmetry; apply Z.ltb_lt; lia).
    cbn [andb].
    destruct (Z.ltb_spec (Z.of_nat (S (length rest))) k0);
      (split; [lia|]); (split; [congruence|]); intros _; lia.
Qed.

Lemma NewClassifierFromFile_loaded_witness :
  exists resolved,
    seededFiles !! resolved = Some (PrototypesJSON (prototypes seededStore))
    /\ k seededStore = 1%Z.
Proof.
  destruct (NewClassifierFromFile_loaded seededFiles "drone/prototypes.json" 5
              seededStore seededStore_loaded)
    as (resolved & Hfile & _ & _ & _ & _ & _ & Hk).
  exists resolved. split; [exact Hfile|reflexivity].
Defined.

(** X9.  In a store that [NewClassifierFromFile] returns, the category
    recorded for a label is the category of the first prototype of the file
    that carries the label, and the labels with a metadata entry are exactly
    the labels of the prototypes. *)
Theorem NewClassifierFromFile_label_tables (fs : FileSystem) (path : string)
    (k0 : Z) (c : Classifier) :
  NewClassifierFromFile fs path k0 = Ok c ->
  forall label,
    labelCategory c !! label = firstCategory label (prototypes c)
    /\ (is_Some (labelMetadata c !! label)
        <-> exists proto, proto ∈ prototypes c /\ Label proto = label).
Proof.
  intros Hok label.
  destruct (NewClassifierFromFile_inv fs path k0 c Hok)
    as (resolved & ps & lc & lm & _ & _ & _ & Hv & ->).
  cbn [labelCategory labelMetadata prototypes].
  destruct (validatePrototypes_labels _ _ _ _ _ _ Hv) as (_ & Hcat & Hmeta).
  split.
  - rewrite Hcat, lookup_empty. reflexivity.
  - rewrite Hmeta, lookup_empty. split; [|now right].
    intros [[meta Hnone]|Hex]; [discriminate|exact Hex].
Qed.

Lemma NewClassifierFromFile_label_tables_witness :
  labelCategory seededStore !! "mavic"%string
  = firstCategory "mavic" (prototypes seededStore).
Proof.
  apply (NewClassifierFromFile_label_tables seededFiles "drone/prototypes.json" 5
           seededStore seededStore_loaded "mavic").
Defined.

(** ** Saving *)

(** The files after a successful save, path by path. *)
Lemma saved_files_lookup (fs : FileSystem) (model : string) (data : FileContent)
    (path : string) :
  (<[model := data]>
     (delete (model ++ ".tmp")%string (<[(model ++ ".tmp")%string := data]> fs)))
    !! path
  = if decide (path = model) then Some data
    else if decide (path = (model ++ ".tmp")%string) then None
    else fs !! path.
Proof.
  destruct (decide (path = model)) as [->|Hmodel]; [apply lookup_insert_eq|].
  rewrite lookup_insert_ne by congruence.
  destruct (decide (path = (model ++ ".tmp")%string)) as [->|Htemp];
    [apply lookup_delete_eq|].
  rewrite lookup_delete_ne by congruence.
  now rewrite lookup_insert_ne by congruence.
Qed.

(** X10.  [SavePrototypesToFile] returns an error exactly when the store
    has no model path or one of [os.MkdirAll], [json.MarshalIndent],
    [os.WriteFile] and [os.Rename] fails.  Whatever happens, every file
    other than the model file and its temporary companion is left as it
    was.  A save that fails changes neither the store nor the model file.  A
    save that succeeds puts the prototypes in the model file, leaves no
    temporary file behind, changes nothing in the store but the flag that
    marks the example data, and saving once more, nothing failing, changes
    neither the store nor the files. *)
Theorem SavePrototypesToFile_frame (env : SaveEnvironment) (c : Classifier)
    (fs : FileSystem) (saved : Classifier) (files : FileSystem)
    (err : option error) :
  SavePrototypesToFile env c fs = (saved, files, err) ->
  (err = Some ErrModelPathNotSet <-> modelPath c = ""%string)
  /\ (err = None <->
      modelPath c <> ""%string
      /\ mkdirAllFails env = false
      /\ marshalIndentFails env = false
      /\ writeFileOutcome env = Written
      /\ renameFails env = false)
  /\ (forall path,
        path <> modelPath c -> path <> (modelPath c ++ ".tmp")%string ->
        files !! path = fs !! path)
  /\ (err <> None -> saved = c /\ files !! modelPath c = fs !! modelPath c)
  /\ (err = None ->
      saved = mkClassifier (prototypes c) (k c) false (modelPath c)
                (labelCategory c) (labelMetadata c) (featureScaler c)
      /\ files !! modelPath c = Some (PrototypesJSON (prototypes c))
      /\ files !! (modelPath c ++ ".tmp")%string = None
      /\ SavePrototypesToFile noFault saved files = (saved, files, None)).
Proof.
  intros Hsave.
  pose proof (tempPath_fresh (modelPath c)) as Htmp.
  destruct err as [e|].
  - (* a failed save *)
    assert (Hfail : (e = ErrModelPathNotSet <-> modelPath c = ""%string)
                    /\ saved = c
                    /\ forall path, path <> (modelPath c ++ ".tmp")%string ->
                                    files !! path = fs !! path).
    { revert Hsave. unfold SavePrototypesToFile, snapshot.
      destruct (String.eqb_spec (modelPath c) "") as [Hempty|Hpath].
      { intros [= <- <- <-]. repeat split; auto. }
      destruct (mkdirAllFails env).
      { intros [= <- <- <-]. repeat split; auto; discriminate || contradiction. }
      destruct (marshalIndentFails env).
      { intros [= <- <- <-]. repeat split; auto; discriminate || contradiction. }
      destruct (writeFileOutcome env) as [|[partial|]].
      - destruct (renameFails env); [|discriminate].
        intros [= <- <- <-].
        split; [split; [discriminate|contradiction]|]. split; [reflexivity|].
        intros path Hne. destruct (removeFails env).
        + now rewrite lookup_insert_ne by congruence.
        + rewrite lookup_delete_ne by congruence.
          now rewrite lookup_insert_ne by congruence.
      - intros [= <- <- <-].
        split; [split; [discriminate|contradiction]|]. split; [reflexivity|].
        intros path Hne. now rewrite lookup_insert_ne by congruence.
      - intros [= <- <- <-].
        split; [split; [discriminate|contradiction]|]. split; reflexivity. }
    destruct Hfail as (Hpath & -> & Hframe).
    split; [split; [intros [= ->]; now apply Hpath
                   |intros Hempty; f_equal; now apply Hpath]|].
    split; [split; [discriminate|]|].
    { intros Hok. exfalso.
      assert (Hagain : SavePrototypesToFile env c fs
                       = (mkClassifier (prototypes c) (k c) false
                            (modelPath c) (labelCategory c)
                            (labelMetadata c) (featureScaler c),
                          <[modelPath c := PrototypesJSON (prototypes c)]>
                            (delete (modelPath c ++ ".tmp")%string
                               (<[(modelPath c ++ ".tmp")%string :=
                                    PrototypesJSON (prototypes c)]> fs)),
                          None)).
      { apply save_succeeds. destruct Hok as (? & ? & ? & ? & ?).
        repeat split; assumption. }
      rewrite Hsave in Hagain. discriminate. }
    split; [intros path _ Hne; now apply Hframe|].
    split; [intros _; split; [reflexivity|apply Hframe; congruence]|].
    discriminate.
  - (* a successful save *)
    apply save_succeeds in Hsave
      as (Hpath & Hmkdir & Hmarshal & Hwrite & Hrename & -> & ->).
    split; [split; [discriminate|contradiction]|].
    split; [split; [intros _; repeat split; assumption|reflexivity]|].
    split.
    { intros path Hmodel Htemp. rewrite saved_files_lookup.
      destruct (decide (path = modelPath c)); [contradiction|].
      now destruct (decide (path = (modelPath c ++ ".tmp")%string)). }
    split; [congruence|]. intros _.
    split; [reflexivity|].
    split.
    { rewrite saved_files_lookup. now destruct (decide (modelPath c = modelPath c)). }
    split.
    { rewrite saved_files_lookup.
      destruct (decide ((modelPath c ++ ".tmp")%string = modelPath c));
        [contradiction|].
      now destruct (decide ((modelPath c ++ ".tmp")%string
                            = (modelPath c ++ ".tmp")%string)). }
    apply save_succeeds.
    cbn [modelPath prototypes k labelCategory labelMetadata featureScaler].
    repeat split; try reflexivity; [exact Hpath|].
    apply map_eq. intros path. rewrite !saved_files_lookup.
    destruct (decide (path = modelPath c)); [reflexivity|].
    destruct (decide (path = (modelPath c ++ ".tmp")%string)); reflexivity.
Qed.

(** A save of the seeded store in which the rename fails: the error is
    returned, the model file keeps the embedding it held, and the example
    file beside it is untouched. *)
Lemma SavePrototypesToFile_frame_witness :
  let env := mkSaveEnvironment false false Written true false in
  let c := fst (AddPrototype seededStore embeddingPrototype) in
  let outcome := SavePrototypesToFile env c seededFiles in
  outcome.2 = Some ErrRenameTempFile
  /\ outcome.1.1 = c
  /\ outcome.1.2 !! "drone/prototypes.json"%string
     = Some (PrototypesJSON [embeddingPrototype]).
Proof.
  intros env c outcome.
  assert (Hrun : SavePrototypesToFile env c seededFiles
                 = (outcome.1.1, outcome.1.2, outcome.2))
    by (unfold outcome; now destruct (SavePrototypesToFile env c seededFiles) as [[? ?] ?]).
  assert (Herr : outcome.2 = Some ErrRenameTempFile) by reflexivity.
  destruct (SavePrototypesToFile_frame env c seededFiles _ _ _ Hrun)
    as (_ & _ & _ & Hfail & _).
  destruct Hfail as [Hstore Hfile]; [rewrite Herr; discriminate|].
  split; [exact Herr|]. split; [exact Hstore|].
  exact (eq_trans Hfile eq_refl).
Defined.

(** ** Store statistics *)

Lemma countWithLabel_snoc (label : string) (ps : list Prototype) (proto : Prototype) :
  countWithLabel label (ps ++ [proto])
  = (countWithLabel label ps + if decide (Label proto = label) then 1 else 0)%nat.
Proof.
  unfold countWithLabel. rewrite filter_app, length_app. f_equal.
  rewrite filter_cons, filter_nil. now destruct (decide (Label proto = label)).
Qed.

Lemma lastCategory_snoc (label : string) (ps : list Prototype) (proto : Prototype) :
  lastCategory label (ps ++ [proto])
  = if decide (Label proto = label) then Some (Category proto)
    else lastCategory label ps.
Proof.
  unfold lastCategory. rewrite rev_app_distr. simpl.
  destruct (String.eqb_spec (Label proto) label), (decide (Label proto = label));
    congruence.
Qed.

Lemma lastCategory_none_iff (label : string) (ps : list Prototype) :
  lastCategory label ps = None <-> countWithLabel label ps = 0%nat.
Proof.
  induction ps as [|proto ps IH] using rev_ind; [easy|].
  rewrite lastCategory_snoc, countWithLabel_snoc.
  destruct (decide (Label proto = label)); [split; [discriminate|lia]|].
  rewrite Nat.add_0_r. exact IH.
Qed.

Lemma countWithLabel_pos (label : string) (ps : list Prototype) :
  (0 < countWithLabel label ps)%nat
  <-> exists proto, proto ∈ ps /\ Label proto = label.
Proof.
  unfold countWithLabel. split.
  - intros Hpos. destruct (filter _ ps) as [|proto rest] eqn:Hfilter;
      [simpl in Hpos; lia|].
    assert (Hin : proto ∈ filter (fun proto => Label proto = label) ps)
      by (rewrite Hfilter; left).
    apply list_elem_of_filter in Hin as [Hlabel Hin]. now exists proto.
  - intros (proto & Hin & Hlabel).
    assert (Hfil : proto ∈ filter (fun proto => Label proto = label) ps)
      by now apply list_elem_of_filter.
    destruct (filter _ ps); [now apply elem_of_nil in Hfil|simpl; lia].
Qed.

(** The two tables of [Stats] after the loop over the prototypes. *)
Lemma countLabel_fold (ps : list Prototype) (label : string) :
  (fold_left countLabel ps (∅, ∅)).1 !! label
  = (if decide (countWithLabel label ps = 0%nat) then None
     else Some (Z.of_nat (countWithLabel label ps)))
  /\ (fold_left countLabel ps (∅, ∅)).2 !! label
     = option_map
         (fun category =>
            mkModelLabelStat label category (Z.of_nat (countWithLabel label ps)))
         (lastCategory label ps).
Proof.
  revert label. induction ps as [|proto ps IH] using rev_ind; intros label.
  - simpl. rewrite !lookup_empty. now split.
  - rewrite fold_left_app. cbn [fold_left].
    pose proof (IH (Label proto)) as [Hbucket _]. specialize (IH label).
    destruct (fold_left countLabel ps (∅, ∅)) as [labelBuckets entries].
    cbn [countLabel fst snd] in *.
    rewrite countWithLabel_snoc, lastCategory_snoc.
    destruct (decide (Label proto = label)) as [<-|Hother].
    + rewrite !lookup_insert_eq, Hbucket.
      destruct (decide (countWithLabel (Label proto) ps + 1 = 0)%nat); [lia|].
      assert (Hn : (default 0 (if decide (countWithLabel (Label proto) ps = 0%nat)
                               then None
                               else Some (Z.of_nat (countWithLabel (Label proto) ps)))
                    + 1)%Z
                   = Z.of_nat (countWithLabel (Label proto) ps + 1)).
      { destruct (decide (countWithLabel (Label proto) ps = 0%nat)) as [->|];
          simpl; lia. }
      rewrite Hn. now split.
    + rewrite !lookup_insert_ne by exact Hother. rewrite Nat.add_0_r. exact IH.
Qed.

Lemma countLabel_entry (ps : list Prototype) (label : string) (stat : ModelLabelStat) :
  (fold_left countLabel ps (∅, ∅)).2 !! label = Some stat ->
  mlLabel stat = label
  /\ mlPrototypes stat = Z.of_nat (countWithLabel label ps)
  /\ (0 < countWithLabel label ps)%nat
  /\ lastCategory label ps = Some (mlCategory stat).
Proof.
  intros Hstat. destruct (countLabel_fold ps label) as [_ Hentry].
  rewrite Hstat in Hentry.
  destruct (lastCategory label ps) as [category|] eqn:Hlast; [|discriminate].
  injection Hentry as ->. simpl. repeat split.
  destruct (decide (countWithLabel label ps = 0%nat)) as [Hzero|]; [|lia].
  apply lastCategory_none_iff in Hzero. congruence.
Qed.

Lemma countLabel_same_labels (ps : list Prototype) :
  dom (fold_left countLabel ps (∅, ∅)).1 = dom (fold_left countLabel ps (∅, ∅)).2.
Proof.
  apply set_eq. intros label. rewrite !elem_of_dom.
  destruct (countLabel_fold ps label) as [-> ->].
  pose proof (lastCategory_none_iff label ps) as Hnone.
  destruct (decide (countWithLabel label ps = 0%nat)) as [Hzero|Hpos].
  - rewrite (proj2 Hnone Hzero). simpl. split; intros [? ?]; discriminate.
  - destruct (lastCategory label ps); [simpl; split; eauto|].
    exfalso. now apply Hpos, Hnone.
Qed.

Lemma sumZ_insert {A : Type} (f : A -> Z) (m : gmap string A) (key : string) (x : A) :
  sumZ (map (fun entry => f entry.2) (map_to_list (<[key := x]> m)))
  = (sumZ (map (fun entry => f entry.2) (map_to_list m))
     - match m !! key with Some old => f old | None => 0 end + f x)%Z.
Proof.
  destruct (m !! key) as [old|] eqn:Hlookup.
  - rewrite <- (insert_delete_eq m).
    rewrite (sumZ_perm _ _
      (Permutation_map _ (map_to_list_insert (delete key m) key x
                            (lookup_delete_eq _ _)))).
    rewrite <- (sumZ_perm _ _
      (Permutation_map _ (map_to_list_delete m key old Hlookup))).
    simpl. lia.
  - rewrite (sumZ_perm _ _
      (Permutation_map _ (map_to_list_insert m key x Hlookup))).
    simpl. lia.
Qed.

Lemma countLabel_total (ps : list Prototype) :
  sumZ (map (fun entry => mlPrototypes entry.2)
          (map_to_list (fold_left countLabel ps (∅, ∅)).2))
  = Z.of_nat (length ps).
Proof.
  induction ps as [|proto ps IH] using rev_ind.
  - simpl. now rewrite map_to_list_empty.
  - rewrite fold_left_app, length_app. cbn [fold_left length].
    pose proof (countLabel_fold ps (Label proto)) as [Hbucket Hentry].
    destruct (fold_left countLabel ps (∅, ∅)) as [labelBuckets entries].
    cbn [countLabel fst snd] in *.
    rewrite sumZ_insert, IH, Hbucket, Hentry. cbn [mlPrototypes].
    pose proof (lastCategory_none_iff (Label proto) ps) as Hnone.
    destruct (decide (countWithLabel (Label proto) ps = 0%nat)) as [Hzero|Hpos].
    + rewrite (proj2 Hnone Hzero). simpl. lia.
    + destruct (lastCategory (Label proto) ps); [simpl; lia|].
      exfalso. now apply Hpos, Hnone.
Qed.

Section StatsFacts.

Context `{SliceSorter}.

(** X11.  The statistics of a store count its prototypes, list every label
    of the store exactly once, give for each label the number of prototypes
    that carry it and the category of the last of them, and the per-label
    numbers add up to the prototype count; the label count is the length of
    the label list. *)
Theorem Stats_counts (c : Classifier) :
  PrototypeCount (Stats c) = Z.of_nat (length (prototypes c))
  /\ UsingExample (Stats c) = usingExample c
  /\ LabelCount (Stats c) = Z.of_nat (length (Labels (Stats c)))
  /\ NoDup (map mlLabel (Labels (Stats c)))
  /\ (forall label,
        label ∈ map mlLabel (Labels (Stats c))
        <-> exists proto, proto ∈ prototypes c /\ Label proto = label)
  /\ Forall (fun stat =>
               mlPrototypes stat
               = Z.of_nat (countWithLabel (mlLabel stat) (prototypes c))
               /\ (1 <= mlPrototypes stat)%Z
               /\ lastCategory (mlLabel stat) (prototypes c)
                  = Some (mlCategory stat))
            (Labels (Stats c))
  /\ sumZ (map mlPrototypes (Labels (Stats c)))
     = PrototypeCount (Stats c).
Proof.
  unfold Stats, snapshot.
  pose proof (countLabel_fold (prototypes c)) as Hfold.
  pose proof (countLabel_entry (prototypes c)) as Hentry.
  pose proof (countLabel_same_labels (prototypes c)) as Hdom.
  pose proof (countLabel_total (prototypes c)) as Htotal.
  destruct (fold_left countLabel (prototypes c) (∅, ∅)) as [labelBuckets entries].
  cbn [fst snd] in Hfold, Hentry, Hdom, Htotal.
  cbn [PrototypeCount UsingExample LabelCount Labels].
  assert (Hlabels : map mlLabel (map snd (map_to_list entries))
                    = map fst (map_to_list entries)).
  { rewrite map_map. apply map_ext_in. intros [label stat] Hin.
    apply list_elem_of_In, elem_of_map_to_list in Hin.
    destruct (Hentry label stat Hin) as [Hlabel _]. exact Hlabel. }
  split; [reflexivity|]. split; [reflexivity|].
  split; [|split; [|split; [|split]]].
  - rewrite (Permutation_length (sortSlice_perm _ _ _)), length_map.
    rewrite length_map_to_list. f_equal. now rewrite <- !size_dom, Hdom.
  - rewrite (Permutation_map mlLabel (sortSlice_perm _ _ _)), Hlabels.
    apply NoDup_fst_map_to_list.
  - intros label.
    rewrite (Permutation_map mlLabel (sortSlice_perm _ _ _)), Hlabels.
    rewrite <- countWithLabel_pos. split.
    + intros Hin. apply list_elem_of_fmap in Hin as ([l stat] & -> & Hin).
      apply elem_of_map_to_list in Hin.
      now destruct (Hentry l stat Hin) as (_ & _ & Hpos & _).
    + intros Hpos. destruct (Hfold label) as [_ Hent].
      destruct (lastCategory label (prototypes c)) as [category|] eqn:Hlast.
      * apply list_elem_of_fmap. eexists (label, _).
        split; [reflexivity|]. apply elem_of_map_to_list. exact Hent.
      * apply lastCategory_none_iff in Hlast. lia.
  - rewrite sortSlice_perm. apply Forall_map, Forall_forall.
    intros [label stat] Hin. apply elem_of_map_to_list in Hin.
    destruct (Hentry label stat Hin) as (Hlabel & Hcount & Hpos & Hlast).
    simpl. rewrite Hlabel. repeat split; [exact Hcount|lia|exact Hlast].
  - rewrite (sumZ_perm _ _ (Permutation_map mlPrototypes (sortSlice_perm _ _ _))).
    rewrite map_map. exact Htotal.
Qed.

End StatsFacts.

(** ** Monotonicity of the adaptive threshold *)

Lemma AdaptiveThreshold_mono_base (tau1 tau2 snr : R) :
  tau1 <= tau2 -> AdaptiveThreshold tau1 snr <= AdaptiveThreshold tau2 snr.
Proof. intros Hle. unfold AdaptiveThreshold. f64_cases. Qed.

Lemma AdaptiveThreshold_anti_snr (tau snr1 snr2 : R) :
  snr1 <= snr2 -> AdaptiveThreshold tau snr2 <= AdaptiveThreshold tau snr1.
Proof. intros Hle. unfold AdaptiveThreshold. f64_cases. Qed.

(** X12.  The adaptive threshold grows with the base threshold and shrinks
    as the signal-to-noise ratio grows; it is never below the base threshold
    capped at 0.9 and never more than 0.15 above the base threshold raised
    to 0.5.  Hence, for a signal-to-noise ratio other than 0, a drone
    decision that is positive stays positive when the ratio improves. *)
Theorem AdaptiveThreshold_monotone (tau1 tau2 snr1 snr2 : R)
    (predictions : list Prediction) :
  tau1 <= tau2 ->
  snr1 <= snr2 ->
  AdaptiveThreshold tau1 snr1 <= AdaptiveThreshold tau2 snr1
  /\ AdaptiveThreshold tau1 snr2 <= AdaptiveThreshold tau1 snr1
  /\ Rmin tau1 0.9 <= AdaptiveThreshold tau1 snr1 <= Rmax tau1 0.5 + 0.15
  /\ (forall folding : GoStrings.CaseFolding,
      snr1 <> 0 -> snr2 <> 0 ->
      @DetermineDroneLikelyWithSNR folding predictions tau1 snr1 = true ->
      @DetermineDroneLikelyWithSNR folding predictions tau1 snr2 = true).
Proof.
  intros Htau Hsnr.
  split; [now apply AdaptiveThreshold_mono_base|].
  split; [now apply AdaptiveThreshold_anti_snr|].
  split.
  - unfold AdaptiveThreshold, Rmin, Rmax.
    destruct (Rle_dec tau1 0.9), (Rle_dec tau1 0.5); f64_cases.
  - intros folding Hnz1 Hnz2. unfold DetermineDroneLikelyWithSNR.
    destruct predictions as [|best rest]; [discriminate|].
    destruct (GoStrings.EqualFold (pCategory best) "noise"); [discriminate|].
    replace (F64.eqb snr1 0.0) with false
      by (symmetry; apply eqb_false; lra).
    replace (F64.eqb snr2 0.0) with false
      by (symmetry; apply eqb_false; lra).
    cbn [negb]. rewrite !leb_true. intros Hconf.
    pose proof (AdaptiveThreshold_anti_snr tau1 snr1 snr2 Hsnr). lra.
Qed.

Lemma AdaptiveThreshold_monotone_witness :
  AdaptiveThreshold 0.55 25 <= AdaptiveThreshold 0.55 5.
Proof.
  apply (AdaptiveThreshold_monotone 0.55 0.55 5 25 []); lra.
Defined.

(** ** Standardisation by the fitted scaler *)

Lemma neutralised_floor (sd : R) : 1e-10 <= neutralised sd.
Proof. unfold neutralised. destruct (Rlt_dec sd 1e-10); lra. Qed.

(** The scaler fitted to prototypes of one dimensionality. *)
Lemma scaler_fit (d : nat) (ps : list Prototype) :
  ps <> [] ->
  (0 < d)%nat ->
  Forall (fun proto => length (Features proto) = d) ps ->
  exists scaler,
    NewFeatureScalerFromPrototypes ps = Ok scaler
    /\ length (Mean scaler) = d
    /\ length (Stddev scaler) = d
    /\ forall i, (i < d)%nat ->
         Mean scaler !! i = Some (arithmeticMean (column i ps))
         /\ Stddev scaler !! i
            = Some (neutralised (populationStddev (column i ps))).
Proof.
  intros Hne Hd Hall. unfold NewFeatureScalerFromPrototypes.
  destruct ps as [|first rest] eqn:Hps; [congruence|]. rewrite <- Hps in *.
  assert (Hfirst : length (Features first) = d).
  { rewrite Hps in Hall. now inversion Hall. }
  rewrite Hfirst. destruct (Nat.eqb_spec d 0) as [|_]; [lia|].
  destruct (sumFeatures_lookup d ps (replicate d 0) Hall (length_replicate _ _))
    as (sums & -> & Hsl & Hsums).
  set (count := INR (length ps)).
  set (mean := map (fun m => m / count) sums).
  assert (Hml : length mean = d) by (unfold mean; now rewrite length_map).
  destruct (sumSquaredDeviations_lookup d mean ps (replicate d 0) Hall Hml
              (length_replicate _ _)) as [Hdl Hdev].
  eexists. split; [reflexivity|]. simpl.
  split; [exact Hml|]. split; [now rewrite length_map|].
  intros i Hi.
  assert (Hzero : replicate d 0 !! i = Some 0) by now apply lookup_replicate_2.
  assert (Hmean : mean !! i = Some (arithmeticMean (column i ps))).
  { unfold mean. rewrite list_lookup_fmap, (Hsums i 0 Hzero). simpl.
    unfold arithmeticMean. rewrite column_length. fold count. f_equal. lra. }
  split; [exact Hmean|].
  rewrite list_lookup_fmap, (Hdev i 0 _ Hzero Hmean). simpl.
  rewrite neutralised_ltb. unfold populationStddev, sumSquaredDiffs.
  rewrite column_length. fold count. do 3 f_equal. lra.
Qed.

Lemma Transform_lookup (scaler : FeatureScaler) (features : list R) (i : nat)
    (x m sd : R) :
  length features = length (Mean scaler) ->
  features !! i = Some x -> Mean scaler !! i = Some m -> Stddev scaler !! i = Some sd ->
  Transform scaler features !!! i = (x - m) / sd.
Proof.
  intros Hlen Hx Hm Hsd. unfold Transform. rewrite Hlen, Nat.eqb_refl. cbn [negb].
  apply list_lookup_total_correct. rewrite list_lookup_imap, Hx. simpl.
  now rewrite (list_lookup_total_correct _ _ _ Hm),
    (list_lookup_total_correct _ _ _ Hsd).
Qed.

Lemma Transform_mismatch (scaler : FeatureScaler) (features : list R) :
  length features <> length (Mean scaler) -> Transform scaler features = features.
Proof.
  intros Hlen. unfold Transform.
  destruct (Nat.eqb_spec (length features) (length (Mean scaler))); [lia|reflexivity].
Qed.

Lemma sumList_map_affine (m s : R) (xs : list R) :
  sumList (map (fun x => (x - m) / s) xs) = (sumList xs - INR (length xs) * m) / s.
Proof.
  induction xs as [|x xs IH].
  - simpl. rewrite sumList_nil. unfold Rdiv. ring.
  - cbn [map length]. rewrite !sumList_cons, IH, S_INR. unfold Rdiv. ring.
Qed.

Lemma sumList_map_scale_sq (m s : R) (xs : list R) :
  sumList (map (fun x => (x - m) / s * ((x - m) / s)) xs)
  = sumList (map (fun x => (x - m) * (x - m)) xs) * (/ s * / s).
Proof.
  induction xs as [|x xs IH].
  - simpl. rewrite sumList_nil. ring.
  - cbn [map]. rewrite !sumList_cons, IH. unfold Rdiv. ring.
Qed.

Lemma standardised_moments (m s : R) (xs : list R) :
  xs <> [] -> 0 < s -> m = arithmeticMean xs ->
  arithmeticMean (map (fun x => (x - m) / s) xs) = 0
  /\ populationStddev (map (fun x => (x - m) / s) xs) = populationStddev xs / s.
Proof.
  intros Hne Hs Hm.
  assert (Hn : 0 < INR (length xs)).
  { apply lt_0_INR. destruct xs; [congruence|simpl; lia]. }
  assert (Hmean : arithmeticMean (map (fun x => (x - m) / s) xs) = 0).
  { unfold arithmeticMean. rewrite sumList_map_affine, length_map, Hm.
    unfold arithmeticMean. field. lra. }
  split; [exact Hmean|].
  unfold populationStddev, sumSquaredDiffs. rewrite Hmean, length_map, map_map.
  rewrite <- Hm.
  replace (map (fun x => ((x - m) / s - 0) * ((x - m) / s - 0)) xs)
    with (map (fun x => (x - m) / s * ((x - m) / s)) xs)
    by (apply map_ext; intros x; ring).
  rewrite sumList_map_scale_sq.
  set (sq := sumList (map (fun x => (x - m) * (x - m)) xs)).
  assert (Hsq : 0 <= sq).
  { unfold sq. apply sumList_nonneg, Forall_map, Forall_forall. intros x _.
    pose proof (Rle_0_sqr (x - m)) as Hx. unfold Rsqr in Hx. exact Hx. }
  replace (sq * (/ s * / s) / INR (length xs))
    with (sq / INR (length xs) * (/ s * / s)) by (field; lra).
  rewrite sqrt_mult_alt by (apply div_nonneg; lra).
  unfold Rdiv. f_equal.
  apply sqrt_lem_1; [|left; now apply Rinv_0_lt_compat|reflexivity].
  apply Rmult_le_pos; left; now apply Rinv_0_lt_compat.
Qed.

Lemma standardisedColumn_eq (scaler : FeatureScaler) (d i : nat)
    (ps : list Prototype) (m sd : R) :
  Forall (fun proto => length (Features proto) = d) ps ->
  length (Mean scaler) = d -> (i < d)%nat ->
  Mean scaler !! i = Some m -> Stddev scaler !! i = Some sd ->
  standardisedColumn scaler i ps = map (fun x => (x - m) / sd) (column i ps).
Proof.
  intros Hall Hlen Hi Hm Hsd. unfold standardisedColumn, column. rewrite map_map.
  apply map_ext_Forall. eapply Forall_impl; [exact Hall|].
  intros proto Hproto. simpl in *.
  assert (Hlt : (i < length (Features proto))%nat) by lia.
  apply Transform_lookup; try assumption; [lia|].
  now apply list_lookup_lookup_total_lt.
Qed.

(** X13.  Fitting a scaler to a non-empty set of prototypes of one positive
    dimensionality succeeds, and every deviation it holds is at least 1e-10,
    so that [Transform] never divides by zero.  Transforming the prototypes
    themselves centres every dimension (mean 0) and, in every dimension
    whose deviation is at least 1e-10, gives deviation 1; a dimension with a
    smaller deviation is only centred.  A vector of another length is
    returned unchanged. *)
Theorem Transform_standardises (d : nat) (ps : list Prototype) :
  ps <> [] ->
  (0 < d)%nat ->
  Forall (fun proto => length (Features proto) = d) ps ->
  exists scaler,
    NewFeatureScalerFromPrototypes ps = Ok scaler
    /\ Forall (fun sd => 1e-10 <= sd) (Stddev scaler)
    /\ (forall features,
          length features <> d -> Transform scaler features = features)
    /\ (forall features,
          length (Transform scaler features) = length features)
    /\ forall i, (i < d)%nat ->
         arithmeticMean (standardisedColumn scaler i ps) = 0
         /\ (1e-10 <= populationStddev (column i ps) ->
             populationStddev (standardisedColumn scaler i ps) = 1)
         /\ (populationStddev (column i ps) < 1e-10 ->
             standardisedColumn scaler i ps
             = map (fun x => x - arithmeticMean (column i ps)) (column i ps)).
Proof.
  intros Hne Hd Hall.
  destruct (scaler_fit d ps Hne Hd Hall) as (scaler & Hfit & Hml & Hsl & Hdims).
  exists scaler. split; [exact Hfit|]. split.
  { apply Forall_lookup. intros i sd Hsd.
    assert (Hi : (i < d)%nat) by (rewrite <- Hsl; eapply lookup_lt_Some, Hsd).
    destruct (Hdims i Hi) as [_ Hdev]. rewrite Hdev in Hsd. injection Hsd as <-.
    apply neutralised_floor. }
  split; [intros features Hlen; apply Transform_mismatch; lia|].
  split; [apply Transform_length|].
  intros i Hi. destruct (Hdims i Hi) as [Hmean Hdev].
  pose proof (standardisedColumn_eq scaler d i ps _ _ Hall Hml Hi Hmean Hdev) as Hcol.
  assert (Hcne : column i ps <> []).
  { intros Hnil. apply (f_equal length) in Hnil. rewrite column_length in Hnil.
    destruct ps; [congruence|discriminate]. }
  pose proof (neutralised_floor (populationStddev (column i ps))) as Hfloor.
  destruct (standardised_moments (arithmeticMean (column i ps))
              (neutralised (populationStddev (column i ps))) (column i ps)
              Hcne ltac:(lra) eq_refl) as [Hzero Hunit].
  rewrite Hcol. split; [exact Hzero|]. split.
  - intros Hbig. rewrite Hunit. unfold neutralised.
    destruct (Rlt_dec (populationStddev (column i ps)) 1e-10); [lra|].
    apply Rdiv_diag. lra.
  - intros Hsmall. unfold neutralised.
    destruct (Rlt_dec (populationStddev (column i ps)) 1e-10); [|lra].
    apply map_ext. intros x. field.
Qed.

Lemma Transform_standardises_witness :
  exists scaler,
    NewFeatureScalerFromPrototypes [lowPrototype; highPrototype] = Ok scaler
    /\ arithmeticMean (standardisedColumn scaler 0 [lowPrototype; highPrototype]) = 0.
Proof.
  destruct (Transform_standardises 2 [lowPrototype; highPrototype])
    as (scaler & Hfit & _ & _ & _ & Hdims); [discriminate|lia|repeat constructor|].
  exists scaler. split; [exact Hfit|].
  destruct (Hdims 0%nat ltac:(lia)) as [Hmean _]. exact Hmean.
Defined.

(** ** When fitting a scaler fails *)

Lemma sumFeatures_outcome (d : nat) (ps : list Prototype) (acc : list R) :
  match sumFeatures d ps acc with
  | Ok _ => Forall (fun proto => length (Features proto) = d) ps
  | Err e =>
      e = ErrInconsistentDimensions
      /\ exists proto, proto ∈ ps /\ length (Features proto) <> d
  end.
Proof.
  revert acc. induction ps as [|proto ps IH]; intros acc; [constructor|].
  cbn [sumFeatures].
  destruct (Nat.eqb_spec (length (Features proto)) d) as [Hlen|Hlen]; cbn [negb].
  - specialize (IH (zip_with Rplus acc (Features proto))).
    destruct (sumFeatures d ps _) as [sums|e].
    + now constructor.
    + destruct IH as [-> (other & Hin & Hother)]. split; [reflexivity|].
      exists other. split; [now right|exact Hother].
  - split; [reflexivity|]. exists proto. split; [left|exact Hlen].
Qed.

(** X14.  Fitting a scaler succeeds exactly for a non-empty list of
    prototypes whose first one has features and whose feature vectors all
    have the length of the first; the scaler then has that many means and
    deviations.  An empty list, a first prototype without features and a
    prototype of another length are refused, each with its own error. *)
Theorem NewFeatureScalerFromPrototypes_outcome (ps : list Prototype) :
  match NewFeatureScalerFromPrototypes ps with
  | Ok scaler =>
      exists first rest,
        ps = first :: rest
        /\ Features first <> []
        /\ Forall (fun proto => length (Features proto) = length (Features first)) ps
        /\ length (Mean scaler) = length (Features first)
        /\ length (Stddev scaler) = length (Features first)
  | Err e =>
      (e = ErrNoPrototypes /\ ps = [])
      \/ (e = ErrPrototypesNoFeatures
          /\ exists first rest, ps = first :: rest /\ Features first = [])
      \/ (e = ErrInconsistentDimensions
          /\ exists first rest proto,
               ps = first :: rest /\ Features first <> [] /\ proto ∈ rest
               /\ length (Features proto) <> length (Features first))
  end.
Proof.
  unfold NewFeatureScalerFromPrototypes.
  destruct ps as [|first rest] eqn:Hps; [now left|]. rewrite <- Hps.
  destruct (Nat.eqb_spec (length (Features first)) 0) as [Hzero|Hpos].
  - right. left. split; [reflexivity|]. exists first, rest.
    split; [exact Hps|]. now destruct (Features first).
  - assert (Hfirst : Features first <> [])
      by (intros Hnil; rewrite Hnil in Hpos; now apply Hpos).
    pose proof (sumFeatures_outcome (length (Features first)) ps
                  (replicate (length (Features first)) 0)) as Hsum.
    destruct (sumFeatures _ ps _) as [sums|e] eqn:Hsums.
    + destruct (sumFeatures_lookup _ ps (replicate (length (Features first)) 0)
                  Hsum (length_replicate _ _)) as (sums' & Hok & Hlen & _).
      rewrite Hsums in Hok. injection Hok as <-.
      destruct (sumSquaredDeviations_lookup (length (Features first))
                  (map (fun m => m / INR (length ps)) sums) ps
                  (replicate (length (Features first)) 0) Hsum
                  ltac:(now rewrite length_map) (length_replicate _ _))
        as [Hdev _].
      exists first, rest. cbn [Mean Stddev]. rewrite !length_map.
      repeat split; assumption.
    + destruct Hsum as [-> (proto & Hin & Hlen)]. right. right.
      split; [reflexivity|]. exists first, rest, proto.
      split; [exact Hps|]. split; [exact Hfirst|].
      rewrite Hps in Hin. apply elem_of_cons in Hin as [->|Hin]; [congruence|].
      now split.
Qed.

(** ** The FFT size *)

Lemma doublePower_least (fuel j n : nat) :
  (n <= fuel + 2 ^ j)%nat ->
  (j = 0%nat \/ 2 ^ (j - 1) < n)%nat ->
  exists j',
    doublePower fuel (2 ^ j) n = (2 ^ j')%nat
    /\ (n <= 2 ^ j')%nat
    /\ (j' = 0%nat \/ 2 ^ (j' - 1) < n)%nat.
Proof.
  revert j. induction fuel as [|fuel IH]; intros j Hfuel Hleast.
  - exists j. simpl in *. repeat split; [lia|exact Hleast].
  - cbn [doublePower]. destruct (Nat.ltb_spec (2 ^ j) n) as [Hlt|Hge].
    + replace (2 * 2 ^ j)%nat with (2 ^ (S j))%nat by (simpl; lia).
      apply IH.
      * assert (1 <= 2 ^ j)%nat by (apply Nat.neq_0_lt_0, Nat.pow_nonzero; lia).
        simpl. lia.
      * right. replace (S j - 1)%nat with j by lia. exact Hlt.
    + exists j. repeat split; [exact Hge|exact Hleast].
Qed.

Lemma nextPowerOfTwo_power (n : nat) :
  exists j,
    nextPowerOfTwo n = (2 ^ j)%nat /\ (n <= 2 ^ j)%nat
    /\ (j = 0%nat \/ 2 ^ (j - 1) < n)%nat.
Proof.
  unfold nextPowerOfTwo. destruct (Nat.leb_spec n 0) as [Hzero|Hpos].
  - exists 0%nat. simpl. repeat split; [lia|now left].
  - apply (doublePower_least n 0 n); [simpl; lia|now left].
Qed.

(** X15.  [nextPowerOfTwo] returns the least power of two that is not
    smaller than its argument (1 for 0), so less than twice the argument;
    a power of two is returned as it is. *)
Theorem nextPowerOfTwo_least (n : nat) :
  exists j,
    nextPowerOfTwo n = (2 ^ j)%nat
    /\ (n <= 2 ^ j)%nat
    /\ (forall i, (n <= 2 ^ i)%nat -> (j <= i)%nat)
    /\ (1 <= n -> nextPowerOfTwo n < 2 * n)%nat
    /\ (forall i, n = (2 ^ i)%nat -> nextPowerOfTwo n = n).
Proof.
  destruct (nextPowerOfTwo_power n) as (j & Heq & Hge & Hleast).
  assert (Hmin : forall i, (n <= 2 ^ i)%nat -> (j <= i)%nat).
  { intros i Hi. destruct Hleast as [->|Hlt]; [lia|].
    assert (Hpow : (2 ^ (j - 1) < 2 ^ i)%nat) by lia.
    apply Nat.pow_lt_mono_r_iff in Hpow; lia. }
  exists j. split; [exact Heq|]. split; [exact Hge|]. split; [exact Hmin|]. split.
  - intros Hn. rewrite Heq. destruct Hleast as [->|Hlt]; [simpl; lia|].
    destruct j as [|j']; [simpl in Hge, Hlt; lia|].
    replace (S j' - 1)%nat with j' in Hlt by lia. simpl. lia.
  - intros i ->. rewrite Heq. apply Nat.le_antisymm; [|exact Hge].
    apply Nat.pow_le_mono_r; [lia|]. apply Hmin. lia.
Qed.

Lemma nextPowerOfTwo_least_witness : (nextPowerOfTwo 5 < 2 * 5)%nat.
Proof.
  destruct (nextPowerOfTwo_least 5) as (j & _ & _ & _ & Hlt & _). apply Hlt. lia.
Defined.

(** ** The spectrum and the features read off it *)

Lemma weighted_sum_bounds (F : R) (magnitude freqs : list R) :
  0 <= F ->
  Forall (fun mag => 0 <= mag) magnitude ->
  Forall (fun f => 0 <= f <= F) freqs ->
  0 <= sumList (zip_with Rmult magnitude freqs) <= F * sumList magnitude.
Proof.
  intros HF Hm. revert freqs.
  induction Hm as [|mag magnitude Hmag Hrest IH]; intros freqs Hf.
  - simpl. rewrite sumList_nil. lra.
  - pose proof (sumList_nonneg magnitude Hrest) as Hsum.
    destruct Hf as [|f freqs [Hf0 HfF] Hfs]; cbn [zip_with];
      rewrite ?sumList_cons, ?sumList_nil.
    + split; [lra|]. apply Rmult_le_pos; lra.
    + specialize (IH freqs Hfs).
      assert (0 <= mag * f) by (apply Rmult_le_pos; lra).
      assert (mag * f <= mag * F) by (apply Rmult_le_compat_l; lra).
      lra.
Qed.

Lemma weighted_variance_bounds (F centroid : R) (magnitude freqs : list R) :
  0 <= centroid <= F ->
  Forall (fun mag => 0 <= mag) magnitude ->
  Forall (fun f => 0 <= f <= F) freqs ->
  0 <= sumList (zip_with (fun m f => let deviation := f - centroid in
                                     m * deviation * deviation) magnitude freqs)
    <= F * F * sumList magnitude.
Proof.
  intros Hc Hm. revert freqs.
  induction Hm as [|mag magnitude Hmag Hrest IH]; intros freqs Hf.
  - simpl. rewrite sumList_nil. lra.
  - pose proof (sumList_nonneg magnitude Hrest) as Hsum.
    assert (HFF : 0 <= F * F) by (apply Rmult_le_pos; lra).
    destruct Hf as [|f freqs [Hf0 HfF] Hfs]; cbn [zip_with];
      rewrite ?sumList_cons, ?sumList_nil.
    + split; [lra|]. apply Rmult_le_pos; lra.
    + specialize (IH freqs Hfs). cbv zeta in *.
      assert (Hsq : 0 <= (f - centroid) * (f - centroid) <= F * F).
      { split; [apply Rle_0_sqr|].
        destruct (Rle_dec centroid f).
        - apply Rmult_le_compat; lra.
        - replace ((f - centroid) * (f - centroid))
            with ((centroid - f) * (centroid - f)) by ring.
          apply Rmult_le_compat; lra. }
      assert (0 <= mag * ((f - centroid) * (f - centroid)))
        by (apply Rmult_le_pos; lra).
      assert (mag * ((f - centroid) * (f - centroid)) <= mag * (F * F))
        by (apply Rmult_le_compat_l; lra).
      rewrite !Rmult_assoc. lra.
Qed.

Lemma spectralCentroid_bounds (F : R) (magnitude freqs : list R) :
  0 <= F ->
  Forall (fun mag => 0 <= mag) magnitude ->
  Forall (fun f => 0 <= f <= F) freqs ->
  0 <= spectralCentroid magnitude freqs <= F.
Proof.
  intros HF Hm Hf. unfold spectralCentroid.
  pose proof (sumList_nonneg magnitude Hm) as Hsum.
  pose proof (weighted_sum_bounds F magnitude freqs HF Hm Hf) as [Hlo Hhi].
  destruct (F64.eqb (sumList magnitude) 0) eqn:Hzero; [lra|].
  apply eqb_false in Hzero.
  split; [apply div_nonneg; lra|apply div_le_bound; lra].
Qed.

Lemma spectralBandwidth_bounds (F centroid : R) (magnitude freqs : list R) :
  0 <= centroid <= F ->
  Forall (fun mag => 0 <= mag) magnitude ->
  Forall (fun f => 0 <= f <= F) freqs ->
  0 <= spectralBandwidth magnitude freqs centroid <= F.
Proof.
  intros Hc Hm Hf. unfold spectralBandwidth.
  pose proof (sumList_nonneg magnitude Hm) as Hsum.
  pose proof (weighted_variance_bounds F centroid magnitude freqs Hc Hm Hf)
    as [Hlo Hhi].
  destruct (F64.eqb (sumList magnitude) 0) eqn:Hzero; [lra|].
  apply eqb_false in Hzero. split; [apply sqrt_pos|].
  rewrite <- (sqrt_square F) by lra. apply sqrt_le_1_alt.
  apply div_le_bound; lra.
Qed.

Lemma lookup_total_bounds (F : R) (freqs : list R) (i : nat) :
  0 <= F ->
  Forall (fun f => 0 <= f <= F) freqs ->
  0 <= freqs !!! i <= F.
Proof.
  intros HF Hf. destruct (freqs !! i) as [f|] eqn:Hlookup.
  - rewrite (list_lookup_total_correct _ _ _ Hlookup).
    rewrite Forall_lookup in Hf. exact (Hf i f Hlookup).
  - rewrite list_lookup_total_alt, Hlookup. simpl. lra.
Qed.

Lemma rolloffScan_bounds (F : R) (magnitude freqs : list R) (cumulative target f : R) :
  Forall (fun f => 0 <= f <= F) freqs ->
  rolloffScan magnitude freqs cumulative target = Some f ->
  0 <= f <= F.
Proof.
  intros Hf. revert magnitude cumulative.
  induction Hf as [|g freqs Hg _ IH]; intros magnitude cumulative.
  - destruct magnitude; discriminate.
  - destruct magnitude as [|mag magnitude]; [discriminate|]. cbn [rolloffScan].
    destruct (F64.leb target (cumulative + mag)).
    + intros Heq. injection Heq as <-. exact Hg.
    + apply IH.
Qed.

Lemma spectralRolloff_bounds (F threshold : R) (magnitude freqs : list R) :
  0 <= F ->
  Forall (fun f => 0 <= f <= F) freqs ->
  0 <= spectralRolloff magnitude freqs threshold <= F.
Proof.
  intros HF Hf. unfold spectralRolloff.
  destruct (length magnitude =? 0)%nat; [lra|].
  pose proof (lookup_total_bounds F freqs (length freqs - 1) HF Hf) as Hlast.
  destruct (F64.eqb (sumList magnitude) 0); [exact Hlast|].
  destruct (rolloffScan magnitude freqs 0 _) as [f|] eqn:Hscan; [|exact Hlast].
  simpl. eapply rolloffScan_bounds; eassumption.
Qed.

Lemma dominantFrequency_bounds (F : R) (magnitude freqs : list R) :
  0 <= F ->
  Forall (fun f => 0 <= f <= F) freqs ->
  0 <= dominantFrequency magnitude freqs <= F.
Proof.
  intros HF Hf. unfold dominantFrequency.
  destruct magnitude; [lra|]. now apply lookup_total_bounds.
Qed.

Lemma nextPowerOfTwo_pos (n : nat) : (1 <= nextPowerOfTwo n)%nat.
Proof.
  destruct n as [|n]; [unfold nextPowerOfTwo; simpl; lia|].
  pose proof (nextPowerOfTwo_covers (S n)). lia.
Qed.

Lemma computeSpectrum_shape (samples : list R) (sampleRate : Z) :
  (0 < sampleRate)%Z ->
  let fftSize := nextPowerOfTwo (length samples) in
  let top := INR (fftSize / 2 - 1) * IZR sampleRate / INR fftSize in
  length (computeSpectrum samples sampleRate).1 = (fftSize / 2)%nat
  /\ length (computeSpectrum samples sampleRate).2 = (fftSize / 2)%nat
  /\ 0 <= top < IZR sampleRate / 2
  /\ Forall (fun f => 0 <= f <= top) (computeSpectrum samples sampleRate).2.
Proof.
  intros Hrate fftSize top. unfold computeSpectrum. cbn [fst snd].
  fold fftSize. rewrite !length_map, !length_seq.
  split; [reflexivity|]. split; [reflexivity|].
  assert (Hsize : (1 <= fftSize)%nat) by apply nextPowerOfTwo_pos.
  assert (Hsr : 0 < IZR sampleRate) by now apply IZR_lt.
  assert (Hn : 0 < INR fftSize) by (apply lt_0_INR; lia).
  assert (Hhalf : (2 * (fftSize / 2) <= fftSize)%nat)
    by (apply Nat.Div0.mul_div_le).
  assert (Htop : 2 * INR (fftSize / 2 - 1) < INR fftSize).
  { replace 2 with (INR 2) by (simpl; lra). rewrite <- mult_INR.
    apply lt_INR. lia. }
  split.
  - unfold top. split.
    + apply div_nonneg; [|exact Hn]. apply Rmult_le_pos; [apply pos_INR|lra].
    + apply Rmult_lt_reg_r with (INR fftSize); [exact Hn|].
      unfold Rdiv. rewrite Rmult_assoc, Rinv_l by lra.
      assert (2 * INR (fftSize / 2 - 1) * IZR sampleRate
              < INR fftSize * IZR sampleRate)
        by (apply Rmult_lt_compat_r; lra).
      lra.
  - apply Forall_map, Forall_forall. intros i Hi.
    apply elem_of_seq in Hi as [_ Hi]. rewrite Nat.add_0_l in Hi.
    assert (Hle : INR i <= INR (fftSize / 2 - 1)) by (apply le_INR; lia).
    unfold top. split.
    + apply div_nonneg; [|exact Hn]. apply Rmult_le_pos; [apply pos_INR|lra].
    + apply div_le_bound; [exact Hn|].
      unfold Rdiv. rewrite Rmult_assoc, Rinv_l by lra.
      rewrite Rmult_1_r. apply Rmult_le_compat_r; lra.
Qed.

Lemma clamp01_id (x : R) : 0 <= x <= 1 -> clamp01 x = x.
Proof. intros Hx. unfold clamp01. f64_cases. Qed.

(** X16.  The spectrum of a clip has as many magnitudes as frequencies, half
    the FFT size; the magnitudes are not negative and the frequencies lie in
    [0, sampleRate/2).  Hence the spectral centroid, bandwidth, rolloff and
    the dominant frequency all lie in [0, sampleRate/2), and the feature
    vector holds each of them divided by sampleRate/2, the clamping to
    [0, 1] never cutting anything off. *)
Theorem spectral_features_below_nyquist (samples : list R) (sampleRate : Z) :
  samples <> [] ->
  (0 < sampleRate)%Z ->
  let spectrum := (computeSpectrum samples sampleRate).1 in
  let freqs := (computeSpectrum samples sampleRate).2 in
  let nyquistFreq := IZR sampleRate / 2 in
  let centroid := spectralCentroid spectrum freqs in
  let bandwidth := spectralBandwidth spectrum freqs centroid in
  let rolloff := spectralRolloff spectrum freqs 0.85 in
  let dominant := dominantFrequency spectrum freqs in
  length spectrum = (nextPowerOfTwo (length samples) / 2)%nat
  /\ length freqs = length spectrum
  /\ Forall (fun mag => 0 <= mag) spectrum
  /\ Forall (fun f => 0 <= f < nyquistFreq) freqs
  /\ 0 <= centroid < nyquistFreq
  /\ 0 <= bandwidth < nyquistFreq
  /\ 0 <= rolloff < nyquistFreq
  /\ 0 <= dominant < nyquistFreq
  /\ exists vector,
       ExtractFeatureVector samples sampleRate = Ok vector
       /\ vector !! 2%nat = Some (centroid / nyquistFreq)
       /\ vector !! 3%nat = Some (bandwidth / nyquistFreq)
       /\ vector !! 4%nat = Some (rolloff / nyquistFreq)
       /\ vector !! 6%nat = Some (dominant / nyquistFreq).
Proof.
  intros Hne Hrate spectrum freqs nyquistFreq centroid bandwidth rolloff dominant.
  destruct (computeSpectrum_shape samples sampleRate Hrate)
    as (Hlm & Hlf & [Htop0 Htop] & Hfreqs).
  set (top := INR (nextPowerOfTwo (length samples) / 2 - 1) * IZR sampleRate
              / INR (nextPowerOfTwo (length samples))) in *.
  pose proof (computeSpectrum_nonneg samples sampleRate) as Hmag.
  fold spectrum in Hlm, Hmag. fold freqs in Hlf, Hfreqs.
  fold nyquistFreq in Htop.
  assert (Hc : 0 <= centroid <= top) by now apply spectralCentroid_bounds.
  assert (Hb : 0 <= bandwidth <= top) by now apply spectralBandwidth_bounds.
  assert (Hr : 0 <= rolloff <= top) by now apply spectralRolloff_bounds.
  assert (Hd : 0 <= dominant <= top) by now apply dominantFrequency_bounds.
  split; [exact Hlm|]. split; [congruence|]. split; [exact Hmag|].
  split; [eapply Forall_impl; [exact Hfreqs|]; simpl; intros f Hf; lra|].
  split; [lra|]. split; [lra|]. split; [lra|]. split; [lra|].
  assert (Hunit : forall x, 0 <= x <= top -> clamp01 (x / nyquistFreq) = x / nyquistFreq).
  { intros x Hx. apply clamp01_id.
    split; [apply div_nonneg; lra|apply div_le_bound; lra]. }
  eexists. split; [apply ExtractFeatureVector_components; assumption|].
  cbn [lookup list_lookup].
  fold spectrum freqs. fold centroid. fold bandwidth. fold rolloff. fold dominant.
  replace (IZR sampleRate / 2.0) with nyquistFreq by (unfold nyquistFreq; lra).
  rewrite !Hunit by assumption. repeat split.
Qed.

Lemma spectral_features_below_nyquist_witness :
  0 <= spectralCentroid (computeSpectrum skewedSamples 8000).1
         (computeSpectrum skewedSamples 8000).2 < 8000 / 2.
Proof.
  apply (spectral_features_below_nyquist skewedSamples 8000); [discriminate|lia].
Defined.

(** ** The features of the waveform *)

Lemma zeroCrossings_bounds (rest : list R) (prev count : R) :
  count <= zeroCrossings prev rest count <= count + INR (length rest).
Proof.
  revert prev count. induction rest as [|cur rest IH]; intros prev count.
  - simpl. lra.
  - cbn [zeroCrossings length]. rewrite S_INR.
    destruct (F64.eqb prev 0 || F64.eqb cur 0);
      [|destruct (negb (Bool.eqb (F64.ltb 0 prev) (F64.ltb 0 cur)))].
    + specialize (IH cur count). lra.
    + specialize (IH cur (count + 1)). lra.
    + specialize (IH cur count). lra.
Qed.

Lemma zeroCrossingRate_range (samples : list R) : 0 <= zeroCrossingRate samples <= 1.
Proof.
  unfold zeroCrossingRate.
  destruct (Nat.leb_spec (length samples) 1) as [|Hlen]; [lra|].
  destruct samples as [|first rest]; [lra|].
  cbn [length] in *. replace (S (length rest) - 1)%nat with (length rest) by lia.
  pose proof (zeroCrossings_bounds rest first 0) as [Hlo Hhi].
  assert (Hn : 0 < INR (length rest)) by (apply lt_0_INR; lia).
  split; [apply div_nonneg; lra|apply div_le_bound; lra].
Qed.

Lemma Rabs_mult_self (s : R) : Rabs s * Rabs s = s * s.
Proof. unfold Rabs. destruct (Rcase_abs s); ring. Qed.

Lemma squaredNorm_bound (M : R) (samples : list R) :
  Forall (fun s => Rabs s <= M) samples ->
  squaredNorm samples <= INR (length samples) * (M * M).
Proof.
  induction 1 as [|s samples Hs _ IH].
  - rewrite squaredNorm_nil. simpl. lra.
  - rewrite squaredNorm_cons. cbn [length]. rewrite S_INR.
    assert (s * s <= M * M).
    { rewrite <- (Rabs_mult_self s) at 1.
      pose proof (Rabs_pos s). apply Rmult_le_compat; lra. }
    lra.
Qed.

Lemma rootMeanSquare_range (M : R) (samples : list R) :
  0 <= M ->
  Forall (fun s => Rabs s <= M) samples ->
  0 <= rootMeanSquare samples <= M.
Proof.
  intros HM Hs. unfold rootMeanSquare.
  destruct (Nat.eqb_spec (length samples) 0) as [|Hlen]; [lra|].
  split; [apply sqrt_pos|]. rewrite sumSquares_squaredNorm.
  assert (Hn : 0 < INR (length samples)) by (apply lt_0_INR; lia).
  rewrite <- (sqrt_square M) by lra. apply sqrt_le_1_alt.
  apply div_le_bound; [exact Hn|]. pose proof (squaredNorm_bound M samples Hs). lra.
Qed.

Lemma squared_deviations (mean : R) (samples : list R) (acc : R) :
  fold_left (fun acc v => let diff := v - mean in acc + diff * diff) samples acc
  = acc + squaredNorm samples - 2 * mean * sumList samples
    + INR (length samples) * (mean * mean).
Proof.
  revert acc. induction samples as [|s samples IH]; intros acc.
  - simpl. rewrite squaredNorm_nil, sumList_nil. ring.
  - cbn [fold_left length]. rewrite IH, squaredNorm_cons, sumList_cons, S_INR. ring.
Qed.

Lemma squared_deviations_nonneg (mean : R) (samples : list R) (acc : R) :
  acc <= fold_left (fun acc v => let diff := v - mean in acc + diff * diff)
           samples acc.
Proof.
  revert acc. induction samples as [|s samples IH]; intros acc; [simpl; lra|].
  cbn [fold_left]. eapply Rle_trans; [|apply IH].
  pose proof (Rle_0_sqr (s - mean)) as Hsq. unfold Rsqr in Hsq. lra.
Qed.

Lemma signalVariance_range (samples : list R) :
  0 <= signalVariance samples
    <= rootMeanSquare samples * rootMeanSquare samples.
Proof.
  unfold signalVariance, rootMeanSquare.
  destruct (Nat.eqb_spec (length samples) 0) as [|Hlen]; [lra|].
  assert (Hn : 0 < INR (length samples)) by (apply lt_0_INR; lia).
  pose proof (squaredNorm_nonneg samples) as Hsq.
  rewrite sumSquares_squaredNorm, sqrt_sqrt by (apply div_nonneg; lra).
  split.
  - apply div_nonneg; [|exact Hn]. apply squared_deviations_nonneg.
  - rewrite squared_deviations. apply div_le_bound; [exact Hn|].
    set (n := INR (length samples)) in *. set (total := sumList samples).
    replace (squaredNorm samples / n * n) with (squaredNorm samples)
      by (field; lra).
    replace (0 + squaredNorm samples - 2 * (total / n) * total
             + n * (total / n * (total / n)))
      with (squaredNorm samples - total * total / n) by (field; lra).
    assert (0 <= total * total / n)
      by (apply div_nonneg; [apply Rle_0_sqr|exact Hn]).
    lra.
Qed.

Lemma weighted_positions (samples : list R) (offset : nat) :
  0 <= sumList (imap (fun i sample => sample * sample * INR (offset + i)) samples)
    <= INR (offset + length samples - 1) * squaredNorm samples.
Proof.
  revert offset. induction samples as [|s samples IH]; intros offset.
  - simpl. rewrite sumList_nil, squaredNorm_nil. lra.
  - rewrite imap_cons, sumList_cons, squaredNorm_cons. cbn [length].
    rewrite (imap_ext _ (fun i sample => sample * sample * INR (S offset + i)))
      by (intros i x _; unfold compose; do 2 f_equal; lia).
    specialize (IH (S offset)).
    replace (S offset + length samples - 1)%nat
      with (offset + S (length samples) - 1)%nat in IH by lia.
    pose proof (Rle_0_sqr s) as Hs. unfold Rsqr in Hs.
    pose proof (squaredNorm_nonneg samples) as Hsq.
    assert (Hle : INR (offset + 0) <= INR (offset + S (length samples) - 1))
      by (apply le_INR; lia).
    pose proof (pos_INR (offset + 0)) as Hpos.
    assert (0 <= s * s * INR (offset + 0)) by (apply Rmult_le_pos; lra).
    assert (s * s * INR (offset + 0)
            <= INR (offset + S (length samples) - 1) * (s * s)).
    { rewrite (Rmult_comm (INR _) (s * s)). apply Rmult_le_compat_l; lra. }
    lra.
Qed.

Lemma temporalCentroid_range (samples : list R) (sampleRate : Z) :
  0 <= temporalCentroid samples sampleRate < 1.
Proof.
  unfold temporalCentroid.
  destruct (Nat.eqb_spec (length samples) 0) as [|Hlen]; cbn [orb]; [lra|].
  destruct (sampleRate <=? 0)%Z; [lra|].
  rewrite sumSquares_squaredNorm.
  destruct (F64.eqb (squaredNorm samples) 0) eqn:Hzero; [lra|].
  apply eqb_false in Hzero. pose proof (squaredNorm_nonneg samples) as Hsq.
  assert (Hn : 0 < INR (length samples)) by (apply lt_0_INR; lia).
  pose proof (weighted_positions samples 0) as [Hlo Hhi].
  rewrite (imap_ext _ (fun i sample => sample * sample * INR i)) in Hlo, Hhi
    by reflexivity.
  set (weightedSum := sumList (imap (fun i sample => sample * sample * INR i) samples))
    in *.
  assert (Hlast : INR (0 + length samples - 1) = INR (length samples) - 1).
  { rewrite Nat.add_0_l, minus_INR by lia. simpl. lra. }
  rewrite Hlast in Hhi.
  assert (Hindex : 0 <= weightedSum / squaredNorm samples <= INR (length samples) - 1).
  { split; [apply div_nonneg; lra|apply div_le_bound; lra]. }
  split; [apply div_nonneg; lra|].
  apply Rmult_lt_reg_r with (INR (length samples)); [exact Hn|].
  unfold Rdiv at 1. rewrite Rmult_assoc, Rinv_l by lra. lra.
Qed.

(** X17.  For a clip whose samples lie in [-1, 1] and a positive sample
    rate, the four features of the waveform are unit-range: the RMS energy
    and the zero-crossing rate lie in [0, 1], the variance lies between 0
    and the square of the RMS energy, and the temporal centroid lies in
    [0, 1).  They are the components 0, 1, 9 and 10 of the feature
    vector. *)
Theorem waveform_features_ranges (samples : list R) (sampleRate : Z) :
  samples <> [] ->
  (0 < sampleRate)%Z ->
  Forall (fun s => -1 <= s <= 1) samples ->
  0 <= rootMeanSquare samples <= 1
  /\ 0 <= zeroCrossingRate samples <= 1
  /\ 0 <= signalVariance samples <= rootMeanSquare samples * rootMeanSquare samples
  /\ signalVariance samples <= 1
  /\ 0 <= temporalCentroid samples sampleRate < 1
  /\ exists vector,
       ExtractFeatureVector samples sampleRate = Ok vector
       /\ vector !! 0%nat = Some (rootMeanSquare samples)
       /\ vector !! 1%nat = Some (zeroCrossingRate samples)
       /\ vector !! 9%nat = Some (signalVariance samples)
       /\ vector !! 10%nat = Some (temporalCentroid samples sampleRate).
Proof.
  intros Hne Hrate Hunit.
  assert (Habs : Forall (fun s => Rabs s <= 1) samples).
  { eapply Forall_impl; [exact Hunit|]. intros s Hs. simpl in Hs.
    unfold Rabs. destruct (Rcase_abs s); lra. }
  pose proof (rootMeanSquare_range 1 samples ltac:(lra) Habs) as Hrms.
  pose proof (signalVariance_range samples) as Hvar.
  split; [exact Hrms|]. split; [apply zeroCrossingRate_range|].
  split; [exact Hvar|]. split.
  - assert (rootMeanSquare samples * rootMeanSquare samples <= 1 * 1)
      by (apply Rmult_le_compat; lra).
    lra.
  - split; [apply temporalCentroid_range|].
    eexists. split; [apply ExtractFeatureVector_components; assumption|].
    repeat split.
Qed.

Lemma waveform_features_ranges_witness :
  0 <= rootMeanSquare skewedSamples <= 1.
Proof.
  apply (waveform_features_ranges skewedSamples 8000); [discriminate|lia|].
  unfold skewedSamples. repeat constructor; lra.
Defined.

(** ** Spectral entropy and the harmonic features *)

Lemma ln_2_pos : 0 < ln 2.
Proof. rewrite <- ln_1. apply ln_increasing; lra. Qed.

Lemma entropy_term_bounds (n p : R) :
  0 < n -> 0 < p <= 1 ->
  0 <= - (p * log2 p) <= (1 / n - p + p * ln n) / ln 2.
Proof.
  intros Hn [Hp0 Hp1]. pose proof ln_2_pos as Hln2. unfold log2.
  assert (Hlnp : ln p <= 0).
  { destruct (Req_dec p 1) as [->|Hne]; [rewrite ln_1; lra|].
    left. rewrite <- ln_1. apply ln_increasing; lra. }
  assert (Htangent : ln (1 / (n * p)) <= 1 / (n * p) - 1).
  { pose proof (ln_tangent 1 (1 / (n * p)) ltac:(lra)) as Ht.
    rewrite ln_1 in Ht.
    assert (0 < 1 / (n * p))
      by (apply Rdiv_lt_0_compat; [lra|now apply Rmult_lt_0_compat]).
    specialize (Ht ltac:(assumption)). lra. }
  assert (Hsplit : ln (1 / (n * p)) = - ln n - ln p).
  { unfold Rdiv. rewrite Rmult_1_l, ln_Rinv by now apply Rmult_lt_0_compat.
    rewrite ln_mult by assumption. ring. }
  rewrite Hsplit in Htangent.
  assert (Hscaled : p * (- ln n - ln p) <= p * (1 / (n * p) - 1))
    by (apply Rmult_le_compat_l; lra).
  replace (p * (1 / (n * p) - 1)) with (1 / n - p) in Hscaled by (field; lra).
  split.
  - replace (- (p * (ln p / ln 2))) with (p * - ln p / ln 2) by (field; lra).
    apply div_nonneg; [|exact Hln2]. apply Rmult_le_pos; lra.
  - replace (- (p * (ln p / ln 2))) with (- (p * ln p) / ln 2) by (field; lra).
    apply div_le_bound; [exact Hln2|].
    replace ((1 / n - p + p * ln n) / ln 2 * ln 2) with (1 / n - p + p * ln n)
      by (field; lra).
    lra.
Qed.

Lemma entropy_fold_bounds (n : R) (probabilities : list R) (entropy : R) :
  0 < n ->
  Forall (fun p => 0 <= p <= 1) probabilities ->
  entropy
  <= fold_left (fun entropy p =>
                  if F64.ltb 0 p then entropy - p * log2 p else entropy)
       probabilities entropy
  <= entropy
     + (INR (length probabilities) / n - sumList probabilities
        + sumList probabilities * ln n) / ln 2.
Proof.
  intros Hn Hall. revert entropy. pose proof ln_2_pos as Hln2.
  induction Hall as [|p probabilities [Hp0 Hp1] _ IH]; intros entropy.
  - simpl. rewrite sumList_nil. unfold Rdiv. lra.
  - cbn [fold_left length]. rewrite sumList_cons, S_INR.
    assert (Hspread :
      (((INR (length probabilities) + 1) / n - (p + sumList probabilities)
        + (p + sumList probabilities) * ln n) / ln 2)
      = (1 / n - p + p * ln n) / ln 2
        + (INR (length probabilities) / n - sumList probabilities
           + sumList probabilities * ln n) / ln 2) by (field; lra).
    rewrite Hspread.
    destruct (F64.ltb 0 p) eqn:Hpos.
    + apply ltb_true in Hpos.
      pose proof (entropy_term_bounds n p Hn ltac:(lra)) as Hterm.
      specialize (IH (entropy - p * log2 p)). lra.
    + apply ltb_false in Hpos. assert (p = 0) by lra. subst p.
      specialize (IH entropy).
      assert (0 <= (1 / n - 0 + 0 * ln n) / ln 2).
      { apply div_nonneg; [|exact Hln2].
        rewrite Rmult_0_l, Rminus_0_r, Rplus_0_r. apply div_nonneg; lra. }
      lra.
Qed.

Lemma squaredNorm_member (x : R) (l : list R) : x ∈ l -> x * x <= squaredNorm l.
Proof.
  induction l as [|y l IH]; intros Hin; [now apply elem_of_nil in Hin|].
  rewrite squaredNorm_cons. pose proof (squaredNorm_nonneg l).
  pose proof (Rle_0_sqr y) as Hy. unfold Rsqr in Hy.
  apply elem_of_cons in Hin as [->|Hin]; [lra|]. specialize (IH Hin). lra.
Qed.

Lemma spectralEntropy_range (magnitude : list R) :
  (2 <= length magnitude)%nat ->
  0 < log2 (INR (length magnitude))
  /\ 0 <= spectralEntropy magnitude <= 1.
Proof.
  intros Hlen. pose proof ln_2_pos as Hln2.
  assert (Hn : 2 <= INR (length magnitude)).
  { replace 2 with (INR 2) by (simpl; lra). now apply le_INR. }
  assert (Hlog : 0 < log2 (INR (length magnitude))).
  { unfold log2. apply Rdiv_lt_0_compat; [|exact Hln2].
    rewrite <- ln_1. apply ln_increasing; lra. }
  split; [exact Hlog|]. unfold spectralEntropy.
  destruct (Nat.eqb_spec (length magnitude) 0) as [|_]; [lia|].
  rewrite sumSquares_squaredNorm.
  destruct (F64.eqb (squaredNorm magnitude) 0) eqn:Hzero; [lra|].
  apply eqb_false in Hzero. pose proof (squaredNorm_nonneg magnitude) as Hsq.
  set (power := squaredNorm magnitude) in *.
  set (probabilities := map (fun mag => mag * mag / power) magnitude).
  assert (Hprob : Forall (fun p => 0 <= p <= 1) probabilities).
  { apply Forall_map, Forall_forall. intros mag Hin. simpl.
    pose proof (squaredNorm_member mag magnitude Hin) as Hle. fold power in Hle.
    pose proof (Rle_0_sqr mag) as Hm. unfold Rsqr in Hm.
    split; [apply div_nonneg; lra|apply div_le_bound; lra]. }
  assert (Hsum : sumList probabilities = 1).
  { unfold probabilities. rewrite sumList_map_div.
    change (sumList (map (fun a => a * a) magnitude)) with power.
    apply Rdiv_diag. lra. }
  pose proof (entropy_fold_bounds (INR (length magnitude)) probabilities 0
                ltac:(lra) Hprob) as [Hlo Hhi].
  unfold probabilities in Hhi at 2. rewrite length_map, Hsum in Hhi.
  replace (0 + (INR (length magnitude) / INR (length magnitude) - 1
                + 1 * ln (INR (length magnitude))) / ln 2)
    with (log2 (INR (length magnitude))) in Hhi by (unfold log2; field; lra).
  split; [apply div_nonneg; lra|apply div_le_bound; lra].
Qed.

Lemma maxFrom_cases (start : R) (magnitude : list R) :
  maxFrom start magnitude = start \/ maxFrom start magnitude ∈ magnitude.
Proof.
  unfold maxFrom. revert start.
  induction magnitude as [|mag magnitude IH]; intros start; [now left|].
  cbn [fold_left]. destruct (F64.ltb start mag).
  - destruct (IH mag) as [->|Hin]; right; [left|now right].
  - destruct (IH start) as [->|Hin]; [now left|right; now right].
Qed.

Lemma maxFrom_upper (start : R) (magnitude : list R) :
  start <= maxFrom start magnitude
  /\ Forall (fun mag => mag <= maxFrom start magnitude) magnitude.
Proof.
  unfold maxFrom. revert start.
  induction magnitude as [|mag magnitude IH]; intros start;
    [simpl; split; [lra|constructor]|].
  cbn [fold_left]. destruct (F64.ltb start mag) eqn:Hlt.
  - apply ltb_true in Hlt. destruct (IH mag) as [Hge Hall].
    split; [lra|]. now constructor.
  - apply ltb_false in Hlt. destruct (IH start) as [Hge Hall].
    split; [exact Hge|]. constructor; [lra|exact Hall].
Qed.

(** A peak accepted by the harmonic scan: a magnitude of the spectrum. *)
Lemma harmonicScan_peaks (hs : list nat) (magnitude : list R)
    (fundamentalFreq freqResolution avgMag : R) (sampleRate searchWindowSize : Z)
    (acc : harmonicAcc) (P : R -> Prop) :
  P 0 -> Forall P magnitude ->
  Forall P (harmonicMagnitudes acc) ->
  harmonicEnergy acc
  = sumList (map (fun m => m * m) (harmonicMagnitudes acc)) ->
  let result :=
    harmonicScan hs magnitude fundamentalFreq freqResolution avgMag sampleRate
      searchWindowSize acc in
  Forall P (harmonicMagnitudes result)
  /\ harmonicEnergy result
     = sumList (map (fun m => m * m) (harmonicMagnitudes result))
  /\ (length (harmonicMagnitudes result)
      <= length (harmonicMagnitudes acc) + length hs)%nat.
Proof.
  intros Hzero Hmag. revert acc.
  induction hs as [|h hs IH]; intros acc Hacc Henergy; cbn [harmonicScan length].
  - repeat split; [exact Hacc|exact Henergy|lia].
  - cbv zeta.
    destruct (F64.leb _ _); [repeat split; [exact Hacc|exact Henergy|lia]|].
    destruct (_ <=? _)%Z; [repeat split; [exact Hacc|exact Henergy|lia]|].
    match goal with
    | |- context [maxFrom 0.0 ?w] => set (window := w)
    end.
    assert (Hpeak : P (maxFrom 0.0 window)).
    { destruct (maxFrom_cases 0.0 window) as [->|Hin].
      - replace 0.0 with 0 by lra. exact Hzero.
      - rewrite Forall_forall in Hmag. apply Hmag.
        unfold window in Hin. apply elem_of_take in Hin as (i & Hin & _).
        apply list_elem_of_lookup_2 in Hin.
        now apply (subseteq_drop _ magnitude) in Hin. }
    destruct (F64.ltb _ (maxFrom 0.0 window)).
    + edestruct (IH (mkHarmonicAcc
                       (harmonicEnergy acc + maxFrom 0.0 window * maxFrom 0.0 window)
                       (harmonicMagnitudes acc ++ [maxFrom 0.0 window])))
        as (Hall & Hen & Hlen).
      * cbn [harmonicMagnitudes]. apply Forall_app. split; [exact Hacc|].
        now constructor.
      * cbn [harmonicMagnitudes harmonicEnergy].
        rewrite map_app, sumList_app, Henergy. cbn [map].
        rewrite sumList_cons, sumList_nil. lra.
      * cbn [harmonicMagnitudes] in Hlen. rewrite length_app in Hlen.
        cbn [length] in Hlen. repeat split; [exact Hall|exact Hen|lia].
    + destruct (IH acc Hacc Henergy) as (Hall & Hen & Hlen).
      repeat split; [exact Hall|exact Hen|lia].
Qed.

Lemma sumList_le_each (bound : R) (l : list R) :
  Forall (fun x => 0 <= x <= bound) l ->
  0 <= sumList l <= INR (length l) * bound.
Proof.
  induction 1 as [|x l Hx _ IH].
  - rewrite sumList_nil. simpl. lra.
  - rewrite sumList_cons. cbn [length]. rewrite S_INR. lra.
Qed.

Lemma harmonicFeatures_range (magnitude freqs : list R) (fundamentalFreq : R)
    (sampleRate : Z) :
  Forall (fun mag => 0 <= mag) magnitude ->
  let '(harmonicRatio, harmonicCount, harmonicStrength) :=
    harmonicFeatures magnitude freqs fundamentalFreq sampleRate in
  0 <= harmonicRatio <= 10
  /\ 0 <= harmonicCount <= 1
  /\ 0 <= harmonicStrength <= 1.
Proof.
  intros Hmag. unfold harmonicFeatures.
  destruct ((length magnitude =? 0)%nat || F64.leb fundamentalFreq 0);
    [repeat split; lra|].
  rewrite sumSquares_squaredNorm.
  destruct (F64.eqb (squaredNorm magnitude) 0) eqn:Hzero; [repeat split; lra|].
  apply eqb_false in Hzero. pose proof (squaredNorm_nonneg magnitude) as Hsq.
  cbv zeta.
  match goal with
  | |- context [harmonicScan ?hs ?m ?f ?r ?a ?s ?w ?acc] =>
      pose proof (harmonicScan_peaks hs m f r a s w acc
                    (fun x => 0 <= x <= maxFrom 0.0 magnitude
                              /\ x * x <= squaredNorm magnitude)) as Hscan;
      set (found := harmonicScan hs m f r a s w acc) in *
  end.
  destruct (maxFrom_upper 0.0 magnitude) as [Hmax0 Hmax].
  destruct Hscan as (Hall & Henergy & Hlen).
  { simpl. lra. }
  { apply Forall_forall. intros mag Hin.
    rewrite Forall_forall in Hmag, Hmax.
    pose proof (squaredNorm_member mag magnitude Hin).
    specialize (Hmag mag Hin). specialize (Hmax mag Hin). simpl. lra. }
  { constructor. }
  { cbn [harmonicEnergy harmonicMagnitudes map]. rewrite sumList_nil. lra. }
  cbn [harmonicMagnitudes length seq Nat.add] in Hlen.
  assert (Hcount : 0 <= INR (length (harmonicMagnitudes found)) <= 10).
  { split; [apply pos_INR|]. replace 10 with (INR 10) by (simpl; lra).
    apply le_INR. lia. }
  split; [|split].
  - rewrite Henergy.
    assert (Hsquares : Forall (fun x => 0 <= x <= squaredNorm magnitude)
                         (map (fun m => m * m) (harmonicMagnitudes found))).
    { apply Forall_map. eapply Forall_impl; [exact Hall|].
      intros x [_ Hx]. simpl. split; [apply Rle_0_sqr|exact Hx]. }
    apply sumList_le_each in Hsquares as [Hlo Hhi]. rewrite length_map in Hhi.
    split; [apply div_nonneg; lra|]. apply div_le_bound; [lra|].
    eapply Rle_trans; [exact Hhi|]. apply Rmult_le_compat_r; lra.
  - destruct (F64.ltb 1.0 _) eqn:Hclamp; [lra|]. apply ltb_false in Hclamp.
    split; [apply div_nonneg; lra|lra].
  - destruct (Nat.ltb_spec 0 (length (harmonicMagnitudes found))) as [Hpos|];
      cbn [andb]; [|lra].
    destruct (F64.ltb 0 (maxFrom 0.0 magnitude)) eqn:Hmaxpos; [|lra].
    apply ltb_true in Hmaxpos.
    assert (Hpeaks : Forall (fun x => 0 <= x <= maxFrom 0.0 magnitude)
                       (harmonicMagnitudes found)).
    { eapply Forall_impl; [exact Hall|]. intros x [Hx _]. exact Hx. }
    apply sumList_le_each in Hpeaks as [Hlo Hhi].
    assert (Hn : 0 < INR (length (harmonicMagnitudes found)))
      by (apply lt_0_INR; lia).
    split.
    + apply div_nonneg; [|exact Hmaxpos]. apply div_nonneg; lra.
    + apply div_le_bound; [exact Hmaxpos|]. apply div_le_bound; [exact Hn|]. lra.
Qed.

Lemma computeSpectrum_bins (samples : list R) (sampleRate : Z) :
  (3 <= length samples)%nat ->
  (2 <= length (computeSpectrum samples sampleRate).1)%nat.
Proof.
  intros Hlen. unfold computeSpectrum. cbn [fst]. rewrite length_map, length_seq.
  destruct (nextPowerOfTwo_power (length samples)) as (j & -> & Hge & _).
  destruct j as [|[|j]]; [simpl in Hge; lia|simpl in Hge; lia|].
  replace (2 ^ S (S j))%nat with (2 ^ S j * 2)%nat by (simpl; lia).
  rewrite Nat.div_mul by lia.
  assert (1 <= 2 ^ j)%nat by (apply Nat.neq_0_lt_0, Nat.pow_nonzero; lia).
  simpl. lia.
Qed.

Lemma toInt_floor (x : R) (z : Z) :
  0 <= x -> IZR z <= x < IZR z + 1 -> F64.toInt x = z.
Proof.
  intros Hx [Hlo Hhi]. unfold F64.toInt.
  replace (F64.ltb x 0) with false by (symmetry; apply ltb_false; lra).
  unfold Int_part. rewrite <- (up_tech x z); [lia|exact Hlo|].
  rewrite plus_IZR. simpl. lra.
Qed.

Lemma harmonicScan_step (h : nat) (hs : list nat) (magnitude : list R)
    (fundamentalFreq freqResolution avgMag : R) (sampleRate searchWindowSize : Z)
    (acc : harmonicAcc) (targetBin : Z) :
  fundamentalFreq * INR h < IZR sampleRate / 2 ->
  0 <= fundamentalFreq * INR h / freqResolution ->
  IZR targetBin <= fundamentalFreq * INR h / freqResolution < IZR targetBin + 1 ->
  (targetBin < Z.of_nat (length magnitude))%Z ->
  harmonicScan (h :: hs) magnitude fundamentalFreq freqResolution avgMag sampleRate
    searchWindowSize acc
  = let len := Z.of_nat (length magnitude) in
    let startBin := Z.max 0 (targetBin - searchWindowSize) in
    let endBin := Z.min (len - 1) (targetBin + searchWindowSize) in
    let maxMag :=
      maxFrom 0.0 (take (Z.to_nat (endBin - startBin + 1))
                     (drop (Z.to_nat startBin) magnitude)) in
    harmonicScan hs magnitude fundamentalFreq freqResolution avgMag sampleRate
      searchWindowSize
      (if F64.ltb (avgMag * 1.5) maxMag
       then mkHarmonicAcc (harmonicEnergy acc + maxMag * maxMag)
                          (harmonicMagnitudes acc ++ [maxMag])
       else acc).
Proof.
  intros Hbelow Hpos Hbin Hlen. cbn [harmonicScan]. cbv zeta.
  replace (F64.leb (IZR sampleRate / 2) (fundamentalFreq * INR h)) with false
    by (symmetry; apply leb_false; lra).
  rewrite (toInt_floor _ targetBin Hpos Hbin).
  replace (Z.of_nat (length magnitude) <=? targetBin)%Z with false
    by (symmetry; apply Z.leb_gt; lia).
  replace (if (targetBin - searchWindowSize <? 0)%Z then 0%Z
           else (targetBin - searchWindowSize)%Z)
    with (Z.max 0 (targetBin - searchWindowSize))
    by (destruct (Z.ltb_spec (targetBin - searchWindowSize) 0); lia).
  replace (if (Z.of_nat (length magnitude) <=? targetBin + searchWindowSize)%Z
           then (Z.of_nat (length magnitude) - 1)%Z
           else (targetBin + searchWindowSize)%Z)
    with (Z.min (Z.of_nat (length magnitude) - 1) (targetBin + searchWindowSize))
    by (destruct (Z.leb_spec (Z.of_nat (length magnitude))
                    (targetBin + searchWindowSize)); lia).
  reflexivity.
Qed.

Lemma harmonicScan_break (h : nat) (hs : list nat) (magnitude : list R)
    (fundamentalFreq freqResolution avgMag : R) (sampleRate searchWindowSize : Z)
    (acc : harmonicAcc) :
  IZR sampleRate / 2 <= fundamentalFreq * INR h ->
  harmonicScan (h :: hs) magnitude fundamentalFreq freqResolution avgMag sampleRate
    searchWindowSize acc = acc.
Proof.
  intros Habove. cbn [harmonicScan]. cbv zeta.
  now replace (F64.leb (IZR sampleRate / 2) (fundamentalFreq * INR h)) with true
    by (symmetry; apply leb_true; lra).
Qed.

Lemma maxFrom_010 : maxFrom 0.0 [0; 1; 0] = 1.
Proof. unfold maxFrom. cbn [fold_left]. f64_cases. Qed.

Lemma maxFrom_100 : maxFrom 0.0 [1; 0; 0] = 1.
Proof. unfold maxFrom. cbn [fold_left]. f64_cases. Qed.

Lemma maxFrom_00 : maxFrom 0.0 [0; 0] = 0.
Proof. unfold maxFrom. cbn [fold_left]. f64_cases. Qed.

(** A spectrum with a single peak in bin 1 and the fundamental in that bin:
    the windows of the first two harmonics both hold the peak. *)
Lemma harmonicFeatures_double_count :
  (harmonicFeatures [0; 1; 0; 0] [0; 1; 2; 3] 1 8).1.1 = 2.
Proof.
  unfold harmonicFeatures.
  cbn [length Nat.eqb orb].
  replace (F64.leb 1 0) with false by (symmetry; apply leb_false; lra).
  cbn [orb]. rewrite sumSquares_squaredNorm.
  assert (Hsq : squaredNorm [0; 1; 0; 0] = 1).
  { rewrite !squaredNorm_cons, squaredNorm_nil. lra. }
  rewrite Hsq.
  replace (F64.eqb 1 0) with false by (symmetry; apply eqb_false; lra).
  cbv zeta.
  assert (Hsum : sumList [0; 1; 0; 0] = 1).
  { rewrite !sumList_cons, sumList_nil. lra. }
  rewrite Hsum.
  replace (INR (4 * 2)) with 8 by (simpl; lra).
  replace (INR 4) with 4 by (simpl; lra).
  replace (IZR 8 / 8) with 1 by lra.
  rewrite (toInt_floor (1 * 0.1 / 1) 0) by lra.
  cbn [Z.ltb Z.compare Pos.compare Pos.compare_cont].
  cbn [fst].
  cbn [seq].
  rewrite (harmonicScan_step 1 _ _ _ _ _ _ _ _ 1)
    by (simpl; first [lra | lia]).
  cbv zeta. cbn [length].
  change (take _ (drop _ [0; 1; 0; 0])) with [0; 1; 0].
  rewrite maxFrom_010.
  replace (F64.ltb (1 / 4 * 1.5) 1) with true by (symmetry; apply ltb_true; lra).
  cbn [harmonicEnergy harmonicMagnitudes app].
  rewrite (harmonicScan_step 2 _ _ _ _ _ _ _ _ 2)
    by (simpl; first [lra | lia]).
  cbv zeta. cbn [length].
  change (take _ (drop _ [0; 1; 0; 0])) with [1; 0; 0].
  rewrite maxFrom_100.
  replace (F64.ltb (1 / 4 * 1.5) 1) with true by (symmetry; apply ltb_true; lra).
  cbn [harmonicEnergy harmonicMagnitudes app].
  rewrite (harmonicScan_step 3 _ _ _ _ _ _ _ _ 3)
    by (simpl; first [lra | lia]).
  cbv zeta. cbn [length].
  change (take _ (drop _ [0; 1; 0; 0])) with [0; 0].
  rewrite maxFrom_00.
  replace (F64.ltb (1 / 4 * 1.5) 0) with false by (symmetry; apply ltb_false; lra).
  rewrite harmonicScan_break by (simpl; lra).
  cbn [harmonicEnergy]. lra.
Qed.

(** X18.  The spectral entropy of a spectrum with at least two bins divides
    by a positive number and lies in [0, 1].  On magnitudes that are not
    negative, the harmonic count and the harmonic strength lie in [0, 1] and
    the harmonic ratio in [0, 10]; the ratio can exceed 1, since one peak
    can be picked for several harmonics.  For a clip of at least three
    samples these bounds hold for the components 8, 16, 17 and 18 of the
    feature vector. *)
Theorem entropy_and_harmonics_ranges (samples magnitude freqs : list R)
    (fundamentalFreq : R) (sampleRate : Z) :
  (3 <= length samples)%nat ->
  (0 < sampleRate)%Z ->
  ((2 <= length magnitude)%nat ->
   0 < log2 (INR (length magnitude)) /\ 0 <= spectralEntropy magnitude <= 1)
  /\ (Forall (fun mag => 0 <= mag) magnitude ->
      0 <= (harmonicFeatures magnitude freqs fundamentalFreq sampleRate).1.1 <= 10
      /\ 0 <= (harmonicFeatures magnitude freqs fundamentalFreq sampleRate).1.2 <= 1
      /\ 0 <= (harmonicFeatures magnitude freqs fundamentalFreq sampleRate).2 <= 1)
  /\ (harmonicFeatures [0; 1; 0; 0] [0; 1; 2; 3] 1 8).1.1 = 2
  /\ exists vector entropy harmonicRatio harmonicCount harmonicStrength,
       ExtractFeatureVector samples sampleRate = Ok vector
       /\ vector !! 8%nat = Some entropy /\ 0 <= entropy <= 1
       /\ vector !! 16%nat = Some harmonicRatio /\ 0 <= harmonicRatio <= 10
       /\ vector !! 17%nat = Some harmonicCount /\ 0 <= harmonicCount <= 1
       /\ vector !! 18%nat = Some harmonicStrength /\ 0 <= harmonicStrength <= 1.
Proof.
  intros Hlen Hrate. split; [apply spectralEntropy_range|]. split.
  - intros Hmag.
    pose proof (harmonicFeatures_range magnitude freqs fundamentalFreq sampleRate Hmag)
      as Hrange.
    destruct (harmonicFeatures _ _ _ _) as [[ratio number] strength]. exact Hrange.
  - split; [exact harmonicFeatures_double_count|].
    assert (Hne : samples <> []) by (destruct samples; [simpl in Hlen; lia|discriminate]).
    pose proof (ExtractFeatureVector_components samples sampleRate Hne Hrate) as Hvec.
    cbv zeta in Hvec.
    set (spectrum := (computeSpectrum samples sampleRate).1) in *.
    set (freqs' := (computeSpectrum samples sampleRate).2) in *.
    set (dominant := dominantFrequency spectrum freqs') in *.
    set (harmonics := if F64.ltb 0 dominant
                      then harmonicFeatures spectrum freqs' dominant sampleRate
                      else (0, 0, 0)) in *.
    assert (Hharm : 0 <= harmonics.1.1 <= 10 /\ 0 <= harmonics.1.2 <= 1
                    /\ 0 <= harmonics.2 <= 1).
    { unfold harmonics. destruct (F64.ltb 0 dominant); [|simpl; lra].
      pose proof (harmonicFeatures_range spectrum freqs' dominant sampleRate
                    (computeSpectrum_nonneg samples sampleRate)) as Hrange.
      destruct (harmonicFeatures _ _ _ _) as [[ratio number] strength].
      exact Hrange. }
    destruct Hharm as (Hratio & Hcount & Hstrength).
    destruct (spectralEntropy_range spectrum (computeSpectrum_bins _ _ Hlen))
      as [_ Hentropy].
    eexists _, _, _, _, _. split; [exact Hvec|]. cbn [lookup list_lookup].
    repeat split; try apply Hentropy; try apply Hratio; try apply Hcount;
      apply Hstrength.
Qed.

Lemma entropy_and_harmonics_ranges_witness :
  exists vector entropy,
    ExtractFeatureVector skewedSamples 8000 = Ok vector
    /\ vector !! 8%nat = Some entropy /\ 0 <= entropy <= 1.
Proof.
  destruct (entropy_and_harmonics_ranges skewedSamples [] [] 0 8000)
    as (_ & _ & _ & vector & entropy & _ & _ & _ & Hvec & Hlookup & Hrange & _);
    [simpl; lia|lia|].
  exists vector, entropy. split; [exact Hvec|]. split; [exact Hlookup|exact Hrange].
Defined.

(** ** Template matcher *)

Lemma similarityToConfidence_linear (sim : R) :
  -1 <= sim <= 1 -> similarityToConfidence sim = (sim + 1) / 2.
Proof. intros Hsim. unfold similarityToConfidence. f64_cases. Qed.

Lemma templatePrediction_shape (threshold : R) (features : list R) (tpl : Template)
    (prediction : Prediction) :
  templatePrediction threshold features tpl = Some prediction ->
  pLabel prediction = tLabel tpl
  /\ pCategory prediction = "template"%string
  /\ Support prediction = 1%Z
  /\ 0 <= Confidence prediction <= 1
  /\ AverageDist prediction = 2 * (1 - Confidence prediction)
  /\ (0 < threshold -> threshold <= Confidence prediction).
Proof.
  unfold templatePrediction. cbv zeta.
  pose proof (cosineSimilarity_range features (tFeatures tpl) featureWeights) as Hsim.
  rewrite (similarityToConfidence_linear _ Hsim).
  destruct (F64.ltb 0 threshold) eqn:Hpos; cbn [andb].
  - apply ltb_true in Hpos.
    destruct (F64.ltb _ threshold) eqn:Hbelow; cbv iota; [discriminate|].
    apply ltb_false in Hbelow. intros Heq. injection Heq as <-.
    cbn [pLabel pCategory Support Confidence AverageDist].
    repeat split; lra.
  - apply ltb_false in Hpos. intros Heq. injection Heq as <-.
    cbn [pLabel pCategory Support Confidence AverageDist].
    repeat split; lra.
Qed.

Lemma omap_length_le {A B : Type} (f : A -> option B) (l : list A) :
  (length (omap f l) <= length l)%nat.
Proof.
  induction l as [|x l IH]; [reflexivity|]. cbn [omap list_omap].
  destruct (f x); simpl; lia.
Qed.

Section TemplateFacts.

Context `{SliceSorter}.

(** X19.  The template matcher answers with at most one prediction per
    template, each carrying the label of a template, the category
    "template", support 1, a confidence in [0, 1] that is not below a
    positive threshold, and the distance 2 * (1 - confidence); with a
    threshold that is not positive every template gets its prediction.  No
    matcher or an empty query give no prediction.  A template prediction at
    the head of a list is never taken for noise: the drone decision on it is
    the comparison of its confidence with the SNR-adjusted threshold. *)
Theorem TemplateMatcher_Predict_shape (tm : TemplateMatcher) (features : list R) :
  features <> [] ->
  Forall (fun prediction =>
            (exists tpl, tpl ∈ templates tm /\ pLabel prediction = tLabel tpl)
            /\ pCategory prediction = "template"%string
            /\ Support prediction = 1%Z
            /\ 0 <= Confidence prediction <= 1
            /\ AverageDist prediction = 2 * (1 - Confidence prediction)
            /\ (0 < threshold tm -> threshold tm <= Confidence prediction)
            /\ forall (folding : GoStrings.CaseFolding) rest baseThreshold snrDb,
                 @DetermineDroneLikelyWithSNR folding (prediction :: rest)
                   baseThreshold snrDb
                 = F64.leb (adjustedThreshold baseThreshold snrDb)
                     (Confidence prediction))
         (TemplateMatcher_Predict (Some tm) features)
  /\ (length (TemplateMatcher_Predict (Some tm) features) <= length (templates tm))%nat
  /\ (threshold tm <= 0 ->
      length (TemplateMatcher_Predict (Some tm) features) = length (templates tm))
  /\ TemplateMatcher_Predict None features = []
  /\ TemplateMatcher_Predict (Some tm) [] = [].
Proof.
  intros Hf. unfold TemplateMatcher_Predict.
  destruct features as [|x xs] eqn:Hfeatures; [congruence|]. rewrite <- Hfeatures.
  replace (length features =? 0)%nat with false by now rewrite Hfeatures.
  split; [|split; [|split; [|split; reflexivity]]].
  - rewrite sortSlice_perm. apply Forall_forall. intros prediction Hin.
    apply list_elem_of_omap in Hin as (tpl & Hin & Hpred).
    destruct (templatePrediction_shape _ _ _ _ Hpred)
      as (Hlabel & Hcat & Hsupport & Hconf & Hdist & Hthreshold).
    split; [now exists tpl|]. repeat split; try assumption; try lra.
    intros folding rest baseThreshold snrDb. unfold DetermineDroneLikelyWithSNR.
    rewrite Hcat.
    replace (GoStrings.EqualFold "template" "noise") with false
      by (rewrite GoStrings.EqualFold_ascii by reflexivity; reflexivity).
    now rewrite threshold_adjusted.
  - rewrite (Permutation_length (sortSlice_perm _ _ _)). apply omap_length_le.
  - intros Hoff. rewrite (Permutation_length (sortSlice_perm _ _ _)).
    induction (templates tm) as [|tpl rest IH]; [reflexivity|].
    cbn [omap list_omap]. unfold templatePrediction at 1. cbv zeta.
    replace (F64.ltb 0 (threshold tm)) with false
      by (symmetry; apply ltb_false; lra).
    cbn [andb length]. f_equal. exact IH.
Qed.

End TemplateFacts.

Lemma TemplateMatcher_Predict_shape_witness :
  Nat.le
    (length (TemplateMatcher_Predict
               (Some (mkTemplateMatcher [mkTemplate "mavic" "mavic.wav" [3; 4]] 0.5))
               [3; 4]))
    1.
Proof.
  apply (TemplateMatcher_Predict_shape
           (mkTemplateMatcher [mkTemplate "mavic" "mavic.wav" [3; 4]] 0.5) [3; 4]).
  discriminate.
Defined.

Lemma normaliseTemplates_outcome (ts : list Template) :
  match normaliseTemplates ts with
  | inr normalised =>
      Forall (fun tpl => length (tFeatures tpl) = 2048%nat) ts
      /\ normalised
         = map (fun tpl => mkTemplate (tLabel tpl) (tSource tpl)
                             (NormaliseVectorInPlace (tFeatures tpl))) ts
  | inl e =>
      exists tpl,
        tpl ∈ ts /\ length (tFeatures tpl) <> 2048%nat
        /\ e = ErrTemplateFeatureCount (tLabel tpl) (length (tFeatures tpl)) 2048
  end.
Proof.
  induction ts as [|tpl ts IH]; [split; [constructor|reflexivity]|].
  cbn [normaliseTemplates]. rewrite featureWeights_length.
  destruct (Nat.eqb_spec (length (tFeatures tpl)) 2048) as [Hlen|Hlen]; cbn [negb].
  - destruct (normaliseTemplates ts) as [e|normalised].
    + destruct IH as (bad & Hin & Hbad & ->). exists bad.
      split; [now right|]. now split.
    + destruct IH as [Hall ->]. split; [now constructor|reflexivity].
  - exists tpl. split; [left|]. now split.
Qed.

(** X20.  [NewTemplateMatcherFromFile] refuses a missing file, a file that
    does not parse, a file without entries and a template whose vector does
    not have 2048 features.  Otherwise the matcher holds the templates of
    the file in their order, with the same labels and sources, every vector
    of length 2048 and scaled to Euclidean norm 1 (all-zero vectors
    excepted), and its threshold is the given one clamped to [0, 1]. *)
Theorem NewTemplateMatcherFromFile_outcome (fs : gmap string TemplateFileContent)
    (path : string) (threshold0 : R) :
  match NewTemplateMatcherFromFile fs path threshold0 with
  | inr tm =>
      exists ts,
        fs !! path = Some (TemplatesJSON ts)
        /\ ts <> []
        /\ map tLabel (templates tm) = map tLabel ts
        /\ map tSource (templates tm) = map tSource ts
        /\ map tFeatures (templates tm)
           = map (fun tpl => NormaliseVectorInPlace (tFeatures tpl)) ts
        /\ Forall (fun tpl =>
                     length (tFeatures tpl) = 2048%nat
                     /\ (squaredNorm (tFeatures tpl) = 1
                         \/ Forall (fun x => x = 0) (tFeatures tpl)))
                  (templates tm)
        /\ 0 <= threshold tm <= 1
        /\ (0 <= threshold0 <= 1 -> threshold tm = threshold0)
        /\ (0 < TemplateCount (Some tm))%Z
  | inl ErrReadTemplates => fs !! path = None
  | inl ErrParseTemplates => fs !! path = Some MalformedTemplates
  | inl (ErrNoTemplateEntries p) => p = path /\ fs !! path = Some (TemplatesJSON [])
  | inl (ErrTemplateFeatureCount label got expected) =>
      expected = 2048%nat /\ got <> 2048%nat
      /\ exists ts tpl,
           fs !! path = Some (TemplatesJSON ts) /\ tpl ∈ ts
           /\ tLabel tpl = label /\ length (tFeatures tpl) = got
  end.
Proof.
  unfold NewTemplateMatcherFromFile.
  destruct (fs !! path) as [[ts|]|] eqn:Hfile; [|reflexivity|reflexivity].
  destruct ts as [|first rest] eqn:Hts; [now split|]. rewrite <- Hts.
  replace (length ts =? 0)%nat with false by now rewrite Hts.
  pose proof (normaliseTemplates_outcome ts) as Hnorm.
  destruct (normaliseTemplates ts) as [e|normalised].
  - destruct Hnorm as (bad & Hin & Hbad & ->). split; [reflexivity|].
    split; [exact Hbad|]. now exists ts, bad.
  - destruct Hnorm as [Hall ->]. exists ts. cbn [templates threshold].
    split; [reflexivity|]. split; [rewrite Hts; discriminate|].
    rewrite !map_map. cbn [tLabel tSource tFeatures].
    split; [reflexivity|]. split; [reflexivity|]. split; [reflexivity|].
    split; [|split; [apply clamp01_range|split]].
    + apply Forall_map. eapply Forall_impl; [exact Hall|].
      intros t Hlen. cbn [tFeatures].
      split; [now rewrite NormaliseVectorInPlace_length|].
      apply NormaliseVectorInPlace_unit_or_zero.
    + apply clamp01_id.
    + unfold TemplateCount. cbn [templates]. rewrite length_map, Hts. simpl. lia.
Qed.

(** ** Merged predictions *)

Section MergeFacts.

Context `{SliceSorter}.
Variable ToLower : string -> string.

Lemma indexBase_fold (base : list Prediction) (index : gmap string Prediction) :
  (forall key p,
     fold_left (indexBase ToLower) base index !! key = Some p ->
     index !! key = Some p \/ (p ∈ base /\ ToLower (pLabel p) = key))
  /\ (forall key,
        is_Some (index !! key) ->
        is_Some (fold_left (indexBase ToLower) base index !! key))
  /\ (forall b, b ∈ base ->
        is_Some (fold_left (indexBase ToLower) base index !! ToLower (pLabel b))).
Proof.
  revert index. induction base as [|b base IH]; intros index.
  - cbn [fold_left]. split; [now left|]. split; [auto|].
    intros b Hin. now apply elem_of_nil in Hin.
  - cbn [fold_left]. destruct (IH (indexBase ToLower index b)) as (Hfrom & Hkeep & Hall).
    unfold indexBase in *. split; [|split].
    + intros key p Hp. destruct (Hfrom key p Hp) as [Hold|[Hin Hkey]].
      * destruct (decide (key = ToLower (pLabel b))) as [->|Hne].
        -- rewrite lookup_insert_eq in Hold. injection Hold as <-.
           right. split; [left|reflexivity].
        -- rewrite lookup_insert_ne in Hold by congruence. now left.
      * right. split; [now right|exact Hkey].
    + intros key Hsome. apply Hkeep.
      destruct (decide (key = ToLower (pLabel b))) as [->|Hne].
      * rewrite lookup_insert_eq. eauto.
      * now rewrite lookup_insert_ne by congruence.
    + intros p Hin. apply elem_of_cons in Hin as [->|Hin]; [|now apply Hall].
      apply Hkeep. rewrite lookup_insert_eq. eauto.
Qed.

Lemma indexAddition_step (index : gmap string Prediction) (a : Prediction) :
  (forall key p,
     indexAddition ToLower index a !! key = Some p ->
     index !! key = Some p \/ (p = a /\ ToLower (pLabel a) = key))
  /\ (forall key p,
        index !! key = Some p ->
        exists q, indexAddition ToLower index a !! key = Some q
                  /\ Confidence p <= Confidence q)
  /\ (exists q, indexAddition ToLower index a !! ToLower (pLabel a) = Some q
                /\ Confidence a <= Confidence q).
Proof.
  unfold indexAddition. cbv zeta.
  destruct (index !! ToLower (pLabel a)) as [existing|] eqn:Hexisting.
  - destruct (F64.ltb (Confidence existing) (Confidence a)) eqn:Hlt.
    + apply ltb_true in Hlt. split; [|split].
      * intros key p Hp.
        destruct (decide (key = ToLower (pLabel a))) as [->|Hne].
        -- rewrite lookup_insert_eq in Hp. injection Hp as <-. now right.
        -- rewrite lookup_insert_ne in Hp by congruence. now left.
      * intros key p Hp.
        destruct (decide (key = ToLower (pLabel a))) as [->|Hne].
        -- rewrite lookup_insert_eq. exists a. split; [reflexivity|].
           rewrite Hexisting in Hp. injection Hp as <-. lra.
        -- rewrite lookup_insert_ne by congruence. exists p. split; [exact Hp|lra].
      * rewrite lookup_insert_eq. exists a. split; [reflexivity|lra].
    + apply ltb_false in Hlt. split; [|split].
      * intros key p Hp. now left.
      * intros key p Hp. exists p. split; [exact Hp|lra].
      * exists existing. split; [exact Hexisting|exact Hlt].
  - split; [|split].
    + intros key p Hp.
      destruct (decide (key = ToLower (pLabel a))) as [->|Hne].
      * rewrite lookup_insert_eq in Hp. injection Hp as <-. now right.
      * rewrite lookup_insert_ne in Hp by congruence. now left.
    + intros key p Hp.
      destruct (decide (key = ToLower (pLabel a))) as [->|Hne]; [congruence|].
      rewrite lookup_insert_ne by congruence. exists p. split; [exact Hp|lra].
    + rewrite lookup_insert_eq. exists a. split; [reflexivity|lra].
Qed.

Lemma indexAddition_fold (additions : list Prediction)
    (index : gmap string Prediction) :
  (forall key p,
     fold_left (indexAddition ToLower) additions index !! key = Some p ->
     index !! key = Some p \/ (p ∈ additions /\ ToLower (pLabel p) = key))
  /\ (forall key p,
        index !! key = Some p ->
        exists q, fold_left (indexAddition ToLower) additions index !! key = Some q
                  /\ Confidence p <= Confidence q)
  /\ (forall a, a ∈ additions ->
        exists q,
          fold_left (indexAddition ToLower) additions index !! ToLower (pLabel a)
          = Some q
          /\ Confidence a <= Confidence q).
Proof.
  revert index. induction additions as [|a additions IH]; intros index.
  - cbn [fold_left]. split; [now left|]. split.
    + intros key p Hp. exists p. split; [exact Hp|lra].
    + intros a Hin. now apply elem_of_nil in Hin.
  - cbn [fold_left].
    destruct (IH (indexAddition ToLower index a)) as (Hfrom & Hgrow & Hall).
    destruct (indexAddition_step index a) as (Hfrom1 & Hgrow1 & Hown).
    split; [|split].
    + intros key p Hp. destruct (Hfrom key p Hp) as [Hold|[Hin Hkey]].
      * destruct (Hfrom1 key p Hold) as [Hindex|[-> Hkey]]; [now left|].
        right. split; [left|exact Hkey].
      * right. split; [now right|exact Hkey].
    + intros key p Hp. destruct (Hgrow1 key p Hp) as (q1 & Hq1 & Hle1).
      destruct (Hgrow key q1 Hq1) as (q & Hq & Hle). exists q.
      split; [exact Hq|lra].
    + intros p Hin. apply elem_of_cons in Hin as [->|Hin]; [|now apply Hall].
      destruct Hown as (q1 & Hq1 & Hle1).
      destruct (Hgrow _ q1 Hq1) as (q & Hq & Hle). exists q.
      split; [exact Hq|lra].
Qed.

(** X21.  Without additions, [MergePredictions] returns the base list as it
    is.  Otherwise the merged list holds exactly one prediction per
    lower-cased label occurring in either list, each of them taken from one
    of the two lists, and the one kept for a label is at least as confident
    as every addition with that label. *)
Theorem MergePredictions_index (base additions : list Prediction) :
  additions <> [] ->
  MergePredictions ToLower base [] = base
  /\ NoDup (map (fun p => ToLower (pLabel p))
              (MergePredictions ToLower base additions))
  /\ (forall p, p ∈ MergePredictions ToLower base additions ->
        p ∈ base \/ p ∈ additions)
  /\ (forall p, p ∈ base \/ p ∈ additions ->
        exists q, q ∈ MergePredictions ToLower base additions
                  /\ ToLower (pLabel q) = ToLower (pLabel p))
  /\ (forall a q, a ∈ additions ->
        q ∈ MergePredictions ToLower base additions ->
        ToLower (pLabel q) = ToLower (pLabel a) ->
        Confidence a <= Confidence q)
  /\ (length (MergePredictions ToLower base additions)
      <= length base + length additions)%nat.
Proof.
  intros Hne. split; [reflexivity|]. unfold MergePredictions.
  destruct additions as [|first more] eqn:Hadd; [congruence|]. rewrite <- Hadd.
  replace (length additions =? 0)%nat with false by now rewrite Hadd.
  cbv zeta.
  destruct (indexBase_fold base ∅) as (Hbase & _ & Hbasekeys).
  destruct (indexAddition_fold additions (fold_left (indexBase ToLower) base ∅))
    as (Hfrom & Hgrow & Hadds).
  set (index := fold_left (indexAddition ToLower) additions
                  (fold_left (indexBase ToLower) base ∅)) in *.
  assert (Hentry : forall key p,
            index !! key = Some p ->
            ToLower (pLabel p) = key /\ (p ∈ base \/ p ∈ additions)).
  { intros key p Hp. destruct (Hfrom key p Hp) as [Hold|[Hin Hkey]].
    - destruct (Hbase key p Hold) as [Hempty|[Hin Hkey]];
        [rewrite lookup_empty in Hempty; discriminate|].
      split; [exact Hkey|now left].
    - split; [exact Hkey|now right]. }
  assert (Hmember : forall q,
            q ∈ sortSlice confidenceLess (map snd (map_to_list index))
            <-> exists key, index !! key = Some q).
  { intros q. rewrite sortSlice_perm, list_elem_of_fmap. split.
    - intros ([key p] & -> & Hin). apply elem_of_map_to_list in Hin. now exists key.
    - intros [key Hq]. exists (key, q). split; [reflexivity|].
      now apply elem_of_map_to_list. }
  assert (Hkeys : map (fun p => ToLower (pLabel p)) (map snd (map_to_list index))
                  = map fst (map_to_list index)).
  { rewrite map_map. apply map_ext_in. intros [key p] Hin.
    apply list_elem_of_In, elem_of_map_to_list in Hin.
    destruct (Hentry key p Hin) as [Hkey _]. exact Hkey. }
  split; [|split; [|split; [|split]]].
  - rewrite (Permutation_map _ (sortSlice_perm _ _ _)), Hkeys.
    apply NoDup_fst_map_to_list.
  - intros p Hin. apply Hmember in Hin as [key Hp]. now apply (Hentry key).
  - intros p [Hin|Hin].
    + destruct (Hbasekeys p Hin) as [b Hb].
      destruct (Hgrow _ b Hb) as (q & Hq & _). exists q.
      split; [apply Hmember; eauto|]. now destruct (Hentry _ q Hq).
    + destruct (Hadds p Hin) as (q & Hq & _). exists q.
      split; [apply Hmember; eauto|]. now destruct (Hentry _ q Hq).
  - intros a q Hin Hq Hsame. apply Hmember in Hq as [key Hq].
    destruct (Hentry key q Hq) as [Hkey _].
    destruct (Hadds a Hin) as (q' & Hq' & Hle).
    rewrite <- Hsame, Hkey, Hq in Hq'. injection Hq' as <-. exact Hle.
  - rewrite (Permutation_length (sortSlice_perm _ _ _)), length_map.
    assert (Hsub : map snd (map_to_list index) ⊆ base ++ additions).
    { intros q Hq. apply list_elem_of_fmap in Hq as ([key p] & -> & Hq).
      apply elem_of_map_to_list in Hq. apply elem_of_app.
      now destruct (Hentry key p Hq). }
    rewrite <- length_app, <- (length_map snd).
    assert (Hnodup : NoDup (map snd (map_to_list index))).
    { apply (NoDup_fmap_1 (fun p => ToLower (pLabel p))).
      change (fmap ?f ?l) with (map f l). rewrite Hkeys.
      apply NoDup_fst_map_to_list. }
    apply submseteq_length, NoDup_submseteq; assumption.
Qed.

End MergeFacts.

Lemma MergePredictions_index_witness :
  NoDup (map (fun p => asciiLower (pLabel p))
           (MergePredictions asciiLower
              [mkPrediction "Mavic" "drone" "" 0.6 0.2 3 [] None]
              [mkPrediction "mavic" "template" "template:mavic.wav" 0.9 0.2 1 [] None])).
Proof.
  apply (MergePredictions_index asciiLower
           [mkPrediction "Mavic" "drone" "" 0.6 0.2 3 [] None]
           [mkPrediction "mavic" "template" "template:mavic.wav" 0.9 0.2 1 [] None]).
  discriminate.
Defined.

(** ** Merged prototype scores *)

Lemma combineExisting_fold (existing : list PrototypeScore)
    (combined : gmap string PrototypeScore) :
  forall id score,
    fold_left combineExisting existing combined !! id = Some score ->
    combined !! id = Some score \/ (score ∈ existing /\ psID score = id).
Proof.
  revert combined. induction existing as [|s existing IH]; intros combined id score;
    cbn [fold_left]; [now left|].
  intros Hscore. destruct (IH _ _ _ Hscore) as [Hold|[Hin Hid]].
  - unfold combineExisting in Hold.
    destruct (decide (id = psID s)) as [->|Hne].
    + rewrite lookup_insert_eq in Hold. injection Hold as <-.
      right. split; [left|reflexivity].
    + rewrite lookup_insert_ne in Hold by congruence. now left.
  - right. split; [now right|exact Hid].
Qed.

Lemma combineAdditional_fold (additional : list PrototypeScore)
    (combined : gmap string PrototypeScore) :
  forall id score,
    fold_left combineAdditional additional combined !! id = Some score ->
    combined !! id = Some score \/ (score ∈ additional /\ psID score = id).
Proof.
  revert combined. induction additional as [|s additional IH];
    intros combined id score; cbn [fold_left]; [now left|].
  intros Hscore. destruct (IH _ _ _ Hscore) as [Hold|[Hin Hid]].
  - unfold combineAdditional in Hold.
    assert (Hinsert : <[psID s := s]> combined !! id = Some score ->
              combined !! id = Some score
              \/ (score ∈ s :: additional /\ psID score = id)).
    { intros Hins. destruct (decide (id = psID s)) as [->|Hne].
      - rewrite lookup_insert_eq in Hins. injection Hins as <-.
        right. split; [left|reflexivity].
      - rewrite lookup_insert_ne in Hins by congruence. now left. }
    destruct (combined !! psID s) as [current|]; [|now apply Hinsert].
    destruct (_ || _); [now apply Hinsert|now left].
  - right. split; [now right|exact Hid].
Qed.

Lemma combined_entries (existing additional : list PrototypeScore)
    (id : string) (score : PrototypeScore) :
  fold_left combineAdditional additional (fold_left combineExisting existing ∅)
    !! id = Some score ->
  psID score = id /\ (score ∈ existing \/ score ∈ additional).
Proof.
  intros Hscore.
  destruct (combineAdditional_fold _ _ _ _ Hscore) as [Hold|[Hin Hid]].
  - destruct (combineExisting_fold _ _ _ _ Hold) as [Hempty|[Hin Hid]].
    + rewrite lookup_empty in Hempty. discriminate.
    + split; [exact Hid|now left].
  - split; [exact Hid|now right].
Qed.

Section ScoreFacts.

Context `{SliceSorter}.

(** X22.  The merged prototype scores carry pairwise different identifiers,
    each score is one of the given ones, and a positive limit bounds their
    number; two empty lists merge into the empty list. *)
Theorem mergePrototypeScores_shape (existing additional : list PrototypeScore)
    (limit : Z) :
  (0 < limit)%Z ->
  NoDup (map psID (mergePrototypeScores existing additional limit))
  /\ (forall score, score ∈ mergePrototypeScores existing additional limit ->
        score ∈ existing \/ score ∈ additional)
  /\ (Z.of_nat (length (mergePrototypeScores existing additional limit)) <= limit)%Z
  /\ mergePrototypeScores [] [] limit = [].
Proof.
  intros Hlimit. pose proof (combined_entries existing additional) as Hentry.
  unfold mergePrototypeScores.
  destruct ((length existing =? 0)%nat && (length additional =? 0)%nat).
  { split; [constructor|]. split; [|split; [simpl; lia|reflexivity]].
    intros score Hin. now apply elem_of_nil in Hin. }
  cbv zeta.
  set (combined := fold_left combineAdditional additional
                     (fold_left combineExisting existing ∅)) in *.
  set (result := sortSlice scoreLess (map snd (map_to_list combined))).
  assert (Hids : map psID (map snd (map_to_list combined))
                 = map fst (map_to_list combined)).
  { rewrite map_map. apply map_ext_in. intros [id score] Hin.
    apply list_elem_of_In, elem_of_map_to_list in Hin.
    destruct (Hentry id score Hin) as [Hid _]. exact Hid. }
  assert (Hnodup : NoDup (map psID result)).
  { unfold result. rewrite (Permutation_map psID (sortSlice_perm _ _ _)), Hids.
    apply NoDup_fst_map_to_list. }
  assert (Hfrom : forall score, score ∈ result ->
            score ∈ existing \/ score ∈ additional).
  { intros score Hin. unfold result in Hin. rewrite sortSlice_perm in Hin.
    apply list_elem_of_fmap in Hin as ([id s] & -> & Hs).
    apply elem_of_map_to_list in Hs. now destruct (Hentry id s Hs). }
  replace (0 <? limit)%Z with true by (symmetry; apply Z.ltb_lt; lia).
  cbn [andb].
  destruct (Z.ltb_spec limit (Z.of_nat (length result))) as [Hlong|Hshort].
  - split; [|split; [|split; [|reflexivity]]].
    + rewrite <- (take_drop (Z.to_nat limit) result), map_app in Hnodup.
      now apply NoDup_app in Hnodup as [Hnodup _].
    + intros score Hin. apply Hfrom.
      now apply (subseteq_take (Z.to_nat limit) result).
    + rewrite length_take. lia.
  - split; [exact Hnodup|]. split; [exact Hfrom|]. split; [exact Hshort|reflexivity].
Qed.

End ScoreFacts.

Lemma mergePrototypeScores_shape_witness :
  NoDup (map psID
           (mergePrototypeScores
              [mkPrototypeScore "proto_a" 0.2 5 "a.wav"]
              [mkPrototypeScore "proto_a" 0.1 10 "a.wav";
               mkPrototypeScore "proto_b" 0.3 3 "b.wav"] 5)).
Proof.
  apply (mergePrototypeScores_shape
           [mkPrototypeScore "proto_a" 0.2 5 "a.wav"]
           [mkPrototypeScore "proto_a" 0.1 10 "a.wav";
            mkPrototypeScore "proto_b" 0.3 3 "b.wav"] 5).
  reflexivity.
Defined.

(** ** Sliding-window analysis *)

Lemma mapSum_insert {A : Type} (f : A -> R) (m : gmap string A) (key : string) (x : A) :
  sumList (map (fun entry => f entry.2) (map_to_list (<[key := x]> m)))
  = sumList (map (fun entry => f entry.2) (map_to_list m))
    - match m !! key with Some old => f old | None => 0 end + f x.
Proof.
  destruct (m !! key) as [old|] eqn:Hlookup.
  - rewrite <- (insert_delete_eq m).
    rewrite (sumList_perm _ _
      (Permutation_map _ (map_to_list_insert (delete key m) key x
                            (lookup_delete_eq _ _)))).
    rewrite <- (sumList_perm _ _
      (Permutation_map _ (map_to_list_delete m key old Hlookup))).
    cbn [map]. rewrite !sumList_cons. simpl. lra.
  - rewrite (sumList_perm _ _
      (Permutation_map _ (map_to_list_insert m key x Hlookup))).
    cbn [map]. rewrite sumList_cons. simpl. lra.
Qed.

Lemma mapSum_member {A : Type} (f : A -> R) (m : gmap string A) (key : string) (x : A) :
  map_Forall (fun _ a => 0 <= f a) m ->
  m !! key = Some x ->
  f x <= sumList (map (fun entry => f entry.2) (map_to_list m)).
Proof.
  intros Hall Hlookup.
  rewrite <- (sumList_perm _ _
    (Permutation_map _ (map_to_list_delete m key x Hlookup))).
  cbn [map]. rewrite sumList_cons. simpl.
  assert (0 <= sumList (map (fun entry => f entry.2)
                          (map_to_list (delete key m)))).
  { apply sumList_nonneg, Forall_map, Forall_forall. intros [l a] Hin.
    apply elem_of_map_to_list in Hin. apply lookup_delete_Some in Hin as [_ Hin].
    exact (Hall _ _ Hin). }
  lra.
Qed.

Lemma windowSize_bounds (n sampleRate : Z) (windowSeconds : R) :
  (1 <= n)%Z ->
  (Z.min n 1024 <= windowSize n sampleRate windowSeconds <= n)%Z.
Proof.
  intros Hn. unfold windowSize. cbv zeta.
  generalize (F64.toInt ((if F64.leb windowSeconds 0 then 3.0 else windowSeconds)
                         * IZR sampleRate)).
  intros t.
  repeat match goal with
         | |- context [(?a <=? ?b)%Z] => destruct (Z.leb_spec a b)
         | |- context [(?a <? ?b)%Z] => destruct (Z.ltb_spec a b)
         end; lia.
Qed.

Lemma hopSize_bounds (window sampleRate : Z) (overlapSeconds : R) :
  (1 <= window)%Z ->
  (1 <= hopSize window sampleRate overlapSeconds <= window)%Z.
Proof.
  intros Hw. unfold hopSize. cbv zeta.
  generalize (F64.toInt ((if F64.ltb overlapSeconds 0 then 0 else overlapSeconds)
                         * IZR sampleRate)).
  intros t. rewrite Z.quot_div_nonneg by lia.
  pose proof (Z.div_mod window 2 ltac:(lia)) as Hdiv.
  pose proof (Z.mod_pos_bound window 2 ltac:(lia)) as Hmod.
  repeat match goal with
         | |- context [(?a <=? ?b)%Z] => destruct (Z.leb_spec a b)
         | |- context [(?a <? ?b)%Z] => destruct (Z.ltb_spec a b)
         | |- context [(?a =? ?b)%Z] => destruct (Z.eqb_spec a b)
         end; lia.
Qed.

Section SlidingFacts.

Context `{SliceSorter}.

Lemma mergePrototypeScores_limit (existing additional : list PrototypeScore) :
  (length (mergePrototypeScores existing additional 5) <= 5)%nat.
Proof.
  unfold mergePrototypeScores.
  destruct (_ && _); [simpl; lia|]. cbv zeta. cbn [Z.ltb Z.compare andb].
  match goal with
  | |- context [(5 <? ?len)%Z] => destruct (Z.ltb_spec 5 len) as [Hlong|Hshort]
  end; [rewrite length_take|]; lia.
Qed.

Lemma aggregatePrediction_fold (preds : list Prediction)
    (labelAggregates : gmap string aggregatedLabelStats) (totalWeight : R) :
  aggregatesInvariant labelAggregates ->
  aggregatesInvariant
    (fold_left aggregatePrediction preds (labelAggregates, totalWeight)).1
  /\ (fold_left aggregatePrediction preds (labelAggregates, totalWeight)).2
     - aggregatedWeight
         (fold_left aggregatePrediction preds (labelAggregates, totalWeight)).1
     = totalWeight - aggregatedWeight labelAggregates.
Proof.
  revert labelAggregates totalWeight.
  induction preds as [|pred preds IH]; intros labelAggregates totalWeight Hinv.
  - cbn [fold_left fst snd]. split; [exact Hinv|reflexivity].
  - cbn [fold_left]. unfold aggregatePrediction at 2 4 6.
    destruct (F64.leb (Confidence pred) 0) eqn:Hconf; [now apply IH|].
    apply leb_false in Hconf. cbv zeta.
    match goal with
    | |- context [fold_left aggregatePrediction preds (<[?l := ?s]> ?m, ?t)] =>
        destruct (IH (<[l := s]> m) t) as [Hinv' Hdiff]
    end.
    + apply map_Forall_insert_2; [|exact Hinv]. cbn [aWeightSum aTopPrototypes].
      split; [|apply mergePrototypeScores_limit].
      destruct (labelAggregates !! pLabel pred) as [old|] eqn:Hold; simpl.
      * destruct (Hinv _ _ Hold) as [Hpos _]. lra.
      * lra.
    + split; [exact Hinv'|]. rewrite Hdiff. unfold aggregatedWeight.
      rewrite (mapSum_insert aWeightSum). cbn [aWeightSum].
      destruct (labelAggregates !! pLabel pred) as [old|]; simpl; lra.
Qed.

Lemma slidingLoop_invariant (fuel : nat) (c : Classifier) (samples : list R)
    (sampleRate window hop start : Z)
    (state : gmap string aggregatedLabelStats * list WindowPrediction * R) :
  (0 < sampleRate)%Z -> (0 <= hop)%Z -> (0 <= start)%Z ->
  slidingInvariant (Z.of_nat (length samples)) sampleRate state ->
  exists state',
    slidingLoop fuel c samples sampleRate window hop start state = inr state'
    /\ slidingInvariant (Z.of_nat (length samples)) sampleRate state'
    /\ (length state.1.2 <= length state'.1.2)%nat
    /\ ((0 < fuel)%nat ->
        (256 <= Z.min window (Z.of_nat (length samples) - start))%Z ->
        (length state.1.2 < length state'.1.2)%nat).
Proof.
  intros Hrate Hhop. revert start state.
  induction fuel as [|fuel IH]; intros start state Hstart Hinv.
  - exists state. cbn [slidingLoop].
    split; [reflexivity|]. split; [exact Hinv|]. split; lia.
  - cbn [slidingLoop]. cbv zeta.
    set (n := Z.of_nat (length samples)) in *.
    destruct (Z.ltb_spec start n) as [Hin|Hout]; cbn [negb].
    2:{ exists state. split; [reflexivity|]. split; [exact Hinv|]. split; lia. }
    set (finish := if (n <? start + window)%Z then n else (start + window)%Z).
    set (windowSamples := take (Z.to_nat (finish - start))
                            (drop (Z.to_nat start) samples)).
    assert (Hlen : length windowSamples
                   = Z.to_nat (Z.min (finish - start) (n - start))).
    { unfold windowSamples. rewrite length_take, length_drop. unfold n. lia. }
    assert (Hfinish : (finish <= n)%Z /\ (finish - start = Z.min window (n - start))%Z).
    { unfold finish. destruct (Z.ltb_spec n (start + window)); lia. }
    destruct (Nat.ltb_spec (length windowSamples) 256) as [Hshort|Hlong].
    { exists state. split; [reflexivity|]. split; [exact Hinv|]. split; lia. }
    assert (Hne : windowSamples <> [])
      by (intros Hnil; rewrite Hnil in Hlong; simpl in Hlong; lia).
    rewrite (ExtractFeatureVector_components windowSamples sampleRate Hne Hrate).
    cbv zeta.
    match goal with
    | |- context [Predict c ?features] =>
        destruct (Predict_answers c features ltac:(discriminate)) as [windowPreds ->]
    end.
    destruct state as [[labelAggregates windowPredictions] totalWeight].
    destruct Hinv as (Hagg & Htotal & Hwindows). cbn [fst snd] in *.
    destruct (aggregatePrediction_fold windowPreds labelAggregates totalWeight Hagg)
      as [Hagg' Hdiff].
    destruct (fold_left aggregatePrediction windowPreds (labelAggregates, totalWeight))
      as [labelAggregates' totalWeight'] eqn:Hfold.
    cbn [fst snd] in *.
    set (recorded := windowPredictions ++
                       [mkWindowPrediction (Z.of_nat (length windowPredictions))
                          (IZR start / IZR sampleRate) (IZR finish / IZR sampleRate)
                          windowPreds]).
    assert (Hinv' : slidingInvariant n sampleRate
                      (labelAggregates', recorded, totalWeight')).
    { split; [exact Hagg'|]. split; [cbn [fst snd]; lra|]. cbn [fst snd].
      intros i w Hw. unfold recorded in Hw.
      apply lookup_app_Some in Hw as [Hw|[Hi Hw]]; [now apply Hwindows|].
      apply list_lookup_singleton_Some in Hw as [Hzero <-].
      assert (Hsr : 0 < IZR sampleRate) by now apply IZR_lt.
      unfold wellFormedWindow. cbn [wIndex wStart wEnd].
      split; [f_equal; lia|]. split; [apply div_nonneg; [apply IZR_le; lia|lra]|].
      split.
      - assert (Hgap : IZR start + 256 <= IZR finish).
        { replace 256 with (IZR 256) by reflexivity. rewrite <- plus_IZR.
          apply IZR_le. lia. }
        unfold Rdiv. rewrite <- Rmult_plus_distr_r.
        apply Rmult_le_compat_r; [left; now apply Rinv_0_lt_compat|exact Hgap].
      - unfold Rdiv. apply Rmult_le_compat_r;
          [left; now apply Rinv_0_lt_compat|apply IZR_le; lia]. }
    assert (Hgrown : (length windowPredictions < length recorded)%nat)
      by (unfold recorded; rewrite length_app; simpl; lia).
    destruct (Z.eqb_spec finish n) as [Hend|Hmore].
    { eexists. split; [reflexivity|]. split; [exact Hinv'|]. cbn [fst snd].
      split; lia. }
    destruct (Z.leb_spec n (start + hop)) as [Hpast|Hnext].
    { eexists. split; [reflexivity|]. split; [exact Hinv'|]. cbn [fst snd].
      split; lia. }
    destruct (IH (start + hop)%Z (labelAggregates', recorded, totalWeight')
                ltac:(lia) Hinv') as (state' & Hloop & Hinv'' & Hmono & _).
    exists state'. split; [exact Hloop|]. split; [exact Hinv''|].
    cbn [fst snd] in *. split; lia.
Qed.

Lemma slidingLoop_fuel (fuel extra : nat) (c : Classifier) (samples : list R)
    (sampleRate window hop start : Z)
    (state : gmap string aggregatedLabelStats * list WindowPrediction * R) :
  (1 <= hop)%Z ->
  (Z.of_nat (length samples) - start <= Z.of_nat fuel)%Z ->
  slidingLoop (fuel + extra) c samples sampleRate window hop start state
  = slidingLoop fuel c samples sampleRate window hop start state.
Proof.
  intros Hhop. revert start state.
  induction fuel as [|fuel IH]; intros start state Hfuel.
  - destruct extra as [|extra]; [reflexivity|]. cbn [Nat.add slidingLoop]. cbv zeta.
    destruct (Z.ltb_spec start (Z.of_nat (length samples))); [lia|reflexivity].
  - cbn [Nat.add slidingLoop]. cbv zeta.
    destruct (negb _); [reflexivity|].
    destruct (_ <? 256)%nat; [reflexivity|].
    destruct (ExtractFeatureVector _ _) as [features|e]; [|reflexivity].
    destruct (Predict c features) as [windowPreds|e]; [|reflexivity].
    destruct state as [[labelAggregates windowPredictions] totalWeight].
    destruct (fold_left aggregatePrediction windowPreds _) as [aggs total].
    destruct (_ =? _)%Z; [reflexivity|].
    destruct (Z.leb_spec (Z.of_nat (length samples)) (start + hop)); [reflexivity|].
    apply IH. lia.
Qed.

Lemma slidingInvariant_initial (n sampleRate : Z) :
  slidingInvariant n sampleRate (∅, [], 0).
Proof.
  split; [apply map_Forall_empty|]. split.
  - cbn [fst snd]. unfold aggregatedWeight. now rewrite map_to_list_empty.
  - intros i w Hw. cbn [fst snd] in Hw. now rewrite lookup_nil in Hw.
Qed.

(** [PredictWithSlidingWindows] past its two guards. *)
Lemma PredictWithSlidingWindows_loop (c : Classifier) (samples : list R)
    (sampleRate : Z) (windowSeconds overlapSeconds : R) :
  samples <> [] -> (0 < sampleRate)%Z ->
  let n := Z.of_nat (length samples) in
  exists labelAggregates windowPredictions totalWeight,
    slidingInvariant n sampleRate (labelAggregates, windowPredictions, totalWeight)
    /\ ((256 <= n)%Z -> windowPredictions <> [])
    /\ PredictWithSlidingWindows c samples sampleRate windowSeconds overlapSeconds
       = if (length windowPredictions =? 0)%nat then inl ErrNoAnalysisWindows
         else if (size labelAggregates =? 0)%nat || F64.eqb totalWeight 0
         then inr ([], windowPredictions)
         else inr (sortSlice predictionLess
                     (map (buildAggregated totalWeight) (map_to_list labelAggregates)),
                   windowPredictions).
Proof.
  intros Hne Hrate n.
  assert (Hn : (1 <= n)%Z) by (unfold n; destruct samples; [congruence|simpl; lia]).
  pose proof (windowSize_bounds n sampleRate windowSeconds Hn) as Hwindow.
  pose proof (hopSize_bounds (windowSize n sampleRate windowSeconds) sampleRate
                overlapSeconds ltac:(lia)) as Hhop.
  destruct (slidingLoop_invariant (length samples) c samples sampleRate
              (windowSize n sampleRate windowSeconds)
              (hopSize (windowSize n sampleRate windowSeconds) sampleRate
                 overlapSeconds)
              0 (∅, [], 0) Hrate ltac:(lia) ltac:(lia)
              (slidingInvariant_initial _ _))
    as ([[labelAggregates windowPredictions] totalWeight] & Hloop & Hinv & _ & Hgrow).
  exists labelAggregates, windowPredictions, totalWeight.
  split; [exact Hinv|]. split.
  - intros Hlong Hnil. cbn [fst snd] in Hgrow. rewrite Hnil in Hgrow.
    simpl in Hgrow. fold n in Hgrow. lia.
  - unfold PredictWithSlidingWindows.
    destruct (Nat.eqb_spec (length samples) 0) as [Hzero|_];
      [apply length_zero_iff_nil in Hzero; congruence|].
    replace (sampleRate <=? 0)%Z with false by (symmetry; apply Z.leb_gt; lia).
    cbv zeta. fold n. rewrite Hloop. reflexivity.
Qed.

Lemma buildAggregated_sum (totalWeight : R)
    (labelAggregates : gmap string aggregatedLabelStats) :
  sumConfidence
    (sortSlice predictionLess
       (map (buildAggregated totalWeight) (map_to_list labelAggregates)))
  = aggregatedWeight labelAggregates / totalWeight.
Proof.
  unfold sumConfidence, aggregatedWeight.
  rewrite (sumList_perm _ _ (Permutation_map _ (sortSlice_perm _ _ _))).
  rewrite map_map, <- sumList_map_div. f_equal.
  apply map_ext. now intros [label stats].
Qed.

(** X23.  [PredictWithSlidingWindows] refuses an empty clip and a sample
    rate that is not positive.  For a clip of [n] samples the window is at
    least min(n, 1024) and at most [n] samples long and the hop is at least
    1 and at most the window, so that the loop ends within [n] turns.  A
    clip of fewer than 256 samples yields no window and the error that
    goes with it; a clip of at least 256 samples never fails: it yields at
    least one window, and the windows are numbered from 0, start at
    non-negative times, last at least 256 samples and end within the
    clip. *)
Theorem PredictWithSlidingWindows_windows (c : Classifier) (samples : list R)
    (sampleRate : Z) (windowSeconds overlapSeconds : R) :
  let n := Z.of_nat (length samples) in
  let window := windowSize n sampleRate windowSeconds in
  let hop := hopSize window sampleRate overlapSeconds in
  PredictWithSlidingWindows c [] sampleRate windowSeconds overlapSeconds
  = inl ErrAudioSampleEmpty
  /\ (samples <> [] -> (sampleRate <= 0)%Z ->
      PredictWithSlidingWindows c samples sampleRate windowSeconds overlapSeconds
      = inl ErrWindowSampleRate)
  /\ (samples <> [] ->
      (Z.min n 1024 <= window <= n)%Z /\ (1 <= hop <= window)%Z
      /\ forall extra state,
           slidingLoop (length samples + extra) c samples sampleRate window hop 0 state
           = slidingLoop (length samples) c samples sampleRate window hop 0 state)
  /\ (samples <> [] -> (0 < sampleRate)%Z -> (n < 256)%Z ->
      PredictWithSlidingWindows c samples sampleRate windowSeconds overlapSeconds
      = inl ErrNoAnalysisWindows)
  /\ ((0 < sampleRate)%Z -> (256 <= n)%Z ->
      exists predictions windows,
        PredictWithSlidingWindows c samples sampleRate windowSeconds overlapSeconds
        = inr (predictions, windows)
        /\ windows <> []
        /\ forall i w, windows !! i = Some w -> wellFormedWindow n sampleRate i w).
Proof.
  intros n window hop. split; [reflexivity|]. split; [|split; [|split]].
  - intros Hne Hrate. unfold PredictWithSlidingWindows.
    destruct samples; [congruence|]. cbn [length Nat.eqb].
    now replace (sampleRate <=? 0)%Z with true by (symmetry; apply Z.leb_le; lia).
  - intros Hne.
    assert (Hn : (1 <= n)%Z) by (unfold n; destruct samples; [congruence|simpl; lia]).
    pose proof (windowSize_bounds n sampleRate windowSeconds Hn) as Hwindow.
    pose proof (hopSize_bounds window sampleRate overlapSeconds ltac:(unfold window; lia))
      as Hhop.
    split; [exact Hwindow|]. split; [exact Hhop|].
    intros extra state. apply slidingLoop_fuel; [unfold hop; lia|lia].
  - intros Hne Hrate Hshort.
    destruct (PredictWithSlidingWindows_loop c samples sampleRate windowSeconds
                overlapSeconds Hne Hrate)
      as (labelAggregates & windowPredictions & totalWeight & Hinv & _ & ->).
    destruct windowPredictions as [|w ws]; [reflexivity|exfalso].
    destruct Hinv as (_ & _ & Hwindows). cbn [fst snd] in Hwindows.
    destruct (Hwindows 0%nat w eq_refl) as (_ & Hstart & Hgap & Hend).
    assert (Hsr : 0 < IZR sampleRate) by now apply IZR_lt.
    assert (Hlen : IZR (Z.of_nat (length samples)) < 256)
      by (replace 256 with (IZR 256) by reflexivity; apply IZR_lt; exact Hshort).
    assert (Hdiv : IZR (Z.of_nat (length samples)) / IZR sampleRate
                   < 256 / IZR sampleRate).
    { unfold Rdiv. apply Rmult_lt_compat_r; [now apply Rinv_0_lt_compat|exact Hlen]. }
    lra.
  - intros Hrate Hlong.
    assert (Hne : samples <> []).
    { intros ->. unfold n in Hlong. simpl in Hlong. lia. }
    destruct (PredictWithSlidingWindows_loop c samples sampleRate windowSeconds
                overlapSeconds Hne Hrate)
      as (labelAggregates & windowPredictions & totalWeight & Hinv & Hsome & ->).
    specialize (Hsome Hlong). destruct Hinv as (_ & _ & Hwindows).
    cbn [fst snd] in Hwindows.
    destruct windowPredictions as [|w ws] eqn:Hws; [congruence|]. rewrite <- Hws in *.
    replace (length windowPredictions =? 0)%nat with false by now rewrite Hws.
    destruct (_ || _); eexists _, _; (split; [reflexivity|]); split; assumption.
Qed.

Lemma sumList_positive_member (l : list R) :
  0 < sumList l -> exists x, x ∈ l /\ 0 < x.
Proof.
  induction l as [|x l IH]; [rewrite sumList_nil; lra|].
  rewrite sumList_cons. intros Hsum.
  destruct (Rlt_dec 0 x) as [Hx|Hx]; [exists x; split; [left|exact Hx]|].
  destruct IH as (y & Hin & Hy); [lra|]. exists y. split; [now right|exact Hy].
Qed.

Lemma Predict_confident (c : Classifier) (features : list R)
    (predictions : list Prediction) :
  features <> [] -> prototypes c <> [] -> (0 < k c)%Z ->
  Predict c features = Ok predictions ->
  exists prediction, prediction ∈ predictions /\ 0 < Confidence prediction.
Proof.
  intros Hf Hp Hk Hok.
  pose proof (totalNeighbourWeight_pos_k c features Hp Hk) as Hpos.
  destruct (Predict_confidences_sum_to_one_aux c features Hf Hp Hpos)
    as (labelScores & _ & _ & Hpred & _ & Hsum).
  rewrite Hpred in Hok. injection Hok as <-.
  unfold sumConfidence in Hsum.
  destruct (sumList_positive_member _ ltac:(rewrite Hsum; lra)) as (x & Hin & Hx).
  apply list_elem_of_fmap in Hin as (prediction & -> & Hin). now exists prediction.
Qed.

Lemma aggregatePrediction_nonempty (preds : list Prediction)
    (labelAggregates : gmap string aggregatedLabelStats) (totalWeight : R) :
  labelAggregates <> ∅
  \/ (exists prediction, prediction ∈ preds /\ 0 < Confidence prediction) ->
  (fold_left aggregatePrediction preds (labelAggregates, totalWeight)).1 <> ∅.
Proof.
  revert labelAggregates totalWeight.
  induction preds as [|pred preds IH]; intros labelAggregates totalWeight Hsome.
  - destruct Hsome as [Hne|(p & Hin & _)]; [exact Hne|now apply elem_of_nil in Hin].
  - cbn [fold_left]. unfold aggregatePrediction at 2.
    destruct (F64.leb (Confidence pred) 0) eqn:Hconf.
    + apply leb_true in Hconf. apply IH.
      destruct Hsome as [Hne|(p & Hin & Hp)]; [now left|right].
      apply elem_of_cons in Hin as [->|Hin]; [lra|]. now exists p.
    + cbv zeta. apply IH. left. apply insert_non_empty.
Qed.

Lemma slidingLoop_aggregates (fuel : nat) (c : Classifier) (samples : list R)
    (sampleRate window hop start : Z)
    (state state' : gmap string aggregatedLabelStats * list WindowPrediction * R) :
  prototypes c <> [] -> (0 < k c)%Z -> (0 < sampleRate)%Z ->
  slidingLoop fuel c samples sampleRate window hop start state = inr state' ->
  state.1.1 <> ∅ \/ (length state.1.2 < length state'.1.2)%nat ->
  state'.1.1 <> ∅.
Proof.
  intros Hp Hk Hrate. revert start state.
  induction fuel as [|fuel IH]; intros start state Hloop Hsome.
  - cbn [slidingLoop] in Hloop. injection Hloop as <-.
    destruct Hsome as [Hne|Hlt]; [exact Hne|lia].
  - cbn [slidingLoop] in Hloop. cbv zeta in Hloop.
    destruct (negb _);
      [injection Hloop as <-; destruct Hsome as [Hne|Hlt]; [exact Hne|lia]|].
    match type of Hloop with
    | context [take ?len (drop ?from samples)] =>
        set (windowSamples := take len (drop from samples)) in *
    end.
    destruct (Nat.ltb_spec (length windowSamples) 256) as [Hshort|Hlong];
      [injection Hloop as <-; destruct Hsome as [Hne|Hlt]; [exact Hne|lia]|].
    assert (Hne : windowSamples <> [])
      by (intros Hnil; rewrite Hnil in Hlong; simpl in Hlong; lia).
    rewrite (ExtractFeatureVector_components windowSamples sampleRate Hne Hrate)
      in Hloop.
    cbv zeta in Hloop.
    match type of Hloop with
    | context [Predict c ?features] =>
        destruct (Predict c features) as [windowPreds|e] eqn:Hpred;
          [apply (Predict_confident c features windowPreds ltac:(discriminate) Hp Hk)
             in Hpred as Hconfident|discriminate]
    end.
    destruct state as [[labelAggregates windowPredictions] totalWeight].
    pose proof (aggregatePrediction_nonempty windowPreds labelAggregates totalWeight
                  (or_intror Hconfident)) as Hfilled.
    destruct (fold_left aggregatePrediction windowPreds (labelAggregates, totalWeight))
      as [labelAggregates' totalWeight'].
    cbn [fst] in Hfilled.
    destruct (_ =? _)%Z; [injection Hloop as <-; exact Hfilled|].
    destruct (_ <=? _)%Z; [injection Hloop as <-; exact Hfilled|].
    apply (IH _ _ Hloop). now left.
Qed.

(** X24.  When the sliding-window analysis returns predictions, their
    confidences sum to 1, their labels are pairwise different, every
    confidence lies in (0, 1] and every prediction lists at most five
    prototypes.  It does return predictions for every clip of at least 256
    samples, when the sample rate and the neighbour count are positive and
    the store holds a prototype. *)
Theorem PredictWithSlidingWindows_confidences (c : Classifier) (samples : list R)
    (sampleRate : Z) (windowSeconds overlapSeconds : R) :
  prototypes c <> [] ->
  (0 < k c)%Z ->
  (0 < sampleRate)%Z ->
  (256 <= Z.of_nat (length samples))%Z ->
  (forall predictions windows,
     PredictWithSlidingWindows c samples sampleRate windowSeconds overlapSeconds
     = inr (predictions, windows) ->
     predictions <> []
     /\ sumConfidence predictions = 1
     /\ NoDup (map pLabel predictions)
     /\ Forall (fun prediction =>
                  0 < Confidence prediction <= 1
                  /\ (length (TopPrototypes prediction) <= 5)%nat)
               predictions
     /\ windows <> [])
  /\ exists predictions windows,
       PredictWithSlidingWindows c samples sampleRate windowSeconds overlapSeconds
       = inr (predictions, windows).
Proof.
  intros Hp Hk Hrate Hlong.
  assert (Hne : samples <> []) by (intros ->; simpl in Hlong; lia).
  assert (Hn : (1 <= Z.of_nat (length samples))%Z) by lia.
  pose proof (windowSize_bounds _ sampleRate windowSeconds Hn) as Hwindow.
  pose proof (hopSize_bounds (windowSize (Z.of_nat (length samples)) sampleRate
                                windowSeconds) sampleRate overlapSeconds
                ltac:(lia)) as Hhop.
  destruct (slidingLoop_invariant (length samples) c samples sampleRate
              (windowSize (Z.of_nat (length samples)) sampleRate windowSeconds)
              (hopSize (windowSize (Z.of_nat (length samples)) sampleRate
                          windowSeconds) sampleRate overlapSeconds)
              0 (∅, [], 0) Hrate ltac:(lia) ltac:(lia)
              (slidingInvariant_initial _ _))
    as ([[labelAggregates windowPredictions] totalWeight] & Hloop & Hinv & _ & Hgrow).
  cbn [fst snd] in Hgrow.
  assert (Hwindows : (0 < length windowPredictions)%nat)
    by (apply Hgrow; lia).
  pose proof (slidingLoop_aggregates _ _ _ _ _ _ _ _ _ Hp Hk Hrate Hloop
                (or_intror Hwindows)) as Hfilled.
  cbn [fst snd] in Hfilled.
  destruct Hinv as (Hagg & Htotal & _). cbn [fst snd] in Hagg, Htotal.
  assert (Hnonneg : map_Forall (fun _ stats => 0 <= aWeightSum stats) labelAggregates).
  { intros label stats Hstats. destruct (Hagg _ _ Hstats) as [Hpos _]. lra. }
  assert (Hpos : 0 < totalWeight).
  { rewrite Htotal. unfold aggregatedWeight. apply sumList_pos.
    - intros Hnil. apply map_eq_nil, map_to_list_empty_iff in Hnil. congruence.
    - apply Forall_map, Forall_forall. intros [label stats] Hin.
      apply elem_of_map_to_list in Hin. now destruct (Hagg _ _ Hin). }
  assert (Hrun : PredictWithSlidingWindows c samples sampleRate windowSeconds
                   overlapSeconds
                 = inr (sortSlice predictionLess
                          (map (buildAggregated totalWeight)
                             (map_to_list labelAggregates)),
                        windowPredictions)).
  { unfold PredictWithSlidingWindows.
    destruct (Nat.eqb_spec (length samples) 0) as [Hzero|_]; [lia|].
    replace (sampleRate <=? 0)%Z with false by (symmetry; apply Z.leb_gt; lia).
    cbv zeta. rewrite Hloop.
    destruct (Nat.eqb_spec (length windowPredictions) 0) as [|_]; [lia|].
    destruct (Nat.eqb_spec (size labelAggregates) 0) as [Hsize|_];
      [now apply map_size_empty_iff in Hsize|].
    replace (F64.eqb totalWeight 0) with false by (symmetry; apply eqb_false; lra).
    reflexivity. }
  split; [|eexists _, _; exact Hrun].
  intros predictions windows Hok. rewrite Hrun in Hok. injection Hok as <- <-.
  split; [|split; [|split; [|split]]].
  - intros Hnil.
    pose proof (sortSlice_perm _ predictionLess
                  (map (buildAggregated totalWeight) (map_to_list labelAggregates)))
      as Hperm.
    rewrite Hnil in Hperm. symmetry in Hperm. apply Permutation_nil_r in Hperm.
    apply map_eq_nil, map_to_list_empty_iff in Hperm. congruence.
  - rewrite buildAggregated_sum, <- Htotal. apply Rdiv_diag. lra.
  - rewrite (Permutation_map pLabel (sortSlice_perm _ _ _)), map_map.
    rewrite (map_ext _ fst) by now intros [label stats].
    apply NoDup_fst_map_to_list.
  - rewrite sortSlice_perm. apply Forall_map, Forall_forall.
    intros [label stats] Hin. apply elem_of_map_to_list in Hin.
    destruct (Hagg _ _ Hin) as [Hweight Htop].
    pose proof (mapSum_member aWeightSum labelAggregates label stats Hnonneg Hin)
      as Hle.
    fold (aggregatedWeight labelAggregates) in Hle. rewrite <- Htotal in Hle.
    cbn [buildAggregated Confidence TopPrototypes].
    split; [|exact Htop].
    split; [now apply Rdiv_lt_0_compat|apply div_le_bound; lra].
  - intros ->. simpl in Hwindows. lia.
Qed.

End SlidingFacts.

Lemma PredictWithSlidingWindows_windows_witness :
  PredictWithSlidingWindows seededStore [1; 2; 3] 8000 3 1.5
  = inl ErrNoAnalysisWindows.
Proof.
  apply (PredictWithSlidingWindows_windows seededStore [1; 2; 3] 8000 3 1.5);
    [discriminate|lia|simpl; lia].
Defined.

Lemma PredictWithSlidingWindows_confidences_witness :
  exists predictions windows,
    PredictWithSlidingWindows seededStore (replicate 256 0) 8000 3 1.5
    = inr (predictions, windows)
    /\ sumConfidence predictions = 1.
Proof.
  destruct (PredictWithSlidingWindows_confidences seededStore (replicate 256 0)
              8000 3 1.5) as [Hall (predictions & windows & Hrun)];
    [discriminate|reflexivity|reflexivity|rewrite length_replicate; lia|].
  exists predictions, windows. split; [exact Hrun|].
  now destruct (Hall predictions windows Hrun) as (_ & Hsum & _).
Defined.

(** ** The filters *)

Lemma highPassLoop_length (alpha prevOutput prevInput : R) (rest : list R) :
  length (highPassLoop alpha prevOutput prevInput rest) = length rest.
Proof.
  revert prevOutput prevInput. induction rest as [|x rest IH]; intros; [reflexivity|].
  cbn [highPassLoop length]. cbv zeta. now rewrite IH.
Qed.

Lemma lowPassLoop_length (alpha prevOutput : R) (rest : list R) :
  length (lowPassLoop alpha prevOutput rest) = length rest.
Proof.
  revert prevOutput. induction rest as [|x rest IH]; intros; [reflexivity|].
  cbn [lowPassLoop length]. cbv zeta. now rewrite IH.
Qed.

Lemma HighPassFilter_length (samples : list R) (sampleRate : Z) (cutoffHz : R) :
  length (HighPassFilter samples sampleRate cutoffHz) = length samples.
Proof.
  unfold HighPassFilter. destruct (_ || _); [reflexivity|].
  destruct samples; [reflexivity|]. cbn [length]. now rewrite highPassLoop_length.
Qed.

Lemma LowPassFilter_length (samples : list R) (sampleRate : Z) (cutoffHz : R) :
  length (LowPassFilter samples sampleRate cutoffHz) = length samples.
Proof.
  unfold LowPassFilter. destruct (_ || _); [reflexivity|].
  destruct samples; [reflexivity|]. cbn [length]. now rewrite lowPassLoop_length.
Qed.

Lemma BandPassFilter_length (samples : list R) (sampleRate : Z) (lowHz highHz : R) :
  length (BandPassFilter samples sampleRate lowHz highHz) = length samples.
Proof.
  unfold BandPassFilter. now rewrite LowPassFilter_length, HighPassFilter_length.
Qed.

Lemma filter_alphas (sampleRate : Z) (cutoffHz : R) :
  0 < cutoffHz < IZR sampleRate / 2 ->
  0 < highPassAlpha sampleRate cutoffHz < 1
  /\ 0 < lowPassAlpha sampleRate cutoffHz < 1
  /\ highPassAlpha sampleRate cutoffHz + lowPassAlpha sampleRate cutoffHz = 1.
Proof.
  intros [Hlow Hhigh]. unfold highPassAlpha, lowPassAlpha. cbv zeta.
  assert (Hrate : 0 < IZR sampleRate) by lra.
  assert (Hrc : 0 < 1.0 / (2 * PI * cutoffHz)).
  { apply Rdiv_lt_0_compat; [lra|]. pose proof PI_RGT_0.
    apply Rmult_lt_0_compat; lra. }
  assert (Hdt : 0 < 1.0 / IZR sampleRate) by (apply Rdiv_lt_0_compat; lra).
  set (rc := 1.0 / (2 * PI * cutoffHz)) in *. set (dt := 1.0 / IZR sampleRate) in *.
  assert (Hsum : rc / (rc + dt) + dt / (rc + dt) = 1) by (field; lra).
  assert (0 < rc / (rc + dt)) by (apply Rdiv_lt_0_compat; lra).
  assert (0 < dt / (rc + dt)) by (apply Rdiv_lt_0_compat; lra).
  repeat split; lra.
Qed.

Lemma filter_guard (sampleRate : Z) (cutoffHz : R) :
  F64.leb cutoffHz 0 || F64.leb (IZR sampleRate / 2) cutoffHz = false
  <-> 0 < cutoffHz < IZR sampleRate / 2.
Proof.
  rewrite orb_false_iff, !leb_false. reflexivity.
Qed.

Lemma lowPassLoop_bounded (alpha M prevOutput : R) (rest : list R) :
  0 <= alpha <= 1 -> Rabs prevOutput <= M ->
  Forall (fun x => Rabs x <= M) rest ->
  Forall (fun y => Rabs y <= M) (lowPassLoop alpha prevOutput rest).
Proof.
  intros Halpha Hprev Hall. revert prevOutput Hprev.
  induction Hall as [|x rest Hx _ IH]; intros prevOutput Hprev; [constructor|].
  cbn [lowPassLoop]. cbv zeta.
  assert (Hy : Rabs (alpha * x + (1 - alpha) * prevOutput) <= M).
  { eapply Rle_trans; [apply Rabs_triang|]. rewrite !Rabs_mult.
    rewrite (Rabs_pos_eq alpha), (Rabs_pos_eq (1 - alpha)) by lra.
    assert (alpha * Rabs x <= alpha * M) by (apply Rmult_le_compat_l; lra).
    assert ((1 - alpha) * Rabs prevOutput <= (1 - alpha) * M)
      by (apply Rmult_le_compat_l; lra).
    lra. }
  constructor; [exact Hy|]. now apply IH.
Qed.

Lemma highPassLoop_constant (alpha level : R) (count : nat) (i : nat) :
  highPassLoop alpha (level * alpha ^ i) level (replicate count level)
  = map (fun j => level * alpha ^ j) (seq (S i) count).
Proof.
  revert i. induction count as [|count IH]; intros i; [reflexivity|].
  cbn [replicate highPassLoop seq map]. cbv zeta.
  replace (alpha * (level * alpha ^ i + level - level)) with (level * alpha ^ S i)
    by (simpl; ring).
  f_equal. apply IH.
Qed.

Lemma lowPassLoop_constant (alpha level : R) (count : nat) (i : nat) :
  lowPassLoop alpha (level * (1 - (1 - alpha) ^ i)) (replicate count level)
  = map (fun j => level * (1 - (1 - alpha) ^ j)) (seq (S i) count).
Proof.
  revert i. induction count as [|count IH]; intros i; [reflexivity|].
  cbn [replicate lowPassLoop seq map]. cbv zeta.
  replace (alpha * level + (1 - alpha) * (level * (1 - (1 - alpha) ^ i)))
    with (level * (1 - (1 - alpha) ^ S i)) by (simpl; ring).
  f_equal. apply IH.
Qed.

(** X25.  Both filters keep the number of samples and return the samples
    unchanged when the cutoff is not positive or not below half the sample
    rate.  Otherwise their smoothing factors lie strictly between 0 and 1
    and add up to 1; the low-pass output never exceeds a bound on the
    magnitude of the input; on a constant signal of level [c] the high-pass
    output decays as [c * alpha^i] and the low-pass output rises as
    [c * (1 - (1 - alpha)^(i+1))]. *)
Theorem filters_behaviour (samples : list R) (sampleRate : Z) (cutoffHz M level : R)
    (count : nat) :
  0 < cutoffHz < IZR sampleRate / 2 ->
  Forall (fun x => Rabs x <= M) samples ->
  length (HighPassFilter samples sampleRate cutoffHz) = length samples
  /\ length (LowPassFilter samples sampleRate cutoffHz) = length samples
  /\ (forall lowHz highHz,
        length (BandPassFilter samples sampleRate lowHz highHz) = length samples)
  /\ (forall cutoff, cutoff <= 0 \/ IZR sampleRate / 2 <= cutoff ->
        HighPassFilter samples sampleRate cutoff = samples
        /\ LowPassFilter samples sampleRate cutoff = samples)
  /\ 0 < highPassAlpha sampleRate cutoffHz < 1
  /\ 0 < lowPassAlpha sampleRate cutoffHz < 1
  /\ highPassAlpha sampleRate cutoffHz + lowPassAlpha sampleRate cutoffHz = 1
  /\ Forall (fun y => Rabs y <= M) (LowPassFilter samples sampleRate cutoffHz)
  /\ HighPassFilter (replicate count level) sampleRate cutoffHz
     = map (fun i => level * highPassAlpha sampleRate cutoffHz ^ i) (seq 0 count)
  /\ LowPassFilter (replicate count level) sampleRate cutoffHz
     = map (fun i => level * (1 - (1 - lowPassAlpha sampleRate cutoffHz) ^ S i))
         (seq 0 count).
Proof.
  intros Hcutoff Hbound.
  pose proof (proj2 (filter_guard sampleRate cutoffHz) Hcutoff) as Hguard.
  destruct (filter_alphas sampleRate cutoffHz Hcutoff) as (Hhp & Hlp & Hsum).
  split; [apply HighPassFilter_length|]. split; [apply LowPassFilter_length|].
  split; [intros; apply BandPassFilter_length|]. split.
  { intros cutoff Hout. unfold HighPassFilter, LowPassFilter.
    assert (Hor : F64.leb cutoff 0 || F64.leb (IZR sampleRate / 2) cutoff = true).
    { apply orb_true_iff. rewrite !leb_true. exact Hout. }
    now rewrite Hor. }
  split; [exact Hhp|]. split; [exact Hlp|]. split; [exact Hsum|].
  split; [|split].
  - unfold LowPassFilter. rewrite Hguard. cbv zeta.
    fold (lowPassAlpha sampleRate cutoffHz).
    destruct Hbound as [|x rest Hx Hrest]; [constructor|].
    assert (Hfirst : Rabs (x * lowPassAlpha sampleRate cutoffHz) <= M).
    { rewrite Rabs_mult, (Rabs_pos_eq (lowPassAlpha _ _)) by lra.
      pose proof (Rabs_pos x).
      assert (Rabs x * lowPassAlpha sampleRate cutoffHz <= Rabs x * 1)
        by (apply Rmult_le_compat_l; lra).
      lra. }
    constructor; [exact Hfirst|]. apply lowPassLoop_bounded; [lra|exact Hfirst|exact Hrest].
  - unfold HighPassFilter. rewrite Hguard. cbv zeta.
    fold (highPassAlpha sampleRate cutoffHz).
    destruct count as [|count]; [reflexivity|]. cbn [replicate seq map].
    f_equal; [simpl; ring|].
    pose proof (highPassLoop_constant (highPassAlpha sampleRate cutoffHz) level
                  count 0) as Hloop.
    rewrite pow_O, Rmult_1_r in Hloop. exact Hloop.
  - unfold LowPassFilter. rewrite Hguard. cbv zeta.
    fold (lowPassAlpha sampleRate cutoffHz).
    destruct count as [|count]; [reflexivity|]. cbn [replicate seq map].
    replace (level * lowPassAlpha sampleRate cutoffHz)
      with (level * (1 - (1 - lowPassAlpha sampleRate cutoffHz) ^ 1))
      by (simpl; ring).
    f_equal.
    rewrite (lowPassLoop_constant (lowPassAlpha sampleRate cutoffHz) level count 1).
    rewrite <- seq_shift, map_map. reflexivity.
Qed.

Lemma filters_behaviour_witness :
  length (HighPassFilter [0.5; -0.5; 0.25] 8000 50) = 3%nat.
Proof.
  apply (filters_behaviour [0.5; -0.5; 0.25] 8000 50 1 0 0).
  - lra.
  - repeat constructor; unfold Rabs; destruct (Rcase_abs _); lra.
Defined.

(** ** Automatic gain control *)

Lemma softLimit_bound (amplified : R) : Rabs (softLimit amplified) <= 0.95.
Proof.
  unfold softLimit. destruct (F64.ltb 0.95 (Rabs amplified)) eqn:Hover.
  - rewrite Rabs_mult, (Rabs_pos_eq 0.95) by lra.
    pose proof (tanh_range amplified) as Htanh.
    assert (Rabs (tanh amplified) <= 1)
      by (unfold Rabs; destruct (Rcase_abs _); lra).
    assert (Rabs (tanh amplified) * 0.95 <= 1 * 0.95)
      by (apply Rmult_le_compat_r; lra).
    lra.
  - now apply ltb_false in Hover.
Qed.

Lemma softLimit_drop (amplified : R) :
  0.95 < amplified -> softLimit amplified < 0.95.
Proof.
  intros Hover. unfold softLimit.
  replace (F64.ltb 0.95 (Rabs amplified)) with true
    by (symmetry; apply ltb_true; rewrite Rabs_pos_eq; lra).
  pose proof (tanh_range amplified) as Htanh.
  assert (tanh amplified * 0.95 < 1 * 0.95) by (apply Rmult_lt_compat_r; lra).
  lra.
Qed.

Lemma softLimit_below (amplified : R) :
  Rabs amplified <= 0.95 -> softLimit amplified = amplified.
Proof.
  intros Hbelow. unfold softLimit.
  now replace (F64.ltb 0.95 (Rabs amplified)) with false
    by (symmetry; now apply ltb_false).
Qed.

Lemma rootMeanSquare_scaled (samples : list R) (gain : R) :
  0 <= gain ->
  rootMeanSquare (map (fun s => s * gain) samples) = gain * rootMeanSquare samples.
Proof.
  intros Hgain. unfold rootMeanSquare. rewrite length_map.
  destruct (Nat.eqb_spec (length samples) 0) as [|Hlen]; [lra|].
  rewrite !sumSquares_squaredNorm, squaredNorm_scale.
  assert (Hn : 0 < INR (length samples)) by (apply lt_0_INR; lia).
  replace (gain * gain * squaredNorm samples / INR (length samples))
    with (gain * gain * (squaredNorm samples / INR (length samples)))
    by (field; lra).
  rewrite sqrt_mult_alt by (apply Rmult_le_pos; lra).
  now rewrite sqrt_square by lra.
Qed.

Lemma ApplyAGC_length (samples : list R) (targetRMS : R) :
  length (ApplyAGC samples targetRMS) = length samples.
Proof.
  unfold ApplyAGC. destruct (_ =? _)%nat; [reflexivity|].
  destruct (_ || _); [reflexivity|]. cbv zeta. apply length_map.
Qed.

(** X26.  [ApplyAGC] keeps the number of samples.  It returns the samples
    unchanged when they are silent or already within 1e-6 of the target
    level; otherwise every sample is multiplied by the gain, target level
    over current level, and passed through the soft limiter, so that no
    output sample exceeds 0.95 in magnitude.  The soft limiter is not
    monotonic: 0.95 passes unchanged, while every larger value comes out
    below 0.95.  When no sample needs limiting and the target is positive,
    the output has exactly the target RMS level. *)
Theorem ApplyAGC_levels (samples : list R) (targetRMS : R) :
  length (ApplyAGC samples targetRMS) = length samples
  /\ (ApplyAGC samples targetRMS = samples
      \/ Forall (fun y => Rabs y <= 0.95) (ApplyAGC samples targetRMS))
  /\ (rootMeanSquare samples = 0
      \/ Rabs (rootMeanSquare samples - targetRMS) < 1e-6 ->
      ApplyAGC samples targetRMS = samples)
  /\ (rootMeanSquare samples <> 0 ->
      1e-6 <= Rabs (rootMeanSquare samples - targetRMS) ->
      ApplyAGC samples targetRMS
      = map (fun s => softLimit (s * (targetRMS / rootMeanSquare samples))) samples
      /\ Forall (fun y => Rabs y <= 0.95) (ApplyAGC samples targetRMS))
  /\ (forall amplified, Rabs (softLimit amplified) <= 0.95)
  /\ softLimit 0.95 = 0.95
  /\ (forall amplified, 0.95 < amplified -> softLimit amplified < softLimit 0.95)
  /\ (0 < targetRMS ->
      rootMeanSquare samples <> 0 ->
      1e-6 <= Rabs (rootMeanSquare samples - targetRMS) ->
      Forall (fun s => Rabs (s * (targetRMS / rootMeanSquare samples)) <= 0.95)
        samples ->
      ApplyAGC samples targetRMS
      = map (fun s => s * (targetRMS / rootMeanSquare samples)) samples
      /\ rootMeanSquare (ApplyAGC samples targetRMS) = targetRMS).
Proof.
  assert (Hlimit : softLimit 0.95 = 0.95).
  { apply softLimit_below. rewrite Rabs_pos_eq; lra. }
  assert (Hrms : samples <> [] ->
            sqrt (sumSquares samples / INR (length samples)) = rootMeanSquare samples).
  { intros Hne. unfold rootMeanSquare.
    destruct (Nat.eqb_spec (length samples) 0) as [Hzero|]; [|reflexivity].
    apply length_zero_iff_nil in Hzero. congruence. }
  assert (Hgain : rootMeanSquare samples <> 0 ->
            1e-6 <= Rabs (rootMeanSquare samples - targetRMS) ->
            ApplyAGC samples targetRMS
            = map (fun s => softLimit (s * (targetRMS / rootMeanSquare samples)))
                samples).
  { intros Hsound Hlevel.
    assert (Hne : samples <> []) by (intros ->; now apply Hsound).
    unfold ApplyAGC.
    destruct (Nat.eqb_spec (length samples) 0) as [Hzero|_];
      [apply length_zero_iff_nil in Hzero; congruence|].
    rewrite (Hrms Hne).
    replace (F64.eqb (rootMeanSquare samples) 0) with false
      by (symmetry; now apply eqb_false).
    replace (F64.ltb (Rabs (rootMeanSquare samples - targetRMS)) 1e-6) with false
      by (symmetry; now apply ltb_false).
    reflexivity. }
  split; [|split; [|split; [|split; [|split; [|split; [|split]]]]]].
  - unfold ApplyAGC. destruct (_ =? _)%nat; [reflexivity|].
    destruct (_ || _); [reflexivity|]. cbv zeta. apply length_map.
  - unfold ApplyAGC. destruct (_ =? _)%nat; [now left|].
    destruct (_ || _); [now left|right]. cbv zeta.
    apply Forall_map, Forall_forall. intros s _. apply softLimit_bound.
  - intros Hsame. unfold ApplyAGC.
    destruct (Nat.eqb_spec (length samples) 0) as [|Hlen]; [reflexivity|].
    rewrite Hrms by (intros ->; now apply Hlen).
    assert (Hor : F64.eqb (rootMeanSquare samples) 0
                  || F64.ltb (Rabs (rootMeanSquare samples - targetRMS)) 1e-6 = true).
    { apply orb_true_iff. rewrite eqb_true, ltb_true. exact Hsame. }
    now rewrite Hor.
  - intros Hsound Hlevel. split; [now apply Hgain|].
    rewrite (Hgain Hsound Hlevel).
    apply Forall_map, Forall_forall. intros s _. apply softLimit_bound.
  - apply softLimit_bound.
  - exact Hlimit.
  - intros amplified Hover. rewrite Hlimit. now apply softLimit_drop.
  - intros Htarget Hsound Hlevel Hquiet.
    assert (Hne : samples <> []).
    { intros ->. now apply Hsound. }
    assert (Hpos : 0 < rootMeanSquare samples).
    { unfold rootMeanSquare in *.
      destruct (length samples =? 0)%nat; [lra|].
      pose proof (sqrt_pos (sumSquares samples / INR (length samples))). lra. }
    assert (Hrun : ApplyAGC samples targetRMS
                   = map (fun s => s * (targetRMS / rootMeanSquare samples)) samples).
    { unfold ApplyAGC.
      destruct (Nat.eqb_spec (length samples) 0) as [Hzero|_];
        [apply length_zero_iff_nil in Hzero; congruence|].
      rewrite (Hrms Hne).
      replace (F64.eqb (rootMeanSquare samples) 0) with false
        by (symmetry; now apply eqb_false).
      replace (F64.ltb (Rabs (rootMeanSquare samples - targetRMS)) 1e-6) with false
        by (symmetry; now apply ltb_false).
      cbn [orb]. cbv zeta. apply map_ext_Forall.
      eapply Forall_impl; [exact Hquiet|]. intros s Hs. now apply softLimit_below. }
    split; [exact Hrun|]. rewrite Hrun, rootMeanSquare_scaled.
    + field. lra.
    + apply div_nonneg; lra.
Qed.

(** A clip at level 2 brought to the target level 1: the sample 4 is
    halved and limited; a silent clip is returned as it is. *)
Lemma ApplyAGC_levels_witness :
  rootMeanSquare [4; 0; 0; 0] = 2
  /\ ApplyAGC [4; 0; 0; 0] 1
     = map (fun s => softLimit (s * (1 / rootMeanSquare [4; 0; 0; 0]))) [4; 0; 0; 0]
  /\ Forall (fun y => Rabs y <= 0.95) (ApplyAGC [4; 0; 0; 0] 1)
  /\ ApplyAGC [0; 0; 0] 0.3 = [0; 0; 0].
Proof.
  assert (Hrms : rootMeanSquare [4; 0; 0; 0] = 2).
  { unfold rootMeanSquare, sumSquares. cbn [length Nat.eqb fold_left].
    replace ((0 + 4 * 4 + 0 * 0 + 0 * 0 + 0 * 0) / INR 4) with (2 * 2)
      by (simpl; field).
    apply sqrt_square. lra. }
  assert (Hsound : rootMeanSquare [4; 0; 0; 0] <> 0) by (rewrite Hrms; lra).
  assert (Hlevel : 1e-6 <= Rabs (rootMeanSquare [4; 0; 0; 0] - 1)).
  { rewrite Hrms. rewrite Rabs_pos_eq; lra. }
  split; [exact Hrms|].
  split; [apply (ApplyAGC_levels [4; 0; 0; 0] 1); assumption|].
  split; [apply (ApplyAGC_levels [4; 0; 0; 0] 1); assumption|].
  apply (ApplyAGC_levels [0; 0; 0] 0.3). left.
  unfold rootMeanSquare, sumSquares. cbn [length Nat.eqb fold_left].
  replace ((0 + 0 * 0 + 0 * 0 + 0 * 0) / INR 3) with 0 by (simpl; field).
  apply sqrt_0.
Defined.

(** ** Noise reduction and the pre-processing chain *)

Lemma estimateNoiseFloor_nonneg (samples : list R) (sampleRate : Z) :
  0 <= estimateNoiseFloor samples sampleRate.
Proof.
  unfold estimateNoiseFloor. destruct (_ =? _)%nat; [lra|apply sqrt_pos].
Qed.

Lemma SimpleNoiseReduction_length (samples : list R) (sampleRate : Z) (alpha : R) :
  length (SimpleNoiseReduction samples sampleRate alpha) = length samples.
Proof.
  unfold SimpleNoiseReduction. destruct (_ <? _)%nat; [reflexivity|].
  cbv zeta. apply length_map.
Qed.

Lemma noise_step_shrinks (noiseEstimate alpha s : R) :
  0 <= noiseEstimate -> 0 <= alpha <= 1 / 2 ->
  let y := if F64.ltb (noiseEstimate * (1.0 + alpha)) (Rabs s)
           then s - Copysign (noiseEstimate * alpha) s
           else s * (1.0 - alpha * 2.0) in
  Rabs y <= Rabs s /\ 0 <= s * y.
Proof.
  intros Hnoise Halpha. cbv zeta.
  assert (Hcut : 0 <= noiseEstimate * alpha) by (apply Rmult_le_pos; lra).
  destruct (F64.ltb _ (Rabs s)) eqn:Hloud.
  - apply ltb_true in Hloud. unfold Copysign.
    rewrite (Rabs_pos_eq (noiseEstimate * alpha)) by exact Hcut.
    replace 1.0 with 1 in Hloud by lra.
    replace (noiseEstimate * (1 + alpha))
      with (noiseEstimate + noiseEstimate * alpha) in Hloud by ring.
    destruct (F64.ltb s 0) eqn:Hneg.
    + apply ltb_true in Hneg. rewrite (Rabs_left s) in * by exact Hneg.
      assert (Hy : s - - (noiseEstimate * alpha) < 0) by lra.
      rewrite (Rabs_left _ Hy). split; [lra|].
      replace (s * (s - - (noiseEstimate * alpha)))
        with ((- s) * (- (s - - (noiseEstimate * alpha)))) by ring.
      apply Rmult_le_pos; lra.
    + apply ltb_false in Hneg. rewrite (Rabs_pos_eq s) in * by exact Hneg.
      assert (Hy : 0 <= s - noiseEstimate * alpha) by lra.
      rewrite (Rabs_pos_eq _ Hy). split; [lra|]. apply Rmult_le_pos; lra.
  - assert (Hfactor : 0 <= 1.0 - alpha * 2.0 <= 1) by lra.
    rewrite Rabs_mult, (Rabs_pos_eq (1.0 - alpha * 2.0)) by lra.
    pose proof (Rabs_pos s). split.
    + assert (Rabs s * (1.0 - alpha * 2.0) <= Rabs s * 1)
        by (apply Rmult_le_compat_l; lra).
      lra.
    + replace (s * (s * (1.0 - alpha * 2.0))) with (s * s * (1.0 - alpha * 2.0))
        by ring.
      apply Rmult_le_pos; [apply Rle_0_sqr|lra].
Qed.

(** X27.  [PreprocessAudio] keeps the number of samples whatever the
    configuration, returns the samples unchanged when every step is
    switched off, and with the default configuration is the high-pass
    filter at 50 Hz, the band-pass filter from 100 Hz to 5000 Hz and the
    gain control to level 0.3, in that order.  [SimpleNoiseReduction] leaves
    clips of fewer than 1024 samples alone; with a factor between 0 and 1/2
    it changes neither the sign of a sample nor increases its magnitude. *)
Theorem PreprocessAudio_chain (samples : list R) (sampleRate : Z)
    (config : PreprocessingConfig) (alpha : R) :
  0 <= alpha <= 1 / 2 ->
  length (PreprocessAudio samples sampleRate config) = length samples
  /\ (EnableHighPass config = false -> EnableBandPass config = false ->
      EnableAGC config = false -> EnableNoiseReduction config = false ->
      PreprocessAudio samples sampleRate config = samples)
  /\ PreprocessAudio samples sampleRate DefaultPreprocessingConfig
     = ApplyAGC
         (BandPassFilter (HighPassFilter samples sampleRate 50) sampleRate 100 5000)
         0.3
  /\ length (SimpleNoiseReduction samples sampleRate alpha) = length samples
  /\ ((length samples < 1024)%nat ->
      SimpleNoiseReduction samples sampleRate alpha = samples)
  /\ Forall2 (fun s y => Rabs y <= Rabs s /\ 0 <= s * y)
       samples (SimpleNoiseReduction samples sampleRate alpha).
Proof.
  intros Halpha. split; [|split; [|split; [|split; [|split]]]].
  - unfold PreprocessAudio. destruct (_ =? _)%nat; [reflexivity|]. cbv zeta.
    destruct (EnableNoiseReduction config), (EnableAGC config),
      (EnableBandPass config), (EnableHighPass config);
      rewrite ?SimpleNoiseReduction_length,
        ?ApplyAGC_length, ?BandPassFilter_length,
        ?HighPassFilter_length; reflexivity.
  - intros Hhp Hbp Hagc Hnr. unfold PreprocessAudio.
    rewrite Hhp, Hbp, Hagc, Hnr. now destruct (_ =? _)%nat.
  - unfold PreprocessAudio, DefaultPreprocessingConfig.
    cbn [EnableHighPass EnableBandPass EnableAGC EnableNoiseReduction
         HighPassCutoff BandPassLow BandPassHigh AGCTargetLevel].
    destruct (Nat.eqb_spec (length samples) 0) as [Hzero|_].
    + apply length_zero_iff_nil in Hzero. subst samples.
      unfold BandPassFilter, HighPassFilter, LowPassFilter.
      repeat destruct (_ || _); reflexivity.
    + cbv zeta. replace 50.0 with 50 by lra. replace 100.0 with 100 by lra.
      replace 5000.0 with 5000 by lra. reflexivity.
  - apply SimpleNoiseReduction_length.
  - intros Hshort. unfold SimpleNoiseReduction.
    now replace (length samples <? 1024)%nat with true
      by (symmetry; now apply Nat.ltb_lt).
  - unfold SimpleNoiseReduction. destruct (_ <? _)%nat.
    + apply Forall2_same_length_lookup. split; [reflexivity|].
      intros i s y Hs Hy. rewrite Hs in Hy. injection Hy as <-.
      split; [lra|apply Rle_0_sqr].
    + cbv zeta. apply Forall2_fmap_r, Forall_Forall2_diag, Forall_forall.
      intros s _. apply noise_step_shrinks; [apply estimateNoiseFloor_nonneg|exact Halpha].
Qed.

Lemma PreprocessAudio_chain_witness :
  length (PreprocessAudio [0.5; -0.5; 0.25] 8000 DefaultPreprocessingConfig) = 3%nat.
Proof.
  apply (PreprocessAudio_chain [0.5; -0.5; 0.25] 8000 DefaultPreprocessingConfig 0.1).
  lra.
Defined.

(** ** Signal-to-noise ratio *)

Lemma squaredNorm_take (count : nat) (samples : list R) :
  squaredNorm (take count samples) <= squaredNorm samples.
Proof.
  revert count. induction samples as [|s samples IH]; intros [|count];
    cbn [take]; rewrite ?squaredNorm_cons, ?squaredNorm_nil; try lra.
  - pose proof (squaredNorm_nonneg samples).
    pose proof (Rle_0_sqr s) as Hs. unfold Rsqr in Hs. lra.
  - specialize (IH count). lra.
Qed.

Lemma ln_10_pos : 0 < ln 10.
Proof. rewrite <- ln_1. apply ln_increasing; lra. Qed.

Lemma log10_le (x y : R) : 0 < x -> x <= y -> log10 x <= log10 y.
Proof.
  intros Hx Hle. unfold log10. pose proof ln_10_pos.
  apply Rmult_le_compat_r; [left; now apply Rinv_0_lt_compat|].
  destruct (Req_dec x y) as [->|Hne]; [lra|]. left. apply ln_increasing; lra.
Qed.

Lemma EstimateSNR_unfold (samples : list R) :
  samples <> [] ->
  let n := length samples in
  let m := noiseLength n in
  (1 <= m <= n)%nat
  /\ EstimateSNR samples
     = if F64.eqb (squaredNorm (take m samples) / INR m) 0 then 100.0
       else
         let snr := squaredNorm samples / INR n
                    / (squaredNorm (take m samples) / INR m) in
         if F64.leb snr 0 then -100.0 else 10.0 * log10 snr.
Proof.
  intros Hne n m.
  assert (Hn : (1 <= n)%nat) by (unfold n; destruct samples; [congruence|simpl; lia]).
  assert (Hm : (1 <= m <= n)%nat) by (unfold m, noiseLength; lia).
  split; [exact Hm|]. unfold EstimateSNR. fold n.
  destruct (Nat.eqb_spec n 0) as [|_]; [lia|]. cbv zeta.
  replace (if (n <? (if (n / 10 <? 512)%nat then 512%nat else (n / 10)%nat))%nat
           then n
           else if (n / 10 <? 512)%nat then 512%nat else (n / 10)%nat)
    with m.
  2:{ unfold m, noiseLength.
      destruct (Nat.ltb_spec (n / 10) 512); [destruct (Nat.ltb_spec n 512)|
        destruct (Nat.ltb_spec n (n / 10))]; lia. }
  unfold estimateNoiseFloor.
  assert (Hlen : length (take m samples) = m) by (rewrite length_take; fold n; lia).
  rewrite Hlen. destruct (Nat.eqb_spec m 0) as [|_]; [lia|].
  rewrite !sumSquares_squaredNorm.
  assert (Hpos : 0 < INR m) by (apply lt_0_INR; lia).
  rewrite sqrt_sqrt
    by (apply div_nonneg; [apply squaredNorm_nonneg|exact Hpos]).
  reflexivity.
Qed.

(** X28.  [EstimateSNR] is 0 for an empty clip and 100 when the leading
    noise window is silent.  Otherwise it is ten times the decimal logarithm
    of a power ratio that is at least the share of the clip taken by the
    noise window; the estimate is therefore never below -20, and the
    branch that returns -100 is never taken.  When the noise window is the
    whole clip (at most 512 samples) the ratio is 1 and the estimate is
    0 dB. *)
Theorem EstimateSNR_cases (samples : list R) :
  samples <> [] ->
  let n := length samples in
  let m := noiseLength n in
  let noisePower := squaredNorm (take m samples) / INR m in
  let signalPower := squaredNorm samples / INR n in
  EstimateSNR [] = 0
  /\ (noisePower = 0 -> EstimateSNR samples = 100)
  /\ (noisePower <> 0 ->
      EstimateSNR samples = 10 * log10 (signalPower / noisePower)
      /\ 0 < INR m / INR n <= signalPower / noisePower
      /\ 10 * log10 (INR m / INR n) <= EstimateSNR samples)
  /\ -20 <= EstimateSNR samples
  /\ ((n <= 512)%nat -> EstimateSNR samples = 0 \/ EstimateSNR samples = 100).
Proof.
  intros Hne n m noisePower signalPower.
  destruct (EstimateSNR_unfold samples Hne) as [Hm Hrun].
  fold n m in Hm, Hrun. cbv zeta in Hrun. fold noisePower signalPower in Hrun.
  assert (Hmpos : 0 < INR m) by (apply lt_0_INR; lia).
  assert (Hnpos : 0 < INR n) by (apply lt_0_INR; lia).
  pose proof (squaredNorm_nonneg (take m samples)) as Hnoise.
  pose proof (squaredNorm_take m samples) as Hprefix.
  assert (Hsilent : noisePower = 0 -> EstimateSNR samples = 100).
  { intros Hzero. rewrite Hrun.
    replace (F64.eqb noisePower 0) with true by (symmetry; now apply eqb_true).
    lra. }
  assert (Hloud : noisePower <> 0 ->
            EstimateSNR samples = 10 * log10 (signalPower / noisePower)
            /\ 0 < INR m / INR n <= signalPower / noisePower).
  { intros Hnz.
    assert (Hnp : 0 < noisePower).
    { assert (0 <= noisePower) by (apply div_nonneg; assumption). lra. }
    assert (Hratio : 0 < INR m / INR n <= signalPower / noisePower).
    { split; [now apply Rdiv_lt_0_compat|].
      apply div_ge_bound; [exact Hnp|]. unfold noisePower, signalPower.
      replace (INR m / INR n * (squaredNorm (take m samples) / INR m))
        with (squaredNorm (take m samples) / INR n) by (field; lra).
      unfold Rdiv. apply Rmult_le_compat_r;
        [left; now apply Rinv_0_lt_compat|exact Hprefix]. }
    split; [|exact Hratio]. rewrite Hrun.
    replace (F64.eqb noisePower 0) with false by (symmetry; now apply eqb_false).
    replace (F64.leb (signalPower / noisePower) 0) with false
      by (symmetry; apply leb_false; lra).
    lra. }
  split; [unfold EstimateSNR; simpl; lra|]. split; [exact Hsilent|].
  split; [|split].
  - intros Hnz. destruct (Hloud Hnz) as [Heq Hratio].
    split; [exact Heq|]. split; [exact Hratio|]. rewrite Heq.
    apply Rmult_le_compat_l; [lra|]. apply log10_le; lra.
  - destruct (Req_dec noisePower 0) as [Hzero|Hnz]; [rewrite (Hsilent Hzero); lra|].
    destruct (Hloud Hnz) as [Heq Hratio]. rewrite Heq.
    assert (Hshare : 1 / 100 <= INR m / INR n).
    { apply div_ge_bound; [exact Hnpos|].
      assert (Hnat : (n <= 100 * m)%nat).
      { unfold m, noiseLength. pose proof (Nat.div_mod_eq n 10) as Hdiv.
        pose proof (Nat.mod_upper_bound n 10 ltac:(lia)). lia. }
      apply le_INR in Hnat. rewrite mult_INR in Hnat.
      replace (INR 100) with 100 in Hnat by (simpl; lra). lra. }
    assert (Hfloor : log10 (1 / 100) <= log10 (signalPower / noisePower))
      by (apply log10_le; lra).
    assert (Hhundredth : log10 (1 / 100) = -2).
    { unfold log10, Rdiv. rewrite Rmult_1_l, ln_Rinv by lra.
      replace 100 with (10 * 10) by lra. rewrite ln_mult by lra.
      pose proof ln_10_pos. field. lra. }
    lra.
  - intros Hshort.
    assert (Hall : m = n) by (unfold m, noiseLength; lia).
    destruct (Req_dec noisePower 0) as [Hzero|Hnz]; [right; now apply Hsilent|left].
    destruct (Hloud Hnz) as [Heq _]. rewrite Heq.
    assert (Hsame : signalPower = noisePower).
    { unfold signalPower, noisePower. rewrite Hall.
      now rewrite take_ge by (fold n; lia). }
    rewrite Hsame, Rdiv_diag by exact Hnz.
    unfold log10. rewrite ln_1. lra.
Qed.

Lemma EstimateSNR_cases_witness : EstimateSNR [0; 0; 0] = 100.
Proof.
  apply (EstimateSNR_cases [0; 0; 0]); [discriminate|].
  unfold noiseLength. cbn [length Nat.min Nat.max Nat.div take].
  unfold squaredNorm, sumList. simpl. field.
Defined.

(** ** The fast Fourier transform and the spectrum *)

Lemma complex_eq (a b : Cmplx.complex128) :
  Cmplx.re a = Cmplx.re b -> Cmplx.im a = Cmplx.im b -> a = b.
Proof. destruct a, b. simpl. now intros -> ->. Qed.

Ltac complex_ring :=
  apply complex_eq;
  unfold Cmplx.add, Cmplx.sub, Cmplx.mul, Cmplx.zero;
  cbn [Cmplx.re Cmplx.im]; ring.

Lemma complexSum_nil : complexSum [] = Cmplx.zero.
Proof. reflexivity. Qed.

Lemma complexSum_cons (x : Cmplx.complex128) (l : list Cmplx.complex128) :
  complexSum (x :: l) = Cmplx.add x (complexSum l).
Proof.
  unfold complexSum. cbn [map]. rewrite !sumList_cons. reflexivity.
Qed.

Lemma complexSum_app (l1 l2 : list Cmplx.complex128) :
  complexSum (l1 ++ l2) = Cmplx.add (complexSum l1) (complexSum l2).
Proof.
  unfold complexSum. rewrite !map_app, !sumList_app. reflexivity.
Qed.

Lemma complexSum_add (F G : nat -> Cmplx.complex128) (indices : list nat) :
  complexSum (map (fun i => Cmplx.add (F i) (G i)) indices)
  = Cmplx.add (complexSum (map F indices)) (complexSum (map G indices)).
Proof.
  induction indices as [|i indices IH]; cbn [map].
  - rewrite complexSum_nil. complex_ring.
  - rewrite !complexSum_cons, IH. complex_ring.
Qed.

Lemma complexSum_mul (c : Cmplx.complex128) (F : nat -> Cmplx.complex128)
    (indices : list nat) :
  complexSum (map (fun i => Cmplx.mul c (F i)) indices)
  = Cmplx.mul c (complexSum (map F indices)).
Proof.
  induction indices as [|i indices IH]; cbn [map].
  - rewrite complexSum_nil. complex_ring.
  - rewrite !complexSum_cons, IH. complex_ring.
Qed.

Lemma complexSum_neg (F : nat -> Cmplx.complex128) (indices : list nat) :
  complexSum (map (fun i => Cmplx.sub Cmplx.zero (F i)) indices)
  = Cmplx.sub Cmplx.zero (complexSum (map F indices)).
Proof.
  induction indices as [|i indices IH]; cbn [map].
  - rewrite complexSum_nil. complex_ring.
  - rewrite !complexSum_cons, IH. complex_ring.
Qed.

Lemma complexSum_split (F : nat -> Cmplx.complex128) (h : nat) :
  complexSum (map F (seq 0 (2 * h)))
  = Cmplx.add (complexSum (map (fun i => F (2 * i)%nat) (seq 0 h)))
              (complexSum (map (fun i => F (2 * i + 1)%nat) (seq 0 h))).
Proof.
  induction h as [|h IH].
  - simpl. rewrite complexSum_nil. complex_ring.
  - replace (2 * S h)%nat with (2 * h + 2)%nat by lia.
    rewrite seq_app, map_app, complexSum_app, IH.
    rewrite (seq_S h), !map_app, !complexSum_app. cbn [seq map Nat.add].
    rewrite !complexSum_cons, complexSum_nil.
    replace (S (2 * h))%nat with (2 * h + 1)%nat by lia.
    replace (0 + 2 * h)%nat with (2 * h)%nat by lia.
    complex_ring.
Qed.

Lemma complexSum_ext (F G : nat -> Cmplx.complex128) (n : nat) :
  (forall i, (i < n)%nat -> F i = G i) ->
  complexSum (map F (seq 0 n)) = complexSum (map G (seq 0 n)).
Proof.
  intros Heq. f_equal. apply map_ext_in. intros i Hin.
  apply in_seq in Hin. apply Heq. lia.
Qed.

Lemma root_angle (N m t : nat) (theta : R) :
  -2 * PI * INR m / INR N = theta - 2 * INR t * PI ->
  unitRoot N m = Cmplx.mkComplex (cos theta) (sin theta).
Proof.
  intros Hangle. unfold unitRoot. rewrite Hangle.
  rewrite <- (cos_period (theta - 2 * INR t * PI) t).
  rewrite <- (sin_period (theta - 2 * INR t * PI) t).
  now replace (theta - 2 * INR t * PI + 2 * INR t * PI) with theta by ring.
Qed.

Lemma root_angle_half (N m t : nat) (theta : R) :
  -2 * PI * INR m / INR N = theta - PI - 2 * INR t * PI ->
  unitRoot N m = Cmplx.mkComplex (- cos theta) (- sin theta).
Proof.
  intros Hangle.
  rewrite (root_angle N m (S t) (theta + PI)).
  - now rewrite neg_cos, neg_sin.
  - rewrite Hangle, S_INR. ring.
Qed.

Lemma root_even (h i k : nat) :
  (0 < h)%nat -> unitRoot (2 * h) (2 * i * k) = unitRoot h (i * k).
Proof.
  intros Hh. unfold unitRoot. assert (0 < INR h) by now apply lt_0_INR.
  replace (-2 * PI * INR (2 * i * k) / INR (2 * h))
    with (-2 * PI * INR (i * k) / INR h); [reflexivity|].
  rewrite !mult_INR. simpl. field. lra.
Qed.

Lemma root_odd (h i k : nat) :
  (0 < h)%nat ->
  unitRoot (2 * h) ((2 * i + 1) * k)
  = Cmplx.mul (unitRoot (2 * h) k) (unitRoot h (i * k)).
Proof.
  intros Hh. unfold unitRoot, Cmplx.mul. cbn [Cmplx.re Cmplx.im].
  assert (0 < INR h) by now apply lt_0_INR.
  replace (-2 * PI * INR ((2 * i + 1) * k) / INR (2 * h))
    with (-2 * PI * INR k / INR (2 * h) + -2 * PI * INR (i * k) / INR h).
  - rewrite cos_plus, sin_plus. f_equal; ring.
  - rewrite !mult_INR, plus_INR, mult_INR. simpl. field. lra.
Qed.

Lemma root_even_shift (h i k : nat) :
  (0 < h)%nat -> unitRoot (2 * h) (2 * i * (h + k)) = unitRoot h (i * k).
Proof.
  intros Hh. assert (0 < INR h) by now apply lt_0_INR.
  unfold unitRoot at 2. apply (root_angle _ _ i).
  rewrite !mult_INR, plus_INR. simpl. field. lra.
Qed.

Lemma root_odd_shift (h i k : nat) :
  (0 < h)%nat ->
  unitRoot (2 * h) ((2 * i + 1) * (h + k))
  = Cmplx.sub Cmplx.zero (Cmplx.mul (unitRoot (2 * h) k) (unitRoot h (i * k))).
Proof.
  intros Hh. assert (0 < INR h) by now apply lt_0_INR.
  rewrite <- root_odd by exact Hh.
  rewrite (root_angle_half _ _ i (-2 * PI * INR ((2 * i + 1) * k) / INR (2 * h))).
  - unfold unitRoot, Cmplx.sub, Cmplx.zero. cbn [Cmplx.re Cmplx.im]. f_equal; ring.
  - rewrite !mult_INR, !plus_INR, !mult_INR. simpl. field. lra.
Qed.

Lemma DFT_unfold (xs : list Cmplx.complex128) (k : nat) :
  DFT xs k
  = complexSum (map (fun n => Cmplx.mul (unitRoot (length xs) (n * k)) (xs !!! n))
                    (seq 0 (length xs))).
Proof. reflexivity. Qed.

Lemma lookup_total_map_seq {A : Type} `{Inhabited A} (f : nat -> A) (n i : nat) :
  (i < n)%nat -> map f (seq 0 n) !!! i = f i.
Proof.
  intros Hi. apply list_lookup_total_correct.
  change (map f (seq 0 n)) with (f <$> seq 0 n).
  rewrite list_lookup_fmap, lookup_seq_lt by exact Hi. reflexivity.
Qed.

(** One butterfly of [recursiveFFT]: the two halves of the transform of
    [xs] from the transforms of its even and odd samples. *)
Lemma DFT_butterfly (xs : list Cmplx.complex128) (h k : nat) :
  (0 < h)%nat -> length xs = (2 * h)%nat ->
  let even := map (fun i => xs !!! (2 * i)%nat) (seq 0 h) in
  let odd := map (fun i => xs !!! (2 * i + 1)%nat) (seq 0 h) in
  DFT xs k = Cmplx.add (DFT even k) (Cmplx.mul (unitRoot (2 * h) k) (DFT odd k))
  /\ DFT xs (h + k)
     = Cmplx.sub (DFT even k) (Cmplx.mul (unitRoot (2 * h) k) (DFT odd k)).
Proof.
  intros Hh Hlen even odd.
  assert (Heven : length even = h) by (unfold even; now rewrite length_map, length_seq).
  assert (Hodd : length odd = h) by (unfold odd; now rewrite length_map, length_seq).
  rewrite !DFT_unfold, Hlen, Heven, Hodd, !complexSum_split.
  rewrite <- !complexSum_mul.
  split.
  - f_equal.
    + apply complexSum_ext. intros i Hi.
      rewrite root_even by exact Hh. unfold even.
      now rewrite lookup_total_map_seq by exact Hi.
    + apply complexSum_ext. intros i Hi.
      rewrite root_odd by exact Hh. unfold odd.
      rewrite lookup_total_map_seq by exact Hi. complex_ring.
  - transitivity
      (Cmplx.add
         (complexSum (map (fun n => Cmplx.mul (unitRoot h (n * k)) (even !!! n)) (seq 0 h)))
         (complexSum
            (map (fun i => Cmplx.sub Cmplx.zero
                    (Cmplx.mul (unitRoot (2 * h) k)
                       (Cmplx.mul (unitRoot h (i * k)) (odd !!! i))))
                 (seq 0 h)))).
    + f_equal.
      * apply complexSum_ext. intros i Hi.
        rewrite root_even_shift by exact Hh. unfold even.
        now rewrite lookup_total_map_seq by exact Hi.
      * apply complexSum_ext. intros i Hi.
        rewrite root_odd_shift by exact Hh. unfold odd.
        rewrite lookup_total_map_seq by exact Hi. complex_ring.
    + rewrite complexSum_neg. complex_ring.
Qed.

Lemma unitRoot_zero (N : nat) : unitRoot N 0 = Cmplx.mkComplex 1 0.
Proof.
  unfold unitRoot. simpl INR.
  replace (-2 * PI * 0 / INR N) with 0 by (unfold Rdiv; ring).
  now rewrite cos_0, sin_0.
Qed.

Lemma map_lookup_total_seq {A : Type} `{Inhabited A} (l : list A) :
  map (fun n => l !!! n) (seq 0 (length l)) = l.
Proof.
  apply list_eq. intros i.
  change (map (fun n => l !!! n) (seq 0 (length l)))
    with ((fun n => l !!! n) <$> seq 0 (length l)).
  rewrite list_lookup_fmap.
  destruct (Nat.lt_ge_cases i (length l)) as [Hlt|Hge].
  - rewrite lookup_seq_lt by exact Hlt. simpl.
    symmetry. now apply list_lookup_lookup_total_lt.
  - rewrite lookup_seq_ge by exact Hge. simpl.
    symmetry. now apply lookup_ge_None_2.
Qed.

(** Bin 0 is the plain sum of the samples. *)
Lemma DFT_zero_bin (xs : list Cmplx.complex128) : DFT xs 0 = complexSum xs.
Proof.
  rewrite DFT_unfold.
  transitivity (complexSum (map (fun n => xs !!! n) (seq 0 (length xs)))).
  - f_equal. apply map_ext. intros n.
    rewrite Nat.mul_0_r, unitRoot_zero. complex_ring.
  - now rewrite map_lookup_total_seq.
Qed.

Lemma complexSum_real (input : list R) :
  complexSum (map (fun v => Cmplx.mkComplex v 0) input)
  = Cmplx.mkComplex (sumList input) 0.
Proof.
  induction input as [|v input IH]; [reflexivity|].
  cbn [map]. rewrite complexSum_cons, IH, sumList_cons. complex_ring.
Qed.

(** [recursiveFFT] on a power-of-two length returns the discrete Fourier
    transform, whatever fuel beyond the length it is given. *)
Lemma recursiveFFT_fuel_DFT (j : nat) :
  forall fuel (xs : list Cmplx.complex128),
    length xs = (2 ^ j)%nat -> (2 ^ j <= fuel)%nat ->
    recursiveFFT_fuel fuel xs = map (DFT xs) (seq 0 (2 ^ j)).
Proof.
  induction j as [|j IH]; intros fuel xs Hlen Hfuel.
  - destruct xs as [|x [|? ?]]; try discriminate Hlen.
    destruct fuel as [|fuel]; [simpl in Hfuel; lia|].
    cbn [recursiveFFT_fuel length Nat.leb Nat.pow seq map].
    f_equal. rewrite DFT_zero_bin, complexSum_cons, complexSum_nil. complex_ring.
  - assert (Hh : (0 < 2 ^ j)%nat) by (apply Nat.neq_0_lt_0, Nat.pow_nonzero; lia).
    rewrite Nat.pow_succ_r' in *. set (h := (2 ^ j)%nat) in *.
    destruct fuel as [|fuel]; [lia|].
    cbn [recursiveFFT_fuel]. rewrite Hlen.
    destruct (Nat.leb_spec (2 * h) 1) as [|_]; [lia|].
    replace (2 * h / 2)%nat with h by (rewrite Nat.mul_comm, Nat.div_mul; lia).
    rewrite Nat.sub_diag. cbn [replicate]. rewrite app_nil_r.
    rewrite !(IH fuel) by (rewrite ?length_map, ?length_seq; fold h; lia).
    fold h.
    replace (seq 0 (2 * h)) with (seq 0 h ++ map (Nat.add h) (seq 0 h)).
    2:{ replace (2 * h)%nat with (h + h)%nat by lia. rewrite seq_app. f_equal.
        change (map (Nat.add h) (seq 0 h)) with (Nat.add h <$> seq 0 h).
        rewrite fmap_add_seq. now rewrite Nat.add_0_r. }
    rewrite map_app, map_map. f_equal.
    + apply map_ext_in. intros k Hk. apply in_seq in Hk.
      rewrite !lookup_total_map_seq by lia.
      symmetry. apply (DFT_butterfly xs h k Hh Hlen).
    + apply map_ext_in. intros k Hk. apply in_seq in Hk.
      rewrite !lookup_total_map_seq by lia.
      symmetry. apply (DFT_butterfly xs h k Hh Hlen).
Qed.

Lemma FFT_DFT (input : list R) (j : nat) :
  length input = (2 ^ j)%nat ->
  FFT input
  = map (DFT (map (fun v => Cmplx.mkComplex v 0) input)) (seq 0 (length input)).
Proof.
  intros Hlen. unfold FFT, recursiveFFT. rewrite length_map, Hlen.
  apply recursiveFFT_fuel_DFT; [now rewrite length_map|lia].
Qed.

(** X29. On an input whose length is a power of two, [FFT] returns exactly
    the discrete Fourier transform: bin [k] is the sum over [n] of
    [exp(-2 pi i n k / N) * input[n]].  The output therefore has the
    length of the input and bin 0 is the plain sum of the samples. *)
Theorem FFT_computes_DFT (input : list R) (j : nat) :
  length input = (2 ^ j)%nat ->
  FFT input
  = map (DFT (map (fun v => Cmplx.mkComplex v 0) input)) (seq 0 (length input))
  /\ length (FFT input) = length input
  /\ FFT input !!! 0%nat = Cmplx.mkComplex (sumList input) 0.
Proof.
  intros Hlen. pose proof (FFT_DFT input j Hlen) as Hfft.
  split; [exact Hfft|]. split.
  - now rewrite Hfft, length_map, length_seq.
  - assert (Hpos : (0 < length input)%nat).
    { rewrite Hlen. apply Nat.neq_0_lt_0, Nat.pow_nonzero. lia. }
    rewrite Hfft, lookup_total_map_seq by exact Hpos.
    now rewrite DFT_zero_bin, complexSum_real.
Qed.

Lemma FFT_computes_DFT_witness :
  length [1; 2; 3; 4] = (2 ^ 2)%nat
  /\ FFT [1; 2; 3; 4] !!! 0%nat = Cmplx.mkComplex (sumList [1; 2; 3; 4]) 0.
Proof.
  split; [reflexivity|]. apply (FFT_computes_DFT [1; 2; 3; 4] 2). reflexivity.
Defined.

Lemma hannWeight_range (len i : nat) : 0 <= hannWeight len i <= 1.
Proof.
  unfold hannWeight.
  pose proof (COS_bound ((2 * PI * INR i) / INR (len - 1))) as [Hlo Hhi].
  lra.
Qed.

Lemma hannWeight_first (len : nat) : hannWeight len 0 = 0.
Proof.
  unfold hannWeight. simpl INR.
  replace (2 * PI * 0 / INR (len - 1)) with 0 by (unfold Rdiv; ring).
  rewrite cos_0. lra.
Qed.

Lemma hannWeight_mirror (len i : nat) :
  (2 <= len)%nat -> (i <= len - 1)%nat ->
  hannWeight len (len - 1 - i) = hannWeight len i.
Proof.
  intros Hlen Hi. unfold hannWeight. f_equal. f_equal.
  assert (Hpos : 0 < INR (len - 1)) by (apply lt_0_INR; lia).
  rewrite minus_INR by exact Hi.
  replace (2 * PI * (INR (len - 1) - INR i) / INR (len - 1))
    with (- (2 * PI * INR i / INR (len - 1)) + 2 * INR 1 * PI)
    by (simpl; field; lra).
  now rewrite cos_period, cos_neg.
Qed.

Lemma hannWeight_last (len : nat) : (2 <= len)%nat -> hannWeight len (len - 1) = 0.
Proof.
  intros Hlen.
  replace (len - 1)%nat with (len - 1 - 0)%nat at 1 by lia.
  rewrite hannWeight_mirror by lia. apply hannWeight_first.
Qed.

Lemma applyHannWindow_length (buffer : list R) :
  length (applyHannWindow buffer) = length buffer.
Proof.
  unfold applyHannWindow. destruct (length buffer <=? 1)%nat; [reflexivity|].
  apply length_imap.
Qed.

Lemma applyHannWindow_short (buffer : list R) :
  (length buffer <= 1)%nat -> applyHannWindow buffer = buffer.
Proof.
  intros Hlen. unfold applyHannWindow.
  now destruct (Nat.leb_spec (length buffer) 1) as [_|?]; [|lia].
Qed.

Lemma applyHannWindow_lookup (buffer : list R) (i : nat) :
  (2 <= length buffer)%nat -> (i < length buffer)%nat ->
  applyHannWindow buffer !!! i = buffer !!! i * hannWeight (length buffer) i.
Proof.
  intros Hlen Hi. unfold applyHannWindow.
  destruct (Nat.leb_spec (length buffer) 1) as [?|_]; [lia|].
  apply list_lookup_total_correct. rewrite list_lookup_imap.
  rewrite (list_lookup_lookup_total_lt buffer i Hi). reflexivity.
Qed.

Lemma applyHannWindow_shrinks (buffer : list R) (i : nat) :
  (i < length buffer)%nat ->
  Rabs (applyHannWindow buffer !!! i) <= Rabs (buffer !!! i).
Proof.
  intros Hi. destruct (Nat.le_gt_cases (length buffer) 1) as [Hshort|Hlong].
  - rewrite applyHannWindow_short by exact Hshort. lra.
  - rewrite applyHannWindow_lookup by lia.
    pose proof (hannWeight_range (length buffer) i) as [Hlo Hhi].
    rewrite Rabs_mult, (Rabs_pos_eq (hannWeight _ _)) by exact Hlo.
    pose proof (Rabs_pos (buffer !!! i)). nra.
Qed.

(** X30. [computeSpectrum] pads the clip with zeros to the next power of
    two, windows the padded buffer and takes the moduli of the first half
    of its discrete Fourier transform.  The window never amplifies a
    sample, is symmetric about the middle of the padded buffer (not of
    the clip), and zeroes the first and the last padded sample. *)
Theorem computeSpectrum_windowed_DFT (samples : list R) (sampleRate : Z) :
  let n := nextPowerOfTwo (length samples) in
  let padded := samples ++ replicate (n - length samples) 0 in
  let buffer := applyHannWindow padded in
  length buffer = n
  /\ (forall i, (i < n)%nat ->
        Rabs (buffer !!! i) <= Rabs (padded !!! i)
        /\ ((2 <= n)%nat ->
            buffer !!! i = padded !!! i * hannWeight n i
            /\ hannWeight n (n - 1 - i) = hannWeight n i))
  /\ ((2 <= n)%nat -> buffer !!! 0%nat = 0 /\ buffer !!! (n - 1)%nat = 0)
  /\ (computeSpectrum samples sampleRate).1
     = map (fun k => Cmplx.Abs (DFT (map (fun v => Cmplx.mkComplex v 0) buffer) k))
           (seq 0 (n / 2)).
Proof.
  intros n padded buffer.
  assert (Hpadded : length padded = n).
  { unfold padded. rewrite length_app, length_replicate.
    pose proof (nextPowerOfTwo_covers (length samples)). fold n in H. lia. }
  assert (Hbuffer : length buffer = n).
  { unfold buffer. now rewrite applyHannWindow_length. }
  split; [exact Hbuffer|]. split; [|split].
  - intros i Hi. split.
    + apply applyHannWindow_shrinks. lia.
    + intros Hn. split.
      * unfold buffer. rewrite applyHannWindow_lookup by lia. now rewrite Hpadded.
      * apply hannWeight_mirror; lia.
  - intros Hn. unfold buffer. rewrite !applyHannWindow_lookup by lia.
    rewrite Hpadded, hannWeight_first, hannWeight_last by exact Hn. lra.
  - unfold computeSpectrum. cbn [fst]. fold n. fold padded. fold buffer.
    destruct (nextPowerOfTwo_power (length samples)) as (j & Hpow & _).
    fold n in Hpow.
    rewrite (FFT_DFT buffer j) by congruence.
    apply map_ext_in. intros k Hk. apply in_seq in Hk.
    assert (Hhalf : (2 * (n / 2) <= n)%nat) by apply Nat.Div0.mul_div_le.
    rewrite lookup_total_map_seq by lia. reflexivity.
Qed.

Lemma computeSpectrum_windowed_DFT_witness :
  (2 <= nextPowerOfTwo 3)%nat
  /\ applyHannWindow ([1; 2; 3] ++ replicate (nextPowerOfTwo 3 - 3) 0) !!! 0%nat = 0.
Proof.
  assert (Hn : (2 <= nextPowerOfTwo 3)%nat) by (vm_compute; lia).
  split; [exact Hn|].
  exact (proj1 (proj1 (proj2 (proj2 (computeSpectrum_windowed_DFT [1; 2; 3] 8000))) Hn)).
Defined.
